(** * A 2048-style sliding-tile game: the move-resolution engine, the
      animation player, the drawing of the tiles and the game loop of
      [game.js], embedded in Rocq.

    The JavaScript classes [Tile], [GameState], [GameAnimationController],
    [GameInputController] and [GameController] are translated method by
    method, and so are the methods of [GameGraphicsController] that decide
    which tiles are drawn, where, and with which colour and text.

    - A [Tile] and a [GameState] are records; a board owns its tiles, so the
      tile objects are values stored in the board's [tiles] list.
    - The history arrays [prevIndex] and [prevLevel] are JavaScript arrays
      that [moveTo] and [clone] pass around by reference and that [mergeWith]
      extends in place with [push].  They live in an explicit [heap]; a tile
      holds addresses.
    - [Math.random] is an oracle: a list of draws consumed from the head.
    - [new Date()] is a parameter: a time in milliseconds.
    - The canvas is not modelled: a frame is the list of the calls of
      [drawTile] it is made of.
    - Methods that can throw (a property read on [null] or [undefined]) or
      that can loop return [option]; [None] means no normal return within
      the fuel and the draws given.  That [gravitate], [move], [isGameOver],
      [updateStatus] and [tick] do return is proved below. *)

From stdpp Require Import base numbers list option relations strings pretty.
From Stdlib Require Import QArith Qminmax Lia Lqa.

#[local] Open Scope Z_scope.

(** ** Enumerations *)

Module Direction.
Inductive t := Right | Up | Left | Down.

#[global] Instance eq_dec : EqDecision t.
Proof. solve_decision. Defined.

(** [for (let dir in Direction)] visits the keys in insertion order. *)
Definition all : list t := [Right; Up; Left; Down].
End Direction.

Module GameStatus.
Inductive t := InProgress | Won | Continued | Lost.

#[global] Instance eq_dec : EqDecision t.
Proof. solve_decision. Defined.
End GameStatus.

Module TileStatus.
Inductive t := Empty | Spawned | Still | Moved | Merged.

#[global] Instance eq_dec : EqDecision t.
Proof. solve_decision. Defined.
End TileStatus.

(** ** The store of history arrays and the random oracle *)

(** An array element: a number, or [None] for [null] / [undefined]. *)
Abbreviation value := (option nat) (only parsing).

(** Address of an array. *)
Abbreviation loc := nat (only parsing).

(** The arrays allocated so far, by address. *)
Abbreviation heap := (list (list value)) (only parsing).

(** [[x]]: a fresh one-element array. *)
Definition alloc (a : list value) (h : heap) : loc * heap :=
  (length h, h ++ [a]).

(** [a.push(x)] on the array at address [p]. *)
Definition push (p : loc) (x : value) (h : heap) : option heap :=
  a ← h !! p; Some (<[p := a ++ [x]]> h).

(** [a[0]] on the array at address [p]; [undefined] when the array is empty. *)
Definition first (p : loc) (h : heap) : option value :=
  a ← h !! p; Some (default None (a !! 0%nat)).

(** Each element of the oracle stands for one value of
    [Math.floor(Math.random() * n)]. *)
Abbreviation rng := (list nat) (only parsing).

Module MathUtils.
(** [Math.min(n - 1, Math.floor(Math.random() * n))]; [None] when no draw is
    left. *)
Definition randomInRange (n : Z) (rs : rng) : option (Z * rng) :=
  match rs with
  | [] => None
  | d :: rs' => Some (Z.min (n - 1) (Z.of_nat d), rs')
  end.
End MathUtils.

(** ** class Tile *)

Module Tile.

Record t := mk {
  index : nat;
  level : option nat;
  prevIndex : option loc;
  prevLevel : option loc;
  status : TileStatus.t
}.

#[global] Instance eq_dec : EqDecision t.
Proof. solve_decision. Defined.

Definition new (index : nat) : t :=
  {| index := index; level := None; prevIndex := None; prevLevel := None;
     status := TileStatus.Empty |}.

Definition reset (self : t) : t :=
  {| index := index self; level := None; prevIndex := None; prevLevel := None;
     status := TileStatus.Empty |}.

Definition isEmpty (self : t) : bool :=
  bool_decide (status self = TileStatus.Empty).

Definition ableToMerge (self : t) : bool :=
  bool_decide (status self ≠ TileStatus.Merged)
  && bool_decide (status self ≠ TileStatus.Empty).

(** A level used as a number: [null] converts to 0. *)
Definition levelNumber (self : t) : nat := default 0%nat (level self).

(** [Math.pow(2, this.level)], or [null] for an empty tile. *)
Definition scoreValue (self : t) : option Z :=
  if isEmpty self then None else Some (2 ^ Z.of_nat (levelNumber self)).

Definition prepareForMove (self : t) (h : heap) : t * heap :=
  if negb (isEmpty self) then
    let '(p, h1) := alloc [Some (index self)] h in
    let '(q, h2) := alloc [level self] h1 in
    ({| index := index self; level := level self; prevIndex := Some p;
        prevLevel := Some q; status := TileStatus.Still |}, h2)
  else (self, h).

(** [1 + Math.floor(MathUtils.randomInRange(10) / 9)] *)
Definition spawn (self : t) (rs : rng) : option (t * rng) :=
  '(r, rs') ← MathUtils.randomInRange 10 rs;
  Some ({| index := index self; level := Some (Z.to_nat (1 + r / 9));
           prevIndex := prevIndex self; prevLevel := prevLevel self;
           status := TileStatus.Spawned |}, rs').

(** [this.mergeWith(tile)]: returns the new [this], the new [tile] and the
    new heap.  It throws when one of the four history fields is [null]. *)
Definition mergeWith (self tile : t) (h : heap) : option (t * t * heap) :=
  if negb (isEmpty self) then
    pi ← prevIndex tile;
    si ← prevIndex self;
    x ← first si h;
    h1 ← push pi x h;
    pl ← prevLevel tile;
    sl ← prevLevel self;
    y ← first sl h1;
    h2 ← push pl y h1;
    Some (reset self,
          {| index := index tile; level := Some (S (levelNumber tile));
             prevIndex := prevIndex tile; prevLevel := prevLevel tile;
             status := TileStatus.Merged |},
          h2)
  else Some (self, tile, h).

(** [this.moveTo(tile)]: returns the new [this] and the new [tile]; the
    arrays themselves are handed over, not copied. *)
Definition moveTo (self tile : t) : t * t :=
  if negb (isEmpty self) then
    (reset self,
     {| index := index tile; level := level self;
        prevIndex := prevIndex self; prevLevel := prevLevel self;
        status := TileStatus.Moved |})
  else (self, tile).

Definition equals (self tile : t) : bool :=
  bool_decide (index self = index tile) && bool_decide (level self = level tile).

(** The clone shares both history arrays with the original. *)
Definition clone (self : t) : t :=
  {| index := index self; level := level self; prevIndex := prevIndex self;
     prevLevel := prevLevel self; status := status self |}.

End Tile.

(** ** class GameState *)

Module GameState.

Record t := mk {
  rows : Z;
  columns : Z;
  targetTileLevel : Z;
  tiles : list Tile.t;
  score : Z;
  status : GameStatus.t
}.

Definition boardSize (self : t) : Z := rows self * columns self.

(** The indices visited by [for (let index = 0; index < this.boardSize; index++)]. *)
Definition indices (self : t) : list nat := seq 0 (Z.to_nat (boardSize self)).

(** [tiles[index]]; [None] is [undefined]. *)
Definition tileAt (ts : list Tile.t) (index : Z) : option Tile.t :=
  if 0 <=? index then ts !! Z.to_nat index else None.

Definition setTile (ts : list Tile.t) (index : Z) (x : Tile.t) : list Tile.t :=
  <[Z.to_nat index := x]> ts.

Definition withTiles (self : t) (ts : list Tile.t) : t :=
  {| rows := rows self; columns := columns self;
     targetTileLevel := targetTileLevel self; tiles := ts;
     score := score self; status := status self |}.

Definition withScore (self : t) (s : Z) : t :=
  {| rows := rows self; columns := columns self;
     targetTileLevel := targetTileLevel self; tiles := tiles self;
     score := s; status := status self |}.

Definition withStatus (self : t) (s : GameStatus.t) : t :=
  {| rows := rows self; columns := columns self;
     targetTileLevel := targetTileLevel self; tiles := tiles self;
     score := score self; status := s |}.

Definition isInsideBoard (self : t) (index : Z) : bool :=
  (0 <=? index) && (index <? boardSize self).

(** [Math.floor(a / b)] is [Z.div] and [%] is [Z.rem].  The method is only
    called on indices inside the board, where [columns] is not zero. *)
Definition areNeighboring (self : t) (index1 index2 : Z) : bool :=
  let dRow := index2 / columns self - index1 / columns self in
  let dCol := Z.rem index2 (columns self) - Z.rem index1 (columns self) in
  (Z.abs dRow =? 1) && (Z.abs dCol =? 0) || (Z.abs dRow =? 0) && (Z.abs dCol =? 1).

Fixpoint isFull_loop (ts : list Tile.t) (idxs : list nat) : option bool :=
  match idxs with
  | [] => Some true
  | index :: rest =>
      x ← ts !! index;
      if Tile.isEmpty x then Some false else isFull_loop ts rest
  end.

Definition isFull (self : t) : option bool :=
  isFull_loop (tiles self) (indices self).

(** The [do ... while] loop of [spawnTile]: one draw per iteration. *)
Fixpoint spawnTile_loop (ts : list Tile.t) (size : Z) (rs : rng) : option (Z * rng) :=
  match rs with
  | [] => None
  | d :: rs' =>
      '(index, _) ← MathUtils.randomInRange size [d];
      x ← tileAt ts index;
      if negb (Tile.isEmpty x) then spawnTile_loop ts size rs'
      else Some (index, rs')
  end.

Definition spawnTile (self : t) (rs : rng) : option (t * rng) :=
  full ← isFull self;
  if negb full then
    '(index, rs1) ← spawnTile_loop (tiles self) (boardSize self) rs;
    x ← tileAt (tiles self) index;
    '(x', rs2) ← Tile.spawn x rs1;
    Some (withTiles self (setTile (tiles self) index x'), rs2)
  else Some (self, rs).

(** The constructor. *)
Definition new (rows columns targetTileLevel : Z) (rs : rng) : option (t * rng) :=
  let self :=
    {| rows := rows; columns := columns; targetTileLevel := targetTileLevel;
       tiles := Tile.new <$> seq 0 (Z.to_nat (rows * columns));
       score := 0; status := GameStatus.InProgress |} in
  '(self1, rs1) ← spawnTile self rs;
  spawnTile self1 rs1.

(** [clone] runs the constructor (two spawns on a board that is thrown
    away), then copies the score and clones the tiles; the status is the
    constructor's. *)
Definition clone (self : t) (rs : rng) : option (t * rng) :=
  '(c, rs') ← new (rows self) (columns self) (targetTileLevel self) rs;
  ts ← mapM (λ index, Tile.clone <$> tiles self !! index) (indices self);
  Some (withTiles (withScore c (score self)) ts, rs').

Fixpoint equals_loop (ts1 ts2 : list Tile.t) (idxs : list nat) : option bool :=
  match idxs with
  | [] => Some true
  | index :: rest =>
      x ← ts1 !! index;
      y ← ts2 !! index;
      if negb (Tile.equals x y) then Some false else equals_loop ts1 ts2 rest
  end.

Definition equals (self state : t) : option bool :=
  if bool_decide (score self = score state)
     && bool_decide (rows self = rows state)
     && bool_decide (columns self = columns state)
  then equals_loop (tiles self) (tiles state) (indices self)
  else Some false.

Fixpoint hasAchievedGoal_loop (ts : list Tile.t) (target : Z) (idxs : list nat)
  : option bool :=
  match idxs with
  | [] => Some false
  | index :: rest =>
      x ← ts !! index;
      if target <=? Z.of_nat (Tile.levelNumber x) then Some true
      else hasAchievedGoal_loop ts target rest
  end.

Definition hasAchievedGoal (self : t) : option bool :=
  hasAchievedGoal_loop (tiles self) (targetTileLevel self) (indices self).

(** A board together with the heap its history arrays live in. *)
Definition state : Type := t * heap.

(** [gravitateTile(index, indexChange)].  [fuel] bounds the depth of the
    recursion; [None] also stands for a read of a missing tile. *)
Fixpoint gravitateTile (fuel : nat) (index indexChange : Z) (s : state)
  : option state :=
  match fuel with
  | O => None
  | S fuel' =>
      let nextIndex := index + indexChange in
      if isInsideBoard (fst s) nextIndex && areNeighboring (fst s) index nextIndex
      then
        nextTile0 ← tileAt (tiles (fst s)) nextIndex;
        s1 ← (if negb (Tile.isEmpty nextTile0)
              then gravitateTile fuel' nextIndex indexChange s
              else Some s);
        let '(b1, h1) := s1 in
        tile ← tileAt (tiles b1) index;
        nextTile ← tileAt (tiles b1) nextIndex;
        if Tile.isEmpty nextTile then
          let '(tile', nextTile') := Tile.moveTo tile nextTile in
          gravitateTile fuel' nextIndex indexChange
            (withTiles b1 (setTile (setTile (tiles b1) index tile') nextIndex nextTile'), h1)
        else if Tile.ableToMerge tile && Tile.ableToMerge nextTile
                && bool_decide (Tile.level tile = Tile.level nextTile) then
          '(tile', nextTile', h2) ← Tile.mergeWith tile nextTile h1;
          let b2 := withTiles b1 (setTile (setTile (tiles b1) index tile') nextIndex nextTile') in
          Some (withScore b2 (score b2 + default 0 (Tile.scoreValue nextTile')), h2)
        else Some s1
      else Some s
  end.

Definition indexChange (self : t) (direction : Direction.t) : Z :=
  match direction with
  | Direction.Right => 1
  | Direction.Up => - columns self
  | Direction.Left => -1
  | Direction.Down => columns self
  end.

(** First loop of [gravitate]. *)
Fixpoint prepare_loop (idxs : list nat) (s : state) : option state :=
  match idxs with
  | [] => Some s
  | index :: rest =>
      x ← tiles (fst s) !! index;
      let '(x', h') := Tile.prepareForMove x (snd s) in
      prepare_loop rest (withTiles (fst s) (<[index := x']> (tiles (fst s))), h')
  end.

(** Second loop of [gravitate]. *)
Fixpoint gravitate_loop (fuel : nat) (change : Z) (idxs : list nat) (s : state)
  : option state :=
  match idxs with
  | [] => Some s
  | index :: rest =>
      s' ← gravitateTile fuel (Z.of_nat index) change s;
      gravitate_loop fuel change rest s'
  end.

(** The recursion of [gravitateTile] walks towards an edge of the board, so
    its depth is at most the number of cells. *)
Definition gravitate (direction : Direction.t) (s : state) : option state :=
  let change := indexChange (fst s) direction in
  s1 ← prepare_loop (indices (fst s)) s;
  gravitate_loop (S (Z.to_nat (boardSize (fst s)))) change (indices (fst s)) s1.

(** The heap and the oracle, threaded through [move]. *)
Definition world : Type := heap * rng.

Section Status.
(** [isGameOver] and [updateStatus] call [move] on clones; [move] calls
    [updateStatus].  The knot is tied in [move] below. *)
Variable move : Direction.t → t → world → option (bool * t * world).

Fixpoint isGameOver_loop (self : t) (dirs : list Direction.t) (w : world)
  : option (bool * world) :=
  match dirs with
  | [] => Some (true, w)
  | dir :: rest =>
      '(c, rs1) ← clone self (snd w);
      '(changed, _, w1) ← move dir c (fst w, rs1);
      if (changed : bool) then Some (false, w1) else isGameOver_loop self rest w1
  end.

Definition isGameOver_with (self : t) (w : world) : option (bool * world) :=
  dead ← isFull self;
  if (dead : bool) then isGameOver_loop self Direction.all w
  else Some (false, w).

Definition updateStatus_with (self : t) (w : world) : option (t * world) :=
  '(over, w1) ← isGameOver_with self w;
  if (over : bool) then Some (withStatus self GameStatus.Lost, w1)
  else if bool_decide (status self = GameStatus.InProgress) then
    goal ← hasAchievedGoal self;
    if (goal : bool) then Some (withStatus self GameStatus.Won, w1)
    else Some (self, w1)
  else if bool_decide (status self = GameStatus.Won) then
    Some (withStatus self GameStatus.Continued, w1)
  else Some (self, w1).
End Status.

(** [move(direction)]: the flag, the board after the call and the new world.
    [fuel] bounds the nesting of [move] inside [isGameOver]. *)
Fixpoint move (fuel : nat) (direction : Direction.t) (self : t) (w : world)
  : option (bool * t * world) :=
  match fuel with
  | O => None
  | S fuel' =>
      '(oldState, rs1) ← clone self (snd w);
      '(b1, h1) ← gravitate direction (self, fst w);
      same ← equals b1 oldState;
      if negb same then
        '(b2, rs2) ← spawnTile b1 rs1;
        '(b3, w3) ← updateStatus_with (move fuel') b2 (h1, rs2);
        Some (true, b3, w3)
      else Some (false, b1, (h1, rs1))
  end.

Definition isGameOver (fuel : nat) : t → world → option (bool * world) :=
  isGameOver_with (move fuel).

Definition updateStatus (fuel : nat) : t → world → option (t * world) :=
  updateStatus_with (move fuel).

End GameState.

(** ** class GameAnimationController *)

Module GameAnimationController.

(** [graphics] only draws and is left out; [prevTime] is represented by the
    elapsed milliseconds handed to [animationStep] and [advance]. *)
Record t := mk {
  animationProgress : Q;
  stateHistory : list GameState.t
}.

Definition new : t := {| animationProgress := 0%Q; stateHistory := [] |}.

Definition addState (self : t) (state : GameState.t) (rs : rng) : option (t * rng) :=
  '(c, rs') ← GameState.clone state rs;
  Some ({| animationProgress := animationProgress self;
           stateHistory := stateHistory self ++ [c] |}, rs').

(** [elapsed] is [time - this.prevTime], a whole number of milliseconds. *)
Definition animationStep (elapsed : Z) (self : t) : Q :=
  let baseAnimationDuration := (2 # 10)%Q in
  let deltaSeconds := (inject_Z elapsed / 1000)%Q in
  let deltaPhase := (deltaSeconds / baseAnimationDuration)%Q in
  (inject_Z (Z.of_nat (length (stateHistory self))) * deltaPhase)%Q.

Definition advance (elapsed : Z) (self : t) : t :=
  if negb (length (stateHistory self) =? 1)%nat
     || negb (Qeq_bool (animationProgress self) 1)
  then
    let self1 :=
      if Qeq_bool (animationProgress self) 1
      then {| animationProgress := 0%Q; stateHistory := tail (stateHistory self) |}
      else self in
    let p := (animationProgress self1 + animationStep elapsed self1)%Q in
    {| animationProgress := if Qlt_le_dec 1 p then 1%Q else p;
       stateHistory := stateHistory self1 |}
  else self.

(** [advance] called once per tick, with the elapsed time of each tick. *)
Definition advances (ticks : list Z) (self : t) : t :=
  foldl (λ a e, advance e a) self ticks.

End GameAnimationController.

(** * Specification vocabulary *)

(** ** class GameGraphicsController: the drawing of the tiles *)

Module GameGraphicsController.

(** Of the fields, [rows] and [columns] decide which tiles are drawn and
    where; the canvas, [margin] and [tileSize] only turn a call of [drawTile]
    into pixels. *)
Record t := mk {
  rows : Z;
  columns : Z
}.

(** The picture is recorded as the calls [drawTile(row, col, tileLevel,
    scale)] in the order in which they are made: a later call paints over an
    earlier one.  Coordinates, scales and the animation progress are
    rational numbers. *)
Record call := Call {
  row : Q;
  col : Q;
  tileLevel : value;
  scale : Q
}.

Definition drawTile (row col : Q) (tileLevel : value) (scale : Q) : list call :=
  [Call row col tileLevel scale].

(** What [drawTile] paints for a level. *)

Definition tileColors : list string :=
  ["#EEE4DA"; "#EDE0C8"; "#F2B179"; "#F59563"; "#F67C5F"; "#F76E4F";
   "#EDCF72"; "#EDCC61"; "#EDC850"; "#EDC53F"; "#EDC22E"].

(** [getTileColor(tileLevel)]; [None] is [undefined], the value of
    [tileColors[-1]]. *)
Definition getTileColor (tileLevel : value) : option string :=
  match tileLevel with
  | Some l =>
      if bool_decide (11 < l)%nat then tileColors !! 10%nat
      else match l with
           | O => None
           | S l' => tileColors !! l'
           end
  | None => None
  end.

Definition multipliers : list string := [""; "K"; "M"].

(** [getTileText(tileLevel)]: a level [null] converts to 0, and a multiplier
    that is [undefined] is appended as the text "undefined". *)
Definition getTileText (tileLevel : value) : string :=
  let l := default 0%nat tileLevel in
  pretty (2 ^ (Z.of_nat l mod 10)) +:+ default "undefined" (multipliers !! (l / 10)%nat).

Definition movingPhaseEnd : Q := 1 # 2.

(** The loop over [tile.prevIndex] in [drawAnimatedTile]; [a] is the array
    [tile.prevIndex], [row] and [col] are the cell of the tile.  An entry of
    [a] that is not a number gives no coordinate: [None]. *)
Fixpoint drawAnimatedTile_loop (self : t) (tile : Tile.t) (h : heap)
    (animationProgress : Q) (row col : Z) (a : list value) (ids : list nat)
  : option (list call) :=
  match ids with
  | [] => Some []
  | id :: ids' =>
      prev ← default None (a !! id);
      let prevRow := Z.of_nat prev / columns self in
      let prevCol := Z.rem (Z.of_nat prev) (columns self) in
      let phaseProgress := Qmin (animationProgress / movingPhaseEnd) 1 in
      let movementProgress := (3 * phaseProgress ^ 2 - 2 * phaseProgress ^ 3)%Q in
      let tileRow :=
        (inject_Z prevRow + (inject_Z row - inject_Z prevRow) * movementProgress)%Q in
      let tileCol :=
        (inject_Z prevCol + (inject_Z col - inject_Z prevCol) * movementProgress)%Q in
      q ← Tile.prevLevel tile;
      l ← h !! q;
      rest ← drawAnimatedTile_loop self tile h animationProgress row col a ids';
      Some (drawTile tileRow tileCol (default None (l !! id)) 1 ++ rest)
  end.

(** [drawAnimatedTile(tile, animationProgress)].  It throws when a tile
    that is neither [Empty] nor [Spawned] has no history; with no columns
    the cell of the tile is not a number: [None] in both cases. *)
Definition drawAnimatedTile (self : t) (tile : Tile.t) (h : heap)
    (animationProgress : Q) : option (list call) :=
  if decide (columns self = 0) then None else
  let row := Z.of_nat (Tile.index tile) / columns self in
  let col := Z.rem (Z.of_nat (Tile.index tile)) (columns self) in
  moving ←
    (if bool_decide (Tile.status tile ≠ TileStatus.Empty)
        && bool_decide (Tile.status tile ≠ TileStatus.Spawned)
     then
       p ← Tile.prevIndex tile;
       a ← h !! p;
       drawAnimatedTile_loop self tile h animationProgress row col a (seq 0 (length a))
     else Some []);
  let appearingPhaseStart := movingPhaseEnd in
  let appearing :=
    if negb (Qle_bool animationProgress appearingPhaseStart) then
      let phaseProgress :=
        ((animationProgress - appearingPhaseStart) / (1 - appearingPhaseStart))%Q in
      (if bool_decide (Tile.status tile = TileStatus.Spawned)
       then drawTile (inject_Z row) (inject_Z col) (Tile.level tile) phaseProgress
       else [])
      ++
      (if bool_decide (Tile.status tile = TileStatus.Merged)
       then drawTile (inject_Z row) (inject_Z col) (Tile.level tile)
              (- phaseProgress ^ 2 + phaseProgress + 1)%Q
       else [])
    else [] in
  Some (moving ++ appearing).

(** The body of the two loops of [drawTiles] for the cell [index]. *)
Definition drawCell (self : t) (state : GameState.t) (h : heap)
    (animationProgress : Q) (index : Z) : option (list call) :=
  tile ← GameState.tileAt (GameState.tiles state) index;
  if negb (Tile.isEmpty tile) then drawAnimatedTile self tile h animationProgress
  else Some [].

Fixpoint drawTiles_cols (self : t) (state : GameState.t) (h : heap)
    (animationProgress : Q) (row : nat) (cols : list nat) : option (list call) :=
  match cols with
  | [] => Some []
  | col :: cols' =>
      cs ← drawCell self state h animationProgress
              (Z.of_nat row * columns self + Z.of_nat col);
      rest ← drawTiles_cols self state h animationProgress row cols';
      Some (cs ++ rest)
  end.

Fixpoint drawTiles_rows (self : t) (state : GameState.t) (h : heap)
    (animationProgress : Q) (rws : list nat) : option (list call) :=
  match rws with
  | [] => Some []
  | row :: rws' =>
      cs ← drawTiles_cols self state h animationProgress row
              (seq 0 (Z.to_nat (columns self)));
      rest ← drawTiles_rows self state h animationProgress rws';
      Some (cs ++ rest)
  end.

Definition drawTiles (self : t) (state : GameState.t) (h : heap)
    (animationProgress : Q) : option (list call) :=
  drawTiles_rows self state h animationProgress (seq 0 (Z.to_nat (rows self))).

(** [draw]: the background, which is no call of [drawTile], then the tiles. *)
Definition draw (self : t) (state : GameState.t) (h : heap)
    (animationProgress : Q) : option (list call) :=
  drawTiles self state h animationProgress.

End GameGraphicsController.

(** [GameAnimationController.draw] with the graphics controller [g]:
    [advance], then the first snapshot of the queue is drawn; it throws when
    the queue is empty. *)
Definition GameAnimationController_draw (g : GameGraphicsController.t)
    (elapsed : Z) (self : GameAnimationController.t) (h : heap)
  : option (GameAnimationController.t * list GameGraphicsController.call) :=
  let self' := GameAnimationController.advance elapsed self in
  state ← head (GameAnimationController.stateHistory self');
  calls ← GameGraphicsController.draw g state h
             (GameAnimationController.animationProgress self');
  Some (self', calls).

(** ** class GameInputController *)

Module GameInputController.

(** The queue of the moves asked for and the time, in milliseconds, until
    which key presses are ignored. *)
Record t := mk {
  moves : list Direction.t;
  blockedUntil : Z
}.

(** [now] is the value of [new Date()]. *)
Definition new (now : Z) : t := {| moves := []; blockedUntil := now |}.

(** The object literal [mapping] of [processKeyboard]. *)
Definition mapping (key : string) : option Direction.t :=
  if decide (key = "KeyW") then Some Direction.Up
  else if decide (key = "ArrowUp") then Some Direction.Up
  else if decide (key = "KeyA") then Some Direction.Left
  else if decide (key = "ArrowLeft") then Some Direction.Left
  else if decide (key = "KeyS") then Some Direction.Down
  else if decide (key = "ArrowDown") then Some Direction.Down
  else if decide (key = "KeyD") then Some Direction.Right
  else if decide (key = "ArrowRight") then Some Direction.Right
  else None.

(** The property names every object literal inherits: for these
    [mapping[key]] is not [undefined], and what is pushed is no direction. *)
Definition inherited : list string :=
  ["constructor"; "hasOwnProperty"; "isPrototypeOf"; "propertyIsEnumerable";
   "toLocaleString"; "toString"; "valueOf"; "__proto__"; "__defineGetter__";
   "__defineSetter__"; "__lookupGetter__"; "__lookupSetter__"].

(** [processKeyboard(event)] with [event.code = key] at time [now]: the new
    controller and whether [event.preventDefault()] was called; [None] when
    the value pushed on the queue is no direction. *)
Definition processKeyboard (key : string) (now : Z) (self : t) : option (t * bool) :=
  self' ←
    (if bool_decide (blockedUntil self <= now) then
       if bool_decide (key ∈ inherited) then None
       else match mapping key with
            | Some direction =>
                Some {| moves := moves self ++ [direction];
                        blockedUntil := blockedUntil self |}
            | None => Some self
            end
     else Some self);
  Some (self', bool_decide (key = "ArrowUp") || bool_decide (key = "ArrowDown")).

Definition reset (self : t) : t :=
  {| moves := []; blockedUntil := blockedUntil self |}.

Definition blockForMilliseconds (duration now : Z) (self : t) : t :=
  let self1 := reset self in
  {| moves := moves self1; blockedUntil := now + duration |}.

End GameInputController.

(** ** class GameController *)

Module GameController.

(** The overlay and the page are left out: [updateScore] also writes the
    two scores into the elements [gameScore] and [bestScore] of the page,
    which are taken to be there, and [tick] also draws the overlay. *)
Record t := mk {
  rows : Z;
  columns : Z;
  targetTileLevel : Z;
  graphics : GameGraphicsController.t;
  animation : GameAnimationController.t;
  input : GameInputController.t;
  score : Z;
  bestScore : Z;
  state : GameState.t
}.

Definition withInput (self : t) (i : GameInputController.t) : t :=
  {| rows := rows self; columns := columns self;
     targetTileLevel := targetTileLevel self; graphics := graphics self;
     animation := animation self; input := i; score := score self;
     bestScore := bestScore self; state := state self |}.

Definition withAnimation (self : t) (a : GameAnimationController.t) : t :=
  {| rows := rows self; columns := columns self;
     targetTileLevel := targetTileLevel self; graphics := graphics self;
     animation := a; input := input self; score := score self;
     bestScore := bestScore self; state := state self |}.

(** The constructor, at time [now]. *)
Definition new (rows columns targetTileLevel now : Z) (rs : rng) : option (t * rng) :=
  '(state, rs1) ← GameState.new rows columns targetTileLevel rs;
  '(animation, rs2) ← GameAnimationController.addState GameAnimationController.new state rs1;
  Some ({| rows := rows; columns := columns; targetTileLevel := targetTileLevel;
           graphics := GameGraphicsController.mk rows columns;
           animation := animation; input := GameInputController.new now;
           score := 0; bestScore := 0; state := state |}, rs2).

Definition updateScore (self : t) : t :=
  let score1 :=
    if bool_decide (score self ≠ GameState.score (state self))
    then GameState.score (state self) else score self in
  let bestScore1 :=
    if bool_decide (bestScore self < score1) then score1 else bestScore self in
  {| rows := rows self; columns := columns self;
     targetTileLevel := targetTileLevel self; graphics := graphics self;
     animation := animation self; input := input self; score := score1;
     bestScore := bestScore1; state := state self |}.

Definition restart (self : t) (rs : rng) : option (t * rng) :=
  '(state, rs1) ← GameState.new (rows self) (columns self) (targetTileLevel self) rs;
  let input := GameInputController.reset (input self) in
  '(animation, rs2) ← GameAnimationController.addState (animation self) state rs1;
  Some (updateScore
          {| rows := rows self; columns := columns self;
             targetTileLevel := targetTileLevel self; graphics := graphics self;
             animation := animation; input := input; score := score self;
             bestScore := bestScore self; state := state |}, rs2).

(** [doMoves()] at time [now].  [n] bounds the number of turns of the
    [while] loop, [fuel] the nesting of [move] inside [isGameOver]. *)
Fixpoint doMoves (n fuel : nat) (now : Z) (self : t) (w : GameState.world)
  : option (t * GameState.world) :=
  match GameInputController.moves (input self) with
  | [] => Some (self, w)
  | direction :: rest =>
      match n with
      | O => None
      | S n' =>
          let input1 := {| GameInputController.moves := rest;
                           GameInputController.blockedUntil :=
                             GameInputController.blockedUntil (input self) |} in
          '(changed, state1, (h1, rs1)) ← GameState.move fuel direction (state self) w;
          '(animation1, rs2) ←
            (if (changed : bool)
             then GameAnimationController.addState (animation self) state1 rs1
             else Some (animation self, rs1));
          let input2 :=
            if bool_decide (GameState.status state1 = GameStatus.Won)
            then GameInputController.blockForMilliseconds 2500 now input1
            else input1 in
          doMoves n' fuel now
            {| rows := rows self; columns := columns self;
               targetTileLevel := targetTileLevel self; graphics := graphics self;
               animation := animation1; input := input2; score := score self;
               bestScore := bestScore self; state := state1 |}
            (h1, rs2)
      end
  end.

(** [tick()] at time [now], [elapsed] milliseconds after the previous frame:
    the new controller, the new world and the frame that is drawn. *)
Definition tick (n fuel : nat) (now elapsed : Z) (self : t) (w : GameState.world)
  : option (t * GameState.world * list GameGraphicsController.call) :=
  '(self1, w1) ← doMoves n fuel now self w;
  let self2 := updateScore self1 in
  '(animation, calls) ←
    GameAnimationController_draw (graphics self2) elapsed (animation self2) (fst w1);
  Some (withAnimation self2 animation, w1, calls).

End GameController.

(** ** Sliding along one direction *)

Section Slide.
Variable d : Z.

(** The test that guards the body of [gravitateTile]. *)
Definition guard (b : GameState.t) (i : Z) : bool :=
  GameState.isInsideBoard b (i + d) && GameState.areNeighboring b i (i + d).

(** The test that guards the call of [mergeWith]. *)
Definition mergeable (x y : Tile.t) : bool :=
  Tile.ableToMerge x && Tile.ableToMerge y
  && bool_decide (Tile.level x = Tile.level y).

(** From cell [i] to the edge every cell is occupied and no two successive
    tiles can merge. *)
Inductive Settled (b : GameState.t) : Z → Prop :=
| Settled_edge i x :
    GameState.tileAt (GameState.tiles b) i = Some x →
    Tile.isEmpty x = false → guard b i = false → Settled b i
| Settled_cons i x y :
    GameState.tileAt (GameState.tiles b) i = Some x →
    Tile.isEmpty x = false → guard b i = true →
    GameState.tileAt (GameState.tiles b) (i + d) = Some y →
    mergeable x y = false → Settled b (i + d) → Settled b i.

(** From cell [i] to the edge: empty cells, then a settled block. *)
Inductive Packed (b : GameState.t) : Z → Prop :=
| Packed_settled i : Settled b i → Packed b i
| Packed_edge i x :
    GameState.tileAt (GameState.tiles b) i = Some x →
    Tile.isEmpty x = true → guard b i = false → Packed b i
| Packed_cons i x :
    GameState.tileAt (GameState.tiles b) i = Some x →
    Tile.isEmpty x = true → guard b i = true → Packed b (i + d) → Packed b i.

(** Every tile that has merged this turn heads a settled block. *)
Definition MergedSettled (b : GameState.t) : Prop :=
  ∀ i x, GameState.tileAt (GameState.tiles b) i = Some x →
         Tile.status x = TileStatus.Merged → Settled b i.

(** The two elementary changes a [gravitateTile] call is made of. *)
Inductive gstep : GameState.state → GameState.state → Prop :=
| gstep_move b h i x y x' y' :
    0 <= i →
    GameState.tileAt (GameState.tiles b) i = Some x →
    GameState.tileAt (GameState.tiles b) (i + d) = Some y →
    guard b i = true →
    Tile.isEmpty x = false → Tile.status x ≠ TileStatus.Merged →
    Tile.isEmpty y = true →
    Tile.moveTo x y = (x', y') →
    gstep (b, h)
      (GameState.withTiles b
         (GameState.setTile (GameState.setTile (GameState.tiles b) i x') (i + d) y'), h)
| gstep_merge b h i x y x' y' h' :
    0 <= i →
    GameState.tileAt (GameState.tiles b) i = Some x →
    GameState.tileAt (GameState.tiles b) (i + d) = Some y →
    guard b i = true →
    mergeable x y = true →
    Settled b (i + d) →
    Tile.mergeWith x y h = Some (x', y', h') →
    gstep (b, h)
      (GameState.withScore
         (GameState.withTiles b
            (GameState.setTile (GameState.setTile (GameState.tiles b) i x') (i + d) y'))
         (GameState.score b + default 0 (Tile.scoreValue y')), h').

End Slide.

(** The guard reads the dimensions only. *)
Definition sameDims (b b' : GameState.t) : Prop :=
  GameState.rows b' = GameState.rows b ∧
  GameState.columns b' = GameState.columns b.

(** Cells that a walk from [i] in steps of [d] cannot reach. *)
Definition behind (d i k : Z) : Prop := (0 < d → k < i) ∧ (d < 0 → i < k).

(** ** Well-formed boards *)

(** The tile list has one tile per cell. *)
Definition shaped (b : GameState.t) : Prop :=
  length (GameState.tiles b) = Z.to_nat (GameState.boardSize b).

(** What the constructor establishes and every method keeps: positive
    dimensions, one tile per cell, each tile knows its cell, and a tile has a
    level exactly when its status is not [Empty]. *)
Definition wf (b : GameState.t) : Prop :=
  0 < GameState.rows b ∧ 0 < GameState.columns b ∧ shaped b ∧
  ∀ k x, GameState.tiles b !! k = Some x →
    Tile.index x = k ∧ (Tile.status x = TileStatus.Empty ↔ Tile.level x = None).

(** ** Histories *)

(** The contents of the two history arrays of a tile, when both exist. *)
Definition hist (h : heap) (x : Tile.t) : option (list value * list value) :=
  p ← Tile.prevIndex x; q ← Tile.prevLevel x;
  a ← h !! p; l ← h !! q; Some (a, l).

Definition occupied (x : Tile.t) : Prop := Tile.status x ≠ TileStatus.Empty.

#[global] Instance occupied_dec x : Decision (occupied x).
Proof. unfold occupied. apply _. Defined.

(** The tile [prepareForMove] leaves in an occupied cell when the next free
    address is [p]. *)
Definition prepared (x : Tile.t) (p : loc) : Tile.t :=
  {| Tile.index := Tile.index x; Tile.level := Tile.level x;
     Tile.prevIndex := Some p; Tile.prevLevel := Some (S p);
     Tile.status := TileStatus.Still |}.

(** The address the first loop of [gravitate] gives to the tile of cell [k]. *)
Definition addr (ts0 : list Tile.t) (h0 : heap) (k : nat) : loc :=
  (length h0 + 2 * length (filter occupied (take k ts0)))%nat.

(** The state of the first loop of [gravitate] once the cells below [m] are
    done, starting from board [b0] and heap [h0]. *)
Definition Prepared (b0 : GameState.t) (h0 : heap) (m : nat) (s : GameState.state)
  : Prop :=
  fst s = GameState.withTiles b0 (GameState.tiles (fst s)) ∧
  length (GameState.tiles (fst s)) = length (GameState.tiles b0) ∧
  (∃ hn, snd s = h0 ++ hn) ∧
  length (snd s) = addr (GameState.tiles b0) h0 m ∧
  ∀ k x0, GameState.tiles b0 !! k = Some x0 →
    if decide ((k < m)%nat ∧ occupied x0) then
      GameState.tiles (fst s) !! k = Some (prepared x0 (addr (GameState.tiles b0) h0 k)) ∧
      snd s !! addr (GameState.tiles b0) h0 k = Some [Some (Tile.index x0)] ∧
      snd s !! S (addr (GameState.tiles b0) h0 k) = Some [Tile.level x0]
    else GameState.tiles (fst s) !! k = Some x0.

(** The history of [x], held in the arrays at [p] and [q], tells where the
    tile came from in the tile list [ts0] of the start of the turn: one
    source for a tile that stayed or slid, two sources of equal level for a
    tile that merged, whose level is then one more. *)
Definition Truthful (ts0 : list Tile.t) (h : heap) (x : Tile.t) (p q : loc) : Prop :=
  if decide (Tile.status x = TileStatus.Merged) then
    ∃ a c xa xc,
      ts0 !! a = Some xa ∧ ts0 !! c = Some xc ∧ occupied xa ∧ occupied xc ∧
      h !! p = Some [Some (Tile.index xa); Some (Tile.index xc)] ∧
      h !! q = Some [Tile.level xa; Tile.level xc] ∧
      Tile.level xa = Tile.level xc ∧
      Tile.level x = Some (S (Tile.levelNumber xa))
  else
    ∃ a xa,
      ts0 !! a = Some xa ∧ occupied xa ∧
      h !! p = Some [Some (Tile.index xa)] ∧
      h !! q = Some [Tile.level xa] ∧
      Tile.level x = Tile.level xa.

(** During the second loop of [gravitate]: every occupied tile owns two
    arrays of its own, allocated at or after address [n0], and its history
    is truthful. *)
Definition HistOK (ts0 : list Tile.t) (n0 : nat) (s : GameState.state) : Prop :=
  (∀ j x, GameState.tiles (fst s) !! j = Some x → occupied x →
     ∃ p q, Tile.prevIndex x = Some p ∧ Tile.prevLevel x = Some q ∧
            p ≠ q ∧ (n0 ≤ p)%nat ∧ (n0 ≤ q)%nat ∧
            Truthful ts0 (snd s) x p q) ∧
  (∀ j1 j2 x1 x2 p1 q1 p2 q2, j1 ≠ j2 →
     GameState.tiles (fst s) !! j1 = Some x1 →
     GameState.tiles (fst s) !! j2 = Some x2 →
     occupied x1 → occupied x2 →
     Tile.prevIndex x1 = Some p1 → Tile.prevLevel x1 = Some q1 →
     Tile.prevIndex x2 = Some p2 → Tile.prevLevel x2 = Some q2 →
     p1 ≠ p2 ∧ p1 ≠ q2 ∧ q1 ≠ p2 ∧ q1 ≠ q2).

(** ** Score *)

(** What a tile that merged this turn has added to the score. *)
Definition mergedValue (x : Tile.t) : Z :=
  if decide (Tile.status x = TileStatus.Merged)
  then 2 ^ Z.of_nat (Tile.levelNumber x) else 0.

Definition mergedSum (ts : list Tile.t) : Z :=
  foldr (λ x acc, mergedValue x + acc) 0 ts.

(** Each tile knows its cell and has a level exactly when occupied. *)
Definition TilesWf (ts : list Tile.t) : Prop :=
  ∀ k x, ts !! k = Some x →
    Tile.index x = k ∧ (Tile.status x = TileStatus.Empty ↔ Tile.level x = None).

(** No source appears twice in the histories of the occupied tiles: an
    entry of a [prevIndex] array determines the tile and the position. *)
Definition Orig (s : GameState.state) : Prop :=
  ∀ j1 j2 x1 x2 p1 p2 a1 a2 k1 k2 (v : option nat),
    GameState.tiles (fst s) !! j1 = Some x1 →
    GameState.tiles (fst s) !! j2 = Some x2 →
    occupied x1 → occupied x2 →
    Tile.prevIndex x1 = Some p1 → Tile.prevIndex x2 = Some p2 →
    snd s !! p1 = Some a1 → snd s !! p2 = Some a2 →
    a1 !! k1 = Some v → a2 !! k2 = Some v →
    j1 = j2 ∧ k1 = k2.

(** During the second loop of [gravitate] no tile is [Spawned], and an
    empty cell holds no history. *)
Definition Clean (ts : list Tile.t) : Prop :=
  ∀ k x, ts !! k = Some x →
    Tile.status x ≠ TileStatus.Spawned ∧
    (Tile.status x = TileStatus.Empty →
     Tile.prevIndex x = None ∧ Tile.prevLevel x = None).

(** An empty cell holds no history. *)
Definition EmptyClean (ts : list Tile.t) : Prop :=
  ∀ k x, ts !! k = Some x → Tile.status x = TileStatus.Empty →
    Tile.prevIndex x = None ∧ Tile.prevLevel x = None.

(** The number of cells from [i] to the edge a walk in steps of [d] heads
    for. *)
Definition toEdge (d : Z) (b : GameState.t) (i : Z) : Z :=
  if 0 <? d then GameState.boardSize b - i else i + 1.

(** The body of [gravitateTile] from the reads of [tile] and [nextTile] on,
    that is, after the first recursive call. *)
Definition gravitateTile_rest (fuel : nat) (i d : Z) (s1 : GameState.state)
  : option GameState.state :=
  let '(b1, h1) := s1 in
  tile ← GameState.tileAt (GameState.tiles b1) i;
  nextTile ← GameState.tileAt (GameState.tiles b1) (i + d);
  if Tile.isEmpty nextTile then
    let '(tile', nextTile') := Tile.moveTo tile nextTile in
    GameState.gravitateTile fuel (i + d) d
      (GameState.withTiles b1
         (GameState.setTile (GameState.setTile (GameState.tiles b1) i tile')
            (i + d) nextTile'), h1)
  else if mergeable tile nextTile then
    '(tile', nextTile', h2) ← Tile.mergeWith tile nextTile h1;
    let b2 := GameState.withTiles b1
         (GameState.setTile (GameState.setTile (GameState.tiles b1) i tile')
            (i + d) nextTile') in
    Some (GameState.withScore b2
            (GameState.score b2 + default 0 (Tile.scoreValue nextTile')), h2)
  else Some s1.

(** The tile [spawn] leaves in the cell of [x] when the level drawn is [l]. *)
Definition spawned (x : Tile.t) (l : nat) : Tile.t :=
  {| Tile.index := Tile.index x; Tile.level := Some l;
     Tile.prevIndex := Tile.prevIndex x; Tile.prevLevel := Tile.prevLevel x;
     Tile.status := TileStatus.Spawned |}.

(** The cell a draw selects on a board of [size] cells. *)
Definition drawnCell (size : Z) (d : nat) : Z := Z.min (size - 1) (Z.of_nat d).

(** The level a draw selects. *)
Definition drawnLevel (d : nat) : nat := Z.to_nat (1 + Z.min 9 (Z.of_nat d) / 9).

(** ** Boards that differ in history addresses only *)

(** Two tiles that the game logic cannot tell apart: it reads the index,
    the level and the status, never the addresses of the arrays. *)
Definition tileSim (x y : Tile.t) : Prop :=
  Tile.index x = Tile.index y ∧ Tile.level x = Tile.level y ∧
  Tile.status x = Tile.status y.

(** Boards with the same dimensions and indistinguishable tiles, whose
    scores differ by [k]. *)
Definition similar (k : Z) (b b2 : GameState.t) : Prop :=
  sameDims b b2 ∧ GameState.score b2 = GameState.score b + k ∧
  Forall2 tileSim (GameState.tiles b) (GameState.tiles b2).

(** ** Status, heaps, reachable boards *)

(** The status [updateStatus] leaves, given the answers of [isGameOver] and
    [hasAchievedGoal]. *)
Definition nextStatus (over goal : bool) (s : GameStatus.t) : GameStatus.t :=
  if over then GameStatus.Lost
  else match s with
       | GameStatus.InProgress => if goal then GameStatus.Won else GameStatus.InProgress
       | GameStatus.Won => GameStatus.Continued
       | _ => s
       end.

(** [h'] has every array of [h], unchanged, and possibly more. *)
Definition heapExt (h h' : heap) : Prop :=
  (length h ≤ length h')%nat ∧ ∀ l, (l < length h)%nat → h' !! l = h !! l.

(** The levels produced by the merges of a sequence of elementary steps, in
    the order of the merges. *)
Inductive mergesOf (d : Z) : GameState.state → GameState.state → list nat → Prop :=
| mergesOf_nil s : mergesOf d s s []
| mergesOf_move b h i x y x' y' s' ls :
    0 <= i →
    GameState.tileAt (GameState.tiles b) i = Some x →
    GameState.tileAt (GameState.tiles b) (i + d) = Some y →
    guard d b i = true →
    Tile.isEmpty x = false → Tile.isEmpty y = true →
    Tile.moveTo x y = (x', y') →
    mergesOf d
      (GameState.withTiles b
         (GameState.setTile (GameState.setTile (GameState.tiles b) i x') (i + d) y'), h)
      s' ls →
    mergesOf d (b, h) s' ls
| mergesOf_merge b h i x y x' y' h' s' ls :
    0 <= i →
    GameState.tileAt (GameState.tiles b) i = Some x →
    GameState.tileAt (GameState.tiles b) (i + d) = Some y →
    guard d b i = true →
    mergeable x y = true →
    Tile.mergeWith x y h = Some (x', y', h') →
    mergesOf d
      (GameState.withScore
         (GameState.withTiles b
            (GameState.setTile (GameState.setTile (GameState.tiles b) i x') (i + d) y'))
         (GameState.score b + default 0 (Tile.scoreValue y')), h')
      s' ls →
    mergesOf d (b, h) s' (Tile.levelNumber y' :: ls).

(** The merges that [gravitate] performs on board [b] in heap [h]: the
    levels of the merged tiles right after each merge. *)
Definition mergeLevels (dir : Direction.t) (b : GameState.t) (h : heap)
  (ls : list nat) : Prop :=
  ∃ s1 s',
    GameState.prepare_loop (GameState.indices b) (b, h) = Some s1 ∧
    GameState.gravitate dir (b, h) = Some s' ∧
    mergesOf (GameState.indexChange b dir) s1 s' ls.

(** The sum of [2 ^ l] over a list of levels. *)
Definition powerSum (ls : list nat) : Z :=
  foldr (λ l acc, 2 ^ Z.of_nat l + acc) 0 ls.

(** A tile has no history while [Empty] or [Spawned], and two arrays of the
    same length otherwise. *)
Definition historyShape (h : heap) (x : Tile.t) : Prop :=
  if decide (Tile.status x = TileStatus.Empty ∨ Tile.status x = TileStatus.Spawned)
  then Tile.prevIndex x = None ∧ Tile.prevLevel x = None
  else ∃ a l, hist h x = Some (a, l) ∧ length a = length l.

(** The boards a game goes through: the constructor's, then one more for
    every call of [move] that returns, with the heap of that moment. *)
Inductive reachable : GameState.t → heap → Prop :=
| reachable_new r c t rs b rs' h :
    0 < r → 0 < c → GameState.new r c t rs = Some (b, rs') → reachable b h
| reachable_move fuel dir b h rs changed b' h' rs' :
    reachable b h →
    GameState.move fuel dir b (h, rs) = Some (changed, b', (h', rs')) →
    reachable b' h'.

(** ** A concrete game *)

(** A 4 x 4 board, target level 11, as the constructor leaves it when the
    draws select cell 0, level 1, cell 1, level 1. *)
Definition exampleStart : option (GameState.t * list nat) :=
  GameState.new 4 4 11 [0; 0; 1; 0]%nat.

Definition exampleBoard : GameState.t :=
  Eval vm_compute in
    match exampleStart with
    | Some (b, _) => b
    | None => GameState.mk 4 4 11 [] 0 GameStatus.InProgress
    end.

(** The draws of one [move]: four for the clone that [move] makes first
    (cell 0, level 1, cell 1, level 1), then the spawn (cell 5, level 1). *)
Definition exampleDraws : list nat := [0; 0; 1; 0; 5; 0]%nat.

Definition exampleMove : option (bool * GameState.t * GameState.world) :=
  Eval vm_compute in GameState.move 1 Direction.Left exampleBoard ([], exampleDraws).

Definition exampleAfter : GameState.t :=
  Eval vm_compute in
    match exampleMove with
    | Some (_, b, _) => b
    | None => exampleBoard
    end.

Definition exampleHeap : list (list (option nat)) :=
  Eval vm_compute in
    match exampleMove with
    | Some (_, _, (h, _)) => h
    | None => []
    end.

(** The example board after [gravitate(Left)] alone. *)
Definition exampleSlid : GameState.state :=
  Eval vm_compute in
    match GameState.gravitate Direction.Left (exampleBoard, []) with
    | Some s => s
    | None => (exampleBoard, [])
    end.

(** ** A measure of how far the tiles have slid *)

(** The sum of the positions of the occupied cells, the first cell of [ts]
    counting as position [a]. *)
Fixpoint posSumFrom (a : Z) (ts : list Tile.t) : Z :=
  match ts with
  | [] => 0
  | x :: rest => (if decide (occupied x) then a else 0) + posSumFrom (a + 1) rest
  end.

Definition posSum (ts : list Tile.t) : Z := posSumFrom 0 ts.

(** The example board after [move(Up)], which changes nothing. *)
Definition exampleUpMove : option (bool * GameState.t * GameState.world) :=
  Eval vm_compute in GameState.move 1 Direction.Up exampleBoard ([], [0; 0; 1; 0]%nat).

Definition exampleUp : GameState.t :=
  Eval vm_compute in
    match exampleUpMove with
    | Some (_, b, _) => b
    | None => exampleBoard
    end.

Definition exampleUpHeap : list (list (option nat)) :=
  Eval vm_compute in
    match exampleUpMove with
    | Some (_, _, (h, _)) => h
    | None => []
    end.

(** ** Snapshots and the live board *)

(** What can be done to the live board after a snapshot has been queued. *)
Inductive liveOp :=
| Move (fuel : nat) (dir : Direction.t)
| Gravitate (dir : Direction.t)
| Spawn
| UpdateStatus (fuel : nat)
| Merge (i j : nat).

Definition isMerge (o : liveOp) : Prop :=
  match o with Merge _ _ => True | _ => False end.

(** One operation on the live board; [Merge i j] is
    [tiles[i].mergeWith(tiles[j])]. *)
Definition runOp (o : liveOp) (s : GameState.t * GameState.world)
  : option (GameState.t * GameState.world) :=
  let '(b, (h, rs)) := s in
  match o with
  | Move fuel dir =>
      '(_, b', w') ← GameState.move fuel dir b (h, rs); Some (b', w')
  | Gravitate dir =>
      '(b', h') ← GameState.gravitate dir (b, h); Some (b', (h', rs))
  | Spawn =>
      '(b', rs') ← GameState.spawnTile b rs; Some (b', (h, rs'))
  | UpdateStatus fuel => GameState.updateStatus fuel b (h, rs)
  | Merge i j =>
      x ← GameState.tiles b !! i;
      y ← GameState.tiles b !! j;
      '(x', y', h') ← Tile.mergeWith x y h;
      Some (GameState.withTiles b (<[j := y']> (<[i := x']> (GameState.tiles b))),
            (h', rs))
  end.

Fixpoint runOps (ops : list liveOp) (s : GameState.t * GameState.world)
  : option (GameState.t * GameState.world) :=
  match ops with
  | [] => Some s
  | o :: rest => s' ← runOp o s; runOps rest s'
  end.

(** What can be observed of a tile: its fields, with the contents of its
    two history arrays. *)
Definition tileView (h : heap) (x : Tile.t)
  : nat * option nat * TileStatus.t * option (list value) * option (list value) :=
  (Tile.index x, Tile.level x, Tile.status x,
   Tile.prevIndex x ≫= (λ p, h !! p), Tile.prevLevel x ≫= (λ q, h !! q)).

(** What can be observed of a board: the score and the view of every tile. *)
Definition snapshotView (h : heap) (c : GameState.t) :=
  (GameState.score c, tileView h <$> GameState.tiles c).

(** Every history address of the board is allocated. *)
Definition refsValid (h : heap) (b : GameState.t) : Prop :=
  ∀ k x p, GameState.tiles b !! k = Some x →
    Tile.prevIndex x = Some p ∨ Tile.prevLevel x = Some p → (p < length h)%nat.

(** [tiles[0].mergeWith(tiles[1])] on the live board [exampleUp]. *)
Definition exampleDirectMerge : option (GameState.t * GameState.world) :=
  Eval vm_compute in runOps [Merge 0 1] (exampleUp, (exampleUpHeap, [])).

(** ** Game over *)

(** The levels on the board, cell by cell. *)
Definition levels (b : GameState.t) : list (option nat) :=
  Tile.level <$> GameState.tiles b.

(** No cell is free. *)
Definition full (b : GameState.t) : Prop :=
  ∀ k x, GameState.tiles b !! k = Some x → occupied x.

(** A move in direction [dir] applied to a clone of [b] reports no change and
    leaves the levels and the score of the clone as they were, whatever the
    heap and the draws, as long as the draws last for the copy that [move]
    takes of the clone. *)
Definition cloneUnmoved (dir : Direction.t) (b : GameState.t) : Prop :=
  ∀ fuel (h : heap) rs c rs1,
    GameState.clone b rs = Some (c, rs1) → is_Some (GameState.clone c rs1) →
    ∃ c' w', GameState.move (S fuel) dir c (h, rs1) = Some (false, c', w') ∧
             levels c' = levels c ∧ GameState.score c' = GameState.score c.

(** A full 2x2 board on which nothing can merge, the arrays of its tiles,
    and draws that last for the eight copies [isGameOver] has made. *)
Definition exampleDead : GameState.t :=
  {| GameState.rows := 2; GameState.columns := 2; GameState.targetTileLevel := 11;
     GameState.tiles :=
       [Tile.mk 0 (Some 1%nat) (Some 0%nat) (Some 1%nat) TileStatus.Still;
        Tile.mk 1 (Some 2%nat) (Some 2%nat) (Some 3%nat) TileStatus.Still;
        Tile.mk 2 (Some 2%nat) (Some 4%nat) (Some 5%nat) TileStatus.Still;
        Tile.mk 3 (Some 1%nat) (Some 6%nat) (Some 7%nat) TileStatus.Still];
     GameState.score := 0; GameState.status := GameStatus.InProgress |}.

Definition exampleDeadHeap : heap :=
  [[Some 0%nat]; [Some 1%nat]; [Some 1%nat]; [Some 2%nat];
   [Some 2%nat]; [Some 2%nat]; [Some 3%nat]; [Some 1%nat]].

Definition exampleDeadDraws : rng :=
  concat (replicate 8 [0; 0; 1; 0]%nat).

Definition exampleDeadOver : option (bool * GameState.world) :=
  Eval vm_compute in GameState.isGameOver 1 exampleDead (exampleDeadHeap, exampleDeadDraws).

(** ** The scenario of the specification *)

(** A 4x4 board with target level 11, in progress, whose cells 0 and 1 hold
    tiles of level 1 and whose other cells are free. *)
Definition scenario (b : GameState.t) : Prop :=
  GameState.rows b = 4 ∧ GameState.columns b = 4 ∧
  GameState.targetTileLevel b = 11 ∧
  GameState.status b = GameStatus.InProgress ∧
  length (GameState.tiles b) = 16%nat ∧
  ∀ k x, GameState.tiles b !! k = Some x →
    Tile.index x = k ∧
    if decide (k ≤ 1)%nat then occupied x ∧ Tile.level x = Some 1%nat
    else Tile.status x = TileStatus.Empty ∧ Tile.level x = None.

(** The scenario board without score or history, its two tiles having the
    statuses [st0] and [st1]. *)
Definition scenarioBoard (st0 st1 : TileStatus.t) : GameState.t :=
  {| GameState.rows := 4; GameState.columns := 4; GameState.targetTileLevel := 11;
     GameState.tiles :=
       Tile.mk 0 (Some 1%nat) None None st0 :: Tile.mk 1 (Some 1%nat) None None st1
       :: (Tile.new <$> seq 2 14);
     GameState.score := 0; GameState.status := GameStatus.InProgress |}.

(** ** Measures for the nesting of [move] inside [isGameOver] *)

(** The sum of [f] over the tiles. *)
Definition tileSum (f : Tile.t → Z) (ts : list Tile.t) : Z :=
  foldr (λ x acc, f x + acc) 0 ts.

(** The face value of a tile, [2 ^ level]; a free cell counts 0. *)
Definition weight (x : Tile.t) : Z :=
  if decide (occupied x) then 2 ^ Z.of_nat (Tile.levelNumber x) else 0.

Definition boardWeight (b : GameState.t) : Z := tileSum weight (GameState.tiles b).

(** 1 for a tile of level [t] or more. *)
Definition atLeast (t : Z) (x : Tile.t) : Z :=
  if decide (occupied x ∧ t <= Z.of_nat (Tile.levelNumber x)) then 1 else 0.

Definition countAtLeast (t : Z) (ts : list Tile.t) : Z := tileSum (atLeast t) ts.

(** A level that is present, plus the number of tiles of that level or
    more, stays within [B]: to hold a tile of a high level the board has had
    to hold the two halves of it, and to hold those the halves of one of them
    next to the other, and so on down. *)
Definition Stacked (B : Z) (ts : list Tile.t) : Prop :=
  ∀ t, 0 < countAtLeast t ts → t + countAtLeast t ts <= B.

(** The highest level on the board. *)
Definition maxLevel (ts : list Tile.t) : nat :=
  foldr (λ x acc, Nat.max (Tile.levelNumber x) acc) 0%nat ts.

(** A bound that [Stacked] holds for at the start. *)
Definition stackBound (b : GameState.t) : Z :=
  Z.of_nat (length (GameState.tiles b)) + Z.of_nat (maxLevel (GameState.tiles b)) + 2.

(** Fuel that lasts for any [move], [isGameOver] or [updateStatus] on [b]. *)
Definition enoughFuel (b : GameState.t) : nat :=
  S (Z.to_nat (Z.of_nat (length (GameState.tiles b)) * 2 ^ stackBound b)).

(** ** The cells ahead of a cell *)

(** From cell [i], [n] steps of [d] can be taken without leaving the board
    or a line of the board. *)
Definition reach (d : Z) (b : GameState.t) (i : Z) (n : nat) : Prop :=
  Forall (λ m, guard d b (i + Z.of_nat m * d) = true) (seq 0 n).

(** Cell [k] is cell [i] or lies ahead of it in the direction of [d]: these
    are the cells a call of [gravitateTile] on [i] walks through. *)
Definition ahead (d : Z) (b : GameState.t) (i k : Z) : Prop :=
  Exists (λ n, k = i + Z.of_nat n * d ∧ reach d b i n)
         (seq 0 (S (Z.to_nat (Z.abs (k - i))))).

#[global] Instance ahead_dec d b i k : Decision (ahead d b i k).
Proof. unfold ahead, reach. apply _. Defined.

(** ** Counting tiles and moves *)

(** 1 for a tile, 0 for a free cell. *)
Definition tileUnit (x : Tile.t) : Z := if decide (occupied x) then 1 else 0.

(** 1 for a tile that has merged in the last pass. *)
Definition mergedUnit (x : Tile.t) : Z :=
  if decide (Tile.status x = TileStatus.Merged) then 1 else 0.

(** The number of tiles on the board. *)
Definition tileCount (ts : list Tile.t) : Z := tileSum tileUnit ts.

(** The number of tiles that have merged in the last pass. *)
Definition mergedCount (ts : list Tile.t) : Z := tileSum mergedUnit ts.

(** A game in which [n] calls of [move] have reported a change. *)
Inductive played : nat → GameState.t → heap → Prop :=
| played_new r c t rs b rs' h :
    0 < r → 0 < c → GameState.new r c t rs = Some (b, rs') → played 0 b h
| played_move n fuel dir b h rs changed b' h' rs' :
    played n b h →
    GameState.move fuel dir b (h, rs) = Some (changed, b', (h', rs')) →
    played (if (changed : bool) then S n else n) b' h'.

(** Every tile of the tile list [ts0] of the start of the turn is a source
    in the history of some tile of [s]. *)
Definition Covered (ts0 : list Tile.t) (s : GameState.state) : Prop :=
  ∀ i x0, ts0 !! i = Some x0 → occupied x0 →
    ∃ j x p a k,
      GameState.tiles (fst s) !! j = Some x ∧ occupied x ∧
      Tile.prevIndex x = Some p ∧ snd s !! p = Some a ∧
      a !! k = Some (Some (Tile.index x0)).

(** ** Drawing *)

(** What the history arrays of a tile of a board of the game hold: the cell
    the tile was in and its level, for a tile that stayed or slid; the
    cells and the common level of the two tiles it is made of, for a tile
    that merged. *)
Definition Recorded (h : heap) (x : Tile.t) : Prop :=
  match Tile.status x with
  | TileStatus.Empty | TileStatus.Spawned => True
  | TileStatus.Merged =>
      ∃ i j l, hist h x = Some ([Some i; Some j], [Some l; Some l]) ∧
               Tile.level x = Some (S l)
  | _ => ∃ i, hist h x = Some ([Some i], [Tile.level x])
  end.

(** The call [c] draws a tile in cell [k] of a board of [columns] columns. *)
Definition atCell (columns : Z) (k : nat) (c : GameGraphicsController.call) : Prop :=
  (GameGraphicsController.row c == inject_Z (Z.of_nat k / columns))%Q ∧
  (GameGraphicsController.col c == inject_Z (Z.of_nat k mod columns))%Q.

(** The number of entries in the history of a tile. *)
Definition drawnUnit (x : Tile.t) : Z :=
  match Tile.status x with
  | TileStatus.Empty | TileStatus.Spawned => 0
  | TileStatus.Merged => 2
  | _ => 1
  end.

(** The call that shows, at progress [p], a tile on its way from cell
    [prev] to cell [k]. *)
Definition sliding (g : GameGraphicsController.t) (p : Q) (k prev : nat) (lv : value)
  : GameGraphicsController.call :=
  let C := GameGraphicsController.columns g in
  let phaseProgress := Qmin (p / GameGraphicsController.movingPhaseEnd) 1 in
  let m := (3 * phaseProgress ^ 2 - 2 * phaseProgress ^ 3)%Q in
  GameGraphicsController.Call
    (inject_Z (Z.of_nat prev / C)
     + (inject_Z (Z.of_nat k / C) - inject_Z (Z.of_nat prev / C)) * m)%Q
    (inject_Z (Z.rem (Z.of_nat prev) C)
     + (inject_Z (Z.rem (Z.of_nat k) C) - inject_Z (Z.rem (Z.of_nat prev) C)) * m)%Q
    lv 1.

(** The calls of the appearing phase for a tile of status [st] in cell [k]. *)
Definition appearing (g : GameGraphicsController.t) (p : Q) (k : nat)
    (st : TileStatus.t) (lv : value) : list GameGraphicsController.call :=
  let C := GameGraphicsController.columns g in
  let pp := ((p - GameGraphicsController.movingPhaseEnd)
             / (1 - GameGraphicsController.movingPhaseEnd))%Q in
  if negb (Qle_bool p GameGraphicsController.movingPhaseEnd) then
    match st with
    | TileStatus.Spawned =>
        [GameGraphicsController.Call (inject_Z (Z.of_nat k / C))
           (inject_Z (Z.rem (Z.of_nat k) C)) lv pp]
    | TileStatus.Merged =>
        [GameGraphicsController.Call (inject_Z (Z.of_nat k / C))
           (inject_Z (Z.rem (Z.of_nat k) C)) lv (- pp ^ 2 + pp + 1)%Q]
    | _ => []
    end
  else [].

(** The calls [cs] are what [drawAnimatedTile] makes for the tile [x] at
    progress [p]: nothing for an empty cell, the appearing tile for a
    [Spawned] tile, the tile on its way for a tile that stayed or slid, and
    for a [Merged] tile the two tiles it is made of on their way, then the
    merged tile appearing over them. *)
Definition drawnAs (g : GameGraphicsController.t) (h : heap) (p : Q) (x : Tile.t)
    (cs : list GameGraphicsController.call) : Prop :=
  match Tile.status x with
  | TileStatus.Empty => cs = []
  | TileStatus.Spawned =>
      cs = appearing g p (Tile.index x) TileStatus.Spawned (Tile.level x)
  | TileStatus.Merged =>
      ∃ i j l, hist h x = Some ([Some i; Some j], [Some l; Some l]) ∧
        Tile.level x = Some (S l) ∧
        cs = [sliding g p (Tile.index x) i (Some l);
              sliding g p (Tile.index x) j (Some l)]
             ++ appearing g p (Tile.index x) TileStatus.Merged (Tile.level x)
  | _ =>
      ∃ i, hist h x = Some ([Some i], [Tile.level x]) ∧
        cs = [sliding g p (Tile.index x) i (Tile.level x)]
  end.

(** The game of the example goes on: a second move, to the right, with the
    new tile in cell 0. *)
Definition exampleSecondDraws : list nat := [0; 0; 1; 0; 0; 0]%nat.

Definition exampleSecond : GameState.t :=
  Eval vm_compute in
    match runOps [Move 1 Direction.Right] (exampleAfter, (exampleHeap, exampleSecondDraws)) with
    | Some (b, _) => b
    | None => exampleAfter
    end.

Definition exampleSecondHeap : list (list (option nat)) :=
  Eval vm_compute in
    match runOps [Move 1 Direction.Right] (exampleAfter, (exampleHeap, exampleSecondDraws)) with
    | Some (_, (h, _)) => h
    | None => []
    end.

(** ** Stuck boards *)

(** No move can change the board: it is full and no two neighbouring tiles
    have the same level. *)
Definition stuck (b : GameState.t) : Prop :=
  full b ∧
  ∀ (i j : nat) x y,
    GameState.areNeighboring b (Z.of_nat i) (Z.of_nat j) = true →
    GameState.tiles b !! i = Some x → GameState.tiles b !! j = Some y →
    Tile.level x ≠ Tile.level y.

(** A game on a board of one row and two columns: the constructor's board
    holds two tiles of level 1; the move to the right merges them, the new
    tile lands in cell 0, and the game is lost. *)
Definition exampleSmall : GameState.t :=
  Eval vm_compute in
    match GameState.new 1 2 11 [0; 0; 1; 0]%nat with
    | Some (b, _) => b
    | None => GameState.mk 1 2 11 [] 0 GameStatus.InProgress
    end.

Definition exampleLostDraws : list nat :=
  ([0; 0; 1; 0; 0; 0] ++ concat (replicate 4 [0; 0; 1; 0; 0; 0; 1; 0]))%nat.

Definition exampleLost : GameState.t :=
  Eval vm_compute in
    match GameState.move 2 Direction.Right exampleSmall ([], exampleLostDraws) with
    | Some (_, b, _) => b
    | None => exampleSmall
    end.

Definition exampleLostHeap : list (list (option nat)) :=
  Eval vm_compute in
    match GameState.move 2 Direction.Right exampleSmall ([], exampleLostDraws) with
    | Some (_, _, (h, _)) => h
    | None => []
    end.

(** The constructor's board of a single cell. *)
Definition exampleOneCell : GameState.t :=
  Eval vm_compute in
    match GameState.new 1 1 11 [0; 0]%nat with
    | Some (b, _) => b
    | None => GameState.mk 1 1 11 [] 0 GameStatus.InProgress
    end.

(** Some tile has reached the target level. *)
Definition goalReached (b : GameState.t) : Prop :=
  ∃ k x l, GameState.tiles b !! k = Some x ∧ Tile.level x = Some l ∧
           GameState.targetTileLevel b <= Z.of_nat l.

(** ** The game loop *)

(** [c] is a snapshot of a board of a game on [rows] by [columns] cells,
    taken when the heap was [h] or a part of it. *)
Definition snapshotOf (rows columns : Z) (h : heap) (c : GameState.t) : Prop :=
  ∃ b h0, reachable b h0 ∧ heapExt h0 h ∧
          c = GameState.withStatus b GameStatus.InProgress ∧
          GameState.rows b = rows ∧ GameState.columns b = columns.

(** What the constructor of [GameController] establishes and every event
    keeps. *)
Definition ctlInv (ctl : GameController.t) (h : heap) : Prop :=
  0 < GameController.rows ctl ∧ 0 < GameController.columns ctl ∧
  GameController.graphics ctl
  = GameGraphicsController.mk (GameController.rows ctl) (GameController.columns ctl) ∧
  reachable (GameController.state ctl) h ∧
  GameState.rows (GameController.state ctl) = GameController.rows ctl ∧
  GameState.columns (GameController.state ctl) = GameController.columns ctl ∧
  GameAnimationController.stateHistory (GameController.animation ctl) ≠ [] ∧
  Forall (snapshotOf (GameController.rows ctl) (GameController.columns ctl) h)
    (GameAnimationController.stateHistory (GameController.animation ctl)).

(** The controllers a session goes through: the constructor's, then one
    more for every key press, every click on the restart button and every
    tick. *)
Inductive running : GameController.t → heap → Prop :=
| running_new r c t now rs ctl rs' h :
    0 < r → 0 < c → GameController.new r c t now rs = Some (ctl, rs') →
    running ctl h
| running_key key now ctl h inp pd :
    running ctl h →
    GameInputController.processKeyboard key now (GameController.input ctl) = Some (inp, pd) →
    running (GameController.withInput ctl inp) h
| running_restart ctl h rs ctl' rs' :
    running ctl h → GameController.restart ctl rs = Some (ctl', rs') →
    running ctl' h
| running_tick n fuel now elapsed ctl h rs ctl' h' rs' calls :
    running ctl h →
    GameController.tick n fuel now elapsed ctl (h, rs) = Some (ctl', (h', rs'), calls) →
    running ctl' h'.

(** Fuel that lasts for every move of a game on [rows] by [columns] cells. *)
Definition sessionFuel (rows columns : Z) : nat :=
  S (Z.to_nat (rows * columns * 2 ^ (rows * columns + 2))).

(** The controller of a game on one row and three columns with target
    level 1, as the constructor leaves it at time 0; after the right arrow
    key has been pressed; and after the [doMoves] that follows, which wins
    the game. *)
Definition exampleController : GameController.t :=
  Eval vm_compute in
    match GameController.new 1 3 1 0 [0; 0; 1; 0; 0; 0; 1; 0]%nat with
    | Some (ctl, _) => ctl
    | None =>
        GameController.mk 1 3 1 (GameGraphicsController.mk 1 3)
          GameAnimationController.new (GameInputController.new 0) 0 0
          (GameState.mk 1 3 1 [] 0 GameStatus.InProgress)
    end.

Definition exampleKeyPressed : GameController.t :=
  GameController.withInput exampleController
    (GameInputController.mk [Direction.Right] 0).

Definition exampleWinDraws : list nat := [0; 0; 1; 0; 0; 0; 0; 0; 1; 0]%nat.

Definition exampleWon : GameController.t :=
  Eval vm_compute in
    match GameController.doMoves 1 2 0 exampleKeyPressed ([], exampleWinDraws) with
    | Some (ctl, _) => ctl
    | None => exampleKeyPressed
    end.

Definition exampleWonHeap : list (list (option nat)) :=
  Eval vm_compute in
    match GameController.doMoves 1 2 0 exampleKeyPressed ([], exampleWinDraws) with
    | Some (_, (h, _)) => h
    | None => []
    end.

(** * Basic facts *)

Lemma tileAt_Some ts i x :
  GameState.tileAt ts i = Some x → 0 <= i ∧ ts !! Z.to_nat i = Some x.
Proof.
  unfold GameState.tileAt. destruct (Z.leb_spec 0 i); [auto|discriminate].
Qed.

Lemma tileAt_nat ts (n : nat) : GameState.tileAt ts (Z.of_nat n) = ts !! n.
Proof.
  unfold GameState.tileAt. destruct (Z.leb_spec 0 (Z.of_nat n)); [|lia].
  by rewrite Nat2Z.id.
Qed.

Lemma tileAt_setTile_eq ts i x y :
  GameState.tileAt ts i = Some y →
  GameState.tileAt (GameState.setTile ts i x) i = Some x.
Proof.
  intros [Hi Hl]%tileAt_Some. unfold GameState.tileAt, GameState.setTile.
  destruct (Z.leb_spec 0 i); [|lia].
  apply list_lookup_insert_eq. by eapply lookup_lt_Some.
Qed.

Lemma tileAt_setTile_ne ts i j x :
  0 <= i → i ≠ j →
  GameState.tileAt (GameState.setTile ts i x) j = GameState.tileAt ts j.
Proof.
  intros Hi Hne. unfold GameState.tileAt, GameState.setTile.
  destruct (Z.leb_spec 0 j); [|done].
  apply list_lookup_insert_ne. lia.
Qed.

Lemma setTile_id ts i x :
  GameState.tileAt ts i = Some x → GameState.setTile ts i x = ts.
Proof.
  intros [Hi Hl]%tileAt_Some. by apply list_insert_id.
Qed.

Lemma withTiles_id b : GameState.withTiles b (GameState.tiles b) = b.
Proof. by destruct b. Qed.

Lemma isEmpty_true x : Tile.isEmpty x = true ↔ Tile.status x = TileStatus.Empty.
Proof. unfold Tile.isEmpty. apply bool_decide_eq_true. Qed.

Lemma isEmpty_false x : Tile.isEmpty x = false ↔ Tile.status x ≠ TileStatus.Empty.
Proof. unfold Tile.isEmpty. apply bool_decide_eq_false. Qed.

Lemma ableToMerge_true x :
  Tile.ableToMerge x = true ↔
  Tile.status x ≠ TileStatus.Merged ∧ Tile.status x ≠ TileStatus.Empty.
Proof.
  unfold Tile.ableToMerge. rewrite andb_true_iff, !bool_decide_eq_true. done.
Qed.

Lemma areNeighboring_irrefl b i : GameState.areNeighboring b i i = false.
Proof.
  unfold GameState.areNeighboring. rewrite !Z.sub_diag. reflexivity.
Qed.

Lemma guard_nonzero d b i : guard d b i = true → d ≠ 0.
Proof.
  unfold guard. intros [_ H]%andb_true_iff Hd. subst d.
  rewrite Z.add_0_r, areNeighboring_irrefl in H. discriminate.
Qed.

Lemma guard_inside d b i :
  guard d b i = true → 0 <= i + d < GameState.boardSize b.
Proof.
  unfold guard, GameState.isInsideBoard.
  intros [[H1 H2]%andb_true_iff _]%andb_true_iff. lia.
Qed.

Lemma guard_sameDims d b b' i : sameDims b b' → guard d b' i = guard d b i.
Proof.
  intros [Hr Hc]. unfold guard, GameState.isInsideBoard,
    GameState.areNeighboring, GameState.boardSize. by rewrite Hr, Hc.
Qed.
(** * Settled blocks *)

Section SlideFacts.
Variable d : Z.

Lemma Settled_nonempty b i :
  Settled d b i →
  ∃ x, GameState.tileAt (GameState.tiles b) i = Some x ∧ Tile.isEmpty x = false.
Proof. destruct 1; eauto. Qed.

Lemma Packed_nonempty b i x :
  Packed d b i → GameState.tileAt (GameState.tiles b) i = Some x →
  Tile.isEmpty x = false → Settled d b i.
Proof. destruct 1; [done|congruence..]. Qed.

Lemma Settled_next_nonempty b i y :
  Settled d b i → guard d b i = true →
  GameState.tileAt (GameState.tiles b) (i + d) = Some y →
  Tile.isEmpty y = false.
Proof.
  intros H Hg Hy. inversion H; subst; [congruence|].
  destruct (Settled_nonempty _ _ H5) as (z & Hz & Hne). congruence.
Qed.

Lemma Settled_not_mergeable b i x y :
  Settled d b i → guard d b i = true →
  GameState.tileAt (GameState.tiles b) i = Some x →
  GameState.tileAt (GameState.tiles b) (i + d) = Some y →
  mergeable x y = false.
Proof.
  intros H Hg Hx Hy. inversion H; subst; congruence.
Qed.

(** Changing the cells [i] and [i + d] keeps every settled block that does
    not pass through [i]. *)
Lemma Settled_update b b' i j :
  Settled d b j → ¬ Settled d b i → j ≠ i + d → sameDims b b' →
  (∀ k, k ≠ i → k ≠ i + d →
     GameState.tileAt (GameState.tiles b') k = GameState.tileAt (GameState.tiles b) k) →
  Settled d b' j.
Proof.
  intros Hj Hi Hne Hd Hsame. induction Hj as [j x Hx Hnx Hg|j x y Hx Hnx Hg Hy Hm Hs IH].
  - assert (j ≠ i) by (intros ->; apply Hi; by eapply Settled_edge).
    eapply Settled_edge; [rewrite Hsame; eauto| done |by rewrite (guard_sameDims _ b)].
  - assert (j ≠ i) by (intros ->; apply Hi; by eapply Settled_cons).
    assert (j + d ≠ i) by (intros <-; by apply Hi).
    eapply Settled_cons with (y := y); [rewrite Hsame; eauto|done| |rewrite Hsame; eauto; lia|done|].
    + by rewrite (guard_sameDims _ b).
    + apply IH. lia.
Qed.

(** The head of a settled block may be replaced by a tile that cannot
    merge. *)
Lemma Settled_head b b' i n y' :
  Settled d b n → ¬ Settled d b i → n = i + d → d ≠ 0 → sameDims b b' →
  GameState.tileAt (GameState.tiles b') n = Some y' →
  Tile.isEmpty y' = false → Tile.ableToMerge y' = false →
  (∀ k, k ≠ i → k ≠ i + d →
     GameState.tileAt (GameState.tiles b') k = GameState.tileAt (GameState.tiles b) k) →
  Settled d b' n.
Proof.
  intros Hn Hi -> Hd0 Hd Hy' Hne Hab Hsame.
  inversion Hn as [? x Hx Hnx Hg|? x y Hx Hnx Hg Hy Hm Hs]; subst.
  - eapply Settled_edge; eauto. by rewrite (guard_sameDims _ b).
  - assert (i + d + d ≠ i) by lia.
    eapply Settled_cons with (y := y); eauto.
    + by rewrite (guard_sameDims _ b).
    + rewrite Hsame; [done|lia|lia].
    + unfold mergeable. by rewrite Hab.
    + eapply Settled_update; eauto. lia.
Qed.

End SlideFacts.

(** * One call of [gravitateTile] *)

Section Run.
Variable d : Z.

Lemma gravitateTile_S fuel i s :
  GameState.gravitateTile (S fuel) i d s =
  if guard d (fst s) i then
    nextTile0 ← GameState.tileAt (GameState.tiles (fst s)) (i + d);
    s1 ← (if negb (Tile.isEmpty nextTile0)
          then GameState.gravitateTile fuel (i + d) d s else Some s);
    let '(b1, h1) := s1 in
    tile ← GameState.tileAt (GameState.tiles b1) i;
    nextTile ← GameState.tileAt (GameState.tiles b1) (i + d);
    if Tile.isEmpty nextTile then
      let '(tile', nextTile') := Tile.moveTo tile nextTile in
      GameState.gravitateTile fuel (i + d) d
        (GameState.withTiles b1
           (GameState.setTile (GameState.setTile (GameState.tiles b1) i tile')
              (i + d) nextTile'), h1)
    else if mergeable tile nextTile then
      '(tile', nextTile', h2) ← Tile.mergeWith tile nextTile h1;
      let b2 := GameState.withTiles b1
           (GameState.setTile (GameState.setTile (GameState.tiles b1) i tile')
              (i + d) nextTile') in
      Some (GameState.withScore b2
              (GameState.score b2 + default 0 (Tile.scoreValue nextTile')), h2)
    else Some s1
  else Some s.
Proof. reflexivity. Qed.

Lemma gstep_shape s s' :
  gstep d s s' →
  sameDims (fst s) (fst s') ∧
  length (GameState.tiles (fst s')) = length (GameState.tiles (fst s)) ∧
  GameState.targetTileLevel (fst s') = GameState.targetTileLevel (fst s) ∧
  GameState.status (fst s') = GameState.status (fst s).
Proof.
  destruct 1; simpl; unfold sameDims, GameState.setTile; simpl;
    rewrite !length_insert; done.
Qed.

Lemma gsteps_shape s s' :
  rtc (gstep d) s s' →
  sameDims (fst s) (fst s') ∧
  length (GameState.tiles (fst s')) = length (GameState.tiles (fst s)) ∧
  GameState.targetTileLevel (fst s') = GameState.targetTileLevel (fst s) ∧
  GameState.status (fst s') = GameState.status (fst s).
Proof.
  induction 1 as [|s s1 s2 H1 _ IH]; [by unfold sameDims|].
  apply gstep_shape in H1. unfold sameDims in *. intuition congruence.
Qed.

Lemma tileAt_is_Some ts i :
  is_Some (GameState.tileAt ts i) ↔ 0 <= i < Z.of_nat (length ts).
Proof.
  unfold GameState.tileAt. destruct (Z.leb_spec 0 i).
  - rewrite lookup_lt_is_Some. lia.
  - split; [intros [? ?]; discriminate|lia].
Qed.

Lemma tileAt_same_length ts ts' i :
  length ts' = length ts →
  is_Some (GameState.tileAt ts i) → is_Some (GameState.tileAt ts' i).
Proof. rewrite !tileAt_is_Some. lia. Qed.

Lemma tileAt_setTile2 ts i j x y k :
  0 <= i → 0 <= j → k ≠ i → k ≠ j →
  GameState.tileAt (GameState.setTile (GameState.setTile ts i x) j y) k =
  GameState.tileAt ts k.
Proof.
  intros. rewrite !tileAt_setTile_ne by done. done.
Qed.

Lemma mergeWith_nonempty x y h x' y' h' :
  Tile.mergeWith x y h = Some (x', y', h') → Tile.isEmpty x = false →
  x' = Tile.reset x ∧
  y' = {| Tile.index := Tile.index y;
          Tile.level := Some (S (Tile.levelNumber y));
          Tile.prevIndex := Tile.prevIndex y;
          Tile.prevLevel := Tile.prevLevel y;
          Tile.status := TileStatus.Merged |}.
Proof.
  unfold Tile.mergeWith. intros H He. rewrite He in H. simpl in H.
  destruct (Tile.prevIndex y); simpl in H; [|done].
  destruct (Tile.prevIndex x); simpl in H; [|done].
  destruct (first _ h); simpl in H; [|done].
  destruct (push _ _ h); simpl in H; [|done].
  destruct (Tile.prevLevel y); simpl in H; [|done].
  destruct (Tile.prevLevel x); simpl in H; [|done].
  destruct (first _ _); simpl in H; [|done].
  destruct (push _ _ _); simpl in H; [|done].
  by injection H as <- <- <-.
Qed.

Lemma mergeable_true x y :
  mergeable x y = true →
  Tile.ableToMerge x = true ∧ Tile.ableToMerge y = true ∧
  Tile.level x = Tile.level y.
Proof.
  unfold mergeable. rewrite !andb_true_iff, bool_decide_eq_true. tauto.
Qed.

Lemma ableToMerge_nonempty x : Tile.ableToMerge x = true → Tile.isEmpty x = false.
Proof. rewrite ableToMerge_true, isEmpty_false. tauto. Qed.

(** What one call does: a sequence of elementary steps, after which the
    walked cells are packed; cells behind the start are not touched. *)
Lemma gravitateTile_run fuel : ∀ i s s',
  0 <= i → MergedSettled d (fst s) →
  is_Some (GameState.tileAt (GameState.tiles (fst s)) i) →
  GameState.gravitateTile fuel i d s = Some s' →
  rtc (gstep d) s s' ∧ MergedSettled d (fst s') ∧ Packed d (fst s') i ∧
  (∀ k, behind d i k →
     GameState.tileAt (GameState.tiles (fst s')) k =
     GameState.tileAt (GameState.tiles (fst s)) k).
Proof.
  induction fuel as [|fuel IH]; intros i [b h] s' Hi HG Hex Hrun; [discriminate|].
  rewrite gravitateTile_S in Hrun. simpl fst in *.
  destruct (guard d b i) eqn:Hg.
  2:{ injection Hrun as <-. split; [apply rtc_refl|]. split; [done|]. split; [|done].
      destruct Hex as [x Hx]. destruct (Tile.isEmpty x) eqn:He.
      - by eapply Packed_edge.
      - apply Packed_settled. by eapply Settled_edge. }
  pose proof (guard_nonzero _ _ _ Hg) as Hd0.
  pose proof (guard_inside _ _ _ Hg) as Hin.
  destruct (GameState.tileAt (GameState.tiles b) (i + d)) as [y0|] eqn:Hy0;
    simpl in Hrun; [|discriminate].
  (* the state after the first recursive call *)
  assert (∃ b1 h1,
    rtc (gstep d) (b, h) (b1, h1) ∧ MergedSettled d b1 ∧
    (∀ k, behind d (i + d) k →
       GameState.tileAt (GameState.tiles b1) k = GameState.tileAt (GameState.tiles b) k) ∧
    (∀ y, GameState.tileAt (GameState.tiles b1) (i + d) = Some y →
          Tile.isEmpty y = false → Settled d b1 (i + d)) ∧
    (let '(b1, h1) := (b1, h1) in
     tile ← GameState.tileAt (GameState.tiles b1) i;
     nextTile ← GameState.tileAt (GameState.tiles b1) (i + d);
     if Tile.isEmpty nextTile then
       let '(tile', nextTile') := Tile.moveTo tile nextTile in
       GameState.gravitateTile fuel (i + d) d
         (GameState.withTiles b1
            (GameState.setTile (GameState.setTile (GameState.tiles b1) i tile')
               (i + d) nextTile'), h1)
     else if mergeable tile nextTile then
       '(tile', nextTile', h2) ← Tile.mergeWith tile nextTile h1;
       let b2 := GameState.withTiles b1
            (GameState.setTile (GameState.setTile (GameState.tiles b1) i tile')
               (i + d) nextTile') in
       Some (GameState.withScore b2
               (GameState.score b2 + default 0 (Tile.scoreValue nextTile')), h2)
     else Some (b1, h1)) = Some s') as (b1 & h1 & Hsteps1 & HG1 & Hfr1 & Hset1 & Hrun1).
  { destruct (Tile.isEmpty y0) eqn:He0; simpl in Hrun.
    - exists b, h. split; [apply rtc_refl|]. split; [done|]. split; [done|].
      split; [|done]. intros y Hy. congruence.
    - destruct (GameState.gravitateTile fuel (i + d) d (b, h)) as [[b1 h1]|] eqn:Hrec;
        simpl in Hrun; [|discriminate].
      apply IH in Hrec as (Hr & HG1 & HP1 & Hfr1); [|lia|done|simpl; by rewrite Hy0].
      exists b1, h1. split; [done|]. split; [done|]. split; [done|]. split; [|done].
      intros y Hy Hne. by eapply Packed_nonempty. }
  clear Hrun Hy0 y0.
  pose proof (gsteps_shape _ _ Hsteps1) as (Hd1 & Hlen1 & _). simpl in Hd1, Hlen1.
  pose proof (guard_sameDims d b b1 i Hd1) as Hg1. rewrite Hg in Hg1.
  destruct (GameState.tileAt (GameState.tiles b1) i) as [x|] eqn:Hx; simpl in Hrun1.
  2:{ apply (tileAt_same_length _ (GameState.tiles b1)) in Hex; [|done].
      rewrite Hx in Hex. by destruct Hex. }
  destruct (GameState.tileAt (GameState.tiles b1) (i + d)) as [y|] eqn:Hy;
    simpl in Hrun1; [|discriminate].
  assert (Hframe0 : ∀ k, behind d i k →
     GameState.tileAt (GameState.tiles b1) k = GameState.tileAt (GameState.tiles b) k).
  { intros k [Hk1 Hk2]. apply Hfr1. split; lia. }
  destruct (Tile.isEmpty y) eqn:Hey.
  - (* the next cell is free: slide into it and go on from there *)
    assert (Hnot : ¬ Settled d b1 i).
    { intros HS. pose proof (Settled_next_nonempty _ _ _ _ HS Hg1 Hy). congruence. }
    set (b2 := GameState.withTiles b1
            (GameState.setTile (GameState.setTile (GameState.tiles b1) i
               (fst (Tile.moveTo x y))) (i + d) (snd (Tile.moveTo x y)))).
    assert (Hrun2 : GameState.gravitateTile fuel (i + d) d (b2, h1) = Some s').
    { subst b2. destruct (Tile.moveTo x y). exact Hrun1. }
    clear Hrun1.
    assert (Hx2 : ∃ x2, GameState.tileAt (GameState.tiles b2) i = Some x2 ∧
                        Tile.isEmpty x2 = true).
    { exists (fst (Tile.moveTo x y)). split.
      - subst b2. simpl. rewrite tileAt_setTile_ne by lia.
        by eapply tileAt_setTile_eq.
      - unfold Tile.moveTo. destruct (Tile.isEmpty x) eqn:Hex'; simpl; done. }
    assert (Hother : ∀ k, k ≠ i → k ≠ i + d →
      GameState.tileAt (GameState.tiles b2) k = GameState.tileAt (GameState.tiles b1) k).
    { intros k ? ?. subst b2. simpl. apply tileAt_setTile2; lia. }
    assert (Hsteps2 : rtc (gstep d) (b1, h1) (b2, h1)).
    { destruct (Tile.isEmpty x) eqn:Hex'.
      - subst b2. unfold Tile.moveTo. rewrite Hex'. simpl.
        rewrite (setTile_id _ i x) by done. rewrite (setTile_id _ (i + d) y) by done.
        rewrite withTiles_id. apply rtc_refl.
      - apply rtc_once. subst b2.
        destruct (Tile.moveTo x y) as [x' y'] eqn:Hmv. simpl.
        eapply (gstep_move d b1 h1 i x y x' y'); try done.
        intros HM. apply Hnot. by eapply HG1. }
    assert (HG2 : MergedSettled d b2).
    { intros j z Hz HM.
      assert (j ≠ i).
      { intros ->. destruct Hx2 as (x2 & Hx2 & He2). rewrite Hx2 in Hz.
        injection Hz as <-. apply isEmpty_true in He2. congruence. }
      assert (j ≠ i + d).
      { intros ->. subst b2. simpl in Hz.
        erewrite tileAt_setTile_eq in Hz.
        2:{ rewrite tileAt_setTile_ne by lia. done. }
        injection Hz as <-. unfold Tile.moveTo in HM.
        destruct (Tile.isEmpty x); simpl in HM; [|done].
        apply isEmpty_true in Hey. congruence. }
      rewrite Hother in Hz by done.
      eapply Settled_update; [by eapply HG1|exact Hnot|done|by subst b2|done]. }
    apply IH in Hrun2 as (Hr3 & HG3 & HP3 & Hfr3); [|lia|done|].
    2:{ simpl. apply (tileAt_same_length (GameState.tiles b1)).
        - subst b2. simpl. unfold GameState.setTile. by rewrite !length_insert.
        - by rewrite Hy. }
    simpl fst in *.
    pose proof (gsteps_shape _ _ Hr3) as (Hd3 & _). simpl in Hd3.
    split; [by do 2 (etrans; [eassumption|])|]. split; [done|]. split.
    + destruct Hx2 as (x2 & Hx2 & He2).
      eapply Packed_cons with (x := x2); [|done| |done].
      * rewrite Hfr3; [done|split; lia].
      * rewrite (guard_sameDims d b2) by done. by subst b2.
    + intros k Hk. destruct Hk as [Hk1 Hk2].
      rewrite Hfr3 by (split; lia). rewrite Hother by lia. apply Hframe0. by split.
  - destruct (mergeable x y) eqn:Hm.
    + (* merge into the next tile *)
      destruct (Tile.mergeWith x y h1) as [[[x' y'] h2]|] eqn:HM; simpl in Hrun1;
        [|discriminate].
      injection Hrun1 as <-. simpl fst.
      pose proof (mergeable_true _ _ Hm) as (Hax & Hay & Hlv).
      pose proof (mergeWith_nonempty _ _ _ _ _ _ HM (ableToMerge_nonempty _ Hax))
        as [-> ->].
      assert (Hnot : ¬ Settled d b1 i).
      { intros HS. pose proof (Settled_not_mergeable _ _ _ _ _ HS Hg1 Hx Hy). congruence. }
      set (y' := {| Tile.index := Tile.index y;
                    Tile.level := Some (S (Tile.levelNumber y));
                    Tile.prevIndex := Tile.prevIndex y;
                    Tile.prevLevel := Tile.prevLevel y;
                    Tile.status := TileStatus.Merged |}) in *.
      set (ts2 := GameState.setTile (GameState.setTile (GameState.tiles b1) i
                    (Tile.reset x)) (i + d) y').
      assert (Hx2 : GameState.tileAt ts2 i = Some (Tile.reset x)).
      { subst ts2. rewrite tileAt_setTile_ne by lia. by eapply tileAt_setTile_eq. }
      assert (Hy2 : GameState.tileAt ts2 (i + d) = Some y').
      { subst ts2. eapply tileAt_setTile_eq. rewrite tileAt_setTile_ne by lia. done. }
      assert (Hother : ∀ k, k ≠ i → k ≠ i + d →
        GameState.tileAt ts2 k = GameState.tileAt (GameState.tiles b1) k).
      { intros k ? ?. subst ts2. apply tileAt_setTile2; lia. }
      assert (HS2 : ∀ sc, Settled d
                (GameState.withScore (GameState.withTiles b1 ts2) sc) (i + d)).
      { intros sc. eapply Settled_head with (b := b1) (i := i) (y' := y'); eauto.
        by unfold sameDims. }
      split.
      { etrans; [eassumption|]. apply rtc_once. eapply gstep_merge; eauto. }
      split; [|split].
      * intros j z Hz HMz. simpl in Hz.
        destruct (decide (j = i + d)) as [->|Hj]; [apply HS2|].
        assert (j ≠ i).
        { intros ->. rewrite Hx2 in Hz. by injection Hz as <-. }
        rewrite Hother in Hz by done.
        eapply Settled_update; [by eapply HG1|exact Hnot|done|by unfold sameDims|done].
      * eapply Packed_cons with (x := Tile.reset x); [done|done| |].
        -- rewrite <- Hg1. apply guard_sameDims. by unfold sameDims.
        -- apply Packed_settled, HS2.
      * intros k Hk. simpl. destruct Hk as [Hk1 Hk2].
        rewrite Hother by lia. apply Hframe0. by split.
    + (* blocked *)
      injection Hrun1 as <-. simpl fst.
      split; [done|]. split; [done|]. split; [|done].
      destruct (Tile.isEmpty x) eqn:Hex'.
      * eapply Packed_cons; eauto. apply Packed_settled. eauto.
      * apply Packed_settled. eapply Settled_cons; eauto.
Qed.

End Run.
(** * The first loop of [gravitate] *)

Lemma addr_S ts0 h0 k x0 :
  ts0 !! k = Some x0 →
  addr ts0 h0 (S k) =
  if decide (occupied x0) then (addr ts0 h0 k + 2)%nat else addr ts0 h0 k.
Proof.
  intros Hk. unfold addr. rewrite (take_S_r _ _ _ Hk), filter_app, length_app.
  rewrite filter_cons, filter_nil. destruct (decide (occupied x0)); simpl; lia.
Qed.

Lemma addr_mono ts0 h0 k k' : (k ≤ k')%nat → (addr ts0 h0 k ≤ addr ts0 h0 k')%nat.
Proof.
  intros Hle. unfold addr.
  rewrite <- (take_drop k (take k' ts0)), take_take, Nat.min_l by done.
  rewrite filter_app, length_app. lia.
Qed.

Lemma addr_lt ts0 h0 k k' x0 :
  (k < k')%nat → ts0 !! k = Some x0 → occupied x0 →
  (addr ts0 h0 k + 2 ≤ addr ts0 h0 k')%nat.
Proof.
  intros Hlt Hk Hocc. pose proof (addr_mono ts0 h0 (S k) k' ltac:(lia)) as H.
  rewrite (addr_S _ _ _ _ Hk) in H. by rewrite decide_True in H.
Qed.

Lemma Prepared_start b h : Prepared b h 0 (b, h).
Proof.
  unfold Prepared; cbn [fst snd]. split; [by rewrite withTiles_id|]. split; [done|].
  split; [exists []; by rewrite app_nil_r|]. split; [unfold addr; simpl; lia|].
  intros k x0 Hk. rewrite decide_False by lia. done.
Qed.

Lemma prepare_loop_Prepared b0 h0 n : ∀ a s s',
  Prepared b0 h0 a s →
  GameState.prepare_loop (seq a n) s = Some s' →
  Prepared b0 h0 (a + n) s'.
Proof.
  induction n as [|n IH]; intros a s s' HP Hrun; simpl in Hrun.
  { injection Hrun as <-. by rewrite Nat.add_0_r. }
  destruct (GameState.tiles (fst s) !! a) as [x|] eqn:Hx; simpl in Hrun; [|done].
  destruct (Tile.prepareForMove x (snd s)) as [x' h'] eqn:Hprep.
  replace (a + S n)%nat with (S a + n)%nat by lia.
  eapply IH; [|exact Hrun]. clear IH Hrun.
  destruct s as [b h]. destruct HP as (Hb & Hlen & [hn Hh] & Hal & Htiles).
  cbn [fst snd GameState.tiles GameState.withTiles] in *.
  assert (Hx0 : GameState.tiles b0 !! a = Some x).
  { destruct (GameState.tiles b0 !! a) as [x0|] eqn:Hx0.
    - specialize (Htiles _ _ Hx0). rewrite decide_False in Htiles by lia. congruence.
    - apply lookup_ge_None in Hx0. apply lookup_lt_Some in Hx. lia. }
  unfold Prepared; cbn [fst snd GameState.tiles GameState.withTiles].
  rewrite length_insert.
  split; [rewrite Hb; by destruct b0|]. split; [done|].
  unfold Tile.prepareForMove in Hprep.
  rewrite (addr_S _ _ _ _ Hx0).
  destruct (Tile.isEmpty x) eqn:He; simpl in Hprep.
  - injection Hprep as <- <-. apply isEmpty_true in He.
    rewrite decide_False by (intros Ho; by apply Ho).
    split; [by exists hn|]. split; [done|].
    intros k x0 Hk. specialize (Htiles _ _ Hk).
    rewrite list_insert_id by done.
    destruct (decide (k = a)) as [->|Hne].
    + rewrite decide_False in Htiles by lia. rewrite decide_False; [done|].
      intros [_ Ho]. unfold occupied in Ho. congruence.
    + destruct (decide ((k < a)%nat ∧ occupied x0)) as [[? ?]|Hn].
      * rewrite decide_True by (split; [lia|done]). done.
      * rewrite decide_False; [done|]. intros [? ?]. apply Hn. split; [lia|done].
  - injection Hprep as <- <-. apply isEmpty_false in He.
    rewrite decide_True by done.
    split; [exists (hn ++ [[Some (Tile.index x)]] ++ [[Tile.level x]]);
            rewrite Hh; by rewrite <- !app_assoc|].
    split; [rewrite !length_app; simpl; lia|].
    intros k x0 Hk. specialize (Htiles _ _ Hk).
    destruct (decide (k = a)) as [->|Hne].
    + rewrite decide_False in Htiles by lia.
      assert (x0 = x) by congruence. subst x0.
      rewrite decide_True by (split; [lia|done]).
      rewrite list_lookup_insert_eq by (by eapply lookup_lt_Some).
      rewrite <- Hal. split.
      { unfold prepared. rewrite length_app. simpl.
        by replace (length h + 1)%nat with (S (length h)) by lia. }
      split.
      * rewrite lookup_app_l by (rewrite length_app; simpl; lia).
        rewrite lookup_app_r by lia. by rewrite Nat.sub_diag.
      * rewrite lookup_app_r by (rewrite length_app; simpl; lia).
        rewrite length_app. simpl.
        by replace (S (length h) - (length h + 1))%nat with 0%nat by lia.
    + rewrite list_lookup_insert_ne by done.
      destruct (decide ((k < a)%nat ∧ occupied x0)) as [[Hka Ho]|Hn].
      * rewrite decide_True by (split; [lia|done]).
        destruct Htiles as (Ht & Hp & Hq). split; [done|].
        pose proof (addr_lt _ h0 _ _ _ Hka Hk Ho) as Hlt. rewrite <- Hal in Hlt.
        rewrite <- app_assoc.
        rewrite !lookup_app_l by lia. done.
      * rewrite decide_False; [done|]. intros [? ?]. apply Hn. split; [lia|done].
Qed.
(** * The two loops of [gravitate] together *)

Lemma Prepared_no_Merged b0 h0 s :
  shaped b0 → Prepared b0 h0 (Z.to_nat (GameState.boardSize b0)) s →
  ∀ k x, GameState.tiles (fst s) !! k = Some x →
         Tile.status x = TileStatus.Empty ∨ Tile.status x = TileStatus.Still.
Proof.
  intros Hsh (_ & Hlen & _ & _ & Ht) k x Hx.
  destruct (GameState.tiles b0 !! k) as [x0|] eqn:Hx0.
  - specialize (Ht _ _ Hx0).
    destruct (decide _) as [[_ Ho]|Hn].
    + destruct Ht as (Ht & _). rewrite Ht in Hx. injection Hx as <-. by right.
    + rewrite Ht in Hx. injection Hx as <-. left.
      destruct (decide (Tile.status x0 = TileStatus.Empty)); [done|].
      exfalso. apply Hn. split; [|done].
      apply lookup_lt_Some in Hx0. unfold shaped in Hsh. lia.
  - apply lookup_ge_None in Hx0. apply lookup_lt_Some in Hx. lia.
Qed.

Lemma gravitate_loop_run d fuel idxs : ∀ s s',
  MergedSettled d (fst s) →
  (∀ k, k ∈ idxs → (k < length (GameState.tiles (fst s)))%nat) →
  GameState.gravitate_loop fuel d idxs s = Some s' →
  rtc (gstep d) s s' ∧ MergedSettled d (fst s').
Proof.
  induction idxs as [|k idxs IH]; intros s s' HG Hin Hrun; simpl in Hrun.
  { injection Hrun as <-. split; [apply rtc_refl|done]. }
  destruct (GameState.gravitateTile fuel (Z.of_nat k) d s) as [s1|] eqn:H1;
    simpl in Hrun; [|done].
  apply gravitateTile_run in H1 as (Hr1 & HG1 & _); [|lia|done|].
  2:{ rewrite tileAt_nat. apply lookup_lt_is_Some, Hin. by left. }
  pose proof (gsteps_shape _ _ _ Hr1) as (_ & Hlen & _).
  apply IH in Hrun as (Hr2 & HG2); [|done|].
  - split; [by etrans|done].
  - intros j Hj. rewrite Hlen. apply Hin. by right.
Qed.

(** [gravitate] is the first loop followed by elementary steps. *)
Lemma gravitate_inv dir b h s' :
  shaped b → GameState.gravitate dir (b, h) = Some s' →
  ∃ s1, GameState.prepare_loop (GameState.indices b) (b, h) = Some s1 ∧
        Prepared b h (Z.to_nat (GameState.boardSize b)) s1 ∧
        rtc (gstep (GameState.indexChange b dir)) s1 s' ∧
        MergedSettled (GameState.indexChange b dir) (fst s').
Proof.
  intros Hsh Hrun. unfold GameState.gravitate in Hrun. cbn [fst] in Hrun.
  destruct (GameState.prepare_loop (GameState.indices b) (b, h)) as [s1|] eqn:Hp;
    simpl in Hrun; [|done].
  unfold GameState.indices in *.
  pose proof (prepare_loop_Prepared b h _ 0 _ _ (Prepared_start b h) Hp) as HP.
  simpl in HP. exists s1. split; [done|]. split; [done|].
  assert (HG1 : MergedSettled (GameState.indexChange b dir) (fst s1)).
  { intros i x [_ Hx]%tileAt_Some HM.
    destruct (Prepared_no_Merged _ _ _ Hsh HP _ _ Hx); congruence. }
  destruct HP as (_ & Hlen & _).
  eapply gravitate_loop_run; [done| |done].
  intros k Hk%elem_of_seq. rewrite Hlen. unfold shaped in Hsh. lia.
Qed.

(** * Invariants of the elementary steps *)

Lemma tiles_setTile2_lookup ts i j x y k z :
  0 <= i → 0 <= j → i ≠ j →
  GameState.tileAt ts i = Some x → GameState.tileAt ts j = Some y →
  ∀ x' y',
  GameState.setTile (GameState.setTile ts i x') j y' !! k = Some z →
  (k = Z.to_nat j ∧ z = y') ∨ (k = Z.to_nat i ∧ z = x') ∨
  (k ≠ Z.to_nat i ∧ k ≠ Z.to_nat j ∧ ts !! k = Some z).
Proof.
  intros Hi Hj Hne [_ Hx]%tileAt_Some [_ Hy]%tileAt_Some x' y' Hz.
  unfold GameState.setTile in Hz.
  destruct (decide (k = Z.to_nat j)) as [->|Hkj].
  - rewrite list_lookup_insert_eq in Hz.
    + left. split; [done|congruence].
    + rewrite length_insert. by eapply lookup_lt_Some.
  - rewrite list_lookup_insert_ne in Hz by done.
    destruct (decide (k = Z.to_nat i)) as [->|Hki].
    + rewrite list_lookup_insert_eq in Hz by (by eapply lookup_lt_Some).
      right; left. split; [done|congruence].
    + rewrite list_lookup_insert_ne in Hz by done. by right; right.
Qed.

Lemma moveTo_occupied x y :
  occupied x →
  Tile.moveTo x y =
  (Tile.reset x,
   {| Tile.index := Tile.index y; Tile.level := Tile.level x;
      Tile.prevIndex := Tile.prevIndex x; Tile.prevLevel := Tile.prevLevel x;
      Tile.status := TileStatus.Moved |}).
Proof.
  intros Ho. unfold Tile.moveTo. apply isEmpty_false in Ho. by rewrite Ho.
Qed.

Lemma TilesWf_gstep d s s' :
  gstep d s s' → TilesWf (GameState.tiles (fst s)) → TilesWf (GameState.tiles (fst s')).
Proof.
  destruct 1 as [b h i x y x' y' Hi Hx Hy Hg Hex HnM Hey Hmv
                |b h i x y x' y' h' Hi Hx Hy Hg Hm HS HM]; intros Hwf k z Hz;
    cbn [fst GameState.tiles GameState.withTiles GameState.withScore] in *.
  - pose proof (guard_nonzero _ _ _ Hg). pose proof (guard_inside _ _ _ Hg).
    apply isEmpty_false in Hex. rewrite (moveTo_occupied _ _ Hex) in Hmv.
    injection Hmv as <- <-.
    pose proof (tileAt_Some _ _ _ Hx) as [_ Hx']. pose proof (tileAt_Some _ _ _ Hy) as [_ Hy'].
    destruct (Hwf _ _ Hx') as [Hix Hlx]. destruct (Hwf _ _ Hy') as [Hiy Hly].
    eapply tiles_setTile2_lookup in Hz as [[-> ->]|[[-> ->]|(_ & _ & Hz)]];
      eauto; try lia; cbn.
    + split; [done|]. split; [done|]. intros HN. apply Hlx in HN. done.
    + done.
  - pose proof (guard_nonzero _ _ _ Hg). pose proof (guard_inside _ _ _ Hg).
    pose proof (mergeable_true _ _ Hm) as (Hax & Hay & Hlv).
    pose proof (mergeWith_nonempty _ _ _ _ _ _ HM (ableToMerge_nonempty _ Hax)) as [-> ->].
    pose proof (tileAt_Some _ _ _ Hx) as [_ Hx']. pose proof (tileAt_Some _ _ _ Hy) as [_ Hy'].
    destruct (Hwf _ _ Hx') as [Hix Hlx]. destruct (Hwf _ _ Hy') as [Hiy Hly].
    eapply tiles_setTile2_lookup in Hz as [[-> ->]|[[-> ->]|(_ & _ & Hz)]];
      eauto; try lia; cbn.
    + done.
    + done.
Qed.

Lemma TilesWf_gsteps d s s' :
  rtc (gstep d) s s' → TilesWf (GameState.tiles (fst s)) → TilesWf (GameState.tiles (fst s')).
Proof. induction 1; eauto using TilesWf_gstep. Qed.

Lemma mergedSum_insert ts k x y :
  ts !! k = Some x →
  mergedSum (<[k:=y]> ts) = mergedSum ts - mergedValue x + mergedValue y.
Proof.
  revert k. induction ts as [|z ts IH]; intros [|k] Hk; simpl in *; try done.
  - injection Hk as ->. lia.
  - rewrite (IH _ Hk). lia.
Qed.

Lemma mergedSum_nonneg ts : 0 <= mergedSum ts.
Proof.
  induction ts as [|z ts IH]; simpl; [done|].
  unfold mergedValue at 1. destruct (decide _); lia.
Qed.

Lemma mergedValue_not_Merged x :
  Tile.status x ≠ TileStatus.Merged → mergedValue x = 0.
Proof. intros H. unfold mergedValue. by rewrite decide_False. Qed.

(** A step adds to the score what it adds to the merged tiles. *)
Lemma score_gstep d s s' :
  gstep d s s' →
  GameState.score (fst s') - mergedSum (GameState.tiles (fst s')) =
  GameState.score (fst s) - mergedSum (GameState.tiles (fst s)).
Proof.
  destruct 1 as [b h i x y x' y' Hi Hx Hy Hg Hex HnM Hey Hmv
                |b h i x y x' y' h' Hi Hx Hy Hg Hm HS HM];
    cbn [fst GameState.tiles GameState.score GameState.withTiles GameState.withScore] in *.
  - pose proof (guard_nonzero _ _ _ Hg).
    apply isEmpty_false in Hex. rewrite (moveTo_occupied _ _ Hex) in Hmv.
    injection Hmv as <- <-.
    pose proof (tileAt_Some _ _ _ Hx) as [_ Hx']. pose proof (tileAt_Some _ _ _ Hy) as [Hi' Hy'].
    unfold GameState.setTile.
    rewrite (mergedSum_insert _ _ y), (mergedSum_insert _ _ x); [|done|].
    2:{ rewrite list_lookup_insert_ne by lia. done. }
    apply isEmpty_true in Hey.
    repeat (rewrite mergedValue_not_Merged by (cbn; congruence)). lia.
  - pose proof (guard_nonzero _ _ _ Hg).
    pose proof (mergeable_true _ _ Hm) as (Hax & Hay & Hlv).
    pose proof (mergeWith_nonempty _ _ _ _ _ _ HM (ableToMerge_nonempty _ Hax)) as [-> ->].
    pose proof (tileAt_Some _ _ _ Hx) as [_ Hx']. pose proof (tileAt_Some _ _ _ Hy) as [Hi' Hy'].
    unfold GameState.setTile.
    rewrite (mergedSum_insert _ _ y), (mergedSum_insert _ _ x); [|done|].
    2:{ rewrite list_lookup_insert_ne by lia. done. }
    apply ableToMerge_true in Hax as [? ?]. apply ableToMerge_true in Hay as [? ?].
    rewrite (mergedValue_not_Merged x), (mergedValue_not_Merged y),
      (mergedValue_not_Merged (Tile.reset x)) by (cbn; congruence).
    unfold mergedValue, Tile.scoreValue, Tile.isEmpty. cbn.
    rewrite bool_decide_eq_false_2 by done. rewrite decide_True by done.
    cbn. lia.
Qed.

Lemma score_gsteps d s s' :
  rtc (gstep d) s s' →
  GameState.score (fst s') - mergedSum (GameState.tiles (fst s')) =
  GameState.score (fst s) - mergedSum (GameState.tiles (fst s)).
Proof.
  induction 1 as [|s s1 s2 H1 _ IH]; [done|].
  rewrite IH. by eapply score_gstep.
Qed.

(** * Histories along the elementary steps *)

Lemma push_lookup p v (h h' : list (list (option nat))) :
  push p v h = Some h' →
  ∃ a, h !! p = Some a ∧ h' !! p = Some (a ++ [v]) ∧
       length h' = length h ∧ ∀ l, l ≠ p → h' !! l = h !! l.
Proof.
  unfold push. destruct (h !! p) as [a|] eqn:Ha; simpl; [|done].
  intros [= <-]. exists a. split; [done|]. split.
  - apply list_lookup_insert_eq. by eapply lookup_lt_Some.
  - split; [by rewrite length_insert|]. intros l Hl.
    by apply list_lookup_insert_ne.
Qed.

Lemma first_lookup p (h : list (list (option nat))) a :
  h !! p = Some a → first p h = Some (default None (a !! 0%nat)).
Proof. unfold first. by intros ->. Qed.

(** What [mergeWith] does to the heap when the four arrays are distinct
    one-element arrays. *)
Lemma mergeWith_heap x y h x' y' h' px qx py qy vx wx vy wy :
  Tile.mergeWith x y h = Some (x', y', h') → occupied x →
  Tile.prevIndex x = Some px → Tile.prevLevel x = Some qx →
  Tile.prevIndex y = Some py → Tile.prevLevel y = Some qy →
  py ≠ qy → qx ≠ py →
  h !! px = Some [vx] → h !! qx = Some [wx] →
  h !! py = Some [vy] → h !! qy = Some [wy] →
  h' !! py = Some [vy; vx] ∧ h' !! qy = Some [wy; wx] ∧
  length h' = length h ∧
  ∀ l, l ≠ py → l ≠ qy → h' !! l = h !! l.
Proof.
  intros HM Ho Hpx Hqx Hpy Hqy Hne1 Hne2 Hvx Hwx Hvy Hwy.
  unfold Tile.mergeWith in HM. apply isEmpty_false in Ho. rewrite Ho in HM.
  cbn [negb] in HM. rewrite Hpx, Hqx, Hpy, Hqy in HM. cbn in HM.
  rewrite (first_lookup _ _ _ Hvx) in HM. cbn in HM.
  destruct (push py vx h) as [h1|] eqn:Hp1; cbn in HM; [|done].
  apply push_lookup in Hp1 as (a1 & Ha1 & Ha1' & Hl1 & Ho1).
  rewrite Hvy in Ha1. injection Ha1 as <-.
  rewrite (first_lookup qx h1 [wx]) in HM by (rewrite Ho1; done). cbn in HM.
  destruct (push qy wx h1) as [h2|] eqn:Hp2; cbn in HM; [|done].
  apply push_lookup in Hp2 as (a2 & Ha2 & Ha2' & Hl2 & Ho2).
  rewrite Ho1 in Ha2 by done. rewrite Hwy in Ha2. injection Ha2 as <-.
  injection HM as _ _ <-.
  split; [rewrite Ho2 by done; done|]. split; [done|]. split; [lia|].
  intros l ? ?. rewrite Ho2, Ho1 by done. done.
Qed.

Lemma Truthful_not_Merged ts0 h x p q :
  Tile.status x ≠ TileStatus.Merged → Truthful ts0 h x p q →
  ∃ a xa, ts0 !! a = Some xa ∧ occupied xa ∧
          h !! p = Some [Some (Tile.index xa)] ∧
          h !! q = Some [Tile.level xa] ∧ Tile.level x = Tile.level xa.
Proof. intros H. unfold Truthful. by rewrite decide_False. Qed.

Lemma Truthful_heap ts0 (h h' : list (list (option nat))) x p q :
  h' !! p = h !! p → h' !! q = h !! q →
  Truthful ts0 h x p q → Truthful ts0 h' x p q.
Proof. unfold Truthful. intros -> ->. done. Qed.

Lemma HistOK_gstep d ts0 n0 s s' :
  gstep d s s' → HistOK ts0 n0 s →
  HistOK ts0 n0 s' ∧ length (snd s') = length (snd s) ∧
  ∀ l, (l < n0)%nat → snd s' !! l = snd s !! l.
Proof.
  destruct 1 as [b h i x y x' y' Hi Hx Hy Hg Hex HnM Hey Hmv
                |b h i x y x' y' h' Hi Hx Hy Hg Hm HS HM]; intros [HT HSep];
    cbn [fst snd GameState.tiles GameState.withTiles GameState.withScore] in *.
  - split; [|done].
    pose proof (guard_nonzero _ _ _ Hg) as Hd0. pose proof (guard_inside _ _ _ Hg) as Hin.
    apply isEmpty_false in Hex. rewrite (moveTo_occupied _ _ Hex) in Hmv.
    injection Hmv as <- <-.
    pose proof (tileAt_Some _ _ _ Hx) as [_ Hx']. pose proof (tileAt_Some _ _ _ Hy) as [_ Hy'].
    assert (Hij : Z.to_nat i ≠ Z.to_nat (i + d)) by lia.
    destruct (HT _ _ Hx' Hex) as (p & q & Hp & Hq & Hpq & Hnp & Hnq & HTx).
    split.
    + intros j z Hz Hoz.
      eapply tiles_setTile2_lookup in Hz as [[-> ->]|[[-> ->]|(_ & _ & Hz)]];
        eauto; try lia.
      * exists p, q. cbn. do 5 (split; [done|]).
        unfold Truthful in *. cbn. rewrite decide_False by done.
        by rewrite decide_False in HTx by done.
      * by destruct Hoz.
    + intros j1 j2 x1 x2 p1 q1 p2 q2 Hj H1 H2 Ho1 Ho2 Hp1 Hq1 Hp2 Hq2.
      eapply tiles_setTile2_lookup in H1 as [[-> ->]|[[-> ->]|(? & ? & H1)]];
        eauto; try lia;
      eapply tiles_setTile2_lookup in H2 as [[-> ->]|[[-> ->]|(? & ? & H2)]];
        eauto; try lia; try done; try (by destruct Ho1); try (by destruct Ho2).
  - pose proof (guard_nonzero _ _ _ Hg) as Hd0. pose proof (guard_inside _ _ _ Hg) as Hin.
    pose proof (mergeable_true _ _ Hm) as (Hax & Hay & Hlv).
    pose proof (mergeWith_nonempty _ _ _ _ _ _ HM (ableToMerge_nonempty _ Hax)) as [-> ->].
    pose proof (tileAt_Some _ _ _ Hx) as [_ Hx']. pose proof (tileAt_Some _ _ _ Hy) as [_ Hy'].
    assert (Hij : Z.to_nat i ≠ Z.to_nat (i + d)) by lia.
    apply ableToMerge_true in Hax as [HxM Hox]. apply ableToMerge_true in Hay as [HyM Hoy].
    destruct (HT _ _ Hx' Hox) as (px & qx & Hpx & Hqx & Hpqx & Hnpx & Hnqx & HTx).
    destruct (HT _ _ Hy' Hoy) as (py & qy & Hpy & Hqy & Hpqy & Hnpy & Hnqy & HTy).
    apply Truthful_not_Merged in HTx as (a & xa & Hxa & Hoa & Hha & Hla & Hlxa); [|done].
    apply Truthful_not_Merged in HTy as (c & xc & Hxc & Hoc & Hhc & Hlc & Hlyc); [|done].
    destruct (HSep _ _ _ _ _ _ _ _ Hij Hx' Hy' Hox Hoy Hpx Hqx Hpy Hqy)
      as (Hs1 & Hs2 & Hs3 & Hs4).
    destruct (mergeWith_heap _ _ _ _ _ _ _ _ _ _ _ _ _ _ HM Hox Hpx Hqx Hpy Hqy
                Hpqy Hs3 Hha Hla Hhc Hlc) as (Hh1 & Hh2 & Hlen & Hoth).
    split; [|split; [done|]].
    2:{ intros l Hl. apply Hoth; lia. }
    split.
    + intros j z Hz Hoz.
      eapply tiles_setTile2_lookup in Hz as [[-> ->]|[[-> ->]|(Hji & Hjn & Hz)]];
        eauto; try lia.
      * exists py, qy. cbn. do 5 (split; [done|]).
        unfold Truthful. cbn. rewrite decide_True by done.
        exists c, a, xc, xa. do 6 (split; [done|]).
        split; [congruence|]. unfold Tile.levelNumber. by rewrite Hlyc.
      * by destruct Hoz.
      * destruct (HT _ _ Hz Hoz) as (p & q & Hp & Hq & Hpq & Hnp & Hnq & HTz).
        exists p, q. do 5 (split; [done|]).
        destruct (HSep _ _ _ _ _ _ _ _ Hjn Hz Hy' Hoz Hoy Hp Hq Hpy Hqy)
          as (? & ? & ? & ?).
        eapply Truthful_heap; [..|exact HTz]; by apply Hoth.
    + intros j1 j2 x1 x2 p1 q1 p2 q2 Hj H1 H2 Ho1 Ho2 Hp1 Hq1 Hp2 Hq2.
      eapply tiles_setTile2_lookup in H1 as [[-> ->]|[[-> ->]|(? & ? & H1)]];
        eauto; try lia;
      eapply tiles_setTile2_lookup in H2 as [[-> ->]|[[-> ->]|(? & ? & H2)]];
        eauto; try lia; try done; try (by destruct Ho1); try (by destruct Ho2).
Qed.

Lemma HistOK_gsteps d ts0 n0 s s' :
  rtc (gstep d) s s' → HistOK ts0 n0 s →
  HistOK ts0 n0 s' ∧ length (snd s') = length (snd s) ∧
  ∀ l, (l < n0)%nat → snd s' !! l = snd s !! l.
Proof.
  induction 1 as [|s s1 s2 H1 _ IH]; [done|]. intros H.
  destruct (HistOK_gstep _ _ _ _ _ H1 H) as (H' & Hl & Hf).
  destruct (IH H') as (H'' & Hl' & Hf').
  split; [done|]. split; [lia|]. intros l Hlt. rewrite Hf', Hf by done. done.
Qed.

(** * Sources of the histories *)

Lemma singleton_lookup {A} (v w : A) k : [v] !! k = Some w → k = 0%nat ∧ w = v.
Proof. destruct k; simpl; [by intros [= ->]|done]. Qed.

Lemma pair_lookup {A} (v1 v2 w : A) k :
  [v1; v2] !! k = Some w → (k = 0%nat ∧ w = v1) ∨ (k = 1%nat ∧ w = v2).
Proof.
  destruct k as [|[|k]]; simpl; [intros [= ->]; by left|intros [= ->]; by right|done].
Qed.

Lemma Orig_gstep d ts0 n0 s s' :
  gstep d s s' → HistOK ts0 n0 s → Orig s → Orig s'.
Proof.
  destruct 1 as [b h i x y x' y' Hi Hx Hy Hg Hex HnM Hey Hmv
                |b h i x y x' y' h' Hi Hx Hy Hg Hm HS HM]; intros [HT HSep] HO;
    unfold Orig in *;
    cbn [fst snd GameState.tiles GameState.withTiles GameState.withScore] in *.
  - pose proof (guard_nonzero _ _ _ Hg) as Hd0. pose proof (guard_inside _ _ _ Hg) as Hin.
    apply isEmpty_false in Hex. rewrite (moveTo_occupied _ _ Hex) in Hmv.
    injection Hmv as <- <-.
    pose proof (tileAt_Some _ _ _ Hx) as [_ Hx']. pose proof (tileAt_Some _ _ _ Hy) as [_ Hy'].
    assert (Hij : Z.to_nat i ≠ Z.to_nat (i + d)) by lia.
    intros j1 j2 x1 x2 p1 p2 a1 a2 k1 k2 v H1 H2 Ho1 Ho2 Hp1 Hp2 Ha1 Ha2 Hk1 Hk2.
    eapply tiles_setTile2_lookup in H1 as [[-> ->]|[[-> ->]|(? & ? & H1)]];
        eauto; try lia;
    eapply tiles_setTile2_lookup in H2 as [[-> ->]|[[-> ->]|(? & ? & H2)]];
        eauto; try lia; try (by destruct Ho1); try (by destruct Ho2); cbn in *.
    + destruct (HO _ _ _ _ _ _ _ _ _ _ _ Hx' Hx' Hex Hex Hp1 Hp2 Ha1 Ha2 Hk1 Hk2). done.
    + destruct (HO _ _ _ _ _ _ _ _ _ _ _ Hx' H2 Hex Ho2 Hp1 Hp2 Ha1 Ha2 Hk1 Hk2). lia.
    + destruct (HO _ _ _ _ _ _ _ _ _ _ _ H1 Hx' Ho1 Hex Hp1 Hp2 Ha1 Ha2 Hk1 Hk2). lia.
  - pose proof (guard_nonzero _ _ _ Hg) as Hd0. pose proof (guard_inside _ _ _ Hg) as Hin.
    pose proof (mergeable_true _ _ Hm) as (Hax & Hay & Hlv).
    pose proof (mergeWith_nonempty _ _ _ _ _ _ HM (ableToMerge_nonempty _ Hax)) as [-> ->].
    pose proof (tileAt_Some _ _ _ Hx) as [_ Hx']. pose proof (tileAt_Some _ _ _ Hy) as [_ Hy'].
    assert (Hij : Z.to_nat i ≠ Z.to_nat (i + d)) by lia.
    apply ableToMerge_true in Hax as [HxM Hox]. apply ableToMerge_true in Hay as [HyM Hoy].
    destruct (HT _ _ Hx' Hox) as (px & qx & Hpx & Hqx & Hpqx & Hnpx & Hnqx & HTx).
    destruct (HT _ _ Hy' Hoy) as (py & qy & Hpy & Hqy & Hpqy & Hnpy & Hnqy & HTy).
    apply Truthful_not_Merged in HTx as (a & xa & Hxa & Hoa & Hha & Hla & Hlxa); [|done].
    apply Truthful_not_Merged in HTy as (c & xc & Hxc & Hoc & Hhc & Hlc & Hlyc); [|done].
    destruct (HSep _ _ _ _ _ _ _ _ Hij Hx' Hy' Hox Hoy Hpx Hqx Hpy Hqy)
      as (Hs1 & Hs2 & Hs3 & Hs4).
    destruct (mergeWith_heap _ _ _ _ _ _ _ _ _ _ _ _ _ _ HM Hox Hpx Hqx Hpy Hqy
                Hpqy Hs3 Hha Hla Hhc Hlc) as (Hh1 & Hh2 & Hlen & Hoth).
    (* an entry of the merged history is an entry of one of the two old ones *)
    assert (Hnew : ∀ k v, [Some (Tile.index xc); Some (Tile.index xa)] !! k = Some v →
              (k = 0%nat ∧ [Some (Tile.index xc)] !! 0%nat = Some v) ∨
              (k = 1%nat ∧ [Some (Tile.index xa)] !! 0%nat = Some v)).
    { intros k v [[-> ->]|[-> ->]]%pair_lookup; [by left|by right]. }
    assert (Hold : ∀ j z p, j ≠ Z.to_nat (i + d) →
              GameState.tiles b !! j = Some z → occupied z →
              Tile.prevIndex z = Some p → h' !! p = h !! p).
    { intros j z p Hj Hz Hoz Hp.
      destruct (HT _ _ Hz Hoz) as (p' & q' & Hp' & Hq' & _).
      rewrite Hp in Hp'. injection Hp' as <-.
      destruct (HSep _ _ _ _ _ _ _ _ Hj Hz Hy' Hoz Hoy Hp Hq' Hpy Hqy) as (? & ? & ? & ?).
      by apply Hoth. }
    intros j1 j2 x1 x2 p1 p2 a1 a2 k1 k2 v H1 H2 Ho1 Ho2 Hp1 Hp2 Ha1 Ha2 Hk1 Hk2.
    eapply tiles_setTile2_lookup in H1 as [[-> ->]|[[-> ->]|(Hn1 & Hn1' & H1)]];
        eauto; try lia;
    eapply tiles_setTile2_lookup in H2 as [[-> ->]|[[-> ->]|(Hn2 & Hn2' & H2)]];
        eauto; try lia; try (by destruct Ho1); try (by destruct Ho2); cbn in *.
    + assert (p1 = py) by congruence. assert (p2 = py) by congruence. subst p1 p2.
      rewrite Hh1 in Ha1, Ha2. injection Ha1 as <-. injection Ha2 as <-.
      split; [done|].
      apply Hnew in Hk1 as [[-> Hk1]|[-> Hk1]]; apply Hnew in Hk2 as [[-> Hk2]|[-> Hk2]];
        try done.
      * destruct (HO _ _ _ _ _ _ _ _ 0%nat 0%nat v Hy' Hx' Hoy Hox Hpy Hpx Hhc Hha Hk1 Hk2). lia.
      * destruct (HO _ _ _ _ _ _ _ _ 0%nat 0%nat v Hx' Hy' Hox Hoy Hpx Hpy Hha Hhc Hk1 Hk2). lia.
    + assert (p1 = py) by congruence. subst p1.
      rewrite Hh1 in Ha1. injection Ha1 as <-.
      rewrite (Hold _ _ _ Hn2' H2 Ho2 Hp2) in Ha2.
      apply Hnew in Hk1 as [[-> Hk1]|[-> Hk1]].
      * destruct (HO _ _ _ _ _ _ _ _ 0%nat _ v Hy' H2 Hoy Ho2 Hpy Hp2 Hhc Ha2 Hk1 Hk2). lia.
      * destruct (HO _ _ _ _ _ _ _ _ 0%nat _ v Hx' H2 Hox Ho2 Hpx Hp2 Hha Ha2 Hk1 Hk2). lia.
    + assert (p2 = py) by congruence. subst p2.
      rewrite Hh1 in Ha2. injection Ha2 as <-.
      rewrite (Hold _ _ _ Hn1' H1 Ho1 Hp1) in Ha1.
      apply Hnew in Hk2 as [[-> Hk2]|[-> Hk2]].
      * destruct (HO _ _ _ _ _ _ _ _ _ 0%nat v H1 Hy' Ho1 Hoy Hp1 Hpy Ha1 Hhc Hk1 Hk2). lia.
      * destruct (HO _ _ _ _ _ _ _ _ _ 0%nat v H1 Hx' Ho1 Hox Hp1 Hpx Ha1 Hha Hk1 Hk2). lia.
    + rewrite (Hold _ _ _ Hn1' H1 Ho1 Hp1) in Ha1.
      rewrite (Hold _ _ _ Hn2' H2 Ho2 Hp2) in Ha2.
      eapply HO; eauto.
Qed.

Lemma Orig_gsteps d ts0 n0 s s' :
  rtc (gstep d) s s' → HistOK ts0 n0 s → Orig s → Orig s'.
Proof.
  induction 1 as [|s s1 s2 H1 _ IH]; [done|]. intros H HO.
  apply IH.
  - by eapply HistOK_gstep.
  - by eapply Orig_gstep.
Qed.

Lemma Clean_gstep d s s' :
  gstep d s s' → Clean (GameState.tiles (fst s)) → Clean (GameState.tiles (fst s')).
Proof.
  destruct 1 as [b h i x y x' y' Hi Hx Hy Hg Hex HnM Hey Hmv
                |b h i x y x' y' h' Hi Hx Hy Hg Hm HS HM]; intros Hc k z Hz;
    cbn [fst GameState.tiles GameState.withTiles GameState.withScore] in *.
  - pose proof (guard_nonzero _ _ _ Hg). pose proof (guard_inside _ _ _ Hg).
    apply isEmpty_false in Hex. rewrite (moveTo_occupied _ _ Hex) in Hmv.
    injection Hmv as <- <-.
    eapply tiles_setTile2_lookup in Hz as [[-> ->]|[[-> ->]|(_ & _ & Hz)]];
      eauto; try lia; cbn; try (split; [done|by intros ?]); eauto.
  - pose proof (guard_nonzero _ _ _ Hg). pose proof (guard_inside _ _ _ Hg).
    pose proof (mergeable_true _ _ Hm) as (Hax & Hay & Hlv).
    pose proof (mergeWith_nonempty _ _ _ _ _ _ HM (ableToMerge_nonempty _ Hax)) as [-> ->].
    eapply tiles_setTile2_lookup in Hz as [[-> ->]|[[-> ->]|(_ & _ & Hz)]];
      eauto; try lia; cbn; try (split; [done|by intros ?]); eauto.
Qed.

Lemma Clean_gsteps d s s' :
  rtc (gstep d) s s' → Clean (GameState.tiles (fst s)) → Clean (GameState.tiles (fst s')).
Proof. induction 1; eauto using Clean_gstep. Qed.

(** * What the first loop establishes *)

Lemma Prepared_lookup b0 h0 s k x :
  shaped b0 → Prepared b0 h0 (Z.to_nat (GameState.boardSize b0)) s →
  GameState.tiles (fst s) !! k = Some x →
  ∃ x0, GameState.tiles b0 !! k = Some x0 ∧
    ((¬ occupied x0 ∧ x = x0) ∨
     (occupied x0 ∧ x = prepared x0 (addr (GameState.tiles b0) h0 k) ∧
      snd s !! addr (GameState.tiles b0) h0 k = Some [Some (Tile.index x0)] ∧
      snd s !! S (addr (GameState.tiles b0) h0 k) = Some [Tile.level x0])).
Proof.
  intros Hsh (_ & Hlen & _ & _ & Ht) Hx.
  destruct (GameState.tiles b0 !! k) as [x0|] eqn:Hx0.
  2:{ apply lookup_ge_None in Hx0. apply lookup_lt_Some in Hx. lia. }
  exists x0. split; [done|]. specialize (Ht _ _ Hx0).
  destruct (decide _) as [[_ Ho]|Hn].
  - right. destruct Ht as (Ht & ? & ?). rewrite Ht in Hx. by injection Hx as <-.
  - left. rewrite Ht in Hx. injection Hx as <-. split; [|done].
    intros Ho. apply Hn. split; [|done].
    apply lookup_lt_Some in Hx0. unfold shaped in Hsh. lia.
Qed.

Lemma Prepared_TilesWf b0 h0 s :
  shaped b0 → Prepared b0 h0 (Z.to_nat (GameState.boardSize b0)) s →
  TilesWf (GameState.tiles b0) → TilesWf (GameState.tiles (fst s)).
Proof.
  intros Hsh HP Hwf k x Hx.
  destruct (Prepared_lookup _ _ _ _ _ Hsh HP Hx) as (x0 & Hx0 & [[_ ->]|(Ho & -> & _)]).
  - by apply Hwf.
  - destruct (Hwf _ _ Hx0) as [Hi Hl]. cbn. split; [done|].
    split; [done|]. intros HN. apply Hl in HN. by destruct Ho.
Qed.

Lemma Prepared_Clean b0 h0 s :
  shaped b0 → Prepared b0 h0 (Z.to_nat (GameState.boardSize b0)) s →
  EmptyClean (GameState.tiles b0) → Clean (GameState.tiles (fst s)).
Proof.
  intros Hsh HP Hc k x Hx.
  destruct (Prepared_lookup _ _ _ _ _ Hsh HP Hx) as (x0 & Hx0 & [[Hn ->]|(Ho & -> & _)]).
  - split; [|by eapply Hc]. intros Hs. apply Hn. unfold occupied. congruence.
  - cbn. split; [done|by intros ?].
Qed.

Lemma Prepared_mergedSum b0 h0 s :
  shaped b0 → Prepared b0 h0 (Z.to_nat (GameState.boardSize b0)) s →
  mergedSum (GameState.tiles (fst s)) = 0.
Proof.
  intros Hsh HP.
  assert (H : ∀ k x, GameState.tiles (fst s) !! k = Some x → mergedValue x = 0).
  { intros k x Hx. apply mergedValue_not_Merged.
    destruct (Prepared_no_Merged _ _ _ Hsh HP _ _ Hx); congruence. }
  revert H. generalize (GameState.tiles (fst s)). intros ts.
  induction ts as [|z ts IH]; intros H; simpl; [done|].
  rewrite (H 0%nat z eq_refl), IH; [done|]. intros k x Hx. by apply (H (S k)).
Qed.

Lemma Prepared_HistOK b0 h0 s :
  shaped b0 → Prepared b0 h0 (Z.to_nat (GameState.boardSize b0)) s →
  HistOK (GameState.tiles b0) (length h0) s.
Proof.
  intros Hsh HP. split.
  - intros j x Hx Ho.
    destruct (Prepared_lookup _ _ _ _ _ Hsh HP Hx) as (x0 & Hx0 & [[Hn ->]|(Ho0 & -> & Hp & Hq)]);
      [done|].
    eexists _, _. cbn. split; [done|]. split; [done|]. split; [lia|].
    unfold addr at 1 2. split; [lia|]. split; [lia|].
    unfold Truthful. cbn. rewrite decide_False by done.
    exists j, x0. done.
  - intros j1 j2 x1 x2 p1 q1 p2 q2 Hj H1 H2 Ho1 Ho2 Hp1 Hq1 Hp2 Hq2.
    destruct (Prepared_lookup _ _ _ _ _ Hsh HP H1) as (y1 & Hy1 & [[Hn ->]|(Hoy1 & -> & _)]);
      [done|].
    destruct (Prepared_lookup _ _ _ _ _ Hsh HP H2) as (y2 & Hy2 & [[Hn ->]|(Hoy2 & -> & _)]);
      [done|].
    cbn in *. injection Hp1 as <-. injection Hq1 as <-.
    injection Hp2 as <-. injection Hq2 as <-.
    destruct (decide (j1 < j2)%nat).
    + pose proof (addr_lt _ h0 _ _ _ l Hy1 Hoy1). lia.
    + pose proof (addr_lt _ h0 j2 j1 _ ltac:(lia) Hy2 Hoy2). lia.
Qed.

Lemma Prepared_Orig b0 h0 s :
  shaped b0 → Prepared b0 h0 (Z.to_nat (GameState.boardSize b0)) s →
  TilesWf (GameState.tiles b0) → Orig s.
Proof.
  intros Hsh HP Hwf j1 j2 x1 x2 p1 p2 a1 a2 k1 k2 v H1 H2 Ho1 Ho2 Hp1 Hp2 Ha1 Ha2 Hk1 Hk2.
  destruct (Prepared_lookup _ _ _ _ _ Hsh HP H1) as (y1 & Hy1 & [[Hn ->]|(Hoy1 & -> & Hh1 & _)]);
    [done|].
  destruct (Prepared_lookup _ _ _ _ _ Hsh HP H2) as (y2 & Hy2 & [[Hn ->]|(Hoy2 & -> & Hh2 & _)]);
    [done|].
  cbn in Hp1, Hp2. injection Hp1 as <-. injection Hp2 as <-.
  rewrite Hh1 in Ha1. rewrite Hh2 in Ha2. injection Ha1 as <-. injection Ha2 as <-.
  apply singleton_lookup in Hk1 as [-> ->]. apply singleton_lookup in Hk2 as [-> Hv].
  injection Hv as Hv. destruct (Hwf _ _ Hy1) as [<- _]. destruct (Hwf _ _ Hy2) as [<- _].
  done.
Qed.

(** The heap only grows during the first loop. *)
Lemma Prepared_heap b0 (h0 : list (list (option nat))) m s :
  Prepared b0 h0 m s →
  (length h0 ≤ length (snd s))%nat ∧
  ∀ l, (l < length h0)%nat → snd s !! l = h0 !! l.
Proof.
  intros (_ & _ & [hn ->] & _). split.
  - rewrite length_app. lia.
  - intros l Hl. by apply lookup_app_l.
Qed.

(** Everything the proofs below need to know about one [gravitate]. *)
Lemma gravitate_summary dir b h b' h' :
  shaped b → GameState.gravitate dir (b, h) = Some (b', h') →
  sameDims b b' ∧
  length (GameState.tiles b') = length (GameState.tiles b) ∧
  GameState.targetTileLevel b' = GameState.targetTileLevel b ∧
  GameState.status b' = GameState.status b ∧
  GameState.score b' = GameState.score b + mergedSum (GameState.tiles b') ∧
  HistOK (GameState.tiles b) (length h) (b', h') ∧
  (length h ≤ length h')%nat ∧
  (∀ l, (l < length h)%nat → h' !! l = h !! l) ∧
  MergedSettled (GameState.indexChange b dir) b' ∧
  (TilesWf (GameState.tiles b) → TilesWf (GameState.tiles b') ∧ Orig (b', h')) ∧
  (EmptyClean (GameState.tiles b) → Clean (GameState.tiles b')).
Proof.
  intros Hsh Hrun.
  destruct (gravitate_inv _ _ _ _ Hsh Hrun) as (s1 & _ & HP & Hsteps & HG).
  pose proof (gsteps_shape _ _ _ Hsteps) as (Hd & Hlen & Htg & Hst).
  pose proof (score_gsteps _ _ _ Hsteps) as Hsc.
  pose proof (Prepared_HistOK _ _ _ Hsh HP) as HH.
  destruct (HistOK_gsteps _ _ _ _ _ Hsteps HH) as (HH' & Hhl & Hhf).
  pose proof (Prepared_heap _ _ _ _ HP) as (Hl0 & Hf0).
  rewrite (Prepared_mergedSum _ _ _ Hsh HP) in Hsc.
  pose proof HP as (Hb & Hlen0 & _).
  cbn [fst snd] in *.
  assert (Hb1 : sameDims b (fst s1) ∧
                GameState.targetTileLevel (fst s1) = GameState.targetTileLevel b ∧
                GameState.status (fst s1) = GameState.status b ∧
                GameState.score (fst s1) = GameState.score b).
  { rewrite Hb. by unfold sameDims. }
  destruct Hb1 as ((Hr1 & Hc1) & Ht1 & Hs1 & Hsc1). destruct Hd as (Hr & Hc).
  split; [unfold sameDims; split; congruence|]. split; [congruence|].
  split; [congruence|]. split; [congruence|]. split; [lia|]. split; [done|].
  split; [lia|]. split; [intros l Hl; rewrite Hhf, Hf0 by done; done|].
  split; [done|]. split.
  - intros Hwf. split.
    + apply (TilesWf_gsteps _ s1 (b', h') Hsteps). by eapply Prepared_TilesWf.
    + apply (Orig_gsteps _ _ _ s1 (b', h') Hsteps HH). by eapply Prepared_Orig.
  - intros Hc0. apply (Clean_gsteps _ s1 (b', h') Hsteps). by eapply Prepared_Clean.
Qed.

(** * [gravitate] returns *)

Section Total.
Variable d : Z.

(** Sliding one tile into the free cell next to it. *)
Lemma slide_into_free b1 (h1 : list (list (option nat))) i x y :
  0 <= i → MergedSettled d b1 → guard d b1 i = true →
  GameState.tileAt (GameState.tiles b1) i = Some x →
  GameState.tileAt (GameState.tiles b1) (i + d) = Some y →
  Tile.isEmpty y = true →
  let b2 := GameState.withTiles b1
              (GameState.setTile (GameState.setTile (GameState.tiles b1) i
                 (fst (Tile.moveTo x y))) (i + d) (snd (Tile.moveTo x y))) in
  rtc (gstep d) (b1, h1) (b2, h1) ∧ MergedSettled d b2.
Proof.
  intros Hi HG1 Hg1 Hx Hy Hey b2.
  pose proof (guard_nonzero _ _ _ Hg1) as Hd0.
  pose proof (guard_inside _ _ _ Hg1) as Hin.
  assert (Hnot : ¬ Settled d b1 i).
  { intros HS. pose proof (Settled_next_nonempty _ _ _ _ HS Hg1 Hy). congruence. }
  assert (Hother : ∀ k, k ≠ i → k ≠ i + d →
    GameState.tileAt (GameState.tiles b2) k = GameState.tileAt (GameState.tiles b1) k).
  { intros k ? ?. subst b2. simpl. apply tileAt_setTile2; lia. }
  split.
  - destruct (Tile.isEmpty x) eqn:Hex'.
    + subst b2. unfold Tile.moveTo. rewrite Hex'. simpl.
      rewrite (setTile_id _ i x) by done. rewrite (setTile_id _ (i + d) y) by done.
      rewrite withTiles_id. apply rtc_refl.
    + apply rtc_once. subst b2.
      destruct (Tile.moveTo x y) as [x' y'] eqn:Hmv. simpl.
      eapply (gstep_move d b1 h1 i x y x' y'); try done.
      intros HM. apply Hnot. by eapply HG1.
  - intros j z Hz HM.
    assert (j ≠ i).
    { intros ->. subst b2. simpl in Hz. rewrite tileAt_setTile_ne in Hz by lia.
      erewrite tileAt_setTile_eq in Hz by done. injection Hz as <-.
      unfold Tile.moveTo in HM. destruct (Tile.isEmpty x) eqn:Hex'; simpl in HM; [|done].
      apply isEmpty_true in Hex'. congruence. }
    assert (j ≠ i + d).
    { intros ->. subst b2. simpl in Hz.
      erewrite tileAt_setTile_eq in Hz.
      2:{ rewrite tileAt_setTile_ne by lia. done. }
      injection Hz as <-. unfold Tile.moveTo in HM.
      destruct (Tile.isEmpty x); simpl in HM; [|done].
      apply isEmpty_true in Hey. congruence. }
    rewrite Hother in Hz by done.
    eapply Settled_update; [by eapply HG1|exact Hnot|done|by subst b2|done].
Qed.

Lemma mergeWith_total ts0 n0 b (h : list (list (option nat))) jx jy x y :
  HistOK ts0 n0 (b, h) → jx ≠ jy →
  GameState.tiles b !! jx = Some x → GameState.tiles b !! jy = Some y →
  mergeable x y = true →
  is_Some (Tile.mergeWith x y h).
Proof.
  intros [HT HSep] Hj Hx Hy Hm.
  pose proof (mergeable_true _ _ Hm) as (Hax & Hay & Hlv).
  apply ableToMerge_true in Hax as [HxM Hox]. apply ableToMerge_true in Hay as [HyM Hoy].
  cbn [fst snd] in *.
  destruct (HT _ _ Hx Hox) as (px & qx & Hpx & Hqx & Hpqx & Hnpx & Hnqx & HTx).
  destruct (HT _ _ Hy Hoy) as (py & qy & Hpy & Hqy & Hpqy & Hnpy & Hnqy & HTy).
  apply Truthful_not_Merged in HTx as (a & xa & Hxa & Hoa & Hha & Hla & Hlxa); [|done].
  apply Truthful_not_Merged in HTy as (c & xc & Hxc & Hoc & Hhc & Hlc & Hlyc); [|done].
  destruct (HSep _ _ _ _ _ _ _ _ Hj Hx Hy Hox Hoy Hpx Hqx Hpy Hqy)
    as (Hs1 & Hs2 & Hs3 & Hs4).
  unfold Tile.mergeWith. apply isEmpty_false in Hox. rewrite Hox. cbn [negb].
  rewrite Hpx, Hqx, Hpy, Hqy. cbn.
  rewrite (first_lookup _ _ _ Hha). cbn.
  unfold push at 2. rewrite Hhc. cbn.
  rewrite (first_lookup qx _ [Tile.level xa])
    by (rewrite list_lookup_insert_ne by done; done). cbn.
  unfold push. rewrite list_lookup_insert_ne by done. rewrite Hlc. cbn. done.
Qed.

Lemma gravitateTile_S_rest fuel i s :
  GameState.gravitateTile (S fuel) i d s =
  if guard d (fst s) i then
    nextTile0 ← GameState.tileAt (GameState.tiles (fst s)) (i + d);
    s1 ← (if negb (Tile.isEmpty nextTile0)
          then GameState.gravitateTile fuel (i + d) d s else Some s);
    gravitateTile_rest fuel i d s1
  else Some s.
Proof. reflexivity. Qed.

Lemma gravitateTile_total ts0 n0 fuel : ∀ i s,
  0 <= i < GameState.boardSize (fst s) → shaped (fst s) →
  MergedSettled d (fst s) → HistOK ts0 n0 s →
  toEdge d (fst s) i <= Z.of_nat fuel →
  is_Some (GameState.gravitateTile fuel i d s).
Proof.
  induction fuel as [|fuel IH]; intros i [b h] Hi Hsh HG HH Hf; cbn [fst] in *.
  { unfold toEdge in Hf. destruct (0 <? d); lia. }
  rewrite gravitateTile_S_rest. cbn [fst].
  destruct (guard d b i) eqn:Hg; [|done].
  pose proof (guard_nonzero _ _ _ Hg) as Hd0.
  pose proof (guard_inside _ _ _ Hg) as Hin.
  assert (Hedge : ∀ b', GameState.boardSize b' = GameState.boardSize b →
                        toEdge d b' (i + d) <= Z.of_nat fuel).
  { intros b' Hb'. unfold toEdge in *. rewrite Hb'.
    destruct (Z.ltb_spec 0 d); lia. }
  assert (Hex : ∀ b' k, length (GameState.tiles b') = length (GameState.tiles b) →
               0 <= k < GameState.boardSize b →
               is_Some (GameState.tileAt (GameState.tiles b') k)).
  { intros b' k Hl Hk. apply tileAt_is_Some. rewrite Hl. unfold shaped in Hsh. lia. }
  destruct (Hex b (i + d) eq_refl Hin) as [y0 Hy0]. rewrite Hy0.
  (* what is left to do after the first recursive call *)
  assert (Hrest : ∀ b1 h1,
    rtc (gstep d) (b, h) (b1, h1) → MergedSettled d b1 →
    is_Some (gravitateTile_rest fuel i d (b1, h1))).
  2:{ cbn [mbind option_bind].
      destruct (Tile.isEmpty y0) eqn:He0; cbn [negb mbind option_bind].
      - apply Hrest; [apply rtc_refl|done].
      - destruct (IH (i + d) (b, h)) as [[b1 h1] Hrec]; try done; [by apply Hedge|].
        rewrite Hrec. cbn [mbind option_bind].
        apply gravitateTile_run in Hrec as (Hr & HG1 & HP1 & _);
          [|lia|done|cbn; by rewrite Hy0].
        by apply Hrest. }
  intros b1 h1 Hsteps1 HG1. unfold gravitateTile_rest.
  pose proof (gsteps_shape _ _ _ Hsteps1) as ((Hr1 & Hc1) & Hlen1 & _). cbn in Hr1, Hc1, Hlen1.
  assert (Hbs1 : GameState.boardSize b1 = GameState.boardSize b).
  { unfold GameState.boardSize. by rewrite Hr1, Hc1. }
  pose proof (guard_sameDims d b b1 i (conj Hr1 Hc1)) as Hg1. rewrite Hg in Hg1.
  destruct (HistOK_gsteps _ _ _ _ _ Hsteps1 HH) as (HH1 & _).
  destruct (Hex b1 i Hlen1 ltac:(lia)) as [x Hx]. rewrite Hx. cbn.
  destruct (Hex b1 (i + d) Hlen1 Hin) as [y Hy]. rewrite Hy. cbn.
  destruct (Tile.isEmpty y) eqn:Hey.
  - destruct (slide_into_free b1 h1 i x y ltac:(lia) HG1 Hg1 Hx Hy Hey) as (Hs2 & HG2).
    destruct (Tile.moveTo x y) as [x' y'] eqn:Hmv. cbn [fst snd] in Hs2, HG2.
    destruct (HistOK_gsteps _ _ _ _ _ Hs2 HH1) as (HH2 & _).
    apply IH; cbn [fst]; try done.
    + unfold GameState.boardSize in *. cbn. lia.
    + unfold shaped, GameState.setTile, GameState.boardSize in *. cbn.
      rewrite !length_insert. rewrite Hlen1, Hr1, Hc1. done.
    + apply Hedge. unfold GameState.boardSize in *. cbn. done.
  - destruct (mergeable x y) eqn:Hm; [|done].
    pose proof (tileAt_Some _ _ _ Hx) as [_ Hx']. pose proof (tileAt_Some _ _ _ Hy) as [_ Hy'].
    assert (Hij : Z.to_nat i ≠ Z.to_nat (i + d)) by lia.
    destruct (mergeWith_total _ _ _ _ _ _ _ _ HH1 Hij Hx' Hy' Hm) as [[[x' y'] h2] ->].
    done.
Qed.

End Total.

Lemma prepare_loop_total n : ∀ a s,
  (a + n ≤ length (GameState.tiles (fst s)))%nat →
  is_Some (GameState.prepare_loop (seq a n) s).
Proof.
  induction n as [|n IH]; intros a s Hlen; simpl; [done|].
  destruct (lookup_lt_is_Some_2 (GameState.tiles (fst s)) a ltac:(lia)) as [x ->].
  cbn. destruct (Tile.prepareForMove x (snd s)) as [x' h'].
  apply IH. cbn. rewrite length_insert. lia.
Qed.

Lemma gravitate_loop_total d ts0 n0 fuel idxs : ∀ s,
  shaped (fst s) → MergedSettled d (fst s) → HistOK ts0 n0 s →
  GameState.boardSize (fst s) < Z.of_nat fuel →
  (∀ k, k ∈ idxs → Z.of_nat k < GameState.boardSize (fst s)) →
  is_Some (GameState.gravitate_loop fuel d idxs s).
Proof.
  induction idxs as [|k idxs IH]; intros s Hsh HG HH Hf Hin; simpl; [done|].
  destruct (gravitateTile_total d ts0 n0 fuel (Z.of_nat k) s) as [s1 H1]; try done.
  { split; [lia|]. apply Hin. by left. }
  { unfold toEdge. pose proof (Hin k ltac:(by left)). destruct (0 <? d); lia. }
  rewrite H1. cbn.
  apply gravitateTile_run in H1 as (Hr1 & HG1 & _); [|lia|done|].
  2:{ apply tileAt_is_Some. unfold shaped in Hsh. rewrite Hsh.
      pose proof (Hin k ltac:(by left)). lia. }
  pose proof (gsteps_shape _ _ _ Hr1) as ((Hr & Hc) & Hlen & _).
  destruct (HistOK_gsteps _ _ _ _ _ Hr1 HH) as (HH1 & _).
  assert (Hbs : GameState.boardSize (fst s1) = GameState.boardSize (fst s)).
  { unfold GameState.boardSize. by rewrite Hr, Hc. }
  apply IH; try done.
  - unfold shaped in *. rewrite Hlen, Hbs. done.
  - lia.
  - intros j Hj. rewrite Hbs. apply Hin. by right.
Qed.

(** On a board with one tile per cell [gravitate] always returns. *)
Lemma gravitate_total dir b (h : list (list (option nat))) :
  shaped b → is_Some (GameState.gravitate dir (b, h)).
Proof.
  intros Hsh. unfold GameState.gravitate. cbn [fst].
  destruct (prepare_loop_total (Z.to_nat (GameState.boardSize b)) 0 (b, h)) as [s1 Hp].
  { cbn. unfold shaped in Hsh. lia. }
  unfold GameState.indices. rewrite Hp. cbn.
  pose proof (prepare_loop_Prepared b h _ 0 _ _ (Prepared_start b h) Hp) as HP.
  cbn in HP.
  pose proof HP as (Hb & Hlen & _).
  assert (Hbs : GameState.boardSize (fst s1) = GameState.boardSize b).
  { rewrite Hb. done. }
  eapply gravitate_loop_total with (ts0 := GameState.tiles b) (n0 := length h).
  - unfold shaped in *. rewrite Hlen, Hbs. done.
  - intros i x [_ Hx]%tileAt_Some HM.
    destruct (Prepared_no_Merged _ _ _ Hsh HP _ _ Hx); congruence.
  - by apply Prepared_HistOK.
  - rewrite Hbs. lia.
  - intros k Hk%elem_of_seq. rewrite Hbs. lia.
Qed.

(** * The loops over the cells *)

Lemma Tile_clone_id x : Tile.clone x = x.
Proof. by destruct x. Qed.

Lemma clone_tiles (ts : list Tile.t) n : ∀ a,
  (a + n ≤ length ts)%nat →
  mapM (λ index, Tile.clone <$> ts !! index) (seq a n) = Some (take n (drop a ts)).
Proof.
  induction n as [|n IH]; intros a Hlen; [done|].
  cbn [seq mapM].
  destruct (lookup_lt_is_Some_2 ts a ltac:(lia)) as [x Hx]. rewrite Hx. cbn.
  rewrite (IH (S a)) by lia. cbn. rewrite Tile_clone_id.
  rewrite (drop_S _ _ _ Hx). done.
Qed.

Lemma isFull_loop_spec ts n : ∀ a,
  (a + n ≤ length ts)%nat →
  ∃ r, GameState.isFull_loop ts (seq a n) = Some r ∧
       (r = true ↔ ∀ k x, (a ≤ k < a + n)%nat → ts !! k = Some x → occupied x).
Proof.
  induction n as [|n IH]; intros a Hlen; cbn [seq GameState.isFull_loop].
  { exists true. split; [done|]. split; [|done]. intros _ k x ?. lia. }
  destruct (lookup_lt_is_Some_2 ts a ltac:(lia)) as [x Hx]. rewrite Hx. cbn.
  destruct (Tile.isEmpty x) eqn:He.
  - exists false. split; [done|]. split; [done|]. intros H.
    apply isEmpty_true in He. specialize (H a x ltac:(lia) Hx). by destruct H.
  - destruct (IH (S a) ltac:(lia)) as (r & -> & Hr). exists r. split; [done|].
    rewrite Hr. split.
    + intros H k y Hk Hy. destruct (decide (k = a)) as [->|].
      * apply isEmpty_false in He. congruence.
      * apply (H k y); [lia|done].
    + intros H k y Hk Hy. apply (H k y); [lia|done].
Qed.

Lemma isFull_spec b :
  shaped b →
  ∃ r, GameState.isFull b = Some r ∧
       (r = true ↔ ∀ k x, GameState.tiles b !! k = Some x → occupied x).
Proof.
  intros Hsh. unfold GameState.isFull, GameState.indices.
  destruct (isFull_loop_spec (GameState.tiles b) (Z.to_nat (GameState.boardSize b)) 0)
    as (r & Hr & Hiff); [unfold shaped in Hsh; lia|].
  exists r. split; [done|]. rewrite Hiff. split.
  - intros H k x Hx. apply (H k x); [|done]. apply lookup_lt_Some in Hx.
    unfold shaped in Hsh. lia.
  - intros H k x _ Hx. by apply (H k x).
Qed.

Lemma hasAchievedGoal_loop_spec ts target n : ∀ a,
  (a + n ≤ length ts)%nat →
  ∃ r, GameState.hasAchievedGoal_loop ts target (seq a n) = Some r ∧
       (r = true ↔ ∃ k x, (a ≤ k < a + n)%nat ∧ ts !! k = Some x ∧
                          target <= Z.of_nat (Tile.levelNumber x)).
Proof.
  induction n as [|n IH]; intros a Hlen; cbn [seq GameState.hasAchievedGoal_loop].
  { exists false. split; [done|]. split; [done|]. intros (k & x & ? & _). lia. }
  destruct (lookup_lt_is_Some_2 ts a ltac:(lia)) as [x Hx]. rewrite Hx. cbn.
  destruct (Z.leb_spec target (Z.of_nat (Tile.levelNumber x))).
  - exists true. split; [done|]. split; [|done]. intros _. exists a, x.
    split; [lia|done].
  - destruct (IH (S a) ltac:(lia)) as (r & -> & Hr). exists r. split; [done|].
    rewrite Hr. split.
    + intros (k & y & ? & ? & ?). exists k, y. split; [lia|done].
    + intros (k & y & ? & Hy & ?). exists k, y. split; [|done].
      destruct (decide (k = a)) as [->|]; [|lia].
      rewrite Hx in Hy. injection Hy as <-. lia.
Qed.

Lemma hasAchievedGoal_spec b :
  shaped b →
  ∃ r, GameState.hasAchievedGoal b = Some r ∧
       (r = true ↔ ∃ k x, GameState.tiles b !! k = Some x ∧
                          GameState.targetTileLevel b <= Z.of_nat (Tile.levelNumber x)).
Proof.
  intros Hsh. unfold GameState.hasAchievedGoal, GameState.indices.
  destruct (hasAchievedGoal_loop_spec (GameState.tiles b) (GameState.targetTileLevel b)
              (Z.to_nat (GameState.boardSize b)) 0)
    as (r & Hr & Hiff); [unfold shaped in Hsh; lia|].
  exists r. split; [done|]. rewrite Hiff. split.
  - intros (k & x & _ & ? & ?). by exists k, x.
  - intros (k & x & Hx & ?). exists k, x. split; [|done].
    apply lookup_lt_Some in Hx. unfold shaped in Hsh. lia.
Qed.

Lemma equals_loop_spec ts1 ts2 n : ∀ a,
  (a + n ≤ length ts1)%nat → (a + n ≤ length ts2)%nat →
  ∃ r, GameState.equals_loop ts1 ts2 (seq a n) = Some r ∧
       (r = true ↔ ∀ k x y, (a ≤ k < a + n)%nat → ts1 !! k = Some x →
                            ts2 !! k = Some y → Tile.equals x y = true).
Proof.
  induction n as [|n IH]; intros a Hl1 Hl2; cbn [seq GameState.equals_loop].
  { exists true. split; [done|]. split; [|done]. intros _ k x y ?. lia. }
  destruct (lookup_lt_is_Some_2 ts1 a ltac:(lia)) as [x Hx]. rewrite Hx. cbn.
  destruct (lookup_lt_is_Some_2 ts2 a ltac:(lia)) as [y Hy]. rewrite Hy. cbn.
  destruct (Tile.equals x y) eqn:He; cbn.
  - destruct (IH (S a) ltac:(lia) ltac:(lia)) as (r & -> & Hr). exists r.
    split; [done|]. rewrite Hr. split.
    + intros H k x' y' Hk Hx' Hy'. destruct (decide (k = a)) as [->|].
      * congruence.
      * apply (H k x' y'); [lia|done..].
    + intros H k x' y' Hk Hx' Hy'. apply (H k x' y'); [lia|done..].
  - exists false. split; [done|]. split; [done|]. intros H.
    rewrite (H a x y) in He; [done|lia|done..].
Qed.

Lemma Tile_equals_true x y :
  Tile.equals x y = true ↔ Tile.index x = Tile.index y ∧ Tile.level x = Tile.level y.
Proof.
  unfold Tile.equals. by rewrite andb_true_iff, !bool_decide_eq_true.
Qed.

Lemma equals_spec b1 b2 :
  shaped b1 → sameDims b1 b2 → length (GameState.tiles b2) = length (GameState.tiles b1) →
  ∃ r, GameState.equals b1 b2 = Some r ∧
       (r = true ↔ GameState.score b1 = GameState.score b2 ∧
          ∀ k x y, GameState.tiles b1 !! k = Some x → GameState.tiles b2 !! k = Some y →
                   Tile.index x = Tile.index y ∧ Tile.level x = Tile.level y).
Proof.
  intros Hsh [Hr Hc] Hlen. unfold GameState.equals, GameState.indices.
  rewrite (bool_decide_eq_true_2 (GameState.rows b1 = _)) by done.
  rewrite (bool_decide_eq_true_2 (GameState.columns b1 = _)) by done.
  rewrite !andb_true_r.
  destruct (decide (GameState.score b1 = GameState.score b2)) as [Hs|Hs].
  - rewrite bool_decide_eq_true_2 by done.
    destruct (equals_loop_spec (GameState.tiles b1) (GameState.tiles b2)
                (Z.to_nat (GameState.boardSize b1)) 0)
      as (r & Hrun & Hiff); [unfold shaped in Hsh; lia..|].
    exists r. split; [done|]. rewrite Hiff. split.
    + intros H. split; [done|]. intros k x y Hx Hy. apply Tile_equals_true.
      apply (H k x y); [|done..]. apply lookup_lt_Some in Hx. unfold shaped in Hsh. lia.
    + intros [_ H] k x y _ Hx Hy. apply Tile_equals_true. by eapply H.
  - rewrite bool_decide_eq_false_2 by done. exists false. split; [done|].
    split; [done|]. by intros [? _].
Qed.

(** * Spawning, constructing and cloning *)

Lemma drawnLevel_range d : drawnLevel d = 1%nat ∨ drawnLevel d = 2%nat.
Proof.
  unfold drawnLevel. destruct (Z.leb_spec 9 (Z.of_nat d)).
  - right. rewrite Z.min_l by lia. reflexivity.
  - left. rewrite Z.min_r by lia.
    rewrite Z.div_small by lia. reflexivity.
Qed.

Lemma Tile_spawn_inv x rs x' rs' :
  Tile.spawn x rs = Some (x', rs') →
  ∃ d, rs = d :: rs' ∧ x' = spawned x (drawnLevel d).
Proof.
  unfold Tile.spawn, MathUtils.randomInRange. destruct rs as [|d rs]; [done|].
  cbn. intros [= <- <-]. by exists d.
Qed.

Lemma Tile_spawn_cons x d rs :
  Tile.spawn x (d :: rs) = Some (spawned x (drawnLevel d), rs).
Proof. reflexivity. Qed.

(** The rejection loop skips the draws that select an occupied cell and
    stops at the first draw that selects a free one. *)
Lemma spawnTile_loop_inv ts size rs index rs' :
  GameState.spawnTile_loop ts size rs = Some (index, rs') →
  ∃ pre d x, rs = pre ++ d :: rs' ∧ index = drawnCell size d ∧
    GameState.tileAt ts index = Some x ∧ Tile.isEmpty x = true ∧
    Forall (λ e, ∃ y, GameState.tileAt ts (drawnCell size e) = Some y ∧
                      Tile.isEmpty y = false) pre.
Proof.
  revert index rs'. induction rs as [|d rs IH]; intros index rs' H; [done|].
  cbn in H. fold (drawnCell size d) in H.
  destruct (GameState.tileAt ts (drawnCell size d)) as [x|] eqn:Hx; cbn in H; [|done].
  destruct (Tile.isEmpty x) eqn:He; cbn in H.
  - injection H as <- <-. exists [], d, x. done.
  - apply IH in H as (pre & d' & x' & -> & -> & Hx' & He' & Hpre).
    exists (d :: pre), d', x'. split; [done|]. split; [done|]. split; [done|].
    split; [done|]. constructor; [|done]. by exists x.
Qed.

Lemma spawnTile_loop_total ts size pre d rs' x :
  Forall (λ e, ∃ y, GameState.tileAt ts (drawnCell size e) = Some y ∧
                    Tile.isEmpty y = false) pre →
  GameState.tileAt ts (drawnCell size d) = Some x → Tile.isEmpty x = true →
  GameState.spawnTile_loop ts size (pre ++ d :: rs') = Some (drawnCell size d, rs').
Proof.
  intros Hpre Hx He. induction Hpre as [|e pre (y & Hy & Hey) _ IH]; cbn.
  - fold (drawnCell size d). rewrite Hx. cbn. by rewrite He.
  - fold (drawnCell size e). rewrite Hy. cbn. by rewrite Hey.
Qed.

(** [spawnTile] either finds the board full and does nothing, or turns one
    free cell into a spawned tile of level 1 or 2. *)
Lemma spawnTile_inv b rs b' rs' :
  shaped b → GameState.spawnTile b rs = Some (b', rs') →
  ((∀ k x, GameState.tiles b !! k = Some x → occupied x) ∧ b' = b ∧ rs' = rs) ∨
  (∃ k x pre d e,
     GameState.tiles b !! k = Some x ∧ ¬ occupied x ∧
     rs = pre ++ d :: e :: rs' ∧ Z.of_nat k = drawnCell (GameState.boardSize b) d ∧
     b' = GameState.withTiles b (<[k := spawned x (drawnLevel e)]> (GameState.tiles b))).
Proof.
  intros Hsh H. unfold GameState.spawnTile in H.
  destruct (isFull_spec b Hsh) as (full & Hfull & Hiff). rewrite Hfull in H. cbn in H.
  destruct full; cbn in H.
  - injection H as <- <-. left. split; [|done]. by apply Hiff.
  - right.
    destruct (GameState.spawnTile_loop _ _ rs) as [[index rs1]|] eqn:Hloop; cbn in H; [|done].
    apply spawnTile_loop_inv in Hloop as (pre & d & x & -> & -> & Hx & He & _).
    rewrite Hx in H. cbn in H.
    destruct (Tile.spawn x rs1) as [[x' rs2]|] eqn:Hsp; cbn in H; [|done].
    injection H as <- <-.
    apply Tile_spawn_inv in Hsp as (e & -> & ->).
    apply tileAt_Some in Hx as [Hi Hx].
    exists (Z.to_nat (drawnCell (GameState.boardSize b) d)), x, pre, d, e.
    split; [done|]. split; [intros Ho; apply isEmpty_true in He; by destruct Ho|].
    split; [done|]. split; [lia|done].
Qed.

Lemma spawnTile_shape b rs b' rs' :
  GameState.spawnTile b rs = Some (b', rs') →
  sameDims b b' ∧ length (GameState.tiles b') = length (GameState.tiles b) ∧
  GameState.targetTileLevel b' = GameState.targetTileLevel b ∧
  GameState.status b' = GameState.status b ∧
  GameState.score b' = GameState.score b.
Proof.
  unfold GameState.spawnTile. intros H.
  destruct (GameState.isFull b) as [[|]|]; cbn in H; [| |done].
  - injection H as <- <-. by unfold sameDims.
  - destruct (GameState.spawnTile_loop _ _ rs) as [[index rs1]|]; cbn in H; [|done].
    destruct (GameState.tileAt _ index); cbn in H; [|done].
    destruct (Tile.spawn _ rs1) as [[x' rs2]|]; cbn in H; [|done].
    injection H as <- <-. unfold sameDims, GameState.setTile. cbn.
    by rewrite length_insert.
Qed.

(** The constructor: an empty board on which at most two tiles have been
    spawned. *)
Lemma new_inv r c t rs b rs' :
  GameState.new r c t rs = Some (b, rs') →
  GameState.rows b = r ∧ GameState.columns b = c ∧
  GameState.targetTileLevel b = t ∧ GameState.score b = 0 ∧
  GameState.status b = GameStatus.InProgress ∧ shaped b ∧
  ∀ k x, GameState.tiles b !! k = Some x →
    x = Tile.new k ∨ ∃ l, (l = 1 ∨ l = 2)%nat ∧ x = spawned (Tile.new k) l.
Proof.
  unfold GameState.new. intros H.
  set (b0 := {| GameState.rows := r; GameState.columns := c;
                GameState.targetTileLevel := t;
                GameState.tiles := Tile.new <$> seq 0 (Z.to_nat (r * c));
                GameState.score := 0; GameState.status := GameStatus.InProgress |}) in *.
  assert (Hsh0 : shaped b0).
  { unfold shaped. cbn. by rewrite length_fmap, length_seq. }
  assert (Ht0 : ∀ k x, GameState.tiles b0 !! k = Some x → x = Tile.new k).
  { intros k x Hx. cbn in Hx. rewrite list_lookup_fmap in Hx.
    destruct (seq 0 _ !! k) as [j|] eqn:Hj; cbn in Hx; [|done].
    apply lookup_seq in Hj as [-> _]. by injection Hx as <-. }
  destruct (GameState.spawnTile b0 rs) as [[b1 rs1]|] eqn:H1; cbn in H; [|done].
  pose proof (spawnTile_shape _ _ _ _ H1) as ((Hr1 & Hc1) & Hl1 & Htg1 & Hst1 & Hsc1).
  pose proof (spawnTile_shape _ _ _ _ H) as ((Hr2 & Hc2) & Hl2 & Htg2 & Hst2 & Hsc2).
  assert (Hsh1 : shaped b1).
  { unfold shaped, GameState.boardSize in *. rewrite Hl1, Hr1, Hc1. done. }
  assert (Ht1 : ∀ k x, GameState.tiles b1 !! k = Some x →
            x = Tile.new k ∨ ∃ l, (l = 1 ∨ l = 2)%nat ∧ x = spawned (Tile.new k) l).
  { apply (spawnTile_inv _ _ _ _ Hsh0) in H1
      as [(_ & -> & _)|(j & y & pre & d & e & Hy & _ & _ & _ & ->)];
      intros k x Hx; [left; by apply Ht0|].
    cbn in Hx. destruct (decide (k = j)) as [->|Hne].
    - rewrite list_lookup_insert_eq in Hx by (by eapply lookup_lt_Some).
      injection Hx as <-. right. exists (drawnLevel e).
      split; [apply drawnLevel_range|]. by rewrite (Ht0 _ _ Hy).
    - rewrite list_lookup_insert_ne in Hx by done. left. by apply Ht0. }
  split; [by rewrite Hr2, Hr1|]. split; [by rewrite Hc2, Hc1|].
  split; [by rewrite Htg2, Htg1|].
  split; [by rewrite Hsc2, Hsc1|]. split; [by rewrite Hst2, Hst1|].
  split. { unfold shaped, GameState.boardSize in *. rewrite Hl2, Hr2, Hc2. done. }
  apply (spawnTile_inv _ _ _ _ Hsh1) in H
    as [(_ & -> & _)|(j & y & pre & d & e & Hy & Hny & _ & _ & ->)]; [done|].
  intros k x Hx. cbn in Hx. destruct (decide (k = j)) as [->|Hne].
  - rewrite list_lookup_insert_eq in Hx by (by eapply lookup_lt_Some).
    injection Hx as <-. right. exists (drawnLevel e).
    split; [apply drawnLevel_range|].
    destruct (Ht1 _ _ Hy) as [->|(l & _ & ->)]; [done|].
    exfalso. apply Hny. by unfold occupied.
  - rewrite list_lookup_insert_ne in Hx by done. by apply Ht1.
Qed.

(** The clone of a board with one tile per cell: the same board, with the
    status the constructor sets. *)
Lemma clone_inv b rs c rs' :
  shaped b → GameState.clone b rs = Some (c, rs') →
  c = GameState.withStatus b GameStatus.InProgress.
Proof.
  intros Hsh H. unfold GameState.clone in H.
  destruct (GameState.new _ _ _ rs) as [[c0 rs0]|] eqn:Hnew; cbn in H; [|done].
  apply new_inv in Hnew as (Hr & Hc & Ht & _ & Hs & _).
  unfold GameState.indices in H.
  rewrite (clone_tiles (GameState.tiles b)) in H by (unfold shaped in Hsh; lia).
  cbn in H. injection H as <- <-.
  rewrite drop_0, take_ge by (unfold shaped in Hsh; lia).
  unfold GameState.withStatus, GameState.withTiles, GameState.withScore. cbn.
  by rewrite Hr, Hc, Ht, Hs.
Qed.

(** * The game logic does not depend on the heap *)

Lemma tileSim_refl x : tileSim x x.
Proof. by unfold tileSim. Qed.

Lemma similar_refl b : similar 0 b b.
Proof.
  split; [by unfold sameDims|]. split; [lia|].
  apply Forall2_same_length_lookup. split; [done|].
  intros i x y Hx Hy. rewrite Hx in Hy. injection Hy as <-. apply tileSim_refl.
Qed.

Lemma tileSim_isEmpty x y : tileSim x y → Tile.isEmpty y = Tile.isEmpty x.
Proof. intros (_ & _ & Hs). unfold Tile.isEmpty. by rewrite Hs. Qed.

Lemma tileSim_mergeable x y x2 y2 :
  tileSim x x2 → tileSim y y2 → mergeable x2 y2 = mergeable x y.
Proof.
  intros (_ & Hl & Hs) (_ & Hl' & Hs'). unfold mergeable, Tile.ableToMerge.
  by rewrite Hl, Hs, Hl', Hs'.
Qed.

Lemma tileSim_tileAt ts ts2 i x :
  Forall2 tileSim ts ts2 → GameState.tileAt ts i = Some x →
  ∃ x2, GameState.tileAt ts2 i = Some x2 ∧ tileSim x x2.
Proof.
  unfold GameState.tileAt. intros HF Hx. destruct (0 <=? i); [|done].
  destruct (Forall2_lookup_l _ _ _ _ _ HF Hx) as (x2 & Hx2 & Hs). eauto.
Qed.

Lemma tileSim_setTile ts ts2 i x x2 :
  Forall2 tileSim ts ts2 → tileSim x x2 →
  Forall2 tileSim (GameState.setTile ts i x) (GameState.setTile ts2 i x2).
Proof. intros. by apply Forall2_insert. Qed.

Lemma tileSim_moveTo x y x2 y2 :
  tileSim x x2 → tileSim y y2 →
  tileSim (fst (Tile.moveTo x y)) (fst (Tile.moveTo x2 y2)) ∧
  tileSim (snd (Tile.moveTo x y)) (snd (Tile.moveTo x2 y2)).
Proof.
  intros Hx Hy. unfold Tile.moveTo. rewrite (tileSim_isEmpty _ _ Hx).
  destruct Hx as (Hi & Hl & Hs). destruct Hy as (Hi' & Hl' & Hs').
  destruct (Tile.isEmpty x); cbn; unfold tileSim; cbn; done.
Qed.

Lemma tileSim_mergeWith x y x2 y2 (h h2 : list (list (option nat))) x' y' h' x2' y2' h2' :
  tileSim x x2 → tileSim y y2 →
  Tile.mergeWith x y h = Some (x', y', h') →
  Tile.mergeWith x2 y2 h2 = Some (x2', y2', h2') →
  tileSim x' x2' ∧ tileSim y' y2' ∧ Tile.scoreValue y2' = Tile.scoreValue y'.
Proof.
  intros Hx Hy H1 H2. pose proof (tileSim_isEmpty _ _ Hx) as He.
  destruct (Tile.isEmpty x) eqn:Hex.
  - unfold Tile.mergeWith in H1, H2. rewrite Hex in H1. rewrite He in H2.
    cbn in H1, H2. injection H1 as <- <- <-. injection H2 as <- <- <-.
    split; [done|]. split; [done|]. unfold Tile.scoreValue, Tile.levelNumber.
    rewrite (tileSim_isEmpty _ _ Hy). destruct Hy as (_ & -> & _). done.
  - destruct (mergeWith_nonempty _ _ _ _ _ _ H1 Hex) as [-> ->].
    destruct (mergeWith_nonempty _ _ _ _ _ _ H2 He) as [-> ->].
    destruct Hx as (Hi & Hl & Hs). destruct Hy as (Hi' & Hl' & Hs').
    unfold tileSim, Tile.scoreValue, Tile.levelNumber, Tile.isEmpty. cbn.
    rewrite Hi, Hi', Hl'. done.
Qed.

Lemma guard_similar d k b b2 i : similar k b b2 → guard d b2 i = guard d b i.
Proof. intros [Hd _]. by apply guard_sameDims. Qed.

Lemma gravitateTile_similar d k fuel : ∀ i s s2 s' s2',
  similar k (fst s) (fst s2) →
  GameState.gravitateTile fuel i d s = Some s' →
  GameState.gravitateTile fuel i d s2 = Some s2' →
  similar k (fst s') (fst s2').
Proof.
  induction fuel as [|fuel IH]; intros i [b h] [b2 h2] s' s2' Hsim H1 H2; [done|].
  rewrite gravitateTile_S_rest in H1, H2. cbn [fst] in *.
  rewrite (guard_similar _ _ _ _ _ Hsim) in H2.
  destruct (guard d b i) eqn:Hg.
  2:{ injection H1 as <-. injection H2 as <-. done. }
  destruct (GameState.tileAt (GameState.tiles b) (i + d)) as [y0|] eqn:Hy0;
    cbn [mbind option_bind] in H1; [|done].
  destruct Hsim as (Hd & Hsc & HF).
  destruct (tileSim_tileAt _ _ _ _ HF Hy0) as (y02 & Hy02 & Hs0).
  rewrite Hy02 in H2. cbn [mbind option_bind] in H2.
  rewrite (tileSim_isEmpty _ _ Hs0) in H2.
  (* after the first recursive call *)
  assert (∃ b1 h1 b12 h12,
            similar k b1 b12 ∧
            gravitateTile_rest fuel i d (b1, h1) = Some s' ∧
            gravitateTile_rest fuel i d (b12, h12) = Some s2')
    as (b1 & h1 & b12 & h12 & Hsim1 & Hr1 & Hr2).
  { destruct (Tile.isEmpty y0); cbn [negb mbind option_bind] in H1, H2.
    - exists b, h, b2, h2. done.
    - destruct (GameState.gravitateTile fuel (i + d) d (b, h)) as [[b1 h1]|] eqn:Hrec1;
        cbn [mbind option_bind] in H1; [|done].
      destruct (GameState.gravitateTile fuel (i + d) d (b2, h2)) as [[b12 h12]|] eqn:Hrec2;
        cbn [mbind option_bind] in H2; [|done].
      exists b1, h1, b12, h12. split; [|done].
      apply (IH (i + d) (b, h) (b2, h2) (b1, h1) (b12, h12)); [|exact Hrec1|exact Hrec2].
      done. }
  clear H1 H2 Hd Hsc HF Hy0 Hy02 Hs0.
  unfold gravitateTile_rest in Hr1, Hr2.
  destruct Hsim1 as (Hd & Hsc & HF).
  destruct (GameState.tileAt (GameState.tiles b1) i) as [x|] eqn:Hx;
    cbn [mbind option_bind] in Hr1; [|done].
  destruct (tileSim_tileAt _ _ _ _ HF Hx) as (x2 & Hx2 & Hsx).
  rewrite Hx2 in Hr2. cbn [mbind option_bind] in Hr2.
  destruct (GameState.tileAt (GameState.tiles b1) (i + d)) as [y|] eqn:Hy;
    cbn [mbind option_bind] in Hr1; [|done].
  destruct (tileSim_tileAt _ _ _ _ HF Hy) as (y2 & Hy2 & Hsy).
  rewrite Hy2 in Hr2. cbn [mbind option_bind] in Hr2.
  rewrite (tileSim_isEmpty _ _ Hsy) in Hr2.
  rewrite (tileSim_mergeable _ _ _ _ Hsx Hsy) in Hr2.
  destruct (Tile.isEmpty y).
  - destruct (tileSim_moveTo _ _ _ _ Hsx Hsy) as [Hm1 Hm2].
    destruct (Tile.moveTo x y) as [x' y']. destruct (Tile.moveTo x2 y2) as [x2' y2'].
    cbn [fst snd] in Hm1, Hm2.
    eapply (IH (i + d) (_, _) (_, _)); [|exact Hr1|exact Hr2]. cbn [fst].
    split; [done|]. split; [done|]. cbn [GameState.tiles GameState.withTiles].
    apply tileSim_setTile; [apply tileSim_setTile|]; done.
  - destruct (mergeable x y).
    + destruct (Tile.mergeWith x y h1) as [[[x' y'] h']|] eqn:HM1;
        cbn [mbind option_bind] in Hr1; [|done].
      destruct (Tile.mergeWith x2 y2 h12) as [[[x2' y2'] h2']|] eqn:HM2;
        cbn [mbind option_bind] in Hr2; [|done].
      destruct (tileSim_mergeWith _ _ _ _ _ _ _ _ _ _ _ _ Hsx Hsy HM1 HM2) as (Hs1 & Hs2 & Hv).
      injection Hr1 as <-. injection Hr2 as <-. cbn [fst].
      split; [done|]. split; [cbn; rewrite Hv; lia|].
      cbn [GameState.tiles GameState.withTiles GameState.withScore].
      apply tileSim_setTile; [apply tileSim_setTile|]; done.
    + injection Hr1 as <-. injection Hr2 as <-. done.
Qed.

Lemma prepare_loop_similar k idxs : ∀ s s2 s' s2',
  similar k (fst s) (fst s2) →
  GameState.prepare_loop idxs s = Some s' →
  GameState.prepare_loop idxs s2 = Some s2' →
  similar k (fst s') (fst s2').
Proof.
  induction idxs as [|j idxs IH]; intros [b h] [b2 h2] s' s2' Hsim H1 H2; cbn in H1, H2.
  { injection H1 as <-. injection H2 as <-. done. }
  cbn [fst] in Hsim. destruct Hsim as (Hd & Hsc & HF).
  destruct (GameState.tiles b !! j) as [x|] eqn:Hx; cbn in H1; [|done].
  destruct (Forall2_lookup_l _ _ _ _ _ HF Hx) as (x2 & Hx2 & Hs).
  rewrite Hx2 in H2. cbn in H2.
  destruct (Tile.prepareForMove x h) as [x' h'] eqn:Hp1.
  destruct (Tile.prepareForMove x2 h2) as [x2' h2'] eqn:Hp2.
  eapply (IH (_, _) (_, _)); [|exact H1|exact H2]. cbn.
  split; [done|]. split; [done|]. cbn. apply Forall2_insert; [done|].
  unfold Tile.prepareForMove in Hp1, Hp2. rewrite (tileSim_isEmpty _ _ Hs) in Hp2.
  destruct Hs as (Hi & Hl & Hst).
  destruct (Tile.isEmpty x); cbn in Hp1, Hp2;
    injection Hp1 as <- <-; injection Hp2 as <- <-; unfold tileSim; cbn; done.
Qed.

Lemma gravitate_loop_similar d k fuel idxs : ∀ s s2 s' s2',
  similar k (fst s) (fst s2) →
  GameState.gravitate_loop fuel d idxs s = Some s' →
  GameState.gravitate_loop fuel d idxs s2 = Some s2' →
  similar k (fst s') (fst s2').
Proof.
  induction idxs as [|j idxs IH]; intros s s2 s' s2' Hsim H1 H2; cbn in H1, H2.
  { injection H1 as <-. injection H2 as <-. done. }
  destruct (GameState.gravitateTile fuel _ d s) as [s1|] eqn:Hg1; cbn in H1; [|done].
  destruct (GameState.gravitateTile fuel _ d s2) as [s12|] eqn:Hg2; cbn in H2; [|done].
  eapply IH; [|exact H1|exact H2].
  eapply gravitateTile_similar; [|exact Hg1|exact Hg2]. done.
Qed.

(** [gravitate] on two boards that differ in history addresses (and by a
    constant in the score), in two heaps: the results differ in the same
    way. *)
Lemma gravitate_similar dir k b b2 (h h2 : list (list (option nat))) b' h' :
  shaped b → similar k b b2 →
  GameState.gravitate dir (b, h) = Some (b', h') →
  ∃ b2' h2', GameState.gravitate dir (b2, h2) = Some (b2', h2') ∧ similar k b' b2'.
Proof.
  intros Hsh Hsim H1.
  assert (Hsh2 : shaped b2).
  { destruct Hsim as ((Hr & Hc) & _ & HF). unfold shaped, GameState.boardSize in *.
    rewrite <- (Forall2_length _ _ _ HF), Hr, Hc. done. }
  destruct (gravitate_total dir b2 h2 Hsh2) as [[b2' h2'] H2].
  exists b2', h2'. split; [done|].
  unfold GameState.gravitate in H1, H2. cbn [fst] in H1, H2.
  assert (Hbs : GameState.boardSize b2 = GameState.boardSize b).
  { destruct Hsim as ((Hr & Hc) & _). unfold GameState.boardSize. by rewrite Hr, Hc. }
  assert (Hic : GameState.indexChange b2 dir = GameState.indexChange b dir).
  { destruct Hsim as ((Hr & Hc) & _). unfold GameState.indexChange. by rewrite Hc. }
  unfold GameState.indices in *. rewrite Hbs, Hic in H2.
  destruct (GameState.prepare_loop _ (b, h)) as [s1|] eqn:Hp1; cbn in H1; [|done].
  destruct (GameState.prepare_loop _ (b2, h2)) as [s12|] eqn:Hp2; cbn in H2; [|done].
  eapply (gravitate_loop_similar _ _ _ _ s1 s12 (b', h') (b2', h2')); [|exact H1|exact H2].
  eapply prepare_loop_similar; [|exact Hp1|exact Hp2]. done.
Qed.

(** * Unfolding [move], [updateStatus] and [isGameOver] *)

Lemma heapExt_refl (h : list (list (option nat))) : heapExt h h.
Proof. by split. Qed.

Lemma heapExt_trans (h1 h2 h3 : list (list (option nat))) :
  heapExt h1 h2 → heapExt h2 h3 → heapExt h1 h3.
Proof.
  intros [Hl1 Hf1] [Hl2 Hf2]. split; [lia|].
  intros l Hl. rewrite Hf2 by lia. by apply Hf1.
Qed.

Lemma withStatus_same b : GameState.withStatus b (GameState.status b) = b.
Proof. by destruct b. Qed.

Lemma withStatus_eq b s : GameState.status b = s → GameState.withStatus b s = b.
Proof. intros <-. apply withStatus_same. Qed.

Lemma shaped_withStatus b s : shaped (GameState.withStatus b s) ↔ shaped b.
Proof. done. Qed.

Lemma move_inv fuel dir b h rs changed b' h' rs' :
  shaped b →
  GameState.move (S fuel) dir b (h, rs) = Some (changed, b', (h', rs')) →
  ∃ rs1 b1 h1 same,
    GameState.clone b rs = Some (GameState.withStatus b GameStatus.InProgress, rs1) ∧
    GameState.gravitate dir (b, h) = Some (b1, h1) ∧
    GameState.equals b1 (GameState.withStatus b GameStatus.InProgress) = Some same ∧
    changed = negb same ∧
    (same = true → b' = b1 ∧ h' = h1 ∧ rs' = rs1) ∧
    (same = false → ∃ b2 rs2,
       GameState.spawnTile b1 rs1 = Some (b2, rs2) ∧
       GameState.updateStatus fuel b2 (h1, rs2) = Some (b', (h', rs'))).
Proof.
  intros Hsh H. cbn [GameState.move fst snd] in H.
  destruct (GameState.clone b rs) as [[c rs1]|] eqn:Hc; cbn [mbind option_bind] in H; [|done].
  pose proof (clone_inv _ _ _ _ Hsh Hc) as ->.
  destruct (GameState.gravitate dir (b, h)) as [[b1 h1]|] eqn:Hg;
    cbn [mbind option_bind] in H; [|done].
  destruct (GameState.equals b1 _) as [same|] eqn:He; cbn [mbind option_bind] in H; [|done].
  exists rs1, b1, h1, same. do 3 (split; [done|]).
  destruct same; cbn [negb] in H.
  - injection H as <- <- <- <-. split; [done|]. split; [done|]. done.
  - destruct (GameState.spawnTile b1 rs1) as [[b2 rs2]|] eqn:Hs;
      cbn [mbind option_bind] in H; [|done].
    destruct (GameState.updateStatus_with _ b2 _) as [[b3 [h3 rs3]]|] eqn:Hu;
      cbn [mbind option_bind] in H; [|done].
    injection H as <- <- <- <-. split; [done|]. split; [done|].
    intros _. exists b2, rs2. done.
Qed.

Section WithMove.
Variable mv : Direction.t → GameState.t → GameState.world →
              option (bool * GameState.t * GameState.world).

Lemma updateStatus_with_inv b w b' w' :
  GameState.updateStatus_with mv b w = Some (b', w') →
  ∃ over, GameState.isGameOver_with mv b w = Some (over, w') ∧
    ((over = true ∧ b' = GameState.withStatus b GameStatus.Lost) ∨
     (over = false ∧ GameState.status b ≠ GameStatus.InProgress ∧
      b' = GameState.withStatus b (nextStatus false false (GameState.status b))) ∨
     (over = false ∧ GameState.status b = GameStatus.InProgress ∧
      ∃ goal, GameState.hasAchievedGoal b = Some goal ∧
              b' = GameState.withStatus b (nextStatus false goal (GameState.status b)))).
Proof.
  unfold GameState.updateStatus_with. intros H.
  destruct (GameState.isGameOver_with mv b w) as [[over w1]|]; cbn in H; [|done].
  exists over. destruct over.
  - injection H as <- <-. split; [done|]. by left.
  - destruct (decide (GameState.status b = GameStatus.InProgress)) as [Hs|Hs].
    + rewrite bool_decide_eq_true_2 in H by done.
      destruct (GameState.hasAchievedGoal b) as [goal|]; cbn in H; [|done].
      assert (b' = GameState.withStatus b (nextStatus false goal (GameState.status b))
              ∧ w' = w1) as [-> ->].
      { rewrite Hs. destruct goal; injection H as <- <-; [done|].
        split; [|done]. cbn. by rewrite withStatus_eq. }
      split; [done|]. right; right. split; [done|]. split; [done|]. by exists goal.
    + rewrite bool_decide_eq_false_2 in H by done.
      assert (b' = GameState.withStatus b (nextStatus false false (GameState.status b))
              ∧ w' = w1) as [-> ->].
      { destruct (GameState.status b) eqn:Hst; cbn in H; try done;
          injection H as <- <-; (split; [|done]); cbn; try done;
          by rewrite withStatus_eq. }
      split; [done|]. right; left. done.
Qed.

End WithMove.

(** * [move] only extends the heap *)

Lemma gravitate_shaped dir b h b' h' :
  shaped b → GameState.gravitate dir (b, h) = Some (b', h') → shaped b'.
Proof.
  intros Hsh H. destruct (gravitate_summary _ _ _ _ _ Hsh H) as ((Hr & Hc) & Hl & _).
  unfold shaped, GameState.boardSize in *. by rewrite Hl, Hr, Hc.
Qed.

Lemma spawnTile_shaped b rs b' rs' :
  shaped b → GameState.spawnTile b rs = Some (b', rs') → shaped b'.
Proof.
  intros Hsh H. destruct (spawnTile_shape _ _ _ _ H) as ((Hr & Hc) & Hl & _).
  unfold shaped, GameState.boardSize in *. by rewrite Hl, Hr, Hc.
Qed.

Section HeapWithMove.
Variable mv : Direction.t → GameState.t → GameState.world →
              option (bool * GameState.t * GameState.world).
Hypothesis mv_heapExt : ∀ dir c w r c' w',
  shaped c → mv dir c w = Some (r, c', w') → heapExt (fst w) (fst w').

Lemma isGameOver_loop_heapExt b dirs : ∀ w r w',
  shaped b → GameState.isGameOver_loop mv b dirs w = Some (r, w') →
  heapExt (fst w) (fst w').
Proof.
  induction dirs as [|dir dirs IH]; intros w r w' Hsh H; cbn in H.
  { injection H as <- <-. apply heapExt_refl. }
  destruct (GameState.clone b (snd w)) as [[c rs1]|] eqn:Hc; cbn in H; [|done].
  pose proof (clone_inv _ _ _ _ Hsh Hc) as ->.
  destruct (mv dir _ _) as [[[changed c'] w1]|] eqn:Hm; cbn in H; [|done].
  apply mv_heapExt in Hm; [|done]. cbn [fst] in Hm.
  destruct changed.
  - by injection H as <- <-.
  - eapply heapExt_trans; [exact Hm|]. by eapply IH.
Qed.

Lemma isGameOver_with_heapExt b w r w' :
  shaped b → GameState.isGameOver_with mv b w = Some (r, w') →
  heapExt (fst w) (fst w').
Proof.
  intros Hsh H. unfold GameState.isGameOver_with in H.
  destruct (GameState.isFull b) as [[|]|]; cbn [mbind option_bind] in H; [| |done].
  - exact (isGameOver_loop_heapExt _ _ _ _ _ Hsh H).
  - injection H as <- <-. apply heapExt_refl.
Qed.

Lemma updateStatus_with_heapExt b w b' w' :
  shaped b → GameState.updateStatus_with mv b w = Some (b', w') →
  heapExt (fst w) (fst w').
Proof.
  intros Hsh H. apply updateStatus_with_inv in H as (over & H & _).
  exact (isGameOver_with_heapExt _ _ _ _ Hsh H).
Qed.

End HeapWithMove.

Lemma move_heapExt fuel : ∀ dir b w r b' w',
  shaped b → GameState.move fuel dir b w = Some (r, b', w') →
  heapExt (fst w) (fst w').
Proof.
  induction fuel as [|fuel IH]; intros dir b [h rs] r b' [h' rs'] Hsh H; [done|].
  apply move_inv in H as (rs1 & b1 & h1 & same & Hc & Hg & He & -> & Hsame & Hdiff); [|done].
  destruct (gravitate_summary _ _ _ _ _ Hsh Hg) as (_ & _ & _ & _ & _ & _ & Hl & Hf & _).
  assert (Hext1 : heapExt h h1) by done.
  destruct same.
  - destruct (Hsame eq_refl) as (-> & -> & ->). done.
  - destruct (Hdiff eq_refl) as (b2 & rs2 & Hs & Hu).
    eapply heapExt_trans; [exact Hext1|].
    apply (updateStatus_with_heapExt _ (IH) b2 (h1, rs2) b' (h', rs')); [|done].
    eapply spawnTile_shaped; [|done]. by eapply gravitate_shaped.
Qed.

(** * Score *)

Lemma gsteps_mergesOf d s s' :
  rtc (gstep d) s s' → ∃ ls, mergesOf d s s' ls.
Proof.
  induction 1 as [s|s s1 s2 H1 _ (ls & IH)]; [exists []; constructor|].
  destruct H1 as [b h i x y x' y' Hi Hx Hy Hg Hex HnM Hey Hmv
                 |b h i x y x' y' h' Hi Hx Hy Hg Hm HS HM].
  - exists ls. by eapply mergesOf_move.
  - eexists. by eapply mergesOf_merge.
Qed.

Lemma powerSum_cons l ls : powerSum (l :: ls) = 2 ^ Z.of_nat l + powerSum ls.
Proof. done. Qed.

Lemma mergesOf_score d s s' ls :
  mergesOf d s s' ls →
  GameState.score (fst s') = GameState.score (fst s) + powerSum ls.
Proof.
  induction 1 as [s|b h i x y x' y' s' ls Hi Hx Hy Hg Hex Hey Hmv _ IH
                 |b h i x y x' y' h' s' ls Hi Hx Hy Hg Hm HM _ IH]; cbn [fst] in *.
  - cbn. lia.
  - rewrite IH. done.
  - rewrite IH, powerSum_cons. cbn [GameState.score GameState.withScore].
    pose proof (mergeable_true _ _ Hm) as (Hax & Hay & Hlv).
    pose proof (mergeWith_nonempty _ _ _ _ _ _ HM (ableToMerge_nonempty _ Hax)) as [-> ->].
    unfold Tile.scoreValue, Tile.isEmpty. cbn [Tile.status].
    rewrite bool_decide_eq_false_2 by done. cbn [default]. unfold id. lia.
Qed.

Lemma powerSum_nonneg ls : 0 <= powerSum ls.
Proof. induction ls as [|l ls IH]; [done|]. rewrite powerSum_cons. lia. Qed.

Lemma gravitate_mergeLevels dir b h s' :
  shaped b → GameState.gravitate dir (b, h) = Some s' →
  ∃ ls, mergeLevels dir b h ls ∧
        GameState.score (fst s') = GameState.score b + powerSum ls.
Proof.
  intros Hsh H. destruct (gravitate_inv _ _ _ _ Hsh H) as (s1 & Hp & HP & Hsteps & _).
  destruct (gsteps_mergesOf _ _ _ Hsteps) as (ls & Hls).
  exists ls. split.
  - by exists s1, s'.
  - rewrite (mergesOf_score _ _ _ _ Hls). destruct HP as (Hb & _).
    rewrite Hb. done.
Qed.

(** * Reachable boards *)

Lemma wf_shaped b : wf b → shaped b.
Proof. by intros (_ & _ & ? & _). Qed.

Lemma wf_TilesWf b : wf b → TilesWf (GameState.tiles b).
Proof. by intros (_ & _ & _ & ?). Qed.

Lemma new_wf r c t rs b rs' :
  0 < r → 0 < c → GameState.new r c t rs = Some (b, rs') → wf b.
Proof.
  intros Hr Hc H. apply new_inv in H as (<- & <- & _ & _ & _ & Hsh & Ht).
  split; [done|]. split; [done|]. split; [done|].
  intros k x Hx. destruct (Ht _ _ Hx) as [->|(l & _ & ->)]; cbn; done.
Qed.

Lemma gravitate_wf dir b h b' h' :
  wf b → GameState.gravitate dir (b, h) = Some (b', h') → wf b'.
Proof.
  intros (Hr & Hc & Hsh & Hwf) H.
  destruct (gravitate_summary _ _ _ _ _ Hsh H)
    as ((Hr' & Hc') & _ & _ & _ & _ & _ & _ & _ & _ & Ht & _).
  split; [lia|]. split; [lia|]. split; [by eapply gravitate_shaped|]. by apply Ht.
Qed.

Lemma spawnTile_wf b rs b' rs' :
  wf b → GameState.spawnTile b rs = Some (b', rs') → wf b'.
Proof.
  intros (Hr & Hc & Hsh & Hwf) H.
  destruct (spawnTile_shape _ _ _ _ H) as ((Hr' & Hc') & _).
  split; [lia|]. split; [lia|]. split; [by eapply spawnTile_shaped|].
  apply (spawnTile_inv _ _ _ _ Hsh) in H
    as [(_ & -> & _)|(j & y & pre & d & e & Hy & Hny & _ & _ & ->)]; [done|].
  intros k x Hx. cbn in Hx. destruct (decide (k = j)) as [->|Hne].
  - rewrite list_lookup_insert_eq in Hx by (by eapply lookup_lt_Some).
    injection Hx as <-. cbn. destruct (Hwf _ _ Hy) as [-> _]. done.
  - rewrite list_lookup_insert_ne in Hx by done. by apply Hwf.
Qed.

Lemma wf_withStatus b s : wf b → wf (GameState.withStatus b s).
Proof. done. Qed.

Lemma updateStatus_with_tiles mv b w b' w' :
  GameState.updateStatus_with mv b w = Some (b', w') →
  ∃ s, b' = GameState.withStatus b s.
Proof.
  intros H. apply updateStatus_with_inv in H
    as (over & _ & [[_ ->]|[(_ & _ & ->)|(_ & _ & goal & _ & ->)]]); eauto.
Qed.

(** The shape of every [move] that returns. *)
Lemma move_result fuel dir b h rs changed b' h' rs' :
  shaped b →
  GameState.move fuel dir b (h, rs) = Some (changed, b', (h', rs')) →
  ∃ b1 h1,
    GameState.gravitate dir (b, h) = Some (b1, h1) ∧ heapExt h1 h' ∧
    GameState.equals b1 (GameState.withStatus b GameStatus.InProgress)
    = Some (negb changed) ∧
    ((changed = false ∧ b' = b1 ∧ h' = h1) ∨
     (changed = true ∧ ∃ b2 rs1 rs2 st,
        GameState.spawnTile b1 rs1 = Some (b2, rs2) ∧
        b' = GameState.withStatus b2 st)).
Proof.
  intros Hsh H. destruct fuel as [|fuel]; [done|].
  pose proof H as H0.
  apply move_inv in H as (rs1 & b1 & h1 & same & Hc & Hg & He & -> & Hsame & Hdiff); [|done].
  exists b1, h1. split; [done|]. rewrite negb_involutive. destruct same.
  - destruct (Hsame eq_refl) as (-> & -> & ->). split; [apply heapExt_refl|].
    split; [done|]. by left.
  - destruct (Hdiff eq_refl) as (b2 & rs2 & Hs & Hu).
    assert (Hsh2 : shaped b2).
    { eapply spawnTile_shaped; [|done]. by eapply gravitate_shaped. }
    split.
    { exact (updateStatus_with_heapExt _ (move_heapExt fuel) b2 (h1, rs2) b' (h', rs')
               Hsh2 Hu). }
    split; [done|]. right. split; [done|].
    destruct (updateStatus_with_tiles _ _ _ _ _ Hu) as [st ->].
    by exists b2, rs1, rs2, st.
Qed.

Lemma move_wf fuel dir b h rs changed b' h' rs' :
  wf b → GameState.move fuel dir b (h, rs) = Some (changed, b', (h', rs')) → wf b'.
Proof.
  intros Hwf H.
  destruct (move_result _ _ _ _ _ _ _ _ _ (wf_shaped _ Hwf) H)
    as (b1 & h1 & Hg & _ & _ & [(_ & -> & _)|(_ & b2 & rs1 & rs2 & st & Hs & ->)]).
  - by eapply gravitate_wf.
  - apply wf_withStatus. eapply spawnTile_wf; [|done]. by eapply gravitate_wf.
Qed.

Lemma hist_heapExt (h h' : list (list (option nat))) x a l :
  heapExt h h' → hist h x = Some (a, l) → hist h' x = Some (a, l).
Proof.
  intros [_ Hf] H. unfold hist in *.
  destruct (Tile.prevIndex x) as [p|]; cbn in *; [|done].
  destruct (Tile.prevLevel x) as [q|]; cbn in *; [|done].
  destruct (h !! p) as [a'|] eqn:Hp; cbn in H; [|done].
  destruct (h !! q) as [l'|] eqn:Hq; cbn in H; [|done].
  rewrite (Hf p) by (by eapply lookup_lt_Some). rewrite Hp. cbn.
  rewrite (Hf q) by (by eapply lookup_lt_Some). rewrite Hq. done.
Qed.

Lemma historyShape_heapExt (h h' : list (list (option nat))) x :
  heapExt h h' → historyShape h x → historyShape h' x.
Proof.
  intros Hext. unfold historyShape. destruct (decide _); [done|].
  intros (a & l & Hh & Hl). exists a, l. split; [|done]. by eapply hist_heapExt.
Qed.

Lemma Truthful_lengths ts0 (h : list (list (option nat))) x p q :
  Tile.prevIndex x = Some p → Tile.prevLevel x = Some q →
  Truthful ts0 h x p q → ∃ a l, hist h x = Some (a, l) ∧ length a = length l.
Proof.
  intros Hp Hq HT. unfold hist. rewrite Hp, Hq. cbn. unfold Truthful in HT.
  destruct (decide _).
  - destruct HT as (a & c & xa & xc & _ & _ & _ & _ & -> & -> & _). by eexists _, _.
  - destruct HT as (a & xa & _ & _ & -> & -> & _). by eexists _, _.
Qed.

(** After [gravitate] every tile has the history its status calls for. *)
Lemma gravitate_historyShape dir b h b' h' :
  shaped b → EmptyClean (GameState.tiles b) →
  GameState.gravitate dir (b, h) = Some (b', h') →
  ∀ k x, GameState.tiles b' !! k = Some x → historyShape h' x.
Proof.
  intros Hsh Hec H k x Hx.
  destruct (gravitate_summary _ _ _ _ _ Hsh H)
    as (_ & _ & _ & _ & _ & [HT _] & _ & _ & _ & _ & Hclean).
  destruct (Hclean Hec _ _ Hx) as [Hns Hemp]. unfold historyShape.
  destruct (decide _) as [[He|Hs]|Hn]; [by apply Hemp|done|].
  destruct (HT _ _ Hx) as (p & q & Hp & Hq & _ & _ & _ & HTx).
  { intros He. apply Hn. by left. }
  by eapply Truthful_lengths.
Qed.

Lemma move_historyShape fuel dir b h rs changed b' h' rs' :
  shaped b → EmptyClean (GameState.tiles b) →
  GameState.move fuel dir b (h, rs) = Some (changed, b', (h', rs')) →
  ∀ k x, GameState.tiles b' !! k = Some x → historyShape h' x.
Proof.
  intros Hsh Hec H k x Hx.
  destruct (move_result _ _ _ _ _ _ _ _ _ Hsh H)
    as (b1 & h1 & Hg & Hext & _ & [(_ & -> & ->)|(_ & b2 & rs1 & rs2 & st & Hs & ->)]).
  - by eapply gravitate_historyShape.
  - apply (historyShape_heapExt h1); [done|]. cbn in Hx.
    pose proof (gravitate_historyShape _ _ _ _ _ Hsh Hec Hg) as H1.
    apply (spawnTile_inv _ _ _ _ (gravitate_shaped _ _ _ _ _ Hsh Hg)) in Hs
      as [(_ & -> & _)|(j & y & pre & d & e & Hy & Hny & _ & _ & ->)]; [by eapply H1|].
    cbn in Hx. destruct (decide (k = j)) as [->|Hne].
    + rewrite list_lookup_insert_eq in Hx by (by eapply lookup_lt_Some).
      injection Hx as <-. specialize (H1 _ _ Hy). unfold historyShape in *. cbn.
      rewrite decide_True by (by right). rewrite decide_True in H1; [done|].
      left. unfold occupied in Hny. by destruct (decide (Tile.status y = TileStatus.Empty)).
    + rewrite list_lookup_insert_ne in Hx by done. by eapply H1.
Qed.

Lemma historyShape_EmptyClean (h : list (list (option nat))) ts :
  (∀ k x, ts !! k = Some x → historyShape h x) → EmptyClean ts.
Proof.
  intros H k x Hx He. specialize (H _ _ Hx). unfold historyShape in H.
  rewrite decide_True in H by (by left). done.
Qed.

(** What holds of every reachable board. *)
Lemma reachable_inv b h :
  reachable b h →
  wf b ∧ 0 <= GameState.score b ∧
  ∀ k x, GameState.tiles b !! k = Some x → historyShape h x.
Proof.
  induction 1 as [r c t rs b rs' h Hr Hc Hnew
                 |fuel dir b h rs changed b' h' rs' _ (Hwf & Hsc & Hhs) Hmv].
  - split; [exact (new_wf _ _ _ _ _ _ Hr Hc Hnew)|].
    apply new_inv in Hnew as (_ & _ & _ & -> & _ & _ & Ht). split; [done|].
    intros k x Hx. unfold historyShape.
    destruct (Ht _ _ Hx) as [->|(l & _ & ->)]; cbn.
    + by rewrite decide_True by (by left).
    + by rewrite decide_True by (by right).
  - split; [exact (move_wf _ _ _ _ _ _ _ _ _ Hwf Hmv)|]. split.
    + destruct (move_result _ _ _ _ _ _ _ _ _ (wf_shaped _ Hwf) Hmv)
        as (b1 & h1 & Hg & _ & _ & Hcase).
      destruct (gravitate_summary _ _ _ _ _ (wf_shaped _ Hwf) Hg)
        as (_ & _ & _ & _ & Hs1 & _).
      pose proof (mergedSum_nonneg (GameState.tiles b1)).
      destruct Hcase as [(_ & -> & _)|(_ & b2 & rs1 & rs2 & st & Hs & ->)]; [lia|].
      destruct (spawnTile_shape _ _ _ _ Hs) as (_ & _ & _ & _ & Hs2). cbn. lia.
    + eapply move_historyShape; [by apply wf_shaped| |done].
      by eapply historyShape_EmptyClean.
Qed.

(** * A move that changes nothing *)

Lemma posSumFrom_insert ts : ∀ a k x y,
  ts !! k = Some x →
  posSumFrom a (<[k := y]> ts) =
  posSumFrom a ts - (if decide (occupied x) then a + Z.of_nat k else 0)
                  + (if decide (occupied y) then a + Z.of_nat k else 0).
Proof.
  induction ts as [|z ts IH]; intros a [|k] x y Hk; cbn [posSumFrom] in *; try done.
  - cbn in Hk. injection Hk as ->.
    change (<[0%nat:=y]> (x :: ts)) with (y :: ts). cbn [posSumFrom].
    destruct (decide (occupied x)), (decide (occupied y)); lia.
  - cbn in Hk. change (<[S k:=y]> (z :: ts)) with (z :: <[k:=y]> ts).
    cbn [posSumFrom]. rewrite (IH _ _ _ _ Hk).
    replace (a + 1 + Z.of_nat k) with (a + Z.of_nat (S k)) by lia.
    destruct (decide (occupied x)), (decide (occupied y)); lia.
Qed.

Lemma posSumFrom_ext ts ts' a :
  Forall2 (λ x y, occupied x ↔ occupied y) ts ts' →
  posSumFrom a ts = posSumFrom a ts'.
Proof.
  intros HF. revert a. induction HF as [|x y ts ts' Hxy _ IH]; intros a; [done|].
  cbn [posSumFrom]. rewrite IH.
  destruct (decide (occupied x)), (decide (occupied y)); tauto || lia.
Qed.

Section NoChange.
Variable d : Z.

Lemma gstep_measure s s' :
  gstep d s s' →
  (GameState.score (fst s') = GameState.score (fst s) ∧
   posSum (GameState.tiles (fst s')) = posSum (GameState.tiles (fst s)) + d ∧ d ≠ 0) ∨
  GameState.score (fst s) < GameState.score (fst s').
Proof.
  destruct 1 as [b h i x y x' y' Hi Hx Hy Hg Hex HnM Hey Hmv
                |b h i x y x' y' h' Hi Hx Hy Hg Hm HS HM];
    cbn [fst GameState.tiles GameState.score GameState.withTiles GameState.withScore].
  - left. split; [done|].
    pose proof (guard_nonzero _ _ _ Hg) as Hd0. pose proof (guard_inside _ _ _ Hg) as Hin.
    split; [|done].
    apply isEmpty_false in Hex. rewrite (moveTo_occupied _ _ Hex) in Hmv.
    injection Hmv as <- <-.
    pose proof (tileAt_Some _ _ _ Hx) as [_ Hx']. pose proof (tileAt_Some _ _ _ Hy) as [_ Hy'].
    unfold posSum, GameState.setTile.
    rewrite (posSumFrom_insert _ _ _ y), (posSumFrom_insert _ _ _ x); [|done|].
    2:{ rewrite list_lookup_insert_ne by lia. done. }
    apply isEmpty_true in Hey.
    rewrite (decide_True (P := occupied x)) by done.
    rewrite (decide_False (P := occupied (Tile.reset x))) by (intros Ho; by apply Ho).
    rewrite (decide_False (P := occupied y)) by (intros Ho; by apply Ho).
    rewrite decide_True by done. lia.
  - right.
    pose proof (mergeable_true _ _ Hm) as (Hax & Hay & Hlv).
    pose proof (mergeWith_nonempty _ _ _ _ _ _ HM (ableToMerge_nonempty _ Hax)) as [-> ->].
    unfold Tile.scoreValue, Tile.isEmpty. cbn [Tile.status].
    rewrite bool_decide_eq_false_2 by done. cbn [default]. unfold id.
    assert (0 < 2 ^ Z.of_nat (Tile.levelNumber
              {| Tile.index := Tile.index y;
                 Tile.level := Some (S (Tile.levelNumber y));
                 Tile.prevIndex := Tile.prevIndex y;
                 Tile.prevLevel := Tile.prevLevel y;
                 Tile.status := TileStatus.Merged |})) by (apply Z.pow_pos_nonneg; lia).
    lia.
Qed.

(** A sequence of steps that ends with the score and the occupied cells it
    started with is empty. *)
Lemma gsteps_measure s s' :
  rtc (gstep d) s s' →
  GameState.score (fst s) <= GameState.score (fst s') ∧
  (GameState.score (fst s') = GameState.score (fst s) →
   0 <= d * (posSum (GameState.tiles (fst s')) - posSum (GameState.tiles (fst s))) ∧
   (posSum (GameState.tiles (fst s')) = posSum (GameState.tiles (fst s)) → s' = s)).
Proof.
  induction 1 as [s|s s1 s2 H1 _ (IHle & IH)].
  { split; [lia|]. intros _. split; [lia|done]. }
  destruct (gstep_measure _ _ H1) as [(Hs & Hp & Hd)|Hlt].
  - split; [lia|]. intros Heq. destruct (IH ltac:(lia)) as (Hge & _).
    split; [nia|]. intros Hpe. exfalso. nia.
  - split; [lia|]. intros Heq. lia.
Qed.

End NoChange.

(** When [move] reports no change, what it leaves is the state after the
    first loop of [gravitate]. *)
Lemma move_unchanged_prepared fuel dir b h rs b' h' rs' :
  wf b →
  GameState.move fuel dir b (h, rs) = Some (false, b', (h', rs')) →
  GameState.prepare_loop (GameState.indices b) (b, h) = Some (b', h') ∧
  Prepared b h (Z.to_nat (GameState.boardSize b)) (b', h').
Proof.
  intros Hwf H. pose proof (wf_shaped _ Hwf) as Hsh.
  destruct (move_result _ _ _ _ _ _ _ _ _ Hsh H)
    as (b1 & h1 & Hg & _ & He & [(_ & Hb1 & Hh1)|(? & _)]); [|done].
  subst b1 h1. cbn in He.
  destruct (gravitate_inv _ _ _ _ Hsh Hg) as ([b0 h0] & Hp & HP & Hsteps & _).
  destruct (gravitate_summary _ _ _ _ _ Hsh Hg)
    as (Hd & Hlen & _ & _ & _ & _ & _ & _ & _ & Hwf' & _).
  destruct (Hwf' (wf_TilesWf _ Hwf)) as [Hwf1 _].
  assert (Hsh1 : shaped b') by (by eapply gravitate_shaped).
  destruct (equals_spec b' (GameState.withStatus b GameStatus.InProgress) Hsh1)
    as (r & Hr & Hiff).
  { destruct Hd as [Hr' Hc']. split; cbn; congruence. }
  { cbn. congruence. }
  rewrite Hr in He. injection He as ->.
  destruct (proj1 Hiff eq_refl) as [Hsc Hlv]. cbn in Hsc, Hlv.
  pose proof (Prepared_TilesWf _ _ _ Hsh HP (wf_TilesWf _ Hwf)) as Hwf0.
  pose proof HP as (Hb0 & Hlen0 & _). cbn [fst] in Hb0, Hlen0.
  destruct (gsteps_measure _ _ _ Hsteps) as (_ & Hm). cbn [fst] in Hm.
  assert (Hsc0 : GameState.score b0 = GameState.score b) by (by rewrite Hb0).
  destruct (Hm ltac:(lia)) as (_ & Hid).
  assert ((b', h') = (b0, h0)) as [= -> ->]; [|done].
  apply Hid. apply posSumFrom_ext.
  apply Forall2_same_length_lookup. split; [lia|].
  intros k x y Hx Hy.
  destruct (Prepared_lookup _ _ _ _ _ Hsh HP Hy) as (z & Hz & Hcase).
  destruct (Hlv _ _ _ Hx Hz) as [_ Hl].
  destruct (Hwf1 _ _ Hx) as [_ Hex]. destruct (Hwf0 _ _ Hy) as [_ Hey].
  assert (Tile.level y = Tile.level z) as Hlyz.
  { destruct Hcase as [[_ ->]|(_ & -> & _)]; done. }
  unfold occupied. rewrite Hex, Hey, Hl, Hlyz. done.
Qed.

(** * Facts about the concrete game *)

Lemma exampleStart_eq : GameState.new 4 4 11 [0; 0; 1; 0]%nat = Some (exampleBoard, []).
Proof. reflexivity. Qed.

Lemma exampleMove_eq :
  GameState.move 1 Direction.Left exampleBoard ([], exampleDraws)
  = Some (true, exampleAfter, (exampleHeap, [])).
Proof. reflexivity. Qed.

Lemma exampleBoard_reachable h : reachable exampleBoard h.
Proof.
  apply (reachable_new 4 4 11 [0; 0; 1; 0]%nat exampleBoard [] h); [lia|lia|].
  apply exampleStart_eq.
Qed.

Lemma exampleAfter_reachable : reachable exampleAfter exampleHeap.
Proof.
  eapply reachable_move; [apply (exampleBoard_reachable [])|apply exampleMove_eq].
Qed.

(** * The weight of the board and the height of its tiles *)

Lemma tileSum_insert f ts k x y :
  ts !! k = Some x →
  tileSum f (<[k:=y]> ts) = tileSum f ts - f x + f y.
Proof.
  revert k. induction ts as [|z ts IH]; intros [|k] Hk; simpl in *; try done.
  - injection Hk as ->. lia.
  - rewrite (IH _ Hk). lia.
Qed.

Lemma tileSum_ext f ts : ∀ ts',
  length ts' = length ts →
  (∀ k x y, ts !! k = Some x → ts' !! k = Some y → f y = f x) →
  tileSum f ts' = tileSum f ts.
Proof.
  induction ts as [|z ts IH]; intros [|z' ts'] Hlen H; simpl in *; try done.
  rewrite (H 0%nat z z' eq_refl eq_refl), (IH ts'); [done|lia|].
  intros k x y Hx Hy. by apply (H (S k)).
Qed.

Lemma tileSum_bounds f ts lo hi :
  (∀ x, lo <= f x <= hi) →
  Z.of_nat (length ts) * lo <= tileSum f ts <= Z.of_nat (length ts) * hi.
Proof.
  intros H. induction ts as [|z ts IH]; simpl; [lia|].
  specialize (H z). lia.
Qed.

Lemma tileSum_lookup_le f ts k x :
  (∀ y, 0 <= f y) → ts !! k = Some x → f x <= tileSum f ts.
Proof.
  intros Hf. revert k. induction ts as [|z ts IH]; intros [|k] Hk; simpl in *; try done.
  - injection Hk as ->. pose proof (tileSum_bounds f ts 0 (f x)).
    assert (0 <= tileSum f ts); [|lia].
    clear -Hf. induction ts as [|z ts IH]; simpl; [done|]. specialize (Hf z). lia.
  - specialize (IH _ Hk). specialize (Hf z). lia.
Qed.

Lemma atLeast_range t x : 0 <= atLeast t x <= 1.
Proof. unfold atLeast. destruct (decide _); lia. Qed.

Lemma weight_nonneg x : 0 <= weight x.
Proof. unfold weight. destruct (decide _); lia. Qed.

Lemma atLeast_empty t x : ¬ occupied x → atLeast t x = 0.
Proof. intros H. unfold atLeast. rewrite decide_False; tauto. Qed.

Lemma weight_empty x : ¬ occupied x → weight x = 0.
Proof. intros H. unfold weight. by rewrite decide_False. Qed.

Lemma weight_occupied x : occupied x → weight x = 2 ^ Z.of_nat (Tile.levelNumber x).
Proof. intros H. unfold weight. by rewrite decide_True. Qed.

Lemma countAtLeast_range t ts : 0 <= countAtLeast t ts <= Z.of_nat (length ts).
Proof.
  pose proof (tileSum_bounds (atLeast t) ts 0 1 (atLeast_range t)).
  unfold countAtLeast. lia.
Qed.

Lemma countAtLeast_mono t t' ts : t <= t' → countAtLeast t' ts <= countAtLeast t ts.
Proof.
  intros Ht. unfold countAtLeast. induction ts as [|z ts IH]; simpl; [done|].
  assert (atLeast t' z <= atLeast t z); [|lia].
  unfold atLeast. repeat destruct (decide _); try lia. exfalso. intuition lia.
Qed.

Lemma tileSum_members_le f ts hi :
  (∀ k x, ts !! k = Some x → f x <= hi) →
  tileSum f ts <= Z.of_nat (length ts) * hi.
Proof.
  induction ts as [|z ts IH]; intros H; simpl; [lia|].
  pose proof (H 0%nat z eq_refl). specialize (IH (λ k x Hx, H (S k) x Hx)). lia.
Qed.

Lemma tileSum_two_le f ts i j x y :
  (∀ z, 0 <= f z) → f (Tile.new 0) = 0 → i ≠ j →
  ts !! i = Some x → ts !! j = Some y → f x + f y <= tileSum f ts.
Proof.
  intros Hf H0 Hne Hx Hy.
  pose proof (tileSum_insert f ts i x (Tile.new 0) Hx) as Hins.
  assert (Hy' : <[i:=Tile.new 0]> ts !! j = Some y).
  { by rewrite list_lookup_insert_ne. }
  pose proof (tileSum_lookup_le f _ _ _ Hf Hy'). lia.
Qed.

Lemma tileSum_minus f g ts :
  tileSum (λ x, f x - g x) ts = tileSum f ts - tileSum g ts.
Proof. induction ts as [|z ts IH]; simpl; lia. Qed.

(** Two tiles of level [l] in different cells. *)
Lemma countAtLeast_pair l ts i j x y :
  i ≠ j → ts !! i = Some x → ts !! j = Some y →
  occupied x → occupied y →
  Z.of_nat (Tile.levelNumber x) = l → Z.of_nat (Tile.levelNumber y) = l →
  countAtLeast (l + 1) ts + 2 <= countAtLeast l ts.
Proof.
  intros Hne Hx Hy Hox Hoy Hlx Hly.
  pose proof (tileSum_minus (atLeast l) (atLeast (l + 1)) ts) as Hm.
  pose proof (tileSum_two_le (λ z, atLeast l z - atLeast (l + 1) z) ts i j x y) as H2.
  cbn beta in H2. unfold countAtLeast.
  assert (Hx1 : atLeast l x - atLeast (l + 1) x = 1).
  { unfold atLeast. rewrite decide_True by (split; [done|lia]).
    rewrite decide_False by (intros [_ ?]; lia). done. }
  assert (Hy1 : atLeast l y - atLeast (l + 1) y = 1).
  { unfold atLeast. rewrite decide_True by (split; [done|lia]).
    rewrite decide_False by (intros [_ ?]; lia). done. }
  rewrite Hx1, Hy1 in H2.
  enough (2 <= tileSum (λ x0, atLeast l x0 - atLeast (l + 1) x0) ts) by lia.
  apply H2; [|done|done|done|done].
  intros z. unfold atLeast. repeat destruct (decide _); try lia.
  exfalso. intuition lia.
Qed.

Lemma atLeast_merged t y :
  atLeast t {| Tile.index := Tile.index y;
               Tile.level := Some (S (Tile.levelNumber y));
               Tile.prevIndex := Tile.prevIndex y;
               Tile.prevLevel := Tile.prevLevel y;
               Tile.status := TileStatus.Merged |}
  = if decide (t <= Z.of_nat (Tile.levelNumber y) + 1) then 1 else 0.
Proof.
  unfold atLeast, occupied.
  change (Tile.levelNumber (Tile.mk _ (Some ?n) _ _ _)) with n. cbn [Tile.status].
  rewrite Nat2Z.inj_succ. destruct (decide (t <= _ + 1)).
  - rewrite decide_True; [done|]. split; [done|lia].
  - rewrite decide_False; [done|]. intros [_ ?]. lia.
Qed.

Section Steps.
Variable d : Z.

Lemma weight_gstep s s' :
  gstep d s s' → boardWeight (fst s') = boardWeight (fst s).
Proof.
  destruct 1 as [b h i x y x' y' Hi Hx Hy Hg Hex HnM Hey Hmv
                |b h i x y x' y' h' Hi Hx Hy Hg Hm HS HM];
    unfold boardWeight;
    cbn [fst GameState.tiles GameState.score GameState.withTiles GameState.withScore] in *.
  - pose proof (guard_nonzero _ _ _ Hg).
    apply isEmpty_false in Hex. rewrite (moveTo_occupied _ _ Hex) in Hmv.
    injection Hmv as <- <-.
    pose proof (tileAt_Some _ _ _ Hx) as [_ Hx']. pose proof (tileAt_Some _ _ _ Hy) as [Hi' Hy'].
    unfold GameState.setTile.
    rewrite (tileSum_insert _ _ _ y), (tileSum_insert _ _ _ x); [|done|].
    2:{ rewrite list_lookup_insert_ne by lia. done. }
    apply isEmpty_true in Hey.
    rewrite (weight_empty y), (weight_empty (Tile.reset x)) by (unfold occupied; cbn; tauto).
    assert (weight {| Tile.index := Tile.index y; Tile.level := Tile.level x;
                      Tile.prevIndex := Tile.prevIndex x;
                      Tile.prevLevel := Tile.prevLevel x;
                      Tile.status := TileStatus.Moved |} = weight x) as ->; [|lia].
    by rewrite !weight_occupied by done.
  - pose proof (guard_nonzero _ _ _ Hg).
    pose proof (mergeable_true _ _ Hm) as (Hax & Hay & Hlv).
    pose proof (mergeWith_nonempty _ _ _ _ _ _ HM (ableToMerge_nonempty _ Hax)) as [-> ->].
    pose proof (tileAt_Some _ _ _ Hx) as [_ Hx']. pose proof (tileAt_Some _ _ _ Hy) as [Hi' Hy'].
    unfold GameState.setTile.
    rewrite (tileSum_insert _ _ _ y), (tileSum_insert _ _ _ x); [|done|].
    2:{ rewrite list_lookup_insert_ne by lia. done. }
    apply ableToMerge_true in Hax as [? ?]. apply ableToMerge_true in Hay as [? ?].
    rewrite (weight_empty (Tile.reset x)) by (unfold occupied; cbn; tauto).
    assert (Hxy : weight x = weight y).
    { rewrite !weight_occupied by done. unfold Tile.levelNumber. by rewrite Hlv. }
    assert (weight {| Tile.index := Tile.index y;
                      Tile.level := Some (S (Tile.levelNumber y));
                      Tile.prevIndex := Tile.prevIndex y;
                      Tile.prevLevel := Tile.prevLevel y;
                      Tile.status := TileStatus.Merged |} = 2 * weight y) as ->; [|lia].
    rewrite !weight_occupied by done.
    change (Tile.levelNumber (Tile.mk _ (Some ?n) _ _ _)) with n.
    rewrite Nat2Z.inj_succ, Z.pow_succ_r by lia. done.
Qed.

Lemma weight_gsteps s s' :
  rtc (gstep d) s s' → boardWeight (fst s') = boardWeight (fst s).
Proof.
  induction 1 as [|s s1 s2 H1 _ IH]; [done|].
  rewrite IH. by apply weight_gstep.
Qed.

Lemma Stacked_gstep B s s' :
  gstep d s s' →
  Stacked B (GameState.tiles (fst s)) → Stacked B (GameState.tiles (fst s')).
Proof.
  destruct 1 as [b h i x y x' y' Hi Hx Hy Hg Hex HnM Hey Hmv
                |b h i x y x' y' h' Hi Hx Hy Hg Hm HS HM];
    intros HB t; unfold countAtLeast;
    cbn [fst GameState.tiles GameState.score GameState.withTiles GameState.withScore] in *.
  - pose proof (guard_nonzero _ _ _ Hg).
    apply isEmpty_false in Hex. rewrite (moveTo_occupied _ _ Hex) in Hmv.
    injection Hmv as <- <-.
    pose proof (tileAt_Some _ _ _ Hx) as [_ Hx']. pose proof (tileAt_Some _ _ _ Hy) as [Hi' Hy'].
    unfold GameState.setTile.
    rewrite (tileSum_insert _ _ _ y), (tileSum_insert _ _ _ x); [|done|].
    2:{ rewrite list_lookup_insert_ne by lia. done. }
    apply isEmpty_true in Hey.
    rewrite (atLeast_empty t y), (atLeast_empty t (Tile.reset x))
      by (unfold occupied; cbn; tauto).
    assert (atLeast t {| Tile.index := Tile.index y; Tile.level := Tile.level x;
                         Tile.prevIndex := Tile.prevIndex x;
                         Tile.prevLevel := Tile.prevLevel x;
                         Tile.status := TileStatus.Moved |} = atLeast t x) as ->.
    { unfold atLeast, occupied, Tile.levelNumber. cbn.
      repeat destruct (decide _); try done; exfalso; intuition congruence. }
    intros Hpos. specialize (HB t). unfold countAtLeast in HB. lia.
  - pose proof (guard_nonzero _ _ _ Hg).
    pose proof (mergeable_true _ _ Hm) as (Hax & Hay & Hlv).
    pose proof (mergeWith_nonempty _ _ _ _ _ _ HM (ableToMerge_nonempty _ Hax)) as [-> ->].
    pose proof (tileAt_Some _ _ _ Hx) as [_ Hx']. pose proof (tileAt_Some _ _ _ Hy) as [Hi' Hy'].
    unfold GameState.setTile.
    rewrite (tileSum_insert _ _ _ y), (tileSum_insert _ _ _ x); [|done|].
    2:{ rewrite list_lookup_insert_ne by lia. done. }
    apply ableToMerge_true in Hax as [? Hox]. apply ableToMerge_true in Hay as [? Hoy].
    rewrite (atLeast_empty t (Tile.reset x)) by (unfold occupied; cbn; tauto).
    set (l := Z.of_nat (Tile.levelNumber y)).
    assert (Hlx : Z.of_nat (Tile.levelNumber x) = l).
    { unfold l, Tile.levelNumber. by rewrite Hlv. }
    pose proof (countAtLeast_pair l (GameState.tiles b) (Z.to_nat i) (Z.to_nat (i + d)) x y)
      as Hpair.
    specialize (Hpair ltac:(lia) Hx' Hy' Hox Hoy Hlx eq_refl).
    pose proof (HB l) as HBl. pose proof (HB t) as HBt.
    pose proof (countAtLeast_range (l + 1) (GameState.tiles b)).
    pose proof (countAtLeast_range t (GameState.tiles b)).
    destruct (Z.le_gt_cases (l + 1) t) as [Hge|Hlt].
    + pose proof (countAtLeast_mono (l + 1) t (GameState.tiles b) Hge).
      unfold countAtLeast in *.
      assert (atLeast t x = 0) as ->.
      { unfold atLeast. rewrite decide_False; [done|]. intros [_ ?]. lia. }
      assert (atLeast t y = 0) as ->.
      { unfold atLeast. rewrite decide_False; [done|]. intros [_ ?]. lia. }
      rewrite atLeast_merged. fold l.
      destruct (decide _) as [Hle|Hn]; [|lia].
      assert (t = l + 1) as -> by lia. lia.
    + unfold countAtLeast in *.
      assert (atLeast t x = 1) as ->.
      { unfold atLeast. rewrite decide_True; [done|]. split; [done|lia]. }
      assert (atLeast t y = 1) as ->.
      { unfold atLeast. rewrite decide_True; [done|]. split; [done|lia]. }
      rewrite atLeast_merged. fold l. rewrite decide_True by lia. lia.
Qed.

Lemma Stacked_gsteps B s s' :
  rtc (gstep d) s s' →
  Stacked B (GameState.tiles (fst s)) → Stacked B (GameState.tiles (fst s')).
Proof. induction 1; eauto using Stacked_gstep. Qed.

End Steps.

Lemma weight_prepared x p : occupied x → weight (prepared x p) = weight x.
Proof. intros H. by rewrite !weight_occupied. Qed.

Lemma atLeast_prepared t x p : occupied x → atLeast t (prepared x p) = atLeast t x.
Proof.
  intros H. unfold atLeast.
  change (Tile.levelNumber (prepared x p)) with (Tile.levelNumber x).
  destruct (decide (occupied x ∧ _)) as [[_ ?]|Hn].
  - by rewrite decide_True.
  - rewrite decide_False; [done|]. intros [_ ?]. by apply Hn.
Qed.

Lemma Prepared_tileSum f b0 h0 s :
  (∀ x p, occupied x → f (prepared x p) = f x) →
  shaped b0 → Prepared b0 h0 (Z.to_nat (GameState.boardSize b0)) s →
  tileSum f (GameState.tiles (fst s)) = tileSum f (GameState.tiles b0).
Proof.
  intros Hf Hsh HP. apply tileSum_ext; [by destruct HP as (_ & ? & _)|].
  intros k x0 x Hx0 Hx.
  destruct (Prepared_lookup _ _ _ _ _ Hsh HP Hx) as (y & Hy & [[Hn ->]|(Ho & -> & _)]).
  - congruence.
  - rewrite Hf by done. congruence.
Qed.

(** [gravitate] keeps the weight of the board and the bound on its levels. *)
Lemma gravitate_weight dir b h b' h' :
  shaped b → GameState.gravitate dir (b, h) = Some (b', h') →
  boardWeight b' = boardWeight b ∧
  ∀ B, Stacked B (GameState.tiles b) → Stacked B (GameState.tiles b').
Proof.
  intros Hsh Hg. destruct (gravitate_inv _ _ _ _ Hsh Hg) as (s1 & _ & HP & Hsteps & _).
  split.
  - change (boardWeight (fst (b', h')) = boardWeight b).
    rewrite (weight_gsteps _ _ _ Hsteps). unfold boardWeight.
    apply (Prepared_tileSum weight _ _ _ weight_prepared Hsh HP).
  - intros B HB. apply (Stacked_gsteps _ _ s1 (b', h') Hsteps).
    intros t. unfold countAtLeast.
    rewrite (Prepared_tileSum (atLeast t) _ _ _ (atLeast_prepared t) Hsh HP).
    apply HB.
Qed.

Lemma atLeast_spawned t y l :
  atLeast t (spawned y l) = if decide (t <= Z.of_nat l) then 1 else 0.
Proof.
  unfold atLeast, occupied. change (Tile.levelNumber (spawned y l)) with l.
  cbn [Tile.status spawned]. destruct (decide (t <= _)).
  - rewrite decide_True; [done|]. split; [done|lia].
  - rewrite decide_False; [done|]. intros [_ ?]. lia.
Qed.

(** [spawnTile] on a board with a free cell adds 2 or 4 to the weight. *)
Lemma spawnTile_weight b rs b' rs' :
  shaped b → GameState.spawnTile b rs = Some (b', rs') →
  (full b ∧ b' = b) ∨
  (¬ full b ∧ boardWeight b + 2 <= boardWeight b' ∧
   ∀ B, Z.of_nat (length (GameState.tiles b)) + 2 <= B →
        Stacked B (GameState.tiles b) → Stacked B (GameState.tiles b')).
Proof.
  intros Hsh Hs.
  apply (spawnTile_inv _ _ _ _ Hsh) in Hs
    as [(Hf & -> & _)|(j & y & pre & d & e & Hy & Hny & _ & _ & ->)]; [by left|].
  right. split. { intros Hf. by apply Hny, (Hf j). }
  cbn [GameState.tiles GameState.withTiles]. split.
  - unfold boardWeight. cbn [GameState.tiles GameState.withTiles].
    rewrite (tileSum_insert _ _ _ y) by done. rewrite (weight_empty y) by done.
    rewrite weight_occupied by done.
    change (Tile.levelNumber (spawned y ?l)) with l.
    destruct (drawnLevel_range e) as [-> | ->]; cbn; lia.
  - intros B HBl HB t. unfold countAtLeast.
    rewrite (tileSum_insert _ _ _ y) by done. rewrite (atLeast_empty t y) by done.
    pose proof (countAtLeast_range t (GameState.tiles b)) as Hr.
    pose proof (tileSum_lookup_le (atLeast t) _ _ _ (λ z, proj1 (atLeast_range t z)) Hy) as Hle.
    pose proof (tileSum_insert (atLeast t) _ j y (spawned y (drawnLevel e)) Hy) as Hins.
    pose proof (countAtLeast_range t (<[j:=spawned y (drawnLevel e)]> (GameState.tiles b)))
      as Hr'.
    rewrite length_insert in Hr'. unfold countAtLeast in *.
    rewrite (atLeast_empty t y) in Hins by done.
    specialize (HB t). unfold countAtLeast in HB.
    rewrite atLeast_spawned in Hins |- *.
    destruct (decide _) as [Hle'|Hn]; [|lia].
    intros _. destruct (drawnLevel_range e) as [He|He]; rewrite He in Hle'; lia.
Qed.

Lemma countAtLeast_maxLevel t ts :
  0 < countAtLeast t ts → t <= Z.of_nat (maxLevel ts).
Proof.
  unfold countAtLeast. induction ts as [|z ts IH]; simpl; [lia|].
  unfold atLeast at 1. destruct (decide _) as [[_ ?]|_]; lia.
Qed.

Lemma Stacked_start b : Stacked (stackBound b) (GameState.tiles b).
Proof.
  intros t Ht. pose proof (countAtLeast_maxLevel _ _ Ht).
  pose proof (countAtLeast_range t (GameState.tiles b)). unfold stackBound. lia.
Qed.

(** The bound on the levels bounds the weight. *)
Lemma Stacked_weight B b :
  0 <= B → Stacked B (GameState.tiles b) →
  boardWeight b <= Z.of_nat (length (GameState.tiles b)) * 2 ^ B.
Proof.
  intros HB0 HB. apply tileSum_members_le. intros k x Hx.
  unfold weight. destruct (decide (occupied x)) as [Ho|_]; [|lia].
  set (l := Z.of_nat (Tile.levelNumber x)).
  assert (Hc : 0 < countAtLeast l (GameState.tiles b)).
  { pose proof (tileSum_lookup_le (atLeast l) _ _ _ (λ z, proj1 (atLeast_range l z)) Hx) as Hle.
    unfold countAtLeast. unfold atLeast at 1 in Hle.
    rewrite decide_True in Hle by (split; [done|unfold l; lia]). lia. }
  specialize (HB l Hc). apply Z.pow_le_mono_r; lia.
Qed.

(** * A move that changes the board leaves a free cell *)

Lemma gstep_free_cell d s s' : gstep d s s' → ¬ full (fst s').
Proof.
  destruct 1 as [b h i x y x' y' Hi Hx Hy Hg Hex HnM Hey Hmv
                |b h i x y x' y' h' Hi Hx Hy Hg Hm HS HM]; intros Hf;
    cbn [fst GameState.tiles GameState.withTiles GameState.withScore] in *.
  - pose proof (guard_nonzero _ _ _ Hg).
    apply isEmpty_false in Hex. rewrite (moveTo_occupied _ _ Hex) in Hmv.
    injection Hmv as <- <-.
    pose proof (tileAt_Some _ _ _ Hx) as [_ Hx']. pose proof (tileAt_Some _ _ _ Hy) as [Hi' Hy'].
    apply (Hf (Z.to_nat i) (Tile.reset x)); [|done].
    cbn [GameState.tiles GameState.withTiles]. unfold GameState.setTile.
    rewrite list_lookup_insert_ne by lia.
    apply list_lookup_insert_eq. by eapply lookup_lt_Some.
  - pose proof (guard_nonzero _ _ _ Hg).
    pose proof (mergeable_true _ _ Hm) as (Hax & Hay & Hlv).
    pose proof (mergeWith_nonempty _ _ _ _ _ _ HM (ableToMerge_nonempty _ Hax)) as [-> ->].
    pose proof (tileAt_Some _ _ _ Hx) as [_ Hx']. pose proof (tileAt_Some _ _ _ Hy) as [Hi' Hy'].
    apply (Hf (Z.to_nat i) (Tile.reset x)); [|done].
    cbn [GameState.tiles GameState.withTiles GameState.withScore]. unfold GameState.setTile.
    rewrite list_lookup_insert_ne by lia.
    apply list_lookup_insert_eq. by eapply lookup_lt_Some.
Qed.

(** If the board is full after [gravitate], nothing has slid or merged, and
    the comparison with the copy taken before finds no difference. *)
Lemma gravitate_full_same dir b h b1 h1 :
  shaped b → GameState.gravitate dir (b, h) = Some (b1, h1) → full b1 →
  GameState.equals b1 (GameState.withStatus b GameStatus.InProgress) = Some true.
Proof.
  intros Hsh Hg Hf. destruct (gravitate_inv _ _ _ _ Hsh Hg) as (s1 & _ & HP & Hsteps & _).
  apply rtc_inv_r in Hsteps as [->|(s2 & _ & Hstep)].
  2:{ by apply gstep_free_cell in Hstep. }
  pose proof (gravitate_shaped _ _ _ _ _ Hsh Hg) as Hsh1.
  destruct (gravitate_summary _ _ _ _ _ Hsh Hg) as (Hd & Hlen & _).
  destruct (equals_spec b1 (GameState.withStatus b GameStatus.InProgress) Hsh1)
    as (r & Hr & Hiff).
  { destruct Hd as [Hr Hc]. split; cbn; congruence. }
  { cbn. congruence. }
  rewrite Hr. f_equal. apply Hiff. split.
  - destruct HP as (Hb & _). cbn [fst] in Hb. rewrite Hb. done.
  - intros k x y Hx Hy. cbn in Hy.
    destruct (Prepared_lookup _ _ _ _ _ Hsh HP Hx) as (x0 & Hx0 & [[Hn ->]|(Ho & -> & _)]).
    + rewrite Hx0 in Hy. by injection Hy as <-.
    + rewrite Hx0 in Hy. by injection Hy as <-.
Qed.

(** * More draws change nothing; enough draws let a spawn succeed *)

Lemma spawnTile_loop_frame ts size rs index rs' e :
  GameState.spawnTile_loop ts size rs = Some (index, rs') →
  GameState.spawnTile_loop ts size (rs ++ e) = Some (index, rs' ++ e).
Proof.
  induction rs as [|d rs IH]; intros H; [done|]. cbn in H |- *.
  destruct (GameState.tileAt ts _) as [x|]; cbn in H |- *; [|done].
  destruct (Tile.isEmpty x); cbn in H |- *; [|by apply IH].
  by injection H as <- <-.
Qed.

Lemma Tile_spawn_frame x rs x' rs' e :
  Tile.spawn x rs = Some (x', rs') → Tile.spawn x (rs ++ e) = Some (x', rs' ++ e).
Proof.
  destruct rs as [|d rs]; [done|]. rewrite Tile_spawn_cons. intros [= <- <-].
  apply Tile_spawn_cons.
Qed.

Lemma spawnTile_frame b rs b' rs' e :
  GameState.spawnTile b rs = Some (b', rs') →
  GameState.spawnTile b (rs ++ e) = Some (b', rs' ++ e).
Proof.
  unfold GameState.spawnTile. destruct (GameState.isFull b) as [[|]|]; cbn; [| |done].
  - by intros [= <- <-].
  - destruct (GameState.spawnTile_loop _ _ rs) as [[index rs1]|] eqn:Hl; cbn; [|done].
    rewrite (spawnTile_loop_frame _ _ _ _ _ e Hl). cbn.
    destruct (GameState.tileAt _ index) as [x|]; cbn; [|done].
    destruct (Tile.spawn x rs1) as [[x' rs2]|] eqn:Hs; cbn; [|done].
    rewrite (Tile_spawn_frame _ _ _ _ e Hs). cbn. by intros [= <- <-].
Qed.

Lemma new_frame r c t rs b rs' e :
  GameState.new r c t rs = Some (b, rs') →
  GameState.new r c t (rs ++ e) = Some (b, rs' ++ e).
Proof.
  unfold GameState.new.
  destruct (GameState.spawnTile _ rs) as [[b1 rs1]|] eqn:H1; cbn; [|done].
  rewrite (spawnTile_frame _ _ _ _ e H1). cbn. apply spawnTile_frame.
Qed.

Lemma clone_frame b rs c rs' e :
  GameState.clone b rs = Some (c, rs') →
  GameState.clone b (rs ++ e) = Some (c, rs' ++ e).
Proof.
  unfold GameState.clone.
  destruct (GameState.new _ _ _ rs) as [[c0 rs0]|] eqn:H1; cbn; [|done].
  rewrite (new_frame _ _ _ _ _ _ e H1). cbn.
  destruct (mapM _ _); cbn; [|done]. by intros [= <- <-].
Qed.

Section FrameWithMove.
Variable mv : Direction.t → GameState.t → GameState.world →
              option (bool * GameState.t * GameState.world).
Hypothesis mv_frame : ∀ dir b (h : list (list (option nat))) rs r b' h' rs' e,
  mv dir b (h, rs) = Some (r, b', (h', rs')) →
  mv dir b (h, rs ++ e) = Some (r, b', (h', rs' ++ e)).

Lemma isGameOver_loop_frame b dirs : ∀ (h : list (list (option nat))) rs r h' rs' e,
  GameState.isGameOver_loop mv b dirs (h, rs) = Some (r, (h', rs')) →
  GameState.isGameOver_loop mv b dirs (h, rs ++ e) = Some (r, (h', rs' ++ e)).
Proof.
  induction dirs as [|dir dirs IH]; intros h rs r h' rs' e H; cbn in H |- *.
  { by injection H as <- <- <-. }
  destruct (GameState.clone b rs) as [[c rs1]|] eqn:Hc; cbn in H; [|done].
  rewrite (clone_frame _ _ _ _ e Hc). cbn.
  destruct (mv dir c (h, rs1)) as [[[changed c'] [h1 rs2]]|] eqn:Hm; cbn in H; [|done].
  rewrite (mv_frame _ _ _ _ _ _ _ _ e Hm). cbn.
  destruct changed; [by injection H as <- <- <-|]. by apply IH.
Qed.

Lemma isGameOver_with_frame b (h : list (list (option nat))) rs r h' rs' e :
  GameState.isGameOver_with mv b (h, rs) = Some (r, (h', rs')) →
  GameState.isGameOver_with mv b (h, rs ++ e) = Some (r, (h', rs' ++ e)).
Proof.
  unfold GameState.isGameOver_with.
  destruct (GameState.isFull b) as [[|]|]; cbn [mbind option_bind]; [| |done].
  - apply isGameOver_loop_frame.
  - by intros [= <- <- <-].
Qed.

Lemma updateStatus_with_frame b (h : list (list (option nat))) rs b' h' rs' e :
  GameState.updateStatus_with mv b (h, rs) = Some (b', (h', rs')) →
  GameState.updateStatus_with mv b (h, rs ++ e) = Some (b', (h', rs' ++ e)).
Proof.
  unfold GameState.updateStatus_with.
  destruct (GameState.isGameOver_with mv b (h, rs)) as [[over [h1 rs1]]|] eqn:Ho; cbn; [|done].
  rewrite (isGameOver_with_frame _ _ _ _ _ _ e Ho). cbn.
  destruct over; [by intros [= <- <- <-]|].
  destruct (bool_decide _).
  - destruct (GameState.hasAchievedGoal b) as [[|]|]; cbn; [| |done]; by intros [= <- <- <-].
  - destruct (bool_decide _); by intros [= <- <- <-].
Qed.

End FrameWithMove.

Lemma move_frame fuel : ∀ dir b (h : list (list (option nat))) rs r b' h' rs' e,
  GameState.move fuel dir b (h, rs) = Some (r, b', (h', rs')) →
  GameState.move fuel dir b (h, rs ++ e) = Some (r, b', (h', rs' ++ e)).
Proof.
  induction fuel as [|fuel IH]; intros dir b h rs r b' h' rs' e H; [done|].
  cbn [GameState.move fst snd] in H |- *.
  destruct (GameState.clone b rs) as [[c rs1]|] eqn:Hc; cbn [mbind option_bind] in H; [|done].
  rewrite (clone_frame _ _ _ _ e Hc). cbn [mbind option_bind].
  destruct (GameState.gravitate dir (b, h)) as [[b1 h1]|]; cbn [mbind option_bind] in H |- *;
    [|done].
  destruct (GameState.equals b1 c) as [same|]; cbn [mbind option_bind] in H |- *; [|done].
  destruct same; cbn [negb] in H |- *; [by injection H as <- <- <- <-|].
  destruct (GameState.spawnTile b1 rs1) as [[b2 rs2]|] eqn:Hs;
    cbn [mbind option_bind] in H; [|done].
  rewrite (spawnTile_frame _ _ _ _ e Hs). cbn [mbind option_bind].
  destruct (GameState.updateStatus_with _ b2 (h1, rs2)) as [[b3 [h3 rs3]]|] eqn:Hu;
    cbn [mbind option_bind] in H; [|done].
  rewrite (updateStatus_with_frame _ IH _ _ _ _ _ _ e Hu). cbn [mbind option_bind].
  by injection H as <- <- <- <-.
Qed.

Lemma drawnCell_tile ts size e :
  0 < size → length ts = Z.to_nat size →
  is_Some (GameState.tileAt ts (drawnCell size e)).
Proof.
  intros Hs Hlen. unfold GameState.tileAt, drawnCell.
  rewrite (proj2 (Z.leb_le _ _)) by lia. apply lookup_lt_is_Some_2. lia.
Qed.

(** Whatever has been drawn so far, one more draw that selects a free cell
    ends the rejection loop, with a draw to spare. *)
Lemma spawnTile_loop_returns ts size d z x :
  (∀ e, is_Some (GameState.tileAt ts (drawnCell size e))) →
  GameState.tileAt ts (drawnCell size d) = Some x → Tile.isEmpty x = true →
  ∀ rs, ∃ index rs' y,
    GameState.spawnTile_loop ts size (rs ++ [d; z]) = Some (index, rs' ++ [z]) ∧
    GameState.tileAt ts index = Some y.
Proof.
  intros Hall Hx He. induction rs as [|d0 rs IH].
  - exists (drawnCell size d), [], x. split; [|done]. cbn.
    fold (drawnCell size d). rewrite Hx. cbn. by rewrite He.
  - destruct (Hall d0) as [x0 Hx0]. cbn. fold (drawnCell size d0). rewrite Hx0. cbn.
    destruct (Tile.isEmpty x0); cbn.
    + exists (drawnCell size d0), (rs ++ [d]), x0. split; [|done].
      by rewrite <- app_assoc.
    + exact IH.
Qed.

Lemma spawnTile_returns b rs :
  shaped b → ∃ e, is_Some (GameState.spawnTile b (rs ++ e)).
Proof.
  intros Hsh. destruct (isFull_spec b Hsh) as (r & Hr & Hiff).
  unfold GameState.spawnTile. rewrite Hr. cbn [mbind option_bind]. destruct r.
  { by exists []. }
  cbn [negb].
  assert (Hex : Exists (λ x, ¬ occupied x) (GameState.tiles b)).
  { apply not_Forall_Exists; [apply _|]. intros HF.
    assert (false = true); [|done]. apply Hiff. intros k x Hx.
    rewrite Forall_lookup in HF. by eapply HF. }
  apply Exists_exists in Hex as (x & Hin & Hx).
  apply list_elem_of_lookup in Hin as [k Hk].
  pose proof (lookup_lt_Some _ _ _ Hk) as Hlt. unfold shaped in Hsh.
  assert (Hcell : drawnCell (GameState.boardSize b) k = Z.of_nat k).
  { unfold drawnCell. lia. }
  destruct (spawnTile_loop_returns (GameState.tiles b) (GameState.boardSize b) k 0%nat x)
    with (rs := rs) as (index & rs' & y & Hloop & Hy).
  - intros e. apply drawnCell_tile; lia.
  - by rewrite Hcell, tileAt_nat.
  - apply isEmpty_true. unfold occupied in Hx. by destruct (decide (Tile.status x = TileStatus.Empty)).
  - exists [k; 0%nat]. rewrite Hloop. cbn [mbind option_bind]. rewrite Hy.
    cbn [mbind option_bind]. destruct rs' as [|d rs']; cbn [app]; by rewrite Tile_spawn_cons.
Qed.

Lemma new_returns r c t rs : ∃ e, is_Some (GameState.new r c t (rs ++ e)).
Proof.
  unfold GameState.new.
  set (b0 := GameState.mk _ _ _ _ _ _).
  assert (Hsh0 : shaped b0).
  { unfold shaped. cbn. by rewrite length_fmap, length_seq. }
  destruct (spawnTile_returns b0 rs Hsh0) as (e1 & [b1 rs1] & H1).
  pose proof (spawnTile_shaped _ _ _ _ Hsh0 H1) as Hsh1.
  destruct (spawnTile_returns b1 rs1 Hsh1) as (e2 & r2 & H2).
  exists (e1 ++ e2). rewrite app_assoc.
  rewrite (spawnTile_frame _ _ _ _ e2 H1). cbn [mbind option_bind]. by rewrite H2.
Qed.

Lemma clone_returns b rs :
  shaped b → ∃ e rs', GameState.clone b (rs ++ e)
                      = Some (GameState.withStatus b GameStatus.InProgress, rs').
Proof.
  intros Hsh.
  destruct (new_returns (GameState.rows b) (GameState.columns b)
              (GameState.targetTileLevel b) rs) as (e & [c0 rs0] & Hnew).
  exists e, rs0.
  assert (is_Some (GameState.clone b (rs ++ e))) as [[c rs1] Hc].
  { unfold GameState.clone. rewrite Hnew. cbn [mbind option_bind].
    unfold GameState.indices.
    rewrite (clone_tiles (GameState.tiles b)) by (unfold shaped in Hsh; lia). done. }
  pose proof (clone_inv _ _ _ _ Hsh Hc) as Hceq. subst c. rewrite Hc. do 2 f_equal.
  unfold GameState.clone in Hc. rewrite Hnew in Hc. cbn [mbind option_bind] in Hc.
  destruct (mapM _ _); cbn in Hc; [|done]. congruence.
Qed.

(** * [move], [isGameOver] and [updateStatus] return *)

Section ReturnsWithMove.
Variable mv : Direction.t → GameState.t → GameState.world →
              option (bool * GameState.t * GameState.world).
Hypothesis mv_frame : ∀ dir b (h : list (list (option nat))) rs r b' h' rs' e,
  mv dir b (h, rs) = Some (r, b', (h', rs')) →
  mv dir b (h, rs ++ e) = Some (r, b', (h', rs' ++ e)).
Variable b : GameState.t.
Hypothesis b_shaped : shaped b.
Hypothesis mv_returns : ∀ dir (h : list (list (option nat))) rs,
  ∃ e, is_Some (mv dir (GameState.withStatus b GameStatus.InProgress) (h, rs ++ e)).

Lemma isGameOver_loop_returns dirs : ∀ (h : list (list (option nat))) rs,
  ∃ e, is_Some (GameState.isGameOver_loop mv b dirs (h, rs ++ e)).
Proof.
  induction dirs as [|dir dirs IH]; intros h rs.
  { by exists []. }
  destruct (clone_returns b rs b_shaped) as (e1 & rs1 & Hc).
  destruct (mv_returns dir h rs1) as (e2 & [[[changed c'] [h' rs2]] Hm]).
  destruct changed.
  - exists (e1 ++ e2). rewrite app_assoc. cbn [GameState.isGameOver_loop fst snd].
    rewrite (clone_frame _ _ _ _ e2 Hc). cbn [mbind option_bind]. rewrite Hm. done.
  - destruct (IH h' rs2) as (e3 & Hrest).
    exists (e1 ++ e2 ++ e3). rewrite app_assoc. cbn [GameState.isGameOver_loop fst snd].
    rewrite (clone_frame _ _ _ _ (e2 ++ e3) Hc). cbn [mbind option_bind].
    rewrite app_assoc. rewrite (mv_frame _ _ _ _ _ _ _ _ e3 Hm). cbn [mbind option_bind].
    exact Hrest.
Qed.

Lemma isGameOver_with_returns (h : list (list (option nat))) rs :
  ∃ e, is_Some (GameState.isGameOver_with mv b (h, rs ++ e)).
Proof.
  destruct (isFull_spec b b_shaped) as (r & Hr & _).
  unfold GameState.isGameOver_with. rewrite Hr. cbn [mbind option_bind].
  destruct r; [apply isGameOver_loop_returns|by exists []].
Qed.

Lemma updateStatus_with_returns (h : list (list (option nat))) rs :
  ∃ e, is_Some (GameState.updateStatus_with mv b (h, rs ++ e)).
Proof.
  destruct (isGameOver_with_returns h rs) as (e & [[over w1] Ho]). exists e.
  unfold GameState.updateStatus_with. rewrite Ho. cbn [mbind option_bind].
  destruct over; [done|]. destruct (bool_decide _).
  - destruct (hasAchievedGoal_spec b b_shaped) as (g & -> & _). by destruct g.
  - by destruct (bool_decide _).
Qed.

End ReturnsWithMove.

(** The nesting of [move] inside [isGameOver] is bounded: every nested move
    works on a board that weighs at least 2 more, and the weight of a board
    whose levels are stacked within [B] is bounded. *)
Lemma move_returns_measure B n : ∀ b,
  shaped b → Stacked B (GameState.tiles b) →
  Z.of_nat (length (GameState.tiles b)) + 2 <= B →
  Z.of_nat (length (GameState.tiles b)) * 2 ^ B - boardWeight b < Z.of_nat n →
  ∀ fuel dir (h : list (list (option nat))) rs,
    (n ≤ fuel)%nat → ∃ e, is_Some (GameState.move fuel dir b (h, rs ++ e)).
Proof.
  induction n as [|n IH]; intros b Hsh HB HlB Hm fuel dir h rs Hfuel.
  { pose proof (Stacked_weight B b ltac:(lia) HB). lia. }
  destruct fuel as [|fuel]; [lia|].
  destruct (clone_returns b rs Hsh) as (e1 & rs1 & Hc).
  destruct (gravitate_total dir b h Hsh) as [[b1 h1] Hg].
  pose proof (gravitate_shaped _ _ _ _ _ Hsh Hg) as Hsh1.
  destruct (gravitate_summary _ _ _ _ _ Hsh Hg) as (Hd1 & Hl1 & _).
  destruct (gravitate_weight _ _ _ _ _ Hsh Hg) as [Hw1 HB1].
  destruct (equals_spec b1 (GameState.withStatus b GameStatus.InProgress) Hsh1)
    as (same & Hsame & _).
  { destruct Hd1 as [Hr Hcc]. split; cbn; congruence. }
  { cbn. congruence. }
  destruct same.
  { exists e1. cbn [GameState.move fst snd]. rewrite Hc. cbn [mbind option_bind].
    rewrite Hg. cbn [mbind option_bind]. rewrite Hsame. done. }
  destruct (spawnTile_returns b1 rs1 Hsh1) as (e2 & [b2 rs2] & Hs).
  pose proof (spawnTile_shaped _ _ _ _ Hsh1 Hs) as Hsh2.
  destruct (spawnTile_shape _ _ _ _ Hs) as (_ & Hl2 & _).
  destruct (spawnTile_weight _ _ _ _ Hsh1 Hs) as [[Hf _]|(_ & Hw2 & HB2)].
  { rewrite (gravitate_full_same _ _ _ _ _ Hsh Hg Hf) in Hsame. done. }
  destruct (updateStatus_with_returns (GameState.move fuel) (move_frame fuel) b2 Hsh2)
    with (h := h1) (rs := rs2) as (e3 & Hu).
  { intros dir' h' rs'.
    assert (Hn : (n ≤ fuel)%nat) by lia.
    assert (HB3 : Stacked B (GameState.tiles b2)).
    { apply HB2; [lia|]. by apply HB1. }
    assert (Hm2 : Z.of_nat (length (GameState.tiles b2)) * 2 ^ B - boardWeight b2
                  < Z.of_nat n) by (rewrite Hl2, Hl1; lia).
    apply (IH (GameState.withStatus b2 GameStatus.InProgress) Hsh2 HB3); [|exact Hm2|exact Hn].
    cbn. lia. }
  destruct Hu as [[b3 [h3 rs3]] Hu].
  exists (e1 ++ e2 ++ e3). rewrite app_assoc. cbn [GameState.move fst snd].
  rewrite (clone_frame _ _ _ _ (e2 ++ e3) Hc). cbn [mbind option_bind].
  rewrite Hg. cbn [mbind option_bind]. rewrite Hsame. cbn [mbind option_bind negb].
  rewrite app_assoc. rewrite (spawnTile_frame _ _ _ _ e3 Hs). cbn [mbind option_bind].
  rewrite Hu. done.
Qed.

Lemma enoughFuel_measure b :
  Z.of_nat (length (GameState.tiles b)) * 2 ^ stackBound b - boardWeight b
  < Z.of_nat (enoughFuel b).
Proof.
  assert (0 <= boardWeight b).
  { pose proof (tileSum_bounds weight (GameState.tiles b) 0 0) as Hb.
    unfold boardWeight.
    clear Hb. induction (GameState.tiles b) as [|z ts IHts]; simpl; [done|].
    pose proof (weight_nonneg z). lia. }
  unfold enoughFuel. lia.
Qed.

(** With fuel for the deepest nesting, [move] returns: any draws made so far
    can be continued so that it does. *)
Lemma move_returns b fuel dir (h : list (list (option nat))) rs :
  shaped b → (enoughFuel b ≤ fuel)%nat →
  ∃ e, is_Some (GameState.move fuel dir b (h, rs ++ e)).
Proof.
  intros Hsh Hfuel.
  apply (move_returns_measure (stackBound b) (enoughFuel b)); [done| | | |done].
  - apply Stacked_start.
  - unfold stackBound. lia.
  - apply enoughFuel_measure.
Qed.

Lemma isGameOver_returns b fuel (h : list (list (option nat))) rs :
  shaped b → (enoughFuel b ≤ fuel)%nat →
  ∃ e, is_Some (GameState.isGameOver fuel b (h, rs ++ e)).
Proof.
  intros Hsh Hfuel.
  apply (isGameOver_with_returns (GameState.move fuel) (move_frame fuel) b Hsh).
  intros dir h' rs'. by apply move_returns.
Qed.

Lemma updateStatus_returns b fuel (h : list (list (option nat))) rs :
  shaped b → (enoughFuel b ≤ fuel)%nat →
  ∃ e, is_Some (GameState.updateStatus fuel b (h, rs ++ e)).
Proof.
  intros Hsh Hfuel.
  apply (updateStatus_with_returns (GameState.move fuel) (move_frame fuel) b Hsh).
  intros dir h' rs'. by apply move_returns.
Qed.

(** * After [gravitate] every line of the board is packed *)

Section Ahead.
Variable d : Z.

Lemma reach_lookup b i n m :
  reach d b i n → (m < n)%nat → guard d b (i + Z.of_nat m * d) = true.
Proof.
  unfold reach. rewrite Forall_forall. intros H Hm. apply H, elem_of_seq. lia.
Qed.

Lemma reach_intro b i n :
  (∀ m, (m < n)%nat → guard d b (i + Z.of_nat m * d) = true) → reach d b i n.
Proof.
  intros H. unfold reach. rewrite Forall_forall. intros m Hm%elem_of_seq. apply H. lia.
Qed.

Lemma ahead_intro b i k n :
  k = i + Z.of_nat n * d → reach d b i n → ahead d b i k.
Proof.
  intros Hk Hr. unfold ahead. apply Exists_exists. exists n. split; [|done].
  apply elem_of_seq. split; [lia|].
  destruct n as [|n]; [lia|].
  pose proof (guard_nonzero _ _ _ (reach_lookup _ _ _ 0%nat Hr ltac:(lia))) as Hd.
  assert (Z.of_nat (S n) <= Z.abs (k - i)); [|lia].
  replace (k - i) with (Z.of_nat (S n) * d) by lia.
  rewrite Z.abs_mul. nia.
Qed.

Lemma ahead_elim b i k :
  ahead d b i k → ∃ n, k = i + Z.of_nat n * d ∧ reach d b i n.
Proof. unfold ahead. rewrite Exists_exists. intros (n & _ & H). eauto. Qed.

Lemma ahead_refl b i : ahead d b i i.
Proof. apply (ahead_intro _ _ _ 0%nat); [lia|]. apply reach_intro. lia. Qed.

Lemma ahead_next b i k :
  guard d b i = true → ahead d b (i + d) k → ahead d b i k.
Proof.
  intros Hg (n & -> & Hr)%ahead_elim. apply (ahead_intro _ _ _ (S n)); [lia|].
  apply reach_intro. intros [|m] Hm.
  - by rewrite Z.mul_0_l, Z.add_0_r.
  - replace (i + Z.of_nat (S m) * d) with (i + d + Z.of_nat m * d) by lia.
    apply (reach_lookup _ _ _ _ Hr). lia.
Qed.

Lemma ahead_sameDims b b' i k : sameDims b b' → ahead d b i k → ahead d b' i k.
Proof.
  intros Hd (n & -> & Hr)%ahead_elim. apply (ahead_intro _ _ _ n); [done|].
  apply reach_intro. intros m Hm. rewrite (guard_sameDims _ b) by done.
  by apply (reach_lookup _ _ _ _ Hr).
Qed.

(** Two cells with a common cell ahead lie on one line. *)
Lemma ahead_meet b i j k :
  ahead d b i k → ahead d b j k → ahead d b i j ∨ ahead d b j i.
Proof.
  intros (n & Hn & Hrn)%ahead_elim (m & Hm & Hrm)%ahead_elim.
  destruct (decide (m ≤ n)%nat) as [Hle|Hgt].
  - left. apply (ahead_intro _ _ _ (n - m)%nat); [rewrite Nat2Z.inj_sub by lia; lia|].
    apply reach_intro. intros l Hl.
    replace (j + Z.of_nat l * d) with (i + Z.of_nat (n - m + l) * d)
      by (rewrite Nat2Z.inj_add, Nat2Z.inj_sub by lia; lia).
    apply (reach_lookup _ _ _ _ Hrn). lia.
  - right. apply (ahead_intro _ _ _ (m - n)%nat); [rewrite Nat2Z.inj_sub by lia; lia|].
    apply reach_intro. intros l Hl.
    replace (i + Z.of_nat l * d) with (j + Z.of_nat (m - n + l) * d)
      by (rewrite Nat2Z.inj_add, Nat2Z.inj_sub by lia; lia).
    apply (reach_lookup _ _ _ _ Hrm). lia.
Qed.

Lemma ahead_trans b i j k : ahead d b i j → ahead d b j k → ahead d b i k.
Proof.
  intros (n & -> & Hrn)%ahead_elim (m & -> & Hrm)%ahead_elim.
  apply (ahead_intro _ _ _ (n + m)%nat); [rewrite Nat2Z.inj_add; lia|].
  apply reach_intro. intros l Hl. destruct (decide (l < n)%nat).
  - by apply (reach_lookup _ _ _ _ Hrn).
  - replace (i + Z.of_nat l * d) with (i + Z.of_nat n * d + Z.of_nat (l - n) * d)
      by (rewrite Nat2Z.inj_sub by lia; lia).
    apply (reach_lookup _ _ _ _ Hrm). lia.
Qed.

Lemma Packed_next b i : Packed d b i → guard d b i = true → Packed d b (i + d).
Proof.
  intros HP Hg. inversion HP as [? HS|? x Hx He Hg'|? x Hx He Hg' HP']; subst.
  - inversion HS; subst; [congruence|]. by apply Packed_settled.
  - congruence.
  - done.
Qed.

Lemma Packed_ahead b i k : Packed d b i → ahead d b i k → Packed d b k.
Proof.
  intros HP (n & -> & Hr)%ahead_elim. induction n as [|n IH].
  - by rewrite Z.mul_0_l, Z.add_0_r.
  - replace (i + Z.of_nat (S n) * d) with (i + Z.of_nat n * d + d) by lia.
    apply Packed_next.
    + apply IH. apply reach_intro. intros m Hm. apply (reach_lookup _ _ _ _ Hr). lia.
    + apply (reach_lookup _ _ _ _ Hr). lia.
Qed.

(** Whether a line is packed from [j] on depends on the cells ahead of [j]
    only. *)
Lemma Settled_agree b b' j :
  sameDims b b' →
  (∀ k, ahead d b j k →
     GameState.tileAt (GameState.tiles b') k = GameState.tileAt (GameState.tiles b) k) →
  Settled d b j → Settled d b' j.
Proof.
  intros Hd Hsame HS. induction HS as [j x Hx Hnx Hg|j x y Hx Hnx Hg Hy Hm Hs IH].
  - eapply Settled_edge; [|done|by rewrite (guard_sameDims _ b)].
    rewrite Hsame; [done|apply ahead_refl].
  - eapply Settled_cons with (y := y); [|done|by rewrite (guard_sameDims _ b)| |done|].
    + rewrite Hsame; [done|apply ahead_refl].
    + rewrite Hsame; [done|]. apply ahead_next; [done|apply ahead_refl].
    + apply IH. intros k Hk. apply Hsame. by apply ahead_next.
Qed.

Lemma Packed_agree b b' j :
  sameDims b b' →
  (∀ k, ahead d b j k →
     GameState.tileAt (GameState.tiles b') k = GameState.tileAt (GameState.tiles b) k) →
  Packed d b j → Packed d b' j.
Proof.
  intros Hd Hsame HP. induction HP as [j HS|j x Hx He Hg|j x Hx He Hg HP IH].
  - apply Packed_settled. by eapply Settled_agree.
  - eapply Packed_edge; [|done|by rewrite (guard_sameDims _ b)].
    rewrite Hsame; [done|apply ahead_refl].
  - eapply Packed_cons; [|done|by rewrite (guard_sameDims _ b)|].
    + rewrite Hsame; [done|apply ahead_refl].
    + apply IH. intros k Hk. apply Hsame. by apply ahead_next.
Qed.

(** A call of [gravitateTile] on [i] touches the cells ahead of [i] only. *)
Lemma gravitateTile_ray fuel : ∀ i s s',
  0 <= i → GameState.gravitateTile fuel i d s = Some s' →
  sameDims (fst s) (fst s') ∧
  ∀ k, ¬ ahead d (fst s) i k →
       GameState.tileAt (GameState.tiles (fst s')) k =
       GameState.tileAt (GameState.tiles (fst s)) k.
Proof.
  induction fuel as [|fuel IH]; intros i [b h] s' Hi Hrun; [discriminate|].
  rewrite gravitateTile_S in Hrun. cbn [fst] in *.
  destruct (guard d b i) eqn:Hg.
  2:{ injection Hrun as <-. by split. }
  pose proof (guard_nonzero _ _ _ Hg) as Hd0.
  pose proof (guard_inside _ _ _ Hg) as Hin.
  destruct (GameState.tileAt (GameState.tiles b) (i + d)) as [y0|] eqn:Hy0;
    cbn [mbind option_bind] in Hrun; [|discriminate].
  assert (∃ b1 h1,
    sameDims b b1 ∧
    (∀ k, ¬ ahead d b i k →
       GameState.tileAt (GameState.tiles b1) k = GameState.tileAt (GameState.tiles b) k) ∧
    (tile ← GameState.tileAt (GameState.tiles b1) i;
     nextTile ← GameState.tileAt (GameState.tiles b1) (i + d);
     if Tile.isEmpty nextTile then
       let '(tile', nextTile') := Tile.moveTo tile nextTile in
       GameState.gravitateTile fuel (i + d) d
         (GameState.withTiles b1
            (GameState.setTile (GameState.setTile (GameState.tiles b1) i tile')
               (i + d) nextTile'), h1)
     else if mergeable tile nextTile then
       '(tile', nextTile', h2) ← Tile.mergeWith tile nextTile h1;
       let b2 := GameState.withTiles b1
            (GameState.setTile (GameState.setTile (GameState.tiles b1) i tile')
               (i + d) nextTile') in
       Some (GameState.withScore b2
               (GameState.score b2 + default 0 (Tile.scoreValue nextTile')), h2)
     else Some (b1, h1)) = Some s') as (b1 & h1 & Hd1 & Hfr1 & Hrun1).
  { destruct (Tile.isEmpty y0); cbn [negb] in Hrun.
    - exists b, h. split; [done|]. split; [done|]. exact Hrun.
    - destruct (GameState.gravitateTile fuel (i + d) d (b, h)) as [[b1 h1]|] eqn:Hrec;
        cbn [mbind option_bind] in Hrun; [|discriminate].
      apply IH in Hrec as [Hd1 Hfr1]; [|lia]. cbn [fst] in *.
      exists b1, h1. split; [done|]. split; [|exact Hrun].
      intros k Hk. apply Hfr1. intros Hk'. apply Hk. by apply ahead_next. }
  clear Hrun Hy0 y0.
  assert (Hki : ∀ k, ¬ ahead d b i k → k ≠ i ∧ k ≠ i + d).
  { intros k Hk. split; intros ->; apply Hk; [apply ahead_refl|].
    apply ahead_next; [done|apply ahead_refl]. }
  destruct (GameState.tileAt (GameState.tiles b1) i) as [x|] eqn:Hx;
    cbn [mbind option_bind] in Hrun1; [|discriminate].
  destruct (GameState.tileAt (GameState.tiles b1) (i + d)) as [y|] eqn:Hy;
    cbn [mbind option_bind] in Hrun1; [|discriminate].
  destruct (Tile.isEmpty y).
  - destruct (Tile.moveTo x y) as [x' y'].
    apply IH in Hrun1 as [Hd2 Hfr2]; [|lia]. cbn [fst GameState.tiles GameState.withTiles] in *.
    split. { destruct Hd1, Hd2. split; cbn in *; congruence. }
    intros k Hk. destruct (Hki k Hk) as [? ?]. rewrite Hfr2.
    + rewrite tileAt_setTile2 by lia. by apply Hfr1.
    + intros Hk'. apply Hk. apply ahead_next; [done|].
      eapply ahead_sameDims; [|exact Hk']. destruct Hd1. split; cbn; congruence.
  - destruct (mergeable x y).
    + destruct (Tile.mergeWith x y h1) as [[[x' y'] h2]|];
        cbn [mbind option_bind] in Hrun1; [|discriminate].
      injection Hrun1 as <-. cbn [fst GameState.tiles GameState.withTiles GameState.withScore].
      split; [done|]. intros k Hk. destruct (Hki k Hk) as [? ?].
      rewrite tileAt_setTile2 by lia. by apply Hfr1.
    + injection Hrun1 as <-. by split.
Qed.

(** On a line that is packed already a call of [gravitateTile] changes
    nothing. *)
Lemma gravitateTile_Packed_id fuel : ∀ i b h s',
  Packed d b i → GameState.gravitateTile fuel i d (b, h) = Some s' → s' = (b, h).
Proof.
  induction fuel as [|fuel IH]; intros i b h s' HP Hrun; [discriminate|].
  rewrite gravitateTile_S in Hrun. cbn [fst] in *.
  destruct (guard d b i) eqn:Hg; [|by injection Hrun as <-].
  pose proof (Packed_next _ _ HP Hg) as HPn.
  destruct (GameState.tileAt (GameState.tiles b) (i + d)) as [y|] eqn:Hy;
    cbn [mbind option_bind] in Hrun; [|discriminate].
  assert (Hrun1 :
    (tile ← GameState.tileAt (GameState.tiles b) i;
     nextTile ← GameState.tileAt (GameState.tiles b) (i + d);
     if Tile.isEmpty nextTile then
       let '(tile', nextTile') := Tile.moveTo tile nextTile in
       GameState.gravitateTile fuel (i + d) d
         (GameState.withTiles b
            (GameState.setTile (GameState.setTile (GameState.tiles b) i tile')
               (i + d) nextTile'), h)
     else if mergeable tile nextTile then
       '(tile', nextTile', h2) ← Tile.mergeWith tile nextTile h;
       let b2 := GameState.withTiles b
            (GameState.setTile (GameState.setTile (GameState.tiles b) i tile')
               (i + d) nextTile') in
       Some (GameState.withScore b2
               (GameState.score b2 + default 0 (Tile.scoreValue nextTile')), h2)
     else Some (b, h)) = Some s').
  { destruct (Tile.isEmpty y); cbn [negb] in Hrun; [exact Hrun|].
    destruct (GameState.gravitateTile fuel (i + d) d (b, h)) as [s1|] eqn:Hrec;
      cbn [mbind option_bind] in Hrun; [|discriminate].
    apply IH in Hrec; [|done]. subst s1. exact Hrun. }
  clear Hrun. rewrite Hy in Hrun1.
  destruct (GameState.tileAt (GameState.tiles b) i) as [x|] eqn:Hx;
    cbn [mbind option_bind] in Hrun1; [|discriminate].
  destruct (Tile.isEmpty x) eqn:Hex.
  - destruct (Tile.isEmpty y) eqn:Hey.
    + unfold Tile.moveTo in Hrun1. rewrite Hex in Hrun1. cbn [negb] in Hrun1.
      rewrite (setTile_id _ i x), (setTile_id _ (i + d) y), withTiles_id in Hrun1 by done.
      by apply IH in Hrun1.
    + unfold mergeable, Tile.ableToMerge in Hrun1. apply isEmpty_true in Hex.
      rewrite (bool_decide_eq_false_2 (Tile.status x ≠ TileStatus.Empty)) in Hrun1
        by (intros H; by apply H).
      rewrite andb_false_r in Hrun1. cbn in Hrun1. by injection Hrun1 as <-.
  - pose proof (Packed_nonempty _ _ _ _ HP Hx Hex) as HS.
    rewrite (Settled_next_nonempty _ _ _ _ HS Hg Hy) in Hrun1.
    rewrite (Settled_not_mergeable _ _ _ _ _ HS Hg Hx Hy) in Hrun1.
    by injection Hrun1 as <-.
Qed.

(** The second loop of [gravitate]: once a cell has been visited the line
    is packed from there on, and stays so. *)
Lemma gravitate_loop_packed fuel n : ∀ a s s',
  MergedSettled d (fst s) →
  (a + n ≤ length (GameState.tiles (fst s)))%nat →
  (∀ j, (j < a)%nat → Packed d (fst s) (Z.of_nat j)) →
  GameState.gravitate_loop fuel d (seq a n) s = Some s' →
  ∀ j, (j < a + n)%nat → Packed d (fst s') (Z.of_nat j).
Proof.
  induction n as [|n IH]; intros a s s' HG Hlen Hinv Hrun;
    cbn [seq GameState.gravitate_loop] in Hrun.
  { injection Hrun as <-. intros j Hj. apply Hinv. lia. }
  destruct (GameState.gravitateTile fuel (Z.of_nat a) d s) as [s1|] eqn:H1;
    cbn [mbind option_bind] in Hrun; [|done].
  assert (Ha0 : 0 <= Z.of_nat a) by lia.
  pose proof (gravitateTile_ray _ _ _ _ Ha0 H1) as [Hd1 Hray].
  pose proof H1 as H1'.
  apply gravitateTile_run in H1' as (Hr1 & HG1 & HP1 & _); [|lia|done|].
  2:{ rewrite tileAt_nat. apply lookup_lt_is_Some. lia. }
  pose proof (gsteps_shape _ _ _ Hr1) as (_ & Hlen1 & _).
  replace (a + S n)%nat with (S a + n)%nat by lia.
  eapply IH; [exact HG1|lia| |exact Hrun].
  intros j Hj. destruct (decide (j = a)) as [->|Hne]; [done|].
  assert (Hja : (j < a)%nat) by lia. specialize (Hinv j Hja).
  destruct (decide (ahead d (fst s) (Z.of_nat j) (Z.of_nat a))) as [Hahead|Hn1].
  { pose proof (Packed_ahead _ _ _ Hinv Hahead) as HPa.
    destruct s as [b h]. apply gravitateTile_Packed_id in H1; [|done]. by subst s1. }
  destruct (decide (ahead d (fst s) (Z.of_nat a) (Z.of_nat j))) as [Hahead|Hn2].
  { eapply Packed_ahead; [exact HP1|]. by eapply ahead_sameDims. }
  eapply Packed_agree; [exact Hd1| |exact Hinv].
  intros k Hk. apply Hray. intros Hk'.
  by destruct (ahead_meet _ _ _ _ Hk Hk').
Qed.

End Ahead.

(** After [gravitate] every line of the board is packed against the edge the
    tiles were sent to. *)
Lemma gravitate_Packed dir b h b' h' i :
  shaped b → GameState.gravitate dir (b, h) = Some (b', h') →
  0 <= i < GameState.boardSize b →
  Packed (GameState.indexChange b dir) b' i.
Proof.
  intros Hsh Hrun Hi. unfold GameState.gravitate in Hrun. cbn [fst] in Hrun.
  destruct (GameState.prepare_loop (GameState.indices b) (b, h)) as [s1|] eqn:Hp;
    cbn [mbind option_bind] in Hrun; [|done].
  unfold GameState.indices in *.
  pose proof (prepare_loop_Prepared b h _ 0 _ _ (Prepared_start b h) Hp) as HP.
  cbn [Nat.add] in HP.
  assert (HG1 : MergedSettled (GameState.indexChange b dir) (fst s1)).
  { intros k x [_ Hx]%tileAt_Some HM.
    destruct (Prepared_no_Merged _ _ _ Hsh HP _ _ Hx); congruence. }
  destruct HP as (_ & Hlen & _).
  replace i with (Z.of_nat (Z.to_nat i)) by lia.
  eapply (gravitate_loop_packed _ _ _ 0%nat s1 (b', h')); [done| | |exact Hrun|].
  - rewrite Hlen. unfold shaped in Hsh. lia.
  - lia.
  - lia.
Qed.

(** * A full board *)

Lemma gstep_score d s s' :
  gstep d s s' → GameState.score (fst s) <= GameState.score (fst s').
Proof.
  destruct 1 as [b h i x y x' y' Hi Hx Hy Hg Hex HnM Hey Hmv
                |b h i x y x' y' h' Hi Hx Hy Hg Hm HS HM];
    cbn [fst GameState.score GameState.withTiles GameState.withScore]; [done|].
  unfold Tile.scoreValue. destruct (Tile.isEmpty y'); cbn; lia.
Qed.

Lemma gsteps_score d s s' :
  rtc (gstep d) s s' → GameState.score (fst s) <= GameState.score (fst s').
Proof.
  induction 1 as [|s s1 s2 H1 _ IH]; [done|]. apply gstep_score in H1. lia.
Qed.

(** On a full board the only step there is merges two tiles of one level,
    and it raises the score. *)
Lemma gstep_full d s s' :
  gstep d s s' → full (fst s) →
  GameState.score (fst s) < GameState.score (fst s') ∧
  ∃ i x y, 0 <= i ∧ guard d (fst s) i = true ∧
    GameState.tileAt (GameState.tiles (fst s)) i = Some x ∧
    GameState.tileAt (GameState.tiles (fst s)) (i + d) = Some y ∧
    Tile.level x = Tile.level y.
Proof.
  destruct 1 as [b h i x y x' y' Hi Hx Hy Hg Hex HnM Hey Hmv
                |b h i x y x' y' h' Hi Hx Hy Hg Hm HS HM]; intros Hf;
    cbn [fst GameState.score GameState.withTiles GameState.withScore] in *.
  - exfalso. apply tileAt_Some in Hy as [_ Hy]. apply isEmpty_true in Hey.
    by apply (Hf _ _ Hy).
  - pose proof (mergeable_true _ _ Hm) as (Hax & Hay & Hlv).
    pose proof (mergeWith_nonempty _ _ _ _ _ _ HM (ableToMerge_nonempty _ Hax)) as [-> ->].
    split; [|by exists i, x, y].
    unfold Tile.scoreValue, Tile.isEmpty. cbn [Tile.status].
    rewrite bool_decide_eq_false_2 by done. cbn [default from_option]. unfold id.
    pose proof (Z.pow_pos_nonneg 2 (Z.of_nat (Tile.levelNumber
      {| Tile.index := Tile.index y; Tile.level := Some (S (Tile.levelNumber y));
         Tile.prevIndex := Tile.prevIndex y; Tile.prevLevel := Tile.prevLevel y;
         Tile.status := TileStatus.Merged |}))). lia.
Qed.

(** The first loop of [gravitate] changes nothing that [equals] reads. *)
Lemma Prepared_equals b h s1 :
  shaped b → Prepared b h (Z.to_nat (GameState.boardSize b)) s1 →
  GameState.equals (fst s1) (GameState.withStatus b GameStatus.InProgress) = Some true.
Proof.
  intros Hsh HP. pose proof HP as (Hb & Hlen & _).
  assert (Hsh1 : shaped (fst s1)).
  { unfold shaped, GameState.boardSize in *. rewrite Hb. cbn. by rewrite Hlen. }
  destruct (equals_spec (fst s1) (GameState.withStatus b GameStatus.InProgress) Hsh1)
    as (r & Hr & Hiff).
  { rewrite Hb. by split. }
  { cbn. congruence. }
  rewrite Hr. f_equal. apply Hiff. split; [by rewrite Hb|].
  intros k x y Hx Hy. cbn in Hy.
  destruct (Prepared_lookup _ _ _ _ _ Hsh HP Hx) as (x0 & Hx0 & [[Hn ->]|(Ho & -> & _)]);
    rewrite Hx0 in Hy; by injection Hy as <-.
Qed.

(** On a full board, [move] reports a change exactly when two tiles of one
    level lie one behind the other in the direction of the move. *)
Lemma move_full_any fuel dir b h rs changed b' w' :
  shaped b → full b →
  GameState.move fuel dir b (h, rs) = Some (changed, b', w') →
  changed = true ↔
  ∃ i x y, 0 <= i ∧ guard (GameState.indexChange b dir) b i = true ∧
    GameState.tileAt (GameState.tiles b) i = Some x ∧
    GameState.tileAt (GameState.tiles b) (i + GameState.indexChange b dir) = Some y ∧
    Tile.level x = Tile.level y.
Proof.
  intros Hsh Hf Hmv. set (c := GameState.withStatus b GameStatus.InProgress) in *.
  pose proof Hsh as Hshc.
  destruct fuel as [|fuel]; [done|]. destruct w' as [h' rs'].
  apply move_inv in Hmv as (rs1 & b1 & h1 & same & _ & Hg & He & -> & _); [|done].
  fold c in He.
  destruct (gravitate_inv _ _ _ _ Hshc Hg) as (s1 & _ & HP & Hsteps & _).
  pose proof (Prepared_equals _ _ _ Hshc HP) as He1.
  fold c in He1.
  pose proof HP as (Hb1 & Hlen1 & _).
  assert (Hf1 : full (fst s1)).
  { intros k x Hx.
    destruct (Prepared_lookup _ _ _ _ _ Hshc HP Hx) as (x0 & Hx0 & [[Hn ->]|(Ho & -> & _)]).
    - by apply (Hf k).
    - done. }
  assert (Hlv : ∀ i x, GameState.tileAt (GameState.tiles (fst s1)) i = Some x →
            ∃ x0, GameState.tileAt (GameState.tiles b) i = Some x0 ∧
                  Tile.level x0 = Tile.level x ∧ Tile.ableToMerge x = true).
  { intros i x Hx. pose proof (tileAt_Some _ _ _ Hx) as [Hi Hx'].
    destruct (Prepared_lookup _ _ _ _ _ Hshc HP Hx') as (x0 & Hx0 & [[Hn _]|(Ho & -> & _)]).
    - exfalso. by apply Hn, (Hf (Z.to_nat i)).
    - exists x0. split; [|done]. unfold GameState.tileAt.
      by rewrite (proj2 (Z.leb_le 0 i) Hi). }
  assert (Hgd : ∀ i, guard (GameState.indexChange b dir) (fst s1) i
                     = guard (GameState.indexChange b dir) b i).
  { intros i. apply guard_sameDims. rewrite Hb1. by split. }
  split.
  - intros Hch. destruct same; [done|].
    apply rtc_inv in Hsteps as [Heq|(s2 & Hstep & _)].
    { subst s1. cbn [fst] in He1. congruence. }
    destruct (gstep_full _ _ _ Hstep Hf1) as (_ & i & x & y & Hi & Hgi & Hx & Hy & Hxy).
    destruct (Hlv _ _ Hx) as (x0 & Hx0 & Hl0 & _).
    destruct (Hlv _ _ Hy) as (y0 & Hy0 & Hl1 & _).
    exists i, x0, y0. rewrite <- Hgd. split; [done|]. split; [done|].
    split; [done|]. split; [done|]. congruence.
  - intros (i & x & y & Hi & Hgi & Hx & Hy & Hxy). destruct same; [|done]. exfalso.
    assert (Hsc : GameState.score b1 = GameState.score c).
    { destruct (equals_spec b1 c (gravitate_shaped _ _ _ _ _ Hshc Hg)) as (r & Hr & Hiff).
      - by destruct (gravitate_summary _ _ _ _ _ Hshc Hg) as ((? & ?) & _).
      - by destruct (gravitate_summary _ _ _ _ _ Hshc Hg) as (_ & ? & _).
      - rewrite He in Hr. injection Hr as <-. by destruct (proj1 Hiff eq_refl). }
    assert (Hs1 : s1 = (b1, h1)).
    { apply rtc_inv in Hsteps as [Heq|(s2 & Hstep & Hrest)]; [done|]. exfalso.
      destruct (gstep_full _ _ _ Hstep Hf1) as [Hlt _].
      apply gsteps_score in Hrest. cbn [fst] in Hrest.
      assert (GameState.score (fst s1) = GameState.score c) by (by rewrite Hb1).
      lia. }
    subst s1. cbn [fst] in *.
    assert (Hin : 0 <= i < GameState.boardSize c).
    { apply tileAt_Some in Hx as [_ Hx]. apply lookup_lt_Some in Hx.
      unfold shaped in Hsh. change (GameState.boardSize c) with (GameState.boardSize b). lia. }
    pose proof (gravitate_Packed dir b h b1 h1 i Hshc Hg Hin) as HPk.
    destruct (tileAt_same_length (GameState.tiles b) (GameState.tiles b1) i Hlen1)
      as [x1 Hx1]; [by rewrite Hx|].
    destruct (tileAt_same_length (GameState.tiles b) (GameState.tiles b1)
                (i + GameState.indexChange b dir) Hlen1) as [y1 Hy1]; [by rewrite Hy|].
    destruct (Hlv _ _ Hx1) as (x0 & Hx0 & Hl0 & Ha0).
    destruct (Hlv _ _ Hy1) as (y0 & Hy0 & Hl1 & Ha1).
    rewrite Hx in Hx0. injection Hx0 as <-. rewrite Hy in Hy0. injection Hy0 as <-.
    pose proof (Packed_nonempty _ _ _ _ HPk Hx1 (ableToMerge_nonempty _ Ha0)) as HS.
    rewrite <- Hgd in Hgi.
    pose proof (Settled_not_mergeable _ _ _ _ _ HS Hgi Hx1 Hy1) as Hnm.
    unfold mergeable in Hnm. rewrite Ha0, Ha1 in Hnm. cbn in Hnm.
    apply bool_decide_eq_false in Hnm. apply Hnm. congruence.
Qed.

Lemma move_full fuel dir b h rs changed b' w' :
  shaped b → full b →
  GameState.move fuel dir (GameState.withStatus b GameStatus.InProgress) (h, rs)
  = Some (changed, b', w') →
  changed = true ↔
  ∃ i x y, 0 <= i ∧ guard (GameState.indexChange b dir) b i = true ∧
    GameState.tileAt (GameState.tiles b) i = Some x ∧
    GameState.tileAt (GameState.tiles b) (i + GameState.indexChange b dir) = Some y ∧
    Tile.level x = Tile.level y.
Proof.
  intros Hsh Hf Hmv.
  exact (move_full_any _ _ (GameState.withStatus b GameStatus.InProgress) _ _ _ _ _ Hsh Hf Hmv).
Qed.

(** * Counting tiles *)

Lemma maxLevel_le ts n :
  (∀ k x, ts !! k = Some x → (Tile.levelNumber x ≤ n)%nat) → (maxLevel ts ≤ n)%nat.
Proof.
  induction ts as [|z ts IH]; intros H; simpl; [lia|].
  pose proof (H 0%nat z eq_refl). specialize (IH (λ k x Hx, H (S k) x Hx)). lia.
Qed.

Lemma Stacked_low ts :
  (∀ k x, ts !! k = Some x → (Tile.levelNumber x ≤ 2)%nat) →
  Stacked (Z.of_nat (length ts) + 2) ts.
Proof.
  intros H t Ht. pose proof (countAtLeast_maxLevel _ _ Ht).
  pose proof (maxLevel_le _ _ H). pose proof (countAtLeast_range t ts). lia.
Qed.

Lemma new_Stacked r c t rs b rs' :
  GameState.new r c t rs = Some (b, rs') →
  Stacked (Z.of_nat (length (GameState.tiles b)) + 2) (GameState.tiles b).
Proof.
  intros Hnew. apply new_inv in Hnew as (_ & _ & _ & _ & _ & _ & Hts).
  apply Stacked_low. intros k x Hx.
  destruct (Hts _ _ Hx) as [->|(l & [-> | ->] & ->)]; cbn; lia.
Qed.

(** What a [move] does to the weight of the board and to the bound on its
    levels. *)
Lemma move_weight fuel dir b h rs changed b' h' rs' :
  shaped b →
  GameState.move fuel dir b (h, rs) = Some (changed, b', (h', rs')) →
  shaped b' ∧ length (GameState.tiles b') = length (GameState.tiles b) ∧
  (if changed then boardWeight b + 2 <= boardWeight b' <= boardWeight b + 4
   else boardWeight b' = boardWeight b) ∧
  ∀ B, Z.of_nat (length (GameState.tiles b)) + 2 <= B →
       Stacked B (GameState.tiles b) → Stacked B (GameState.tiles b').
Proof.
  intros Hsh Hmv.
  destruct (move_result _ _ _ _ _ _ _ _ _ Hsh Hmv)
    as (b1 & h1 & Hg & _ & He & [(-> & -> & _)|(-> & b2 & rs1 & rs2 & st & Hs & ->)]).
  - destruct (gravitate_weight _ _ _ _ _ Hsh Hg) as [Hw HB].
    destruct (gravitate_summary _ _ _ _ _ Hsh Hg) as (_ & Hl & _).
    split; [by eapply gravitate_shaped|]. split; [done|]. split; [done|].
    intros B _. apply HB.
  - destruct (gravitate_weight _ _ _ _ _ Hsh Hg) as [Hw HB].
    destruct (gravitate_summary _ _ _ _ _ Hsh Hg) as (_ & Hl & _).
    pose proof (gravitate_shaped _ _ _ _ _ Hsh Hg) as Hsh1.
    destruct (spawnTile_shape _ _ _ _ Hs) as (_ & Hl2 & _).
    split. { apply shaped_withStatus. by eapply spawnTile_shaped. }
    split; [cbn; congruence|].
    apply (spawnTile_inv _ _ _ _ Hsh1) in Hs
      as [(Hf & _ & _)|(j & y & pre & d & e & Hy & Hny & _ & _ & ->)].
    { rewrite (gravitate_full_same _ _ _ _ _ Hsh Hg Hf) in He. done. }
    cbn [GameState.tiles GameState.withStatus GameState.withTiles]. split.
    + unfold boardWeight in *.
      cbn [GameState.tiles GameState.withStatus GameState.withTiles].
      rewrite (tileSum_insert _ _ _ y) by done. rewrite (weight_empty y) by done.
      rewrite weight_occupied by done. change (Tile.levelNumber (spawned y ?l)) with l.
      destruct (drawnLevel_range e) as [-> | ->]; cbn; lia.
    + intros B HBl HB0 t. unfold countAtLeast.
      rewrite (tileSum_insert _ _ _ y) by done. rewrite (atLeast_empty t y) by done.
      pose proof (tileSum_insert (atLeast t) _ j y (spawned y (drawnLevel e)) Hy) as Hins.
      pose proof (countAtLeast_range t (<[j:=spawned y (drawnLevel e)]> (GameState.tiles b1)))
        as Hr'.
      rewrite length_insert in Hr'. unfold countAtLeast in *.
      rewrite (atLeast_empty t y) in Hins by done.
      pose proof (HB B HB0 t) as HBt. unfold countAtLeast in HBt.
      rewrite atLeast_spawned in Hins |- *.
      destruct (decide _) as [Hle'|Hn]; [|lia].
      intros _. destruct (drawnLevel_range e) as [He'|He']; rewrite He' in Hle'; lia.
Qed.

Lemma reachable_Stacked b h :
  reachable b h →
  Stacked (Z.of_nat (length (GameState.tiles b)) + 2) (GameState.tiles b).
Proof.
  induction 1 as [r c t rs b rs' h Hr Hc Hnew
                 |fuel dir b h rs changed b' h' rs' Hreach IH Hmv].
  - by eapply new_Stacked.
  - destruct (reachable_inv _ _ Hreach) as (Hwf & _).
    destruct (move_weight _ _ _ _ _ _ _ _ _ (wf_shaped _ Hwf) Hmv) as (_ & Hl & _ & HB).
    rewrite Hl. apply HB; [lia|done].
Qed.

Lemma boardWeight_nonneg b : 0 <= boardWeight b.
Proof.
  unfold boardWeight. induction (GameState.tiles b) as [|z ts IH]; simpl; [done|].
  pose proof (weight_nonneg z). lia.
Qed.

Lemma played_reachable n b h : played n b h → reachable b h.
Proof.
  induction 1 as [r c t rs b rs' h Hr Hc Hnew
                 |n fuel dir b h rs changed b' h' rs' Hp IH Hmv].
  - exact (reachable_new r c t rs b rs' h Hr Hc Hnew).
  - exact (reachable_move fuel dir b h rs changed b' h' rs' IH Hmv).
Qed.

Lemma played_weight n b h : played n b h → 2 * Z.of_nat n <= boardWeight b.
Proof.
  induction 1 as [r c t rs b rs' h Hr Hc Hnew
                 |n fuel dir b h rs changed b' h' rs' Hp IH Hmv].
  - pose proof (boardWeight_nonneg b). lia.
  - destruct (reachable_inv _ _ (played_reachable _ _ _ Hp)) as (Hwf & _).
    destruct (move_weight _ _ _ _ _ _ _ _ _ (wf_shaped _ Hwf) Hmv) as (_ & _ & Hw & _).
    destruct changed; lia.
Qed.

Lemma tileUnit_occupied x : occupied x → tileUnit x = 1.
Proof. intros H. unfold tileUnit. by rewrite decide_True. Qed.

Lemma tileUnit_empty x : ¬ occupied x → tileUnit x = 0.
Proof. intros H. unfold tileUnit. by rewrite decide_False. Qed.

Lemma mergedUnit_Merged x : Tile.status x = TileStatus.Merged → mergedUnit x = 1.
Proof. intros H. unfold mergedUnit. by rewrite decide_True. Qed.

Lemma mergedUnit_other x : Tile.status x ≠ TileStatus.Merged → mergedUnit x = 0.
Proof. intros H. unfold mergedUnit. by rewrite decide_False. Qed.

Lemma tileSum_insert2 f ts i j x y x' y' :
  i ≠ j → ts !! i = Some x → ts !! j = Some y →
  tileSum f (<[j:=y']> (<[i:=x']> ts)) = tileSum f ts - f x - f y + f x' + f y'.
Proof.
  intros Hne Hx Hy. rewrite (tileSum_insert _ _ _ y), (tileSum_insert _ _ _ x); [lia|done|].
  by rewrite list_lookup_insert_ne.
Qed.

(** A pass of [gravitate] takes one tile off the board for every tile it
    marks [Merged]. *)
Lemma count_gstep d s s' :
  gstep d s s' →
  tileCount (GameState.tiles (fst s')) + mergedCount (GameState.tiles (fst s'))
  = tileCount (GameState.tiles (fst s)) + mergedCount (GameState.tiles (fst s)).
Proof.
  destruct 1 as [b h i x y x' y' Hi Hx Hy Hg Hex HnM Hey Hmv
                |b h i x y x' y' h' Hi Hx Hy Hg Hm HS HM];
    unfold tileCount, mergedCount;
    cbn [fst GameState.tiles GameState.score GameState.withTiles GameState.withScore] in *.
  - pose proof (guard_nonzero _ _ _ Hg).
    apply isEmpty_false in Hex. rewrite (moveTo_occupied _ _ Hex) in Hmv.
    injection Hmv as <- <-.
    pose proof (tileAt_Some _ _ _ Hx) as [_ Hx']. pose proof (tileAt_Some _ _ _ Hy) as [Hi' Hy'].
    unfold GameState.setTile.
    rewrite !(tileSum_insert2 _ _ (Z.to_nat i) (Z.to_nat (i + d)) x y) by (done || lia).
    apply isEmpty_true in Hey.
    set (y' := Tile.mk (Tile.index y) (Tile.level x) (Tile.prevIndex x) (Tile.prevLevel x)
                 TileStatus.Moved).
    pose proof (tileUnit_occupied x Hex).
    assert (tileUnit y = 0) by (apply tileUnit_empty; intros Ho; by apply Ho).
    assert (tileUnit (Tile.reset x) = 0) by (apply tileUnit_empty; intros Ho; by apply Ho).
    assert (tileUnit y' = 1) by (by apply tileUnit_occupied).
    pose proof (mergedUnit_other x HnM).
    assert (mergedUnit y = 0) by (apply mergedUnit_other; congruence).
    assert (mergedUnit (Tile.reset x) = 0) by (by apply mergedUnit_other).
    assert (mergedUnit y' = 0) by (by apply mergedUnit_other).
    lia.
  - pose proof (guard_nonzero _ _ _ Hg).
    pose proof (mergeable_true _ _ Hm) as (Hax & Hay & Hlv).
    pose proof (mergeWith_nonempty _ _ _ _ _ _ HM (ableToMerge_nonempty _ Hax)) as [-> ->].
    pose proof (tileAt_Some _ _ _ Hx) as [_ Hx']. pose proof (tileAt_Some _ _ _ Hy) as [Hi' Hy'].
    unfold GameState.setTile.
    rewrite !(tileSum_insert2 _ _ (Z.to_nat i) (Z.to_nat (i + d)) x y) by (done || lia).
    apply ableToMerge_true in Hax as [HxM Hxo]. apply ableToMerge_true in Hay as [HyM Hyo].
    set (y' := Tile.mk (Tile.index y) (Some (S (Tile.levelNumber y))) (Tile.prevIndex y)
                 (Tile.prevLevel y) TileStatus.Merged).
    pose proof (tileUnit_occupied x Hxo). pose proof (tileUnit_occupied y Hyo).
    assert (tileUnit (Tile.reset x) = 0) by (apply tileUnit_empty; intros Ho; by apply Ho).
    assert (tileUnit y' = 1) by (by apply tileUnit_occupied).
    pose proof (mergedUnit_other x HxM). pose proof (mergedUnit_other y HyM).
    assert (mergedUnit (Tile.reset x) = 0) by (by apply mergedUnit_other).
    assert (mergedUnit y' = 1) by (by apply mergedUnit_Merged).
    lia.
Qed.

Lemma count_gsteps d s s' :
  rtc (gstep d) s s' →
  tileCount (GameState.tiles (fst s')) + mergedCount (GameState.tiles (fst s'))
  = tileCount (GameState.tiles (fst s)) + mergedCount (GameState.tiles (fst s)).
Proof.
  induction 1 as [|s s1 s2 H1 _ IH]; [done|]. rewrite IH. by eapply count_gstep.
Qed.

Lemma gravitate_count dir b h b' h' :
  shaped b → GameState.gravitate dir (b, h) = Some (b', h') →
  tileCount (GameState.tiles b') + mergedCount (GameState.tiles b')
  = tileCount (GameState.tiles b).
Proof.
  intros Hsh Hg. destruct (gravitate_inv _ _ _ _ Hsh Hg) as (s1 & _ & HP & Hsteps & _).
  change (GameState.tiles b') with (GameState.tiles (fst (b', h'))).
  rewrite (count_gsteps _ _ _ Hsteps). unfold tileCount, mergedCount.
  assert (Hocc : ∀ x p, occupied x → tileUnit (prepared x p) = tileUnit x).
  { intros x p Ho. by rewrite !tileUnit_occupied. }
  rewrite (Prepared_tileSum tileUnit b h s1 Hocc Hsh HP).
  assert (tileSum mergedUnit (GameState.tiles (fst s1)) = 0) as ->; [|lia].
  assert (H : ∀ k x, GameState.tiles (fst s1) !! k = Some x →
            Tile.status x ≠ TileStatus.Merged).
  { intros k x Hx. destruct (Prepared_no_Merged _ _ _ Hsh HP _ _ Hx); congruence. }
  revert H. generalize (GameState.tiles (fst s1)). intros ts.
  induction ts as [|z ts IH]; intros H; simpl; [done|].
  rewrite mergedUnit_other by (by apply (H 0%nat)). rewrite IH; [done|].
  intros k x Hx. by apply (H (S k)).
Qed.

Lemma tileCount_range ts : 0 <= tileCount ts <= Z.of_nat (length ts).
Proof.
  pose proof (tileSum_bounds tileUnit ts 0 1) as H.
  unfold tileCount. rewrite Z.mul_0_r, Z.mul_1_r in H. apply H.
  intros x. unfold tileUnit. destruct (decide (occupied x)); lia.
Qed.

Lemma tileCount_cons z ts : tileCount (z :: ts) = tileUnit z + tileCount ts.
Proof. reflexivity. Qed.

Lemma tileCount_full b : tileCount (GameState.tiles b) = Z.of_nat (length (GameState.tiles b))
                         ↔ full b.
Proof.
  unfold full. generalize (GameState.tiles b). intros ts.
  induction ts as [|z ts IH].
  { split; [intros _ k x Hx; done|done]. }
  rewrite tileCount_cons. pose proof (tileCount_range ts) as Hrange. cbn [length]. split.
  - intros Hc k x Hx. destruct (decide (occupied z)) as [Hz|Hz].
    + destruct k as [|k]; cbn in Hx; [by injection Hx as <-|].
      apply (proj1 IH) with (k := k); [|done].
      rewrite (tileUnit_occupied z Hz) in Hc. lia.
    + rewrite (tileUnit_empty z Hz) in Hc. lia.
  - intros Hall. rewrite tileUnit_occupied by (by apply (Hall 0%nat)).
    assert (tileCount ts = Z.of_nat (length ts)); [|lia].
    apply IH. intros k x Hx. by apply (Hall (S k)).
Qed.

Lemma tileCount_spawn ts j y l :
  ts !! j = Some y → ¬ occupied y →
  tileCount (<[j := spawned y l]> ts) = tileCount ts + 1.
Proof.
  intros Hy Hny. unfold tileCount. rewrite (tileSum_insert _ _ _ y) by done.
  rewrite (tileUnit_empty y), (tileUnit_occupied (spawned y l)) by done. lia.
Qed.

Lemma spawnTile_count b rs b' rs' :
  shaped b → GameState.spawnTile b rs = Some (b', rs') →
  tileCount (GameState.tiles b')
  = Z.min (tileCount (GameState.tiles b) + 1) (Z.of_nat (length (GameState.tiles b))).
Proof.
  intros Hsh Hs. pose proof (tileCount_range (GameState.tiles b)).
  apply (spawnTile_inv _ _ _ _ Hsh) in Hs
    as [(Hf & -> & _)|(j & y & pre & d & e & Hy & Hny & _ & _ & ->)].
  - apply tileCount_full in Hf. lia.
  - cbn [GameState.tiles GameState.withTiles].
    pose proof (tileCount_range (<[j:=spawned y (drawnLevel e)]> (GameState.tiles b))) as Hr.
    rewrite length_insert in Hr. rewrite tileCount_spawn in Hr |- * by done. lia.
Qed.

Lemma tileCount_new n : ∀ a, tileCount (Tile.new <$> seq a n) = 0.
Proof.
  induction n as [|n IH]; intros a; [done|].
  change (Tile.new <$> seq a (S n)) with (Tile.new a :: (Tile.new <$> seq (S a) n)).
  rewrite tileCount_cons, IH, tileUnit_empty; [done|]. intros Ho. by apply Ho.
Qed.

Lemma new_count r c t rs b rs' :
  GameState.new r c t rs = Some (b, rs') →
  tileCount (GameState.tiles b) = Z.min 2 (Z.of_nat (length (GameState.tiles b))).
Proof.
  unfold GameState.new. set (b0 := GameState.mk _ _ _ _ _ _). intros H.
  assert (Hsh0 : shaped b0).
  { unfold shaped. cbn. by rewrite length_fmap, length_seq. }
  assert (Hc0 : tileCount (GameState.tiles b0) = 0) by apply tileCount_new.
  destruct (GameState.spawnTile b0 rs) as [[b1 rs1]|] eqn:H1;
    cbn [mbind option_bind] in H; [|done].
  pose proof (spawnTile_shaped _ _ _ _ Hsh0 H1) as Hsh1.
  destruct (spawnTile_shape _ _ _ _ H1) as (_ & Hl1 & _).
  destruct (spawnTile_shape _ _ _ _ H) as (_ & Hl2 & _).
  rewrite (spawnTile_count _ _ _ _ Hsh1 H), (spawnTile_count _ _ _ _ Hsh0 H1), Hc0.
  lia.
Qed.

(** No level passes [rows * columns + 1]. *)
Lemma reachable_level_le b h k x l :
  reachable b h → GameState.tiles b !! k = Some x → Tile.level x = Some l →
  Z.of_nat l <= GameState.boardSize b + 1.
Proof.
  intros Hr Hx Hl. pose proof (reachable_Stacked _ _ Hr) as HB.
  destruct (reachable_inv _ _ Hr) as ((Hrw & Hcl & Hsh & Hwf) & _).
  destruct (Hwf _ _ Hx) as [_ Hocc].
  assert (Ho : occupied x).
  { intros He. apply Hocc in He. congruence. }
  pose proof (tileSum_lookup_le (atLeast (Z.of_nat l)) _ _ _
                (λ z, proj1 (atLeast_range (Z.of_nat l) z)) Hx) as Hle.
  unfold atLeast at 1 in Hle. unfold Tile.levelNumber in Hle. rewrite Hl in Hle.
  rewrite decide_True in Hle by (split; [done|cbn; lia]).
  specialize (HB (Z.of_nat l)). unfold countAtLeast in HB.
  unfold shaped in Hsh. rewrite Hsh in HB.
  assert (0 < GameState.boardSize b) by (unfold GameState.boardSize; nia).
  lia.
Qed.

Lemma Covered_gstep d ts0 n0 s s' :
  gstep d s s' → HistOK ts0 n0 s → Covered ts0 s → Covered ts0 s'.
Proof.
  destruct 1 as [b h i x y x' y' Hi Hx Hy Hg Hex HnM Hey Hmv
                |b h i x y x' y' h' Hi Hx Hy Hg Hm HS HM]; intros [HT HSep] HC;
    unfold Covered in *;
    cbn [fst snd GameState.tiles GameState.withTiles GameState.withScore] in *.
  - pose proof (guard_nonzero _ _ _ Hg) as Hd0. pose proof (guard_inside _ _ _ Hg) as Hin.
    apply isEmpty_false in Hex. rewrite (moveTo_occupied _ _ Hex) in Hmv.
    injection Hmv as <- <-.
    pose proof (tileAt_Some _ _ _ Hx) as [Hxl Hx']. pose proof (tileAt_Some _ _ _ Hy) as [Hyl Hy'].
    assert (Hij : Z.to_nat i ≠ Z.to_nat (i + d)) by lia.
    intros i0 x0 Hx0 Ho0.
    destruct (HC _ _ Hx0 Ho0) as (j & z & p & a & k & Hz & Hoz & Hp & Ha & Hk).
    destruct (decide (j = Z.to_nat i)) as [->|Hji].
    + assert (z = x) by congruence. subst z.
      eexists (Z.to_nat (i + d)), _, p, a, k. split.
      { unfold GameState.setTile. apply list_lookup_insert_eq.
        rewrite length_insert. by eapply lookup_lt_Some. }
      cbn. done.
    + destruct (decide (j = Z.to_nat (i + d))) as [->|Hjd].
      { assert (z = y) by congruence. subst z. apply isEmpty_true in Hey. by destruct Hoz. }
      exists j, z, p, a, k. split; [|done].
      unfold GameState.setTile. rewrite !list_lookup_insert_ne by done. done.
  - pose proof (guard_nonzero _ _ _ Hg) as Hd0. pose proof (guard_inside _ _ _ Hg) as Hin.
    pose proof (mergeable_true _ _ Hm) as (Hax & Hay & Hlv).
    pose proof (mergeWith_nonempty _ _ _ _ _ _ HM (ableToMerge_nonempty _ Hax)) as [-> ->].
    pose proof (tileAt_Some _ _ _ Hx) as [_ Hx']. pose proof (tileAt_Some _ _ _ Hy) as [_ Hy'].
    assert (Hij : Z.to_nat i ≠ Z.to_nat (i + d)) by lia.
    apply ableToMerge_true in Hax as [HxM Hox]. apply ableToMerge_true in Hay as [HyM Hoy].
    destruct (HT _ _ Hx' Hox) as (px & qx & Hpx & Hqx & Hpqx & Hnpx & Hnqx & HTx).
    destruct (HT _ _ Hy' Hoy) as (py & qy & Hpy & Hqy & Hpqy & Hnpy & Hnqy & HTy).
    apply Truthful_not_Merged in HTx as (a & xa & Hxa & Hoa & Hha & Hla & Hlxa); [|done].
    apply Truthful_not_Merged in HTy as (c & xc & Hxc & Hoc & Hhc & Hlc & Hlyc); [|done].
    destruct (HSep _ _ _ _ _ _ _ _ Hij Hx' Hy' Hox Hoy Hpx Hqx Hpy Hqy)
      as (Hs1 & Hs2 & Hs3 & Hs4).
    destruct (mergeWith_heap _ _ _ _ _ _ _ _ _ _ _ _ _ _ HM Hox Hpx Hqx Hpy Hqy
                Hpqy Hs3 Hha Hla Hhc Hlc) as (Hh1 & Hh2 & Hlen & Hoth).
    assert (Hnew : ∀ x1 y1, GameState.setTile
                     (GameState.setTile (GameState.tiles b) i x1) (i + d)
                     y1 !! Z.to_nat (i + d) = Some y1).
    { intros x1 y1. unfold GameState.setTile. apply list_lookup_insert_eq.
      rewrite length_insert. by eapply lookup_lt_Some. }
    intros i0 x0 Hx0 Ho0.
    destruct (HC _ _ Hx0 Ho0) as (j & z & p & a0 & k & Hz & Hoz & Hp & Ha & Hk).
    destruct (decide (j = Z.to_nat i)) as [->|Hji].
    + assert (z = x) by congruence. subst z.
      assert (p = px) by congruence. subst p.
      rewrite Hha in Ha. injection Ha as <-.
      apply singleton_lookup in Hk as [-> Hk].
      eexists (Z.to_nat (i + d)), _, py, _, 1%nat.
      split; [apply Hnew|]. split; [done|]. split; [done|]. split; [exact Hh1|].
      cbn. by rewrite Hk.
    + destruct (decide (j = Z.to_nat (i + d))) as [->|Hjd].
      * assert (z = y) by congruence. subst z.
        assert (p = py) by congruence. subst p.
        rewrite Hhc in Ha. injection Ha as <-.
        apply singleton_lookup in Hk as [-> Hk].
        eexists (Z.to_nat (i + d)), _, py, _, 0%nat.
        split; [apply Hnew|]. split; [done|]. split; [done|]. split; [exact Hh1|].
        cbn. by rewrite Hk.
      * exists j, z, p, a0, k. split.
        { unfold GameState.setTile. rewrite !list_lookup_insert_ne by done. done. }
        split; [done|]. split; [done|]. split; [|done].
        destruct (HT _ _ Hz Hoz) as (p' & q' & Hp' & Hq' & _).
        rewrite Hp in Hp'. injection Hp' as <-.
        destruct (HSep _ _ _ _ _ _ _ _ Hjd Hz Hy' Hoz Hoy Hp Hq' Hpy Hqy) as (? & ? & ? & ?).
        rewrite Hoth by done. done.
Qed.

Lemma Covered_gsteps d ts0 n0 s s' :
  rtc (gstep d) s s' → HistOK ts0 n0 s → Covered ts0 s → Covered ts0 s'.
Proof.
  induction 1 as [|s s1 s2 H1 _ IH]; [done|]. intros H HC.
  apply IH.
  - by eapply HistOK_gstep.
  - by eapply Covered_gstep.
Qed.

Lemma Prepared_Covered b0 h0 s :
  shaped b0 → Prepared b0 h0 (Z.to_nat (GameState.boardSize b0)) s →
  Covered (GameState.tiles b0) s.
Proof.
  intros Hsh HP i x0 Hx0 Ho0.
  destruct HP as (_ & _ & _ & _ & HP). specialize (HP _ _ Hx0).
  rewrite decide_True in HP.
  - destruct HP as (Ht & Hp & _).
    eexists i, _, _, _, 0%nat. split; [exact Ht|]. split; [done|]. split; [done|].
    split; [exact Hp|]. done.
  - split; [|done]. apply lookup_lt_Some in Hx0. unfold shaped in Hsh. lia.
Qed.

Lemma gravitate_Covered dir b h b' h' :
  shaped b → GameState.gravitate dir (b, h) = Some (b', h') →
  Covered (GameState.tiles b) (b', h').
Proof.
  intros Hsh Hrun.
  destruct (gravitate_inv _ _ _ _ Hsh Hrun) as (s1 & _ & HP & Hsteps & _).
  eapply Covered_gsteps; [exact Hsteps| |].
  - by apply Prepared_HistOK.
  - by eapply Prepared_Covered.
Qed.

(** * Drawing *)

Lemma Truthful_Recorded ts0 (h : list (list (option nat))) x p q :
  TilesWf ts0 → occupied x → Tile.status x ≠ TileStatus.Spawned →
  Tile.prevIndex x = Some p → Tile.prevLevel x = Some q →
  Truthful ts0 h x p q → Recorded h x.
Proof.
  intros HW Ho Hns Hp Hq HT. unfold Truthful in HT. unfold Recorded, hist.
  rewrite Hp, Hq. cbn. destruct (decide _) as [HM|HM].
  - rewrite HM. destruct HT as (a & c & xa & xc & Hxa & Hxc & Hoa & Hoc & -> & -> & Hl & Hlx).
    destruct (HW _ _ Hxa) as [_ Hla].
    destruct (Tile.level xa) as [l|] eqn:Hlev.
    + exists (Tile.index xa), (Tile.index xc), l. cbn. rewrite <- Hl. split; [done|].
      rewrite Hlx. unfold Tile.levelNumber. by rewrite Hlev.
    + destruct Hoa. by apply Hla.
  - destruct HT as (a & xa & Hxa & Hoa & -> & -> & Hl). cbn. rewrite <- Hl.
    unfold occupied in Ho.
    destruct (Tile.status x); try done; by exists (Tile.index xa).
Qed.

Lemma Recorded_heapExt (h h' : list (list (option nat))) x :
  heapExt h h' → Recorded h x → Recorded h' x.
Proof.
  intros Hext. unfold Recorded. destruct (Tile.status x); try done.
  - intros (i & Hh). exists i. by eapply hist_heapExt.
  - intros (i & Hh). exists i. by eapply hist_heapExt.
  - intros (i & j & l & Hh & Hl). exists i, j, l. split; [|done]. by eapply hist_heapExt.
Qed.

Lemma gravitate_Recorded dir b h b' h' :
  wf b → EmptyClean (GameState.tiles b) →
  GameState.gravitate dir (b, h) = Some (b', h') →
  ∀ k x, GameState.tiles b' !! k = Some x → Recorded h' x.
Proof.
  intros Hwf Hec H k x Hx. pose proof (wf_shaped _ Hwf) as Hsh.
  destruct (gravitate_summary _ _ _ _ _ Hsh H)
    as (_ & _ & _ & _ & _ & [HT _] & _ & _ & _ & _ & Hclean).
  destruct (Hclean Hec _ _ Hx) as [Hns _].
  destruct (decide (occupied x)) as [Ho|Hno].
  - destruct (HT _ _ Hx Ho) as (p & q & Hp & Hq & _ & _ & _ & HTx).
    eapply Truthful_Recorded; eauto. by apply wf_TilesWf.
  - unfold Recorded. unfold occupied in Hno.
    destruct (decide (Tile.status x = TileStatus.Empty)) as [->|]; [done|]. by destruct Hno.
Qed.

Lemma move_Recorded fuel dir b h rs changed b' h' rs' :
  wf b → EmptyClean (GameState.tiles b) →
  GameState.move fuel dir b (h, rs) = Some (changed, b', (h', rs')) →
  ∀ k x, GameState.tiles b' !! k = Some x → Recorded h' x.
Proof.
  intros Hwf Hec H k x Hx. pose proof (wf_shaped _ Hwf) as Hsh.
  destruct (move_result _ _ _ _ _ _ _ _ _ Hsh H)
    as (b1 & h1 & Hg & Hext & _ & [(_ & -> & ->)|(_ & b2 & rs1 & rs2 & st & Hs & ->)]).
  - by eapply gravitate_Recorded.
  - apply (Recorded_heapExt h1); [done|]. cbn in Hx.
    pose proof (gravitate_Recorded _ _ _ _ _ Hwf Hec Hg) as H1.
    apply (spawnTile_inv _ _ _ _ (gravitate_shaped _ _ _ _ _ Hsh Hg)) in Hs
      as [(_ & -> & _)|(j & y & pre & d & e & Hy & Hny & _ & _ & ->)]; [by eapply H1|].
    cbn in Hx. destruct (decide (k = j)) as [->|Hne].
    + rewrite list_lookup_insert_eq in Hx by (by eapply lookup_lt_Some).
      injection Hx as <-. done.
    + rewrite list_lookup_insert_ne in Hx by done. by eapply H1.
Qed.

Lemma reachable_Recorded b h k x :
  reachable b h → GameState.tiles b !! k = Some x → Recorded h x.
Proof.
  intros Hr. revert k x.
  induction Hr as [r c t rs b rs' h Hr Hc Hnew
                  |fuel dir b h rs changed b' h' rs' Hr IH Hmv]; intros k x Hx.
  - apply new_inv in Hnew as (_ & _ & _ & _ & _ & _ & Ht).
    destruct (Ht _ _ Hx) as [->|(l & _ & ->)]; done.
  - destruct (reachable_inv _ _ Hr) as (Hwf & _ & Hhs).
    eapply move_Recorded; [done| |done|done].
    by eapply historyShape_EmptyClean.
Qed.
Lemma movement_done p :
  (1 # 2 <= p)%Q →
  (3 * Qmin (p / GameGraphicsController.movingPhaseEnd) 1 ^ 2
   - 2 * Qmin (p / GameGraphicsController.movingPhaseEnd) 1 ^ 3 == 1)%Q.
Proof.
  intros Hp.
  assert (H : (Qmin (p / GameGraphicsController.movingPhaseEnd) 1 == 1)%Q).
  { apply Q.min_r. unfold GameGraphicsController.movingPhaseEnd.
    apply Qle_shift_div_l; [reflexivity|]. by rewrite Qmult_1_l. }
  rewrite H. reflexivity.
Qed.

Lemma movement_start p :
  (p == 0)%Q →
  (3 * Qmin (p / GameGraphicsController.movingPhaseEnd) 1 ^ 2
   - 2 * Qmin (p / GameGraphicsController.movingPhaseEnd) 1 ^ 3 == 0)%Q.
Proof.
  intros Hp.
  assert (H : (Qmin (p / GameGraphicsController.movingPhaseEnd) 1 == 0)%Q).
  { rewrite Hp. reflexivity. }
  rewrite H. reflexivity.
Qed.

Lemma sliding_done g p k prev lv :
  (1 # 2 <= p)%Q →
  let c := sliding g p k prev lv in
  (GameGraphicsController.row c
   == inject_Z (Z.of_nat k / GameGraphicsController.columns g))%Q ∧
  (GameGraphicsController.col c
   == inject_Z (Z.rem (Z.of_nat k) (GameGraphicsController.columns g)))%Q ∧
  GameGraphicsController.tileLevel c = lv ∧ GameGraphicsController.scale c = 1%Q.
Proof.
  intros Hp. cbn [sliding GameGraphicsController.row GameGraphicsController.col
                  GameGraphicsController.tileLevel GameGraphicsController.scale].
  split; [|split; [|done]]; rewrite (movement_done p Hp); ring.
Qed.

Lemma sliding_start g p k prev lv :
  (p == 0)%Q →
  let c := sliding g p k prev lv in
  (GameGraphicsController.row c
   == inject_Z (Z.of_nat prev / GameGraphicsController.columns g))%Q ∧
  (GameGraphicsController.col c
   == inject_Z (Z.rem (Z.of_nat prev) (GameGraphicsController.columns g)))%Q ∧
  GameGraphicsController.tileLevel c = lv ∧ GameGraphicsController.scale c = 1%Q.
Proof.
  intros Hp. cbn [sliding GameGraphicsController.row GameGraphicsController.col
                  GameGraphicsController.tileLevel GameGraphicsController.scale].
  split; [|split; [|done]]; rewrite (movement_start p Hp); ring.
Qed.

(** Settles the tests on the status of [x] once the status is known. *)
Ltac status_tests x Hs :=
  try rewrite (bool_decide_eq_true_2 (Tile.status x ≠ TileStatus.Empty))
    by (rewrite Hs; done);
  try rewrite (bool_decide_eq_false_2 (Tile.status x ≠ TileStatus.Empty))
    by (rewrite Hs; intros ?; done);
  try rewrite (bool_decide_eq_true_2 (Tile.status x ≠ TileStatus.Spawned))
    by (rewrite Hs; done);
  try rewrite (bool_decide_eq_false_2 (Tile.status x ≠ TileStatus.Spawned))
    by (rewrite Hs; intros ?; done);
  try rewrite (bool_decide_eq_true_2 (Tile.status x = TileStatus.Spawned))
    by (rewrite Hs; done);
  try rewrite (bool_decide_eq_false_2 (Tile.status x = TileStatus.Spawned))
    by (rewrite Hs; done);
  try rewrite (bool_decide_eq_true_2 (Tile.status x = TileStatus.Merged))
    by (rewrite Hs; done);
  try rewrite (bool_decide_eq_false_2 (Tile.status x = TileStatus.Merged))
    by (rewrite Hs; done).

(** What [drawAnimatedTile] draws for a tile, by status. *)
Lemma drawAnimatedTile_Spawned g x h p :
  GameGraphicsController.columns g ≠ 0 → Tile.status x = TileStatus.Spawned →
  GameGraphicsController.drawAnimatedTile g x h p
  = Some (appearing g p (Tile.index x) TileStatus.Spawned (Tile.level x)).
Proof.
  intros HC Hs. unfold GameGraphicsController.drawAnimatedTile, appearing.
  rewrite decide_False by done.
  status_tests x Hs. cbn.
  by destruct (Qle_bool p GameGraphicsController.movingPhaseEnd).
Qed.

Lemma drawAnimatedTile_single g x (h : list (list (option nat))) p i lv :
  GameGraphicsController.columns g ≠ 0 →
  Tile.status x = TileStatus.Still ∨ Tile.status x = TileStatus.Moved →
  hist h x = Some ([Some i], [lv]) →
  GameGraphicsController.drawAnimatedTile g x h p
  = Some [sliding g p (Tile.index x) i lv].
Proof.
  intros HC Hs Hh. unfold GameGraphicsController.drawAnimatedTile.
  rewrite decide_False by done. unfold hist in Hh.
  destruct (Tile.prevIndex x) as [pi|] eqn:Hpi; cbn in Hh; [|done].
  destruct (Tile.prevLevel x) as [q|] eqn:Hq; cbn in Hh; [|done].
  destruct (h !! pi) as [a|] eqn:Ha; cbn in Hh; [|done].
  destruct (h !! q) as [l|] eqn:Hl; cbn in Hh; [|done].
  injection Hh as -> ->.
  destruct Hs as [Hs|Hs]; status_tests x Hs; cbn [andb mbind option_bind]; rewrite Ha;
  cbn [mbind option_bind length seq GameGraphicsController.drawAnimatedTile_loop
       lookup list_lookup default];
  rewrite Hq; cbn [mbind option_bind]; rewrite Hl;
  cbn [mbind option_bind lookup list_lookup default GameGraphicsController.drawTile app];
  by destruct (negb _).
Qed.

Lemma drawAnimatedTile_Merged g x (h : list (list (option nat))) p i j l1 l2 :
  GameGraphicsController.columns g ≠ 0 →
  Tile.status x = TileStatus.Merged →
  hist h x = Some ([Some i; Some j], [l1; l2]) →
  GameGraphicsController.drawAnimatedTile g x h p
  = Some ([sliding g p (Tile.index x) i l1; sliding g p (Tile.index x) j l2]
          ++ appearing g p (Tile.index x) TileStatus.Merged (Tile.level x)).
Proof.
  intros HC Hs Hh. unfold GameGraphicsController.drawAnimatedTile, appearing.
  rewrite decide_False by done. unfold hist in Hh.
  destruct (Tile.prevIndex x) as [pi|] eqn:Hpi; cbn in Hh; [|done].
  destruct (Tile.prevLevel x) as [q|] eqn:Hq; cbn in Hh; [|done].
  destruct (h !! pi) as [a|] eqn:Ha; cbn in Hh; [|done].
  destruct (h !! q) as [l|] eqn:Hl; cbn in Hh; [|done].
  injection Hh as -> ->.
  status_tests x Hs.
  cbn [andb mbind option_bind]. rewrite Ha.
  cbn [mbind option_bind length seq GameGraphicsController.drawAnimatedTile_loop
       lookup list_lookup default].
  rewrite Hq. cbn [mbind option_bind]. rewrite Hl.
  cbn [mbind option_bind lookup list_lookup default GameGraphicsController.drawTile app].
  by destruct (negb _).
Qed.
Lemma Forall2_choice {A B} (R : A → B → Prop) l :
  Forall (λ x, ∃ y, R x y) l → ∃ k, Forall2 R l k.
Proof.
  induction 1 as [|x l [y Hy] _ [k IH]]; [by exists []|].
  exists (y :: k). by constructor.
Qed.

Lemma drawTiles_cols_cells g b h p r cols css :
  Forall2 (λ col cs,
     GameGraphicsController.drawCell g b h p
       (Z.of_nat r * GameGraphicsController.columns g + Z.of_nat col) = Some cs)
    cols css →
  GameGraphicsController.drawTiles_cols g b h p r cols = Some (concat css).
Proof.
  induction 1 as [|col cs cols css Hc _ IH]; [done|].
  cbn [GameGraphicsController.drawTiles_cols]. rewrite Hc. cbn. rewrite IH. done.
Qed.

Lemma drawTiles_rows_cells g b h p n : ∀ r0 css,
  0 <= GameGraphicsController.columns g →
  Forall2 (λ k cs, GameGraphicsController.drawCell g b h p (Z.of_nat k) = Some cs)
    (seq (r0 * Z.to_nat (GameGraphicsController.columns g))
         (n * Z.to_nat (GameGraphicsController.columns g))) css →
  GameGraphicsController.drawTiles_rows g b h p (seq r0 n) = Some (concat css).
Proof.
  set (C := Z.to_nat (GameGraphicsController.columns g)).
  induction n as [|n IH]; intros r0 css HC H.
  { cbn in H. apply Forall2_nil_inv_l in H as ->. done. }
  replace (S n * C)%nat with (C + n * C)%nat in H by lia.
  rewrite seq_app in H.
  apply Forall2_app_inv_l in H as (css1 & css2 & H1 & H2 & ->).
  cbn [seq GameGraphicsController.drawTiles_rows]. fold C.
  rewrite (drawTiles_cols_cells g b h p r0 (seq 0 C) css1).
  - cbn. rewrite (IH (S r0) css2 HC).
    + cbn. by rewrite concat_app.
    + replace (S r0 * C)%nat with (r0 * C + C)%nat by lia. done.
  - replace (seq (r0 * C) C) with (Nat.add (r0 * C) <$> seq 0 C) in H1
      by (rewrite fmap_add_seq; f_equal; lia).
    apply Forall2_fmap_l in H1. eapply Forall2_impl; [exact H1|].
    intros col cs Hcs. cbn in Hcs. rewrite <- Hcs. f_equal. unfold C. lia.
Qed.

Lemma drawTiles_cells g b h p css :
  0 <= GameGraphicsController.rows g → 0 <= GameGraphicsController.columns g →
  Forall2 (λ k cs, GameGraphicsController.drawCell g b h p (Z.of_nat k) = Some cs)
    (seq 0 (Z.to_nat (GameGraphicsController.rows g * GameGraphicsController.columns g)))
    css →
  GameGraphicsController.drawTiles g b h p = Some (concat css).
Proof.
  intros HR HC H. unfold GameGraphicsController.drawTiles.
  apply drawTiles_rows_cells; [done|]. rewrite <- Z2Nat.inj_mul by done. done.
Qed.

(** The two loops of [drawTiles] only depend on what the cells give. *)
Lemma drawTiles_ext g b h b' h' p :
  (∀ k, GameGraphicsController.drawCell g b h p k
        = GameGraphicsController.drawCell g b' h' p k) →
  GameGraphicsController.drawTiles g b h p = GameGraphicsController.drawTiles g b' h' p.
Proof.
  intros He. unfold GameGraphicsController.drawTiles.
  assert (Hc : ∀ r cols, GameGraphicsController.drawTiles_cols g b h p r cols
                         = GameGraphicsController.drawTiles_cols g b' h' p r cols).
  { intros r cols. induction cols as [|c cols IH]; [done|].
    cbn [GameGraphicsController.drawTiles_cols]. by rewrite He, IH. }
  induction (seq 0 (Z.to_nat (GameGraphicsController.rows g))) as [|r rws IH]; [done|].
  cbn [GameGraphicsController.drawTiles_rows]. by rewrite Hc, IH.
Qed.

Lemma drawAnimatedTile_Recorded g (h : list (list (option nat))) p x :
  GameGraphicsController.columns g ≠ 0 → occupied x → Recorded h x →
  ∃ cs, GameGraphicsController.drawAnimatedTile g x h p = Some cs ∧ drawnAs g h p x cs.
Proof.
  intros HC Ho HR. unfold Recorded, drawnAs in *. unfold occupied in Ho.
  destruct (Tile.status x) eqn:Hs; [done| | | |].
  - eexists. split; [by apply drawAnimatedTile_Spawned|done].
  - destruct HR as (i & Hh). eexists. split.
    + eapply drawAnimatedTile_single; [done|by left|exact Hh].
    + by exists i.
  - destruct HR as (i & Hh). eexists. split.
    + eapply drawAnimatedTile_single; [done|by right|exact Hh].
    + by exists i.
  - destruct HR as (i & j & l & Hh & Hl). eexists. split.
    + eapply drawAnimatedTile_Merged; [done|done|exact Hh].
    + by exists i, j, l.
Qed.

Lemma drawCell_Recorded g b (h : list (list (option nat))) p k x :
  GameGraphicsController.columns g ≠ 0 →
  GameState.tiles b !! k = Some x → Recorded h x →
  ∃ cs, GameGraphicsController.drawCell g b h p (Z.of_nat k) = Some cs ∧
        drawnAs g h p x cs.
Proof.
  intros HC Hx HR. unfold GameGraphicsController.drawCell, GameState.tileAt.
  rewrite (proj2 (Z.leb_le _ _)) by lia. rewrite Nat2Z.id, Hx. cbn.
  destruct (Tile.isEmpty x) eqn:He; cbn.
  - apply isEmpty_true in He. exists []. split; [done|]. unfold drawnAs. by rewrite He.
  - apply isEmpty_false in He. by apply drawAnimatedTile_Recorded.
Qed.

(** Drawing a board whose histories are as recorded returns, and draws cell
    after cell. *)
Lemma drawTiles_Recorded g b (h : list (list (option nat))) p :
  shaped b → 0 <= GameState.rows b → 0 < GameState.columns b →
  GameGraphicsController.rows g = GameState.rows b →
  GameGraphicsController.columns g = GameState.columns b →
  (∀ k x, GameState.tiles b !! k = Some x → Recorded h x) →
  ∃ css, GameGraphicsController.drawTiles g b h p = Some (concat css) ∧
         Forall2 (drawnAs g h p) (GameState.tiles b) css.
Proof.
  intros Hsh Hr Hc Hgr Hgc HR.
  set (n := Z.to_nat (GameGraphicsController.rows g * GameGraphicsController.columns g)).
  assert (Hn : n = length (GameState.tiles b)).
  { unfold n. rewrite Hgr, Hgc. unfold shaped, GameState.boardSize in Hsh. lia. }
  destruct (Forall2_choice
              (λ k cs, GameGraphicsController.drawCell g b h p (Z.of_nat k) = Some cs ∧
                       ∀ x, GameState.tiles b !! k = Some x → drawnAs g h p x cs)
              (seq 0 n)) as [css Hcss].
  { apply Forall_forall. intros k [_ Hk]%elem_of_seq.
    destruct (lookup_lt_is_Some_2 (GameState.tiles b) k) as [x Hx]; [lia|].
    destruct (drawCell_Recorded g b h p k x) as (cs & Hcs & Hd); [lia|done|by eapply HR|].
    exists cs. split; [done|]. intros x' Hx'. congruence. }
  exists css. split.
  - apply drawTiles_cells; [lia|lia|]. fold n. eapply Forall2_impl; [exact Hcss|].
    by intros k cs [? _].
  - pose proof (Forall2_length _ _ _ Hcss) as Hlen. rewrite length_seq in Hlen.
    apply Forall2_same_length_lookup_2; [lia|].
    intros k x cs Hx Hcs.
    assert (Hk : (k < n)%nat) by (rewrite Hn; by eapply lookup_lt_Some).
    destruct (Forall2_lookup_lr _ _ _ k k cs Hcss) as [_ Hd]; [|done|by apply Hd].
    by rewrite lookup_seq_lt.
Qed.
Lemma elem_of_concat {A} (c : A) (css : list (list A)) :
  c ∈ concat css ↔ ∃ k cs, css !! k = Some cs ∧ c ∈ cs.
Proof.
  induction css as [|cs css IH]; cbn [concat].
  - split; [by intros ?%elem_of_nil|by intros (k & cs & ? & _)].
  - rewrite elem_of_app, IH. split.
    + intros [H|(k & cs' & Hk & H)]; [by exists 0%nat, cs|by exists (S k), cs'].
    + intros ([|k] & cs' & Hk & H); [left; cbn in Hk; congruence|right; by exists k, cs'].
Qed.

Lemma length_concat_sum f (ts : list Tile.t) (css : list (list GameGraphicsController.call)) :
  Forall2 (λ x cs, Z.of_nat (length cs) = f x) ts css →
  Z.of_nat (length (concat css)) = tileSum f ts.
Proof.
  induction 1 as [|x cs ts css Hx _ IH]; [done|].
  cbn [concat tileSum foldr]. rewrite length_app. unfold tileSum in IH. lia.
Qed.

Lemma drawnUnit_sum ts :
  (∀ k x, ts !! k = Some x → Tile.status x ≠ TileStatus.Spawned) →
  tileSum drawnUnit ts = tileCount ts + mergedCount ts.
Proof.
  unfold tileCount, mergedCount.
  induction ts as [|x ts IH]; intros H; [done|]. cbn [tileSum foldr].
  unfold tileSum in IH. rewrite IH by (intros k y Hy; exact (H (S k) y Hy)).
  pose proof (H 0%nat x eq_refl) as Hx.
  assert (drawnUnit x = tileUnit x + mergedUnit x); [|lia].
  unfold drawnUnit.
  destruct (Tile.status x) eqn:Hs; try done.
  - rewrite tileUnit_empty, mergedUnit_other; [done|by rewrite Hs|].
    unfold occupied. rewrite Hs. by intros ?.
  - rewrite tileUnit_occupied, mergedUnit_other; [done|by rewrite Hs|].
    unfold occupied. by rewrite Hs.
  - rewrite tileUnit_occupied, mergedUnit_other; [done|by rewrite Hs|].
    unfold occupied. by rewrite Hs.
  - rewrite tileUnit_occupied, mergedUnit_Merged; [done|done|].
    unfold occupied. by rewrite Hs.
Qed.

(** An entry of a truthful history names an occupied cell of the board of
    the start of the turn, with the level of its tile. *)
Lemma Truthful_entry ts0 (h : list (list (option nat))) x p q a l k v :
  TilesWf ts0 → Truthful ts0 h x p q →
  h !! p = Some a → h !! q = Some l → a !! k = Some v →
  ∃ i x0, v = Some i ∧ ts0 !! i = Some x0 ∧ occupied x0 ∧ l !! k = Some (Tile.level x0).
Proof.
  intros HW HT Ha Hl Hk. unfold Truthful in HT. destruct (decide _) as [HM|HM].
  - destruct HT as (ia & ic & xa & xc & Hxa & Hxc & Hoa & Hoc & Hha & Hhl & _).
    rewrite Hha in Ha. rewrite Hhl in Hl. injection Ha as <-. injection Hl as <-.
    destruct (HW _ _ Hxa) as [Hia _]. destruct (HW _ _ Hxc) as [Hic _].
    apply pair_lookup in Hk as [[-> ->]|[-> ->]].
    + exists ia, xa. by rewrite Hia.
    + exists ic, xc. by rewrite Hic.
  - destruct HT as (ia & xa & Hxa & Hoa & Hha & Hhl & _).
    rewrite Hha in Ha. rewrite Hhl in Hl. injection Ha as <-. injection Hl as <-.
    destruct (HW _ _ Hxa) as [Hia _].
    apply singleton_lookup in Hk as [-> ->].
    exists ia, xa. by rewrite Hia.
Qed.

Lemma Truthful_arrays ts0 (h : list (list (option nat))) x p q :
  Truthful ts0 h x p q → ∃ a l, h !! p = Some a ∧ h !! q = Some l.
Proof.
  unfold Truthful. destruct (decide _).
  - intros (?&?&?&?&?&?&?&?&?&?&?). eauto.
  - intros (?&?&?&?&?&?&?). eauto.
Qed.

Lemma Truthful_heapExt ts0 (h h' : list (list (option nat))) x p q :
  heapExt h h' → Truthful ts0 h x p q → Truthful ts0 h' x p q.
Proof.
  intros [_ Hf] HT. destruct (Truthful_arrays _ _ _ _ _ HT) as (a & l & Ha & Hl).
  eapply Truthful_heap; [| |exact HT]; apply Hf; by eapply lookup_lt_Some.
Qed.

(** What a [move] leaves, told in terms of the board it started from: the
    dimensions are kept; every tile that is not the new one has a truthful
    history; every tile of the old board is a source in some history; and
    the histories have as many entries as the old board had tiles. *)
Lemma move_histories fuel dir b h rs changed b' h' rs' :
  wf b → EmptyClean (GameState.tiles b) →
  GameState.move fuel dir b (h, rs) = Some (changed, b', (h', rs')) →
  sameDims b b' ∧
  (∀ j x, GameState.tiles b' !! j = Some x → occupied x →
     Tile.status x ≠ TileStatus.Spawned →
     ∃ p q, Tile.prevIndex x = Some p ∧ Tile.prevLevel x = Some q ∧
            Truthful (GameState.tiles b) h' x p q) ∧
  (∀ i x0, GameState.tiles b !! i = Some x0 → occupied x0 →
     ∃ j x p a k, GameState.tiles b' !! j = Some x ∧ occupied x ∧
       Tile.status x ≠ TileStatus.Spawned ∧
       Tile.prevIndex x = Some p ∧ h' !! p = Some a ∧ a !! k = Some (Some i)) ∧
  tileSum drawnUnit (GameState.tiles b') = tileCount (GameState.tiles b).
Proof.
  intros Hwf Hec H. pose proof (wf_shaped _ Hwf) as Hsh.
  pose proof (wf_TilesWf _ Hwf) as HW.
  destruct (move_result _ _ _ _ _ _ _ _ _ Hsh H) as (b1 & h1 & Hg & Hext & _ & Hcase).
  destruct (gravitate_summary _ _ _ _ _ Hsh Hg)
    as (Hd1 & _ & _ & _ & _ & [HT _] & _ & _ & _ & _ & Hclean).
  specialize (Hclean Hec).
  pose proof (gravitate_Covered _ _ _ _ _ Hsh Hg) as HC.
  pose proof (gravitate_count _ _ _ _ _ Hsh Hg) as Hcount.
  pose proof (drawnUnit_sum (GameState.tiles b1) (λ k x Hx, proj1 (Hclean k x Hx))) as Hsum.
  unfold Covered in HC. cbn [fst snd] in *.
  (* the tiles of [b'] are those of [b1], but for the new tile *)
  assert (Htiles : sameDims b1 b' ∧
            (∀ j x, GameState.tiles b' !! j = Some x → occupied x →
               Tile.status x ≠ TileStatus.Spawned → GameState.tiles b1 !! j = Some x) ∧
            (∀ j x, GameState.tiles b1 !! j = Some x → occupied x →
               GameState.tiles b' !! j = Some x) ∧
            tileSum drawnUnit (GameState.tiles b') = tileSum drawnUnit (GameState.tiles b1)).
  { destruct Hcase as [(_ & -> & _)|(_ & b2 & rs1 & rs2 & st & Hs & ->)]; [by unfold sameDims|].
    pose proof (spawnTile_shape _ _ _ _ Hs) as (Hd2 & _).
    apply (spawnTile_inv _ _ _ _ (gravitate_shaped _ _ _ _ _ Hsh Hg)) in Hs
      as [(_ & -> & _)|(j0 & y & pre & d & e & Hy & Hny & _ & _ & ->)];
      [by unfold sameDims|].
    cbn [GameState.tiles GameState.withStatus GameState.withTiles] in *.
    split; [done|]. split; [|split].
    - intros j x Hx Ho Hns. destruct (decide (j = j0)) as [->|Hne].
      + rewrite list_lookup_insert_eq in Hx by (by eapply lookup_lt_Some).
        injection Hx as <-. by destruct Hns.
      + by rewrite list_lookup_insert_ne in Hx.
    - intros j x Hx Ho. destruct (decide (j = j0)) as [->|Hne].
      + rewrite Hy in Hx. injection Hx as <-. by destruct Hny.
      + by rewrite list_lookup_insert_ne.
    - rewrite (tileSum_insert _ _ _ y) by done.
      assert (drawnUnit y = 0 ∧ drawnUnit (spawned y (drawnLevel e)) = 0) as [-> ->]; [|lia].
      split; [|done]. unfold drawnUnit. unfold occupied in Hny.
      destruct (decide (Tile.status y = TileStatus.Empty)) as [->|]; [done|]. by destruct Hny. }
  destruct Htiles as (Hd2 & Hback & Hfwd & Hsame).
  split; [|split; [|split]].
  - destruct Hd1, Hd2. unfold sameDims. split; congruence.
  - intros j x Hx Ho Hns. specialize (Hback _ _ Hx Ho Hns).
    destruct (HT _ _ Hback Ho) as (p & q & Hp & Hq & _ & _ & _ & HTx).
    exists p, q. split; [done|]. split; [done|]. by eapply Truthful_heapExt.
  - intros i x0 Hx0 Ho0.
    destruct (HC _ _ Hx0 Ho0) as (j & x & p & a & k & Hx & Ho & Hp & Ha & Hk).
    destruct (HW _ _ Hx0) as [Hi0 _]. rewrite Hi0 in Hk.
    exists j, x, p, a, k. split; [by apply Hfwd|]. split; [done|].
    split; [by destruct (Hclean _ _ Hx)|]. split; [done|]. split; [|done].
    destruct Hext as [_ Hf]. rewrite Hf; [done|]. by eapply lookup_lt_Some.
  - lia.
Qed.

Lemma appearing_start g p k st lv : (p == 0)%Q → appearing g p k st lv = [].
Proof.
  intros Hp. unfold appearing.
  assert (H : Qle_bool p GameGraphicsController.movingPhaseEnd = true).
  { apply Qle_bool_iff. rewrite Hp. done. }
  by rewrite H.
Qed.

Lemma appearing_late g p k st lv c :
  0 < GameGraphicsController.columns g →
  (1 # 2 < p)%Q → c ∈ appearing g p k st lv →
  atCell (GameGraphicsController.columns g) k c ∧
  GameGraphicsController.tileLevel c = lv ∧
  ((p == 1)%Q → (GameGraphicsController.scale c == 1)%Q).
Proof.
  intros HC Hp Hc. unfold appearing in Hc.
  assert (H : Qle_bool p GameGraphicsController.movingPhaseEnd = false).
  { apply not_true_is_false. intros H%Qle_bool_iff.
    unfold GameGraphicsController.movingPhaseEnd in H. by apply Qle_not_lt in H. }
  rewrite H in Hc. cbn [negb] in Hc.
  assert (Hrem : Z.rem (Z.of_nat k) (GameGraphicsController.columns g)
                 = Z.of_nat k mod GameGraphicsController.columns g)
    by (apply Z.rem_mod_nonneg; lia).
  destruct st; try (by apply elem_of_nil in Hc);
    apply list_elem_of_singleton in Hc as ->; unfold atCell; cbn; rewrite Hrem;
    (split; [split; reflexivity|]); (split; [done|]); intros H1; rewrite H1; reflexivity.
Qed.

Lemma sliding_late g p k prev lv :
  0 < GameGraphicsController.columns g → (1 # 2 < p)%Q →
  atCell (GameGraphicsController.columns g) k (sliding g p k prev lv) ∧
  GameGraphicsController.tileLevel (sliding g p k prev lv) = lv ∧
  (GameGraphicsController.scale (sliding g p k prev lv) == 1)%Q.
Proof.
  intros HC Hp. destruct (sliding_done g p k prev lv) as (Hr & Hc & Hl & Hs).
  { by apply Qlt_le_weak. }
  unfold atCell. rewrite Hr, Hc, Hs.
  rewrite Z.rem_mod_nonneg by lia. done.
Qed.

Lemma sliding_rest g p k prev lv :
  0 < GameGraphicsController.columns g → (p == 0)%Q →
  atCell (GameGraphicsController.columns g) prev (sliding g p k prev lv) ∧
  GameGraphicsController.tileLevel (sliding g p k prev lv) = lv ∧
  (GameGraphicsController.scale (sliding g p k prev lv) == 1)%Q.
Proof.
  intros HC Hp. destruct (sliding_start g p k prev lv Hp) as (Hr & Hc & Hl & Hs).
  unfold atCell. rewrite Hr, Hc, Hs.
  rewrite Z.rem_mod_nonneg by lia. done.
Qed.

(** At progress 0 the calls for a tile are its history, entry by entry. *)
Lemma drawnAs_start g (h : list (list (option nat))) p x cs :
  (p == 0)%Q → drawnAs g h p x cs →
  Z.of_nat (length cs) = drawnUnit x ∧
  ∀ c, c ∈ cs ↔
    occupied x ∧ Tile.status x ≠ TileStatus.Spawned ∧
    ∃ a l k i lv, hist h x = Some (a, l) ∧ a !! k = Some (Some i) ∧
                  l !! k = Some lv ∧ c = sliding g p (Tile.index x) i lv.
Proof.
  intros Hp Hd. unfold drawnAs in Hd. unfold drawnUnit, occupied.
  destruct (Tile.status x) eqn:Hs.
  - subst cs. split; [done|]. intros c. split; [by intros ?%elem_of_nil|by intros [? _]].
  - rewrite appearing_start in Hd by done. subst cs. split; [done|].
    intros c. split; [by intros ?%elem_of_nil|by intros (_ & ? & _)].
  - destruct Hd as (i & Hh & ->). split; [done|]. intros c. split.
    + intros ->%list_elem_of_singleton. split; [done|]. split; [done|].
      by exists [Some i], [Tile.level x], 0%nat, i, (Tile.level x).
    + intros (_ & _ & a & l & k & i' & lv & Hh' & Hk & Hl & ->).
      rewrite Hh in Hh'. injection Hh' as <- <-.
      apply singleton_lookup in Hk as [-> [= ->]]. cbn in Hl. injection Hl as <-.
      by apply list_elem_of_singleton.
  - destruct Hd as (i & Hh & ->). split; [done|]. intros c. split.
    + intros ->%list_elem_of_singleton. split; [done|]. split; [done|].
      by exists [Some i], [Tile.level x], 0%nat, i, (Tile.level x).
    + intros (_ & _ & a & l & k & i' & lv & Hh' & Hk & Hl & ->).
      rewrite Hh in Hh'. injection Hh' as <- <-.
      apply singleton_lookup in Hk as [-> [= ->]]. cbn in Hl. injection Hl as <-.
      by apply list_elem_of_singleton.
  - destruct Hd as (i & j & l0 & Hh & _ & ->).
    rewrite appearing_start by done. rewrite app_nil_r. split; [done|]. intros c. split.
    + intros [->|Hc]%elem_of_cons; (split; [done|]); (split; [done|]).
      * by exists [Some i; Some j], [Some l0; Some l0], 0%nat, i, (Some l0).
      * apply list_elem_of_singleton in Hc as ->.
        by exists [Some i; Some j], [Some l0; Some l0], 1%nat, j, (Some l0).
    + intros (_ & _ & a & l & k & i' & lv & Hh' & Hk & Hl & ->).
      rewrite Hh in Hh'. injection Hh' as <- <-.
      apply pair_lookup in Hk as [[-> [= ->]]|[-> [= ->]]]; cbn in Hl; injection Hl as <-.
      * apply elem_of_cons. by left.
      * apply elem_of_cons. right. by apply list_elem_of_singleton.
Qed.

Lemma drawAnimatedTile_heapExt g (h h' : list (list (option nat))) p x :
  heapExt h h' → occupied x → Recorded h x →
  GameGraphicsController.drawAnimatedTile g x h' p
  = GameGraphicsController.drawAnimatedTile g x h p.
Proof.
  intros Hext Ho HR.
  destruct (decide (GameGraphicsController.columns g = 0)) as [HC|HC].
  { unfold GameGraphicsController.drawAnimatedTile. by rewrite !decide_True. }
  unfold Recorded in HR. unfold occupied in Ho.
  destruct (Tile.status x) eqn:Hs; [done| | | |].
  - by rewrite !drawAnimatedTile_Spawned.
  - destruct HR as (i & Hh). pose proof (hist_heapExt _ _ _ _ _ Hext Hh) as Hh'.
    rewrite (drawAnimatedTile_single g x h p i _ HC (or_introl Hs) Hh).
    by rewrite (drawAnimatedTile_single g x h' p i _ HC (or_introl Hs) Hh').
  - destruct HR as (i & Hh). pose proof (hist_heapExt _ _ _ _ _ Hext Hh) as Hh'.
    rewrite (drawAnimatedTile_single g x h p i _ HC (or_intror Hs) Hh).
    by rewrite (drawAnimatedTile_single g x h' p i _ HC (or_intror Hs) Hh').
  - destruct HR as (i & j & l & Hh & _).
    pose proof (hist_heapExt _ _ _ _ _ Hext Hh) as Hh'.
    rewrite (drawAnimatedTile_Merged g x h p i j _ _ HC Hs Hh).
    by rewrite (drawAnimatedTile_Merged g x h' p i j _ _ HC Hs Hh').
Qed.

(** * The specification, property by property *)

Lemma scenarioBoard_gravitate st0 st1 :
  st0 ≠ TileStatus.Empty → st1 ≠ TileStatus.Empty →
  GameState.gravitate Direction.Left (scenarioBoard st0 st1, []) = Some exampleSlid.
Proof. destruct st0, st1; intros H0 H1; try done; vm_compute; reflexivity. Qed.

Lemma scenario_similar b :
  scenario b →
  ∃ st0 st1, st0 ≠ TileStatus.Empty ∧ st1 ≠ TileStatus.Empty ∧
    similar (GameState.score b) (scenarioBoard st0 st1) b.
Proof.
  intros (Hr & Hc & Ht & Hst & Hlen & Hts).
  destruct (lookup_lt_is_Some_2 (GameState.tiles b) 0) as [x0 Hx0]; [lia|].
  destruct (lookup_lt_is_Some_2 (GameState.tiles b) 1) as [x1 Hx1]; [lia|].
  exists (Tile.status x0), (Tile.status x1).
  destruct (Hts _ _ Hx0) as (Hi0 & Ho0 & Hl0). destruct (Hts _ _ Hx1) as (Hi1 & Ho1 & Hl1).
  split; [done|]. split; [done|]. split; [by split|]. split; [cbn; lia|].
  apply Forall2_same_length_lookup. split; [by rewrite Hlen|].
  intros k x y Hx Hy. destruct (Hts _ _ Hy) as (Hi & Hk).
  destruct k as [|[|k]].
  - cbn in Hx. injection Hx as <-. rewrite Hx0 in Hy. injection Hy as <-. done.
  - cbn in Hx. injection Hx as <-. rewrite Hx1 in Hy. injection Hy as <-. done.
  - change ((Tile.new <$> seq 2 14) !! k = Some x) in Hx.
    rewrite list_lookup_fmap in Hx.
    destruct (seq 2 14 !! k) as [j|] eqn:Hj; [|done]. cbn in Hx. injection Hx as <-.
    apply lookup_seq in Hj as [-> _]. cbn in Hk. destruct Hk as [Hs Hl].
    split; [done|]. split; done.
Qed.

(** [gravitate(Left)] on a scenario board: one tile of level 2 in cell 0,
    marked [Merged], and 4 more points. *)
Lemma scenario_gravitate b (h : list (list (option nat))) :
  scenario b →
  ∃ b1 h1, GameState.gravitate Direction.Left (b, h) = Some (b1, h1) ∧
    shaped b1 ∧ sameDims b b1 ∧
    GameState.targetTileLevel b1 = 11 ∧
    GameState.status b1 = GameStatus.InProgress ∧
    GameState.score b1 = GameState.score b + 4 ∧
    length (GameState.tiles b1) = 16%nat ∧
    ∀ k x, GameState.tiles b1 !! k = Some x →
      Tile.index x = k ∧
      if decide (k = 0)%nat
      then Tile.level x = Some 2%nat ∧ Tile.status x = TileStatus.Merged
      else Tile.status x = TileStatus.Empty ∧ Tile.level x = None.
Proof.
  intros Hsc. destruct (scenario_similar b Hsc) as (st0 & st1 & H0 & H1 & Hsim).
  destruct Hsc as (Hr & Hc & Ht & Hst & Hlen & Hts).
  assert (Hsh : shaped b).
  { unfold shaped, GameState.boardSize. rewrite Hlen, Hr, Hc. reflexivity. }
  destruct (gravitate_similar Direction.Left (GameState.score b) (scenarioBoard st0 st1) b
              [] h (fst exampleSlid) (snd exampleSlid))
    as (b1 & h1 & Hg & (Hd1 & Hs1 & HF)); [reflexivity|done| |].
  { by rewrite (scenarioBoard_gravitate st0 st1 H0 H1). }
  exists b1, h1. split; [done|].
  destruct (gravitate_summary _ _ _ _ _ Hsh Hg) as (Hd & Hl1 & Ht1 & Hst1 & _).
  split; [by eapply gravitate_shaped|]. split; [done|].
  split; [congruence|]. split; [congruence|].
  split. { rewrite Hs1. cbn. lia. }
  split; [congruence|].
  intros k x Hx. rewrite Forall2_lookup in HF. specialize (HF k). rewrite Hx in HF.
  inversion HF as [y x' (Hi & Hl & Hs) Hy Hx'|]; subst x'. symmetry in Hy.
  rewrite <- Hi, <- Hl, <- Hs. clear -Hy.
  do 16 (destruct k as [|k]; [cbn in Hy; injection Hy as <-; done|]).
  done.
Qed.

(** C1, as the code has it.  On a scenario board, [move(Left)] returns
    [true]: cell 0 then holds one tile of level 2 with status [Merged], the
    score has grown by exactly 4, the status is still [InProgress], and
    exactly one tile has spawned, with level 1 or 2, in the cell the draw
    selects among the cells other than 0; every other cell is free.  Cell 1,
    which the slide has vacated, is therefore free unless the new tile has
    spawned there. *)
Theorem scenario_move_left fuel b (h : list (list (option nat))) rs c rs1 pre d e rs2 :
  scenario b →
  GameState.clone b rs = Some (c, rs1) →
  rs1 = pre ++ d :: e :: rs2 → Forall (λ x, x = 0%nat) pre → d ≠ 0%nat →
  ∃ b' h' j,
    GameState.move (S fuel) Direction.Left b (h, rs) = Some (true, b', (h', rs2)) ∧
    GameState.score b' = GameState.score b + 4 ∧
    GameState.status b' = GameStatus.InProgress ∧
    Z.of_nat j = drawnCell 16 d ∧ (1 ≤ j ≤ 15)%nat ∧
    length (GameState.tiles b') = 16%nat ∧
    ∀ k x, GameState.tiles b' !! k = Some x →
      if decide (k = 0)%nat
      then Tile.level x = Some 2%nat ∧ Tile.status x = TileStatus.Merged
      else if decide (k = j)
      then Tile.level x = Some (drawnLevel e) ∧ Tile.status x = TileStatus.Spawned ∧
           (drawnLevel e = 1 ∨ drawnLevel e = 2)%nat
      else Tile.status x = TileStatus.Empty ∧ Tile.level x = None.
Proof.
  intros Hsc Hc -> Hpre Hd.
  destruct (scenario_gravitate b h Hsc)
    as (b1 & h1 & Hg & Hsh1 & Hd1 & Ht1 & Hst1 & Hs1 & Hl1 & Hts1).
  destruct Hsc as (Hr & Hcc & Ht & Hst & Hlen & Hts).
  assert (Hsh : shaped b).
  { unfold shaped, GameState.boardSize. rewrite Hlen, Hr, Hcc. reflexivity. }
  pose proof (clone_inv _ _ _ _ Hsh Hc) as ->. rewrite withStatus_eq in Hc by done.
  assert (Hbs1 : GameState.boardSize b1 = 16).
  { destruct Hd1 as [Hr1 Hc1]. unfold GameState.boardSize. rewrite Hr1, Hc1, Hr, Hcc. done. }
  (* the comparison with the copy *)
  assert (He : GameState.equals b1 b = Some false).
  { destruct (equals_spec b1 b Hsh1) as (r & Hr' & Hiff).
    - destruct Hd1. split; congruence.
    - congruence.
    - rewrite Hr'. f_equal. destruct r; [|done].
      destruct Hiff as [Hiff _]. destruct (Hiff eq_refl) as [? _]. lia. }
  (* the spawn *)
  set (j := Z.to_nat (drawnCell 16 d)).
  assert (Hj : Z.of_nat j = drawnCell 16 d ∧ (1 ≤ j ≤ 15)%nat).
  { unfold j, drawnCell. lia. }
  destruct Hj as [Hj Hjr].
  destruct (lookup_lt_is_Some_2 (GameState.tiles b1) j) as [xj Hxj]; [lia|].
  destruct (lookup_lt_is_Some_2 (GameState.tiles b1) 0) as [x0 Hx0]; [lia|].
  pose proof (Hts1 _ _ Hxj) as [Hij Hej]. rewrite decide_False in Hej by lia.
  pose proof (Hts1 _ _ Hx0) as [Hi0 He0]. rewrite decide_True in He0 by done.
  assert (Hfull1 : GameState.isFull b1 = Some false).
  { destruct (isFull_spec b1 Hsh1) as (r & Hr' & Hiff). rewrite Hr'. f_equal.
    destruct r; [|done]. destruct Hiff as [Hiff _].
    specialize (Hiff eq_refl _ _ Hxj). destruct Hej as [Hej _]. by destruct Hiff. }
  assert (Hloop : GameState.spawnTile_loop (GameState.tiles b1) (GameState.boardSize b1)
                    (pre ++ d :: e :: rs2) = Some (drawnCell 16 d, e :: rs2)).
  { rewrite Hbs1. apply (spawnTile_loop_total _ _ _ _ _ xj).
    - eapply Forall_impl; [exact Hpre|]. intros z ->. exists x0. split.
      + exact Hx0.
      + apply isEmpty_false. destruct He0 as [_ ->]. done.
    - rewrite <- Hj. by rewrite tileAt_nat.
    - apply isEmpty_true. by destruct Hej. }
  set (b2 := GameState.withTiles b1
               (GameState.setTile (GameState.tiles b1) (drawnCell 16 d)
                  (spawned xj (drawnLevel e)))).
  assert (Hspawn : GameState.spawnTile b1 (pre ++ d :: e :: rs2) = Some (b2, rs2)).
  { unfold GameState.spawnTile. rewrite Hfull1. cbn [mbind option_bind negb].
    rewrite Hloop. cbn [mbind option_bind]. rewrite <- Hj at 1. rewrite tileAt_nat, Hxj.
    cbn [mbind option_bind]. rewrite Tile_spawn_cons. done. }
  assert (Hsh2 : shaped b2).
  { exact (spawnTile_shaped _ _ _ _ Hsh1 Hspawn). }
  assert (Htiles2 : GameState.tiles b2 = <[j := spawned xj (drawnLevel e)]> (GameState.tiles b1)).
  { done. }
  assert (Hts2 : ∀ k x, GameState.tiles b2 !! k = Some x →
            if decide (k = 0)%nat
            then Tile.level x = Some 2%nat ∧ Tile.status x = TileStatus.Merged
            else if decide (k = j)
            then Tile.level x = Some (drawnLevel e) ∧ Tile.status x = TileStatus.Spawned ∧
                 (drawnLevel e = 1 ∨ drawnLevel e = 2)%nat
            else Tile.status x = TileStatus.Empty ∧ Tile.level x = None).
  { intros k x Hx. rewrite Htiles2 in Hx. destruct (decide (k = j)) as [->|Hkj].
    - rewrite list_lookup_insert_eq in Hx by lia. injection Hx as <-.
      rewrite decide_False by lia. split; [done|]. split; [done|]. apply drawnLevel_range.
    - rewrite list_lookup_insert_ne in Hx by done.
      destruct (Hts1 _ _ Hx) as [_ Hk]. by destruct (decide (k = 0)%nat). }
  (* the status *)
  assert (Hfull2 : GameState.isFull b2 = Some false).
  { destruct (isFull_spec b2 Hsh2) as (r & Hr' & Hiff). rewrite Hr'. f_equal.
    destruct r; [|done]. destruct Hiff as [Hiff _]. specialize (Hiff eq_refl).
    set (k := if decide (j = 1)%nat then 2%nat else 1%nat).
    destruct (lookup_lt_is_Some_2 (GameState.tiles b2) k) as [x Hx].
    { rewrite Htiles2, length_insert. unfold k. destruct (decide _); lia. }
    pose proof (Hts2 _ _ Hx) as Hk. pose proof (Hiff _ _ Hx) as Ho.
    rewrite decide_False in Hk by (unfold k; destruct (decide _); lia).
    rewrite decide_False in Hk by (unfold k; destruct (decide _); lia).
    destruct Hk as [Hk _]. by destruct Ho. }
  assert (Hgoal : GameState.hasAchievedGoal b2 = Some false).
  { destruct (hasAchievedGoal_spec b2 Hsh2) as (r & Hr' & Hiff). rewrite Hr'. f_equal.
    destruct r; [|done]. destruct Hiff as [Hiff _].
    destruct (Hiff eq_refl) as (k & x & Hx & Hge).
    change (GameState.targetTileLevel b2) with (GameState.targetTileLevel b1) in Hge.
    rewrite Ht1 in Hge. pose proof (Hts2 _ _ Hx) as Hk. unfold Tile.levelNumber in Hge.
    destruct (decide (k = 0)%nat); [destruct Hk as [Hk _]; rewrite Hk in Hge; cbn in Hge; lia|].
    destruct (decide (k = j)).
    - destruct Hk as (Hk & _ & Hrange). rewrite Hk in Hge. cbn in Hge. lia.
    - destruct Hk as [_ Hk]. rewrite Hk in Hge. cbn in Hge. lia. }
  exists b2, h1, j. split.
  { cbn [GameState.move fst snd]. rewrite Hc. cbn [mbind option_bind].
    rewrite Hg. cbn [mbind option_bind]. rewrite He. cbn [mbind option_bind negb].
    rewrite Hspawn. cbn [mbind option_bind].
    unfold GameState.updateStatus_with, GameState.isGameOver_with.
    rewrite Hfull2. cbn [mbind option_bind].
    change (GameState.status b2) with (GameState.status b1). rewrite Hst1.
    rewrite bool_decide_eq_true_2 by done. rewrite Hgoal. done. }
  split; [exact Hs1|]. split; [exact Hst1|]. split; [done|]. split; [done|].
  split; [by rewrite Htiles2, length_insert|]. exact Hts2.
Qed.

Lemma exampleBoard_scenario : scenario exampleBoard.
Proof.
  do 5 (split; [reflexivity|]). intros k x Hx.
  do 16 (destruct k as [|k]; [cbn in Hx; injection Hx as <-; by repeat split|]).
  done.
Qed.

Lemma scenario_move_left_witness :
  ∃ b' h' j,
    GameState.move 1 Direction.Left exampleBoard ([], exampleDraws)
    = Some (true, b', (h', [])) ∧
    GameState.score b' = GameState.score exampleBoard + 4 ∧
    GameState.status b' = GameStatus.InProgress ∧
    Z.of_nat j = drawnCell 16 5 ∧ (1 ≤ j ≤ 15)%nat ∧
    length (GameState.tiles b') = 16%nat ∧
    ∀ k x, GameState.tiles b' !! k = Some x →
      if decide (k = 0)%nat
      then Tile.level x = Some 2%nat ∧ Tile.status x = TileStatus.Merged
      else if decide (k = j)
      then Tile.level x = Some (drawnLevel 0) ∧ Tile.status x = TileStatus.Spawned ∧
           (drawnLevel 0 = 1 ∨ drawnLevel 0 = 2)%nat
      else Tile.status x = TileStatus.Empty ∧ Tile.level x = None.
Proof.
  apply (scenario_move_left 0 exampleBoard [] exampleDraws exampleBoard
           [5; 0]%nat [] 5%nat 0%nat []).
  - exact exampleBoard_scenario.
  - reflexivity.
  - reflexivity.
  - constructor.
  - lia.
Defined.

(** C1 as stated fails: the new tile may spawn in cell 1, which held a tile
    before the move and which the slide has just vacated; cell 1 is then not
    free after the move. *)
Lemma scenario_spawn_in_vacated_cell :
  scenario exampleBoard ∧
  ∃ b' w' x,
    GameState.move 1 Direction.Left exampleBoard ([], [0; 0; 1; 0; 1; 0]%nat)
    = Some (true, b', w') ∧
    GameState.tiles b' !! 1%nat = Some x ∧
    Tile.isEmpty x = false ∧ Tile.status x = TileStatus.Spawned.
Proof.
  split; [exact exampleBoard_scenario|].
  eexists _, _, _. split; [vm_compute; reflexivity|]. split; [reflexivity|].
  split; reflexivity.
Qed.

(** C2. One [gravitate] pass returns, and it never merges a tile twice.
    Afterwards every occupied tile has two history arrays of the same
    length, at most 2.  A
    tile with status [Merged] has exactly two sources: two different cells
    that held tiles of one level [lv] before the pass, and its own level is
    [lv + 1].  Every other occupied tile has exactly one source and the level
    that source had. *)
Theorem merge_once dir b h :
  wf b →
  ∃ b' h', GameState.gravitate dir (b, h) = Some (b', h') ∧
  ∀ k x, GameState.tiles b' !! k = Some x → occupied x →
  ∃ a l, hist h' x = Some (a, l) ∧ length a = length l ∧ (length a ≤ 2)%nat ∧
    (Tile.status x = TileStatus.Merged →
       ∃ i j lv xi xj, i ≠ j ∧ a = [Some i; Some j] ∧ l = [Some lv; Some lv] ∧
         GameState.tiles b !! i = Some xi ∧ Tile.level xi = Some lv ∧
         GameState.tiles b !! j = Some xj ∧ Tile.level xj = Some lv ∧
         Tile.level x = Some (S lv)) ∧
    (Tile.status x ≠ TileStatus.Merged →
       ∃ i xi, a = [Some i] ∧ l = [Tile.level xi] ∧
         GameState.tiles b !! i = Some xi ∧ Tile.level x = Tile.level xi).
Proof.
  intros Hwf. destruct (gravitate_total dir b h (wf_shaped _ Hwf)) as [[b' h'] Hg].
  exists b', h'. split; [done|]. intros k x Hx Hox.
  destruct (gravitate_summary _ _ _ _ _ (wf_shaped _ Hwf) Hg)
    as (_ & _ & _ & _ & _ & [HT _] & _ & _ & _ & Hwf' & _).
  destruct (Hwf' (wf_TilesWf _ Hwf)) as [_ HO].
  destruct (HT _ _ Hx Hox) as (p & q & Hp & Hq & Hpq & _ & _ & HTx).
  cbn [snd] in HTx. unfold hist. rewrite Hp, Hq. cbn. unfold Truthful in HTx.
  destruct (decide (Tile.status x = TileStatus.Merged)) as [HM|HM].
  - destruct HTx as (i & j & xi & xj & Hi & Hj & Hoi & Hoj & Ha & Hl & Hlv & Hlx).
    rewrite Ha, Hl. cbn. eexists _, _. split; [done|]. split; [done|]. split; [cbn; lia|].
    split; [|done]. intros _.
    destruct (wf_TilesWf _ Hwf _ _ Hi) as [Hii Hli].
    destruct (wf_TilesWf _ Hwf _ _ Hj) as [Hij Hlj].
    destruct (Tile.level xi) as [lv|] eqn:Hlvi.
    2:{ exfalso. apply Hoi. by apply Hli. }
    exists i, j, lv, xi, xj. rewrite Hii, Hij, <- Hlv.
    split.
    { intros ->.
      destruct (HO k k x x p p _ _ 0%nat 1%nat (Some j) Hx Hx Hox Hox Hp Hp Ha Ha)
        as [_ ?]; [by rewrite Hii|by rewrite Hij|done]. }
    do 6 (split; [done|]). unfold Tile.levelNumber in Hlx. by rewrite Hlvi in Hlx.
  - destruct HTx as (i & xi & Hi & Hoi & Ha & Hl & Hlx).
    rewrite Ha, Hl. cbn. eexists _, _. split; [done|]. split; [done|]. split; [cbn; lia|].
    split; [done|]. intros _.
    destruct (wf_TilesWf _ Hwf _ _ Hi) as [Hii _].
    exists i, xi. by rewrite Hii.
Qed.

Lemma merge_once_witness :
  ∃ b' h', GameState.gravitate Direction.Left (exampleBoard, []) = Some (b', h') ∧
  ∀ k x, GameState.tiles b' !! k = Some x → occupied x →
  ∃ a l, hist h' x = Some (a, l) ∧ length a = length l ∧ (length a ≤ 2)%nat ∧
    (Tile.status x = TileStatus.Merged →
       ∃ i j lv xi xj, i ≠ j ∧ a = [Some i; Some j] ∧ l = [Some lv; Some lv] ∧
         GameState.tiles exampleBoard !! i = Some xi ∧ Tile.level xi = Some lv ∧
         GameState.tiles exampleBoard !! j = Some xj ∧ Tile.level xj = Some lv ∧
         Tile.level x = Some (S lv)) ∧
    (Tile.status x ≠ TileStatus.Merged →
       ∃ i xi, a = [Some i] ∧ l = [Tile.level xi] ∧
         GameState.tiles exampleBoard !! i = Some xi ∧
         Tile.level x = Tile.level xi).
Proof.
  apply (merge_once Direction.Left exampleBoard []).
  destruct (reachable_inv _ _ (exampleBoard_reachable [])) as [Hwf _]. exact Hwf.
Defined.

Lemma Direction_all dir : dir ∈ Direction.all.
Proof. unfold Direction.all. destruct dir; set_solver. Qed.

Lemma equals_levels b1 b2 :
  shaped b1 → sameDims b1 b2 → length (GameState.tiles b2) = length (GameState.tiles b1) →
  GameState.equals b1 b2 = Some true →
  levels b1 = levels b2 ∧ GameState.score b1 = GameState.score b2.
Proof.
  intros Hsh Hd Hlen He.
  destruct (equals_spec b1 b2 Hsh Hd Hlen) as (r & Hr & Hiff).
  rewrite He in Hr. injection Hr as <-. destruct Hiff as [Hiff _].
  destruct (Hiff eq_refl) as [Hsc Hts]. split; [|done].
  unfold levels. apply list_eq. intros k. rewrite !list_lookup_fmap.
  destruct (GameState.tiles b1 !! k) as [x|] eqn:Hx.
  - destruct (GameState.tiles b2 !! k) as [y|] eqn:Hy.
    + cbn. f_equal. by destruct (Hts _ _ _ Hx Hy).
    + apply lookup_lt_Some in Hx. apply lookup_ge_None in Hy. lia.
  - destruct (GameState.tiles b2 !! k) as [y|] eqn:Hy; [|done].
    apply lookup_lt_Some in Hy. apply lookup_ge_None in Hx. lia.
Qed.

(** What the outcome of [equals] depends on is common to similar boards. *)
Lemma equals_similar b1 b1' c :
  shaped b1 → sameDims b1 c → length (GameState.tiles c) = length (GameState.tiles b1) →
  similar 0 b1 b1' →
  GameState.equals b1' c = GameState.equals b1 c.
Proof.
  intros Hsh Hd Hlen (Hd' & Hsc & HF).
  assert (Hlen' : length (GameState.tiles b1') = length (GameState.tiles b1)).
  { symmetry. by eapply Forall2_length. }
  assert (Hsh' : shaped b1').
  { destruct Hd' as [Hr Hc]. unfold shaped, GameState.boardSize in *.
    rewrite Hlen', Hr, Hc. done. }
  assert (Hd2 : sameDims b1' c).
  { destruct Hd as [Hr Hc], Hd' as [Hr' Hc']. split; congruence. }
  destruct (equals_spec b1 c Hsh Hd Hlen) as (r & Hr & Hiff).
  destruct (equals_spec b1' c Hsh' Hd2 ltac:(congruence)) as (r' & Hr' & Hiff').
  rewrite Hr, Hr'. f_equal. apply eq_true_iff_eq. rewrite Hiff, Hiff'.
  assert (Hts : ∀ k x x', GameState.tiles b1 !! k = Some x →
                          GameState.tiles b1' !! k = Some x' → tileSim x x').
  { intros k x x' Hx Hx'. rewrite Forall2_lookup in HF. specialize (HF k).
    rewrite Hx, Hx' in HF. by inversion HF. }
  split; intros [Hs Hall]; (split; [lia|]); intros k x y Hx Hy.
  - destruct (lookup_lt_is_Some_2 (GameState.tiles b1') k) as [x0 Hx0].
    { apply lookup_lt_Some in Hx. lia. }
    destruct (Hts _ _ _ Hx Hx0) as (Hi & Hl & _).
    destruct (Hall _ _ _ Hx0 Hy). split; congruence.
  - destruct (lookup_lt_is_Some_2 (GameState.tiles b1) k) as [x0 Hx0].
    { apply lookup_lt_Some in Hx. lia. }
    destruct (Hts _ _ _ Hx0 Hx) as (Hi & Hl & _).
    destruct (Hall _ _ _ Hx0 Hy). split; congruence.
Qed.

(** A move that reports no change on one heap reports none on any other. *)
Lemma move_unchanged_any fuel dir c h rs c' w' fuel2 (h2 : list (list (option nat))) rs2 :
  shaped c → GameState.status c = GameStatus.InProgress →
  GameState.move fuel dir c (h, rs) = Some (false, c', w') →
  is_Some (GameState.clone c rs2) →
  ∃ c2 w2, GameState.move (S fuel2) dir c (h2, rs2) = Some (false, c2, w2) ∧
           levels c2 = levels c ∧ GameState.score c2 = GameState.score c.
Proof.
  intros Hsh Hst H [[c0 rs3] Hc2]. destruct fuel as [|fuel]; [done|].
  destruct w' as [h' rs'].
  apply move_inv in H as (rs1 & b1 & h1 & same & Hc & Hg & He & Hch & _); [|done].
  destruct same; [|done]. rewrite withStatus_eq in He by done.
  pose proof (clone_inv _ _ _ _ Hsh Hc2) as ->. rewrite withStatus_eq in Hc2 by done.
  destruct (gravitate_similar dir 0 c c h h2 b1 h1 Hsh (similar_refl c) Hg)
    as (b2 & h2' & Hg2 & Hsim).
  destruct (gravitate_summary _ _ _ _ _ Hsh Hg) as (Hd1 & Hl1 & _).
  pose proof (gravitate_shaped _ _ _ _ _ Hsh Hg) as Hsh1.
  destruct (gravitate_summary _ _ _ _ _ Hsh Hg2) as (Hd2 & Hl2 & _).
  pose proof (gravitate_shaped _ _ _ _ _ Hsh Hg2) as Hsh2.
  assert (Hdc : sameDims b1 c).
  { destruct Hd1 as [Hr Hcc]. split; congruence. }
  assert (Hdc2 : sameDims b2 c).
  { destruct Hd2 as [Hr Hcc]. split; congruence. }
  assert (He2 : GameState.equals b2 c = Some true).
  { rewrite (equals_similar b1 b2 c); [done|done|done|congruence|done]. }
  exists b2, (h2', rs3). split.
  - cbn [GameState.move fst snd]. rewrite Hc2. cbn [mbind option_bind].
    rewrite Hg2. cbn [mbind option_bind]. rewrite He2. done.
  - apply equals_levels; [done|done|congruence|done].
Qed.

Lemma isGameOver_loop_runs mv b dirs : ∀ w r w',
  shaped b →
  GameState.isGameOver_loop mv b dirs w = Some (r, w') →
  (r = true →
     Forall (λ dir, ∃ h1 rs0 rs1 c' w2,
               GameState.clone b rs0
               = Some (GameState.withStatus b GameStatus.InProgress, rs1) ∧
               mv dir (GameState.withStatus b GameStatus.InProgress) (h1, rs1)
               = Some (false, c', w2)) dirs) ∧
  (r = false →
     Exists (λ dir, ∃ h1 rs0 rs1 c' w2,
               GameState.clone b rs0
               = Some (GameState.withStatus b GameStatus.InProgress, rs1) ∧
               mv dir (GameState.withStatus b GameStatus.InProgress) (h1, rs1)
               = Some (true, c', w2)) dirs).
Proof.
  induction dirs as [|dir dirs IH]; intros w r w' Hsh H; cbn in H.
  { injection H as <- <-. split; [by constructor|done]. }
  destruct (GameState.clone b (snd w)) as [[c rs1]|] eqn:Hc; cbn in H; [|done].
  pose proof (clone_inv _ _ _ _ Hsh Hc) as ->.
  destruct (mv dir _ _) as [[[changed c'] w1]|] eqn:Hm; cbn in H; [|done].
  destruct changed.
  - injection H as <- <-. split; [done|]. intros _. apply Exists_cons_hd.
    by exists (fst w), (snd w), rs1, c', w1.
  - destruct (IH _ _ _ Hsh H) as [IH1 IH2]. split.
    + intros Hr. constructor; [|by apply IH1].
      by exists (fst w), (snd w), rs1, c', w1.
    + intros Hr. apply Exists_cons_tl. by apply IH2.
Qed.

(** C3. The answer of [isGameOver] is [true] exactly when the board is full
    and, in each of the four directions, a move applied to a clone of the
    board leaves the clone unchanged.  A board with a free cell is answered
    [false] at once, without a single move being tried, whatever tiles lie
    next to each other.  And [isGameOver] does answer: given fuel for the
    deepest nesting of moves, any draws made so far can be continued so that
    it returns. *)
Theorem game_over_iff fuel b h rs :
  shaped b →
  (∀ r w', GameState.isGameOver fuel b (h, rs) = Some (r, w') →
     (r = true ↔ full b ∧ ∀ dir, cloneUnmoved dir b)) ∧
  (¬ full b → GameState.isGameOver fuel b (h, rs) = Some (false, (h, rs))) ∧
  ((enoughFuel b ≤ fuel)%nat →
     ∃ e r w', GameState.isGameOver fuel b (h, rs ++ e) = Some (r, w')).
Proof.
  intros Hsh. destruct (isFull_spec b Hsh) as (dead & Hdead & Hfull).
  fold (full b) in Hfull. split; [|split].
  3:{ intros Hfuel. destruct (isGameOver_returns b fuel h rs Hsh Hfuel) as (e & [r w'] & H).
      by exists e, r, w'. }
  - intros r w' H. unfold GameState.isGameOver, GameState.isGameOver_with in H.
    rewrite Hdead in H. cbn [mbind option_bind] in H. destruct dead.
    + destruct (isGameOver_loop_runs _ _ _ _ _ _ Hsh H) as [Ht Hf].
      assert (Hshc : shaped (GameState.withStatus b GameStatus.InProgress)) by done.
      split.
      * intros ->. split; [by apply Hfull|]. intros dir.
        specialize (Ht eq_refl). rewrite Forall_forall in Ht.
        destruct (Ht dir (Direction_all dir)) as (h1 & rs0 & rs1 & c' & w2 & _ & Hm).
        intros fuel2 h2 rs2 c rs3 Hc Hc2.
        pose proof (clone_inv _ _ _ _ Hsh Hc) as ->.
        by eapply move_unchanged_any.
      * intros [_ Hall]. destruct r; [done|]. exfalso.
        specialize (Hf eq_refl). apply Exists_exists in Hf
          as (dir & _ & h1 & rs0 & rs1 & c' & w2 & Hc & Hm).
        destruct fuel as [|fuel]; [done|].
        assert (Hc2 : is_Some (GameState.clone
                        (GameState.withStatus b GameStatus.InProgress) rs1)).
        { destruct w2 as [h2 rs2].
          apply move_inv in Hm as (rs3 & _ & _ & _ & Hc3 & _); [|done]. eauto. }
        destruct (Hall dir fuel h1 rs0 _ rs1 Hc Hc2) as (c2 & w3 & Hm2 & _).
        rewrite Hm in Hm2. done.
    + injection H as <- <-. split; [done|]. intros [Hf _].
      by apply Hfull in Hf.
  - intros Hnf. unfold GameState.isGameOver, GameState.isGameOver_with.
    rewrite Hdead. destruct dead; [|done]. exfalso. by apply Hnf, Hfull.
Qed.

Lemma game_over_iff_witness :
  shaped exampleDead ∧
  (∃ w', GameState.isGameOver 1 exampleDead (exampleDeadHeap, exampleDeadDraws)
         = Some (true, w')) ∧
  full exampleDead ∧ ∀ dir, cloneUnmoved dir exampleDead.
Proof.
  assert (Hsh : shaped exampleDead) by reflexivity.
  assert (Hrun : GameState.isGameOver 1 exampleDead (exampleDeadHeap, exampleDeadDraws)
                 = exampleDeadOver) by (vm_compute; reflexivity).
  split; [exact Hsh|].
  destruct exampleDeadOver as [[[|] w']|] eqn:Hex; try discriminate Hex.
  split; [by exists w'|].
  destruct (game_over_iff 1 exampleDead exampleDeadHeap exampleDeadDraws Hsh) as [Hiff _].
  by apply (Hiff true w' Hrun).
Defined.

Lemma exampleUpMove_eq :
  GameState.move 1 Direction.Up exampleBoard ([], [0; 0; 1; 0]%nat)
  = Some (false, exampleUp, (exampleUpHeap, [])).
Proof. reflexivity. Qed.

Lemma exampleBoard_wf : wf exampleBoard.
Proof. by destruct (reachable_inv _ _ (exampleBoard_reachable [])) as [? _]. Qed.

(** C4, as the code has it.  When [move] reports no change, the dimensions,
    the target, the score and the status of the board are as before, and so
    are the index and the level of every tile.  An empty tile is untouched.
    An occupied tile has been through [prepareForMove]: its status is
    [Still] and its history is new, one entry holding its own index and
    level.  The arrays that existed before the call are untouched. *)
Theorem unchanged_move fuel dir b h rs b' h' rs' :
  wf b →
  GameState.move fuel dir b (h, rs) = Some (false, b', (h', rs')) →
  GameState.rows b' = GameState.rows b ∧
  GameState.columns b' = GameState.columns b ∧
  GameState.targetTileLevel b' = GameState.targetTileLevel b ∧
  GameState.score b' = GameState.score b ∧
  GameState.status b' = GameState.status b ∧
  length (GameState.tiles b') = length (GameState.tiles b) ∧
  heapExt h h' ∧
  ∀ k x, GameState.tiles b !! k = Some x →
    ∃ x', GameState.tiles b' !! k = Some x' ∧
      Tile.index x' = Tile.index x ∧ Tile.level x' = Tile.level x ∧
      (Tile.status x = TileStatus.Empty → x' = x) ∧
      (Tile.status x ≠ TileStatus.Empty →
         Tile.status x' = TileStatus.Still ∧
         hist h' x' = Some ([Some (Tile.index x)], [Tile.level x])).
Proof.
  intros Hwf Hmv. pose proof (wf_shaped _ Hwf) as Hsh.
  destruct (move_unchanged_prepared _ _ _ _ _ _ _ _ Hwf Hmv) as [_ HP].
  pose proof (Prepared_heap _ _ _ _ HP) as Hext.
  destruct HP as (Hb & Hlen & _ & _ & Ht). cbn [fst snd] in *.
  rewrite Hb. cbn [GameState.rows GameState.columns GameState.targetTileLevel
                   GameState.score GameState.status GameState.tiles GameState.withTiles].
  do 5 (split; [done|]). split; [done|]. split; [done|].
  intros k x Hx. specialize (Ht _ _ Hx).
  destruct (decide _) as [[Hk Ho]|Hn].
  - destruct Ht as (Hx' & Hp & Hq). eexists. split; [exact Hx'|]. cbn.
    split; [done|]. split; [done|]. split; [intros He; by destruct Ho|].
    intros _. split; [done|]. unfold hist. cbn. rewrite Hp. cbn. by rewrite Hq.
  - exists x. split; [done|]. split; [done|]. split; [done|]. split; [done|].
    intros Ho. exfalso. apply Hn. split; [|done].
    apply lookup_lt_Some in Hx. unfold shaped in Hsh. lia.
Qed.

Lemma unchanged_move_witness :
  GameState.rows exampleUp = GameState.rows exampleBoard ∧
  GameState.columns exampleUp = GameState.columns exampleBoard ∧
  GameState.targetTileLevel exampleUp = GameState.targetTileLevel exampleBoard ∧
  GameState.score exampleUp = GameState.score exampleBoard ∧
  GameState.status exampleUp = GameState.status exampleBoard ∧
  length (GameState.tiles exampleUp) = length (GameState.tiles exampleBoard) ∧
  heapExt [] exampleUpHeap ∧
  ∀ k x, GameState.tiles exampleBoard !! k = Some x →
    ∃ x', GameState.tiles exampleUp !! k = Some x' ∧
      Tile.index x' = Tile.index x ∧ Tile.level x' = Tile.level x ∧
      (Tile.status x = TileStatus.Empty → x' = x) ∧
      (Tile.status x ≠ TileStatus.Empty →
         Tile.status x' = TileStatus.Still ∧
         hist exampleUpHeap x' = Some ([Some (Tile.index x)], [Tile.level x])).
Proof.
  apply (unchanged_move 1%nat Direction.Up exampleBoard [] [0; 0; 1; 0]%nat
           exampleUp exampleUpHeap []).
  - apply exampleBoard_wf.
  - reflexivity.
Defined.

(** C4 as stated fails: a [move] that reports no change has still turned the
    two [Spawned] tiles of the example board into [Still] tiles with a
    history. *)
Lemma unchanged_move_touches_tiles :
  ¬ (∀ fuel dir b w b' w',
       wf b → GameState.move fuel dir b w = Some (false, b', w') → b' = b).
Proof.
  intros H.
  specialize (H 1%nat Direction.Up exampleBoard ([], [0; 0; 1; 0]%nat) exampleUp
                (exampleUpHeap, []) exampleBoard_wf exampleUpMove_eq).
  discriminate H.
Qed.

Lemma mergedSum_spawn ts j y l :
  ts !! j = Some y → ¬ occupied y →
  mergedSum (<[j := spawned y l]> ts) = mergedSum ts.
Proof.
  intros Hy Hny. rewrite (mergedSum_insert _ _ y) by done.
  rewrite !mergedValue_not_Merged; [lia|done|].
  intros HM. apply Hny. unfold occupied. congruence.
Qed.

(** C5. The score of a reachable board is never negative.  A [move] adds to
    the score the sum of [2 ^ l] over the merges it performs, [l] being the
    level of the merged tile right after the merge; this is also the sum of
    [2 ^ level] over the tiles that end the move with status [Merged].  No
    method lowers the score: [gravitate] and [move] can only raise it,
    [spawnTile] and [updateStatus] leave it alone, and the constructor
    starts it at 0.  Given fuel for the deepest nesting of moves inside
    [isGameOver], any draws made so far can be continued so that [move]
    returns. *)
Theorem score_accounting :
  (∀ b h, reachable b h → 0 <= GameState.score b) ∧
  (∀ fuel dir b h rs changed b' h' rs',
     shaped b →
     GameState.move fuel dir b (h, rs) = Some (changed, b', (h', rs')) →
     ∃ ls, mergeLevels dir b h ls ∧
           GameState.score b' = GameState.score b + powerSum ls ∧
           GameState.score b' = GameState.score b + mergedSum (GameState.tiles b') ∧
           GameState.score b <= GameState.score b') ∧
  (∀ dir b h b' h',
     shaped b → GameState.gravitate dir (b, h) = Some (b', h') →
     GameState.score b <= GameState.score b') ∧
  (∀ b rs b' rs',
     GameState.spawnTile b rs = Some (b', rs') →
     GameState.score b' = GameState.score b) ∧
  (∀ fuel b w b' w',
     GameState.updateStatus fuel b w = Some (b', w') →
     GameState.score b' = GameState.score b) ∧
  (∀ r c t rs b rs', GameState.new r c t rs = Some (b, rs') → GameState.score b = 0) ∧
  (∀ fuel dir b (h : list (list (option nat))) rs,
     shaped b → (enoughFuel b ≤ fuel)%nat →
     ∃ e, is_Some (GameState.move fuel dir b (h, rs ++ e))).
Proof.
  split; [|split; [|split; [|split; [|split; [|split]]]]].
  7:{ intros fuel dir b h rs Hsh Hfuel. by apply move_returns. }
  - intros b h Hr. by destruct (reachable_inv _ _ Hr) as (_ & ? & _).
  - intros fuel dir b h rs changed b' h' rs' Hsh Hmv.
    destruct (move_result _ _ _ _ _ _ _ _ _ Hsh Hmv) as (b1 & h1 & Hg & _ & _ & Hcase).
    destruct (gravitate_mergeLevels _ _ _ _ Hsh Hg) as (ls & Hls & Hsc). cbn [fst] in Hsc.
    destruct (gravitate_summary _ _ _ _ _ Hsh Hg) as (_ & _ & _ & _ & Hs1 & _).
    pose proof (powerSum_nonneg ls).
    exists ls. split; [done|].
    destruct Hcase as [(_ & -> & _)|(_ & b2 & rs1 & rs2 & st & Hs & ->)].
    + split; [done|]. split; [done|]. lia.
    + destruct (spawnTile_shape _ _ _ _ Hs) as (_ & _ & _ & _ & Hs2).
      cbn [GameState.score GameState.tiles GameState.withStatus].
      assert (mergedSum (GameState.tiles b2) = mergedSum (GameState.tiles b1)) as ->.
      { apply (spawnTile_inv _ _ _ _ (gravitate_shaped _ _ _ _ _ Hsh Hg)) in Hs
          as [(_ & -> & _)|(j & y & pre & d & e & Hy & Hny & _ & _ & ->)]; [done|].
        by apply mergedSum_spawn. }
      split; [lia|]. split; lia.
  - intros dir b h b' h' Hsh Hg.
    destruct (gravitate_summary _ _ _ _ _ Hsh Hg) as (_ & _ & _ & _ & Hs1 & _).
    pose proof (mergedSum_nonneg (GameState.tiles b')). lia.
  - intros b rs b' rs' Hs. by destruct (spawnTile_shape _ _ _ _ Hs) as (_ & _ & _ & _ & ?).
  - intros fuel b w b' w' Hu.
    by destruct (updateStatus_with_tiles _ _ _ _ _ Hu) as [st ->].
  - intros r c t rs b rs' Hnew. by apply new_inv in Hnew as (_ & _ & _ & ? & _).
Qed.

Lemma score_accounting_witness :
  ∃ ls, mergeLevels Direction.Left exampleBoard [] ls ∧
        GameState.score exampleAfter = GameState.score exampleBoard + powerSum ls ∧
        GameState.score exampleAfter
        = GameState.score exampleBoard + mergedSum (GameState.tiles exampleAfter) ∧
        GameState.score exampleBoard <= GameState.score exampleAfter.
Proof.
  apply (proj1 (proj2 score_accounting) 1%nat Direction.Left exampleBoard []
           exampleDraws true exampleAfter exampleHeap []).
  - reflexivity.
  - reflexivity.
Defined.

Lemma move_status fuel dir b h rs changed b' h' rs' :
  shaped b →
  GameState.move fuel dir b (h, rs) = Some (changed, b', (h', rs')) →
  (changed = false ∧ GameState.status b' = GameState.status b) ∨
  (changed = true ∧ ∃ b2 w2,
     GameState.status b2 = GameState.status b ∧ shaped b2 ∧
     GameState.targetTileLevel b2 = GameState.targetTileLevel b ∧
     GameState.updateStatus (pred fuel) b2 w2 = Some (b', (h', rs'))).
Proof.
  intros Hsh H. destruct fuel as [|fuel]; [done|].
  apply move_inv in H as (rs1 & b1 & h1 & same & Hc & Hg & He & -> & Hsame & Hdiff); [|done].
  destruct (gravitate_summary _ _ _ _ _ Hsh Hg) as (_ & _ & Ht1 & Hs1 & _).
  destruct same.
  - left. destruct (Hsame eq_refl) as (-> & -> & ->). done.
  - right. destruct (Hdiff eq_refl) as (b2 & rs2 & Hs & Hu). split; [done|].
    destruct (spawnTile_shape _ _ _ _ Hs) as (_ & _ & Ht2 & Hs2 & _).
    exists b2, (h1, rs2). split; [congruence|]. split.
    { eapply spawnTile_shaped; [|done]. by eapply gravitate_shaped. }
    split; [congruence|done].
Qed.

(** C6. What [updateStatus] does to the status, [isGameOver] having answered
    [over]: [Lost] when [over]; otherwise [InProgress] becomes [Won] exactly
    when some tile has a level of at least [targetTileLevel], [Won] becomes
    [Continued], and every other status stays.  Nothing else changes.  So
    [Continued] comes from [Won] only, nothing leads back to [InProgress],
    and a board with status [Won] is [Continued] or [Lost] after its next
    successful [move], while a [move] that changes nothing keeps the
    status.  Given fuel for the deepest nesting of moves inside
    [isGameOver], any draws made so far can be continued so that
    [updateStatus] returns. *)
Theorem status_transitions :
  (∀ fuel b w b' w',
     shaped b → 0 < GameState.targetTileLevel b →
     GameState.updateStatus fuel b w = Some (b', w') →
     ∃ over,
       GameState.isGameOver fuel b w = Some (over, w') ∧
       b' = GameState.withStatus b (GameState.status b') ∧
       (over = true → GameState.status b' = GameStatus.Lost) ∧
       (over = false → GameState.status b = GameStatus.InProgress →
          (GameState.status b' = GameStatus.Won ∧
           ∃ k x l, GameState.tiles b !! k = Some x ∧ Tile.level x = Some l ∧
                    GameState.targetTileLevel b <= Z.of_nat l) ∨
          (GameState.status b' = GameStatus.InProgress ∧
           ∀ k x l, GameState.tiles b !! k = Some x → Tile.level x = Some l →
                    Z.of_nat l < GameState.targetTileLevel b)) ∧
       (over = false → GameState.status b = GameStatus.Won →
          GameState.status b' = GameStatus.Continued) ∧
       (over = false → GameState.status b = GameStatus.Continued →
          GameState.status b' = GameStatus.Continued) ∧
       (over = false → GameState.status b = GameStatus.Lost →
          GameState.status b' = GameStatus.Lost) ∧
       (GameState.status b' = GameStatus.Continued →
          GameState.status b = GameStatus.Won ∨
          GameState.status b = GameStatus.Continued) ∧
       (GameState.status b' = GameStatus.InProgress →
          GameState.status b = GameStatus.InProgress)) ∧
  (∀ fuel dir b w changed b' w',
     shaped b → 0 < GameState.targetTileLevel b →
     GameState.move fuel dir b w = Some (changed, b', w') →
     (changed = false → GameState.status b' = GameState.status b) ∧
     (changed = true → GameState.status b = GameStatus.Won →
        GameState.status b' = GameStatus.Continued ∨
        GameState.status b' = GameStatus.Lost) ∧
     (GameState.status b' = GameStatus.Continued →
        GameState.status b = GameStatus.Won ∨
        GameState.status b = GameStatus.Continued) ∧
     (GameState.status b' = GameStatus.InProgress →
        GameState.status b = GameStatus.InProgress)) ∧
  (∀ fuel b (h : list (list (option nat))) rs,
     shaped b → (enoughFuel b ≤ fuel)%nat →
     ∃ e, is_Some (GameState.updateStatus fuel b (h, rs ++ e))).
Proof.
  assert (Hupd : ∀ fuel b w b' w',
     shaped b → 0 < GameState.targetTileLevel b →
     GameState.updateStatus fuel b w = Some (b', w') →
     ∃ over goal,
       GameState.isGameOver fuel b w = Some (over, w') ∧
       b' = GameState.withStatus b (nextStatus over goal (GameState.status b)) ∧
       (GameState.status b = GameStatus.InProgress → over = false →
        if goal
        then ∃ k x l, GameState.tiles b !! k = Some x ∧ Tile.level x = Some l ∧
                      GameState.targetTileLevel b <= Z.of_nat l
        else ∀ k x l, GameState.tiles b !! k = Some x → Tile.level x = Some l →
                      Z.of_nat l < GameState.targetTileLevel b)).
  { intros fuel b w b' w' Hsh Htg Hu.
    apply updateStatus_with_inv in Hu
      as (over & Hover & [[-> ->]|[(-> & Hs & ->)|(-> & Hs & goal & Hgoal & ->)]]).
    - exists true, false. split; [done|]. split; [done|]. done.
    - exists false, false. split; [done|]. split; [done|]. done.
    - exists false, goal. split; [done|]. split; [done|]. intros _ _.
      destruct (hasAchievedGoal_spec b Hsh) as (r & Hr & Hiff).
      rewrite Hr in Hgoal. injection Hgoal as ->. destruct goal.
      + destruct (proj1 Hiff eq_refl) as (k & x & Hx & Hle).
        unfold Tile.levelNumber in Hle. destruct (Tile.level x) as [l|] eqn:Hl.
        * by exists k, x, l.
        * cbn in Hle. lia.
      + intros k x l Hx Hl.
        destruct (Z.ltb_spec (Z.of_nat l) (GameState.targetTileLevel b)); [done|].
        assert (false = true); [|done]. apply Hiff. exists k, x. split; [done|].
        unfold Tile.levelNumber. by rewrite Hl. }
  split; [|split].
  3:{ intros fuel b h rs Hsh Hfuel. by apply updateStatus_returns. }
  - intros fuel b w b' w' Hsh Htg Hu.
    destruct (Hupd _ _ _ _ _ Hsh Htg Hu) as (over & goal & Hover & -> & Hg).
    exists over. split; [done|]. cbn [GameState.status GameState.withStatus].
    split; [done|].
    destruct over, goal, (GameState.status b) eqn:Hs; cbn; repeat split; try done;
      try (intros; by (left + right)); intros _ _.
    + left. split; [done|]. by apply Hg.
    + right. split; [done|]. by apply Hg.
  - intros fuel dir b [h rs] changed b' [h' rs'] Hsh Htg Hmv.
    destruct (move_status _ _ _ _ _ _ _ _ _ Hsh Hmv)
      as [[-> Hst]|(-> & b2 & w2 & Hs2 & Hsh2 & Ht2 & Hu)].
    + rewrite Hst. split; [done|]. split; [done|]. split; [by right|done].
    + destruct (Hupd _ _ _ _ _ Hsh2 ltac:(lia) Hu) as (over & goal & _ & -> & _).
      cbn [GameState.status GameState.withStatus]. rewrite Hs2.
      destruct over, goal, (GameState.status b) eqn:Hs; cbn; repeat split; try done;
        intros; by (left + right).
Qed.

Lemma status_transitions_witness :
  (true = false → GameState.status exampleAfter = GameState.status exampleBoard) ∧
  (true = true → GameState.status exampleBoard = GameStatus.Won →
     GameState.status exampleAfter = GameStatus.Continued ∨
     GameState.status exampleAfter = GameStatus.Lost) ∧
  (GameState.status exampleAfter = GameStatus.Continued →
     GameState.status exampleBoard = GameStatus.Won ∨
     GameState.status exampleBoard = GameStatus.Continued) ∧
  (GameState.status exampleAfter = GameStatus.InProgress →
     GameState.status exampleBoard = GameStatus.InProgress).
Proof.
  apply (proj1 (proj2 status_transitions) 1%nat Direction.Left exampleBoard
           ([], exampleDraws)
           true exampleAfter (exampleHeap, [])).
  - reflexivity.
  - reflexivity.
  - reflexivity.
Defined.

(** C7, as the code has it.  On every reachable board the two history
    fields of a tile are [null] together, and that exactly when the status
    is [Empty] or [Spawned]; in every other status they are two arrays of
    the same length. *)
Theorem history_lists b h k x :
  reachable b h → GameState.tiles b !! k = Some x →
  (Tile.prevIndex x = None ↔
     Tile.status x = TileStatus.Empty ∨ Tile.status x = TileStatus.Spawned) ∧
  (Tile.prevLevel x = None ↔
     Tile.status x = TileStatus.Empty ∨ Tile.status x = TileStatus.Spawned) ∧
  (¬ (Tile.status x = TileStatus.Empty ∨ Tile.status x = TileStatus.Spawned) →
     ∃ a l, hist h x = Some (a, l) ∧ length a = length l).
Proof.
  intros Hr Hx. destruct (reachable_inv _ _ Hr) as (_ & _ & Hhs).
  specialize (Hhs _ _ Hx). unfold historyShape in Hhs.
  destruct (decide _) as [Hs|Hs].
  - destruct Hhs as [Hp Hq]. done.
  - destruct Hhs as (a & l & Hh & Hl).
    assert (is_Some (Tile.prevIndex x) ∧ is_Some (Tile.prevLevel x)) as [[p Hp] [q Hq]].
    { unfold hist in Hh. destruct (Tile.prevIndex x); cbn in Hh; [|done].
      destruct (Tile.prevLevel x); cbn in Hh; [|done]. by split. }
    rewrite Hp, Hq. split; [done|]. split; [done|]. intros _. by exists a, l.
Qed.

Lemma history_lists_witness :
  (Tile.prevIndex (spawned (Tile.new 5) 1) = None ↔
     Tile.status (spawned (Tile.new 5) 1) = TileStatus.Empty ∨
     Tile.status (spawned (Tile.new 5) 1) = TileStatus.Spawned) ∧
  (Tile.prevLevel (spawned (Tile.new 5) 1) = None ↔
     Tile.status (spawned (Tile.new 5) 1) = TileStatus.Empty ∨
     Tile.status (spawned (Tile.new 5) 1) = TileStatus.Spawned) ∧
  (¬ (Tile.status (spawned (Tile.new 5) 1) = TileStatus.Empty ∨
      Tile.status (spawned (Tile.new 5) 1) = TileStatus.Spawned) →
     ∃ a l, hist exampleHeap (spawned (Tile.new 5) 1) = Some (a, l) ∧
            length a = length l).
Proof.
  apply (history_lists exampleAfter exampleHeap 5%nat).
  - apply exampleAfter_reachable.
  - reflexivity.
Defined.

(** C7 as stated fails: the constructor's board has a [Spawned] tile whose
    history fields are both [null]. *)
Lemma spawned_tile_without_history :
  ¬ (∀ b (h : list (list (option nat))) k x,
       reachable b h → GameState.tiles b !! k = Some x →
       (Tile.prevIndex x = None ∧ Tile.prevLevel x = None ↔
        Tile.status x = TileStatus.Empty)).
Proof.
  intros H.
  destruct (H exampleBoard [] 0%nat (spawned (Tile.new 0) 1)
              (exampleBoard_reachable []) eq_refl) as [H1 _].
  specialize (H1 (conj eq_refl eq_refl)). discriminate.
Qed.

Lemma runOp_frame o b h rs b' h' rs' :
  ¬ isMerge o → shaped b →
  runOp o (b, (h, rs)) = Some (b', (h', rs')) →
  shaped b' ∧ heapExt h h'.
Proof.
  intros Hm Hsh H. destruct o as [fuel dir|dir| |fuel|i j]; cbn [runOp] in H.
  - destruct (GameState.move fuel dir b (h, rs)) as [[[c b1] [h1 rs1]]|] eqn:Hmv;
      cbn in H; [|done].
    injection H as <- <- <-. split.
    + destruct (move_result _ _ _ _ _ _ _ _ _ Hsh Hmv)
        as (b1' & h1' & Hg & _ & _ & [(_ & -> & _)|(_ & b2 & rs1' & rs2 & st & Hs & ->)]).
      * by eapply gravitate_shaped.
      * apply shaped_withStatus. eapply spawnTile_shaped; [|done].
        by eapply gravitate_shaped.
    + exact (move_heapExt _ _ _ _ _ _ _ Hsh Hmv).
  - destruct (GameState.gravitate dir (b, h)) as [[b1 h1]|] eqn:Hg; cbn in H; [|done].
    injection H as <- <- <-. split; [by eapply gravitate_shaped|].
    by destruct (gravitate_summary _ _ _ _ _ Hsh Hg) as (_ & _ & _ & _ & _ & _ & ? & ? & _).
  - destruct (GameState.spawnTile b rs) as [[b1 rs1]|] eqn:Hs; cbn in H; [|done].
    injection H as <- <- <-. split; [by eapply spawnTile_shaped|apply heapExt_refl].
  - split.
    + destruct (updateStatus_with_tiles _ _ _ _ _ H) as [st ->]. by apply shaped_withStatus.
    + exact (updateStatus_with_heapExt _ (move_heapExt fuel) _ _ _ _ Hsh H).
  - by destruct Hm.
Qed.

Lemma runOps_frame ops : ∀ b h rs b' h' rs',
  Forall (λ o, ¬ isMerge o) ops → shaped b →
  runOps ops (b, (h, rs)) = Some (b', (h', rs')) →
  heapExt h h'.
Proof.
  induction ops as [|o ops IH]; intros b h rs b' h' rs' Hops Hsh H; cbn [runOps] in H.
  { injection H as <- <- <-. apply heapExt_refl. }
  apply Forall_cons in Hops as [Ho Hops].
  destruct (runOp o (b, (h, rs))) as [[b1 [h1 rs1]]|] eqn:H1; cbn in H; [|done].
  destruct (runOp_frame _ _ _ _ _ _ _ Ho Hsh H1) as [Hsh1 Hext1].
  eapply heapExt_trans; [exact Hext1|]. by eapply IH.
Qed.

Lemma tileView_heapExt (h h' : list (list (option nat))) x :
  heapExt h h' →
  (∀ p, Tile.prevIndex x = Some p ∨ Tile.prevLevel x = Some p → (p < length h)%nat) →
  tileView h' x = tileView h x.
Proof.
  intros [_ Hf] Hv. unfold tileView. f_equal; [f_equal|].
  - destruct (Tile.prevIndex x) as [p|]; [|done]. cbn. apply Hf, Hv. by left.
  - destruct (Tile.prevLevel x) as [q|]; [|done]. cbn. apply Hf, Hv. by right.
Qed.

Lemma snapshotView_heapExt (h h' : list (list (option nat))) b :
  heapExt h h' → refsValid h b → snapshotView h' b = snapshotView h b.
Proof.
  intros Hext Hv. unfold snapshotView. f_equal.
  apply list_eq. intros k. rewrite !list_lookup_fmap.
  destruct (GameState.tiles b !! k) as [x|] eqn:Hx; [|done]. cbn. f_equal.
  apply tileView_heapExt; [done|]. intros p Hp. by eapply Hv.
Qed.

Lemma reachable_refsValid b h : reachable b h → refsValid h b.
Proof.
  intros Hr k x p Hx Hp. destruct (reachable_inv _ _ Hr) as (_ & _ & Hhs).
  specialize (Hhs _ _ Hx). unfold historyShape in Hhs.
  destruct (decide _).
  - destruct Hhs as [Hn1 Hn2]. destruct Hp; congruence.
  - destruct Hhs as (a & l & Hh & _). unfold hist in Hh.
    destruct (Tile.prevIndex x) as [p1|]; cbn in Hh; [|done].
    destruct (Tile.prevLevel x) as [q1|]; cbn in Hh; [|done].
    destruct (h !! p1) eqn:H1; cbn in Hh; [|done].
    destruct (h !! q1) eqn:H2; cbn in Hh; [|done].
    destruct Hp as [[= <-]|[= <-]]; by eapply lookup_lt_Some.
Qed.

(** C8, as the code has it.  [addState] appends to the queue a clone of the
    board: a board with the same score and tiles that look the same.  The
    clone shares the history arrays of the live board, yet whatever is then
    done to the live board through [move], [gravitate], [spawnTile] and
    [updateStatus] leaves all that can be observed of the queued snapshot as
    it was when [addState] was called: these methods only write to arrays
    that [gravitate] has allocated afresh. *)
Theorem snapshot_isolated a b h rs a' rs1 ops b' h' rs' :
  shaped b → refsValid h b →
  GameAnimationController.addState a b rs = Some (a', rs1) →
  Forall (λ o, ¬ isMerge o) ops →
  runOps ops (b, (h, rs1)) = Some (b', (h', rs')) →
  ∃ c, GameAnimationController.stateHistory a'
       = GameAnimationController.stateHistory a ++ [c] ∧
       snapshotView h c = snapshotView h b ∧
       snapshotView h' c = snapshotView h b.
Proof.
  intros Hsh Hv Hadd Hops Hrun. unfold GameAnimationController.addState in Hadd.
  destruct (GameState.clone b rs) as [[c rs2]|] eqn:Hc; cbn in Hadd; [|done].
  injection Hadd as <- <-. cbn. exists c. split; [done|].
  pose proof (clone_inv _ _ _ _ Hsh Hc) as ->.
  assert (H0 : snapshotView h (GameState.withStatus b GameStatus.InProgress)
               = snapshotView h b) by done.
  split; [done|]. rewrite <- H0.
  apply snapshotView_heapExt; [by eapply runOps_frame|done].
Qed.

Lemma snapshot_isolated_witness :
  ∃ c, GameAnimationController.stateHistory
         (GameAnimationController.mk 0%Q [exampleBoard])
       = GameAnimationController.stateHistory GameAnimationController.new ++ [c] ∧
       snapshotView [] c = snapshotView [] exampleBoard ∧
       snapshotView exampleHeap c = snapshotView [] exampleBoard.
Proof.
  apply (snapshot_isolated GameAnimationController.new exampleBoard []
           ([0; 0; 1; 0]%nat ++ exampleDraws)
           (GameAnimationController.mk 0%Q [exampleBoard]) exampleDraws
           [Move 1 Direction.Left] exampleAfter exampleHeap []).
  - reflexivity.
  - apply reachable_refsValid, exampleBoard_reachable.
  - reflexivity.
  - repeat constructor. simpl. tauto.
  - reflexivity.
Defined.

(** C8 as stated fails: the snapshot is not a deep copy.  A merge applied
    to two tiles of the live board pushes onto arrays that the queued
    snapshot shares, and the history observed in the snapshot grows. *)
Lemma snapshot_shares_history :
  ¬ (∀ a b (h : list (list (option nat))) rs a' rs1 ops b' h' rs',
       shaped b → refsValid h b →
       GameAnimationController.addState a b rs = Some (a', rs1) →
       runOps ops (b, (h, rs1)) = Some (b', (h', rs')) →
       ∃ c, GameAnimationController.stateHistory a'
            = GameAnimationController.stateHistory a ++ [c] ∧
            snapshotView h c = snapshotView h b ∧
            snapshotView h' c = snapshotView h b).
Proof.
  intros H.
  destruct exampleDirectMerge as [[bM [hM rsM]]|] eqn:HM; [|discriminate HM].
  destruct (H GameAnimationController.new exampleUp exampleUpHeap [0; 0; 1; 0]%nat
              (GameAnimationController.mk 0%Q [exampleUp]) [] [Merge 0 1] bM hM rsM)
    as (c & Hc & _ & Hview).
  - reflexivity.
  - intros k x p Hx Hp.
    assert (Hall : Forall (λ x, ∀ p, Tile.prevIndex x = Some p ∨ Tile.prevLevel x = Some p
                                     → (p < 4)%nat) (GameState.tiles exampleUp)).
    { cbv [exampleUp GameState.tiles].
      repeat first [apply Forall_nil_2 | apply Forall_cons_2];
        intros q [Hq|Hq]; simpl in Hq; try discriminate Hq;
        injection Hq as <-; lia. }
    rewrite Forall_lookup in Hall. by eapply Hall.
  - reflexivity.
  - exact HM.
  - simpl in Hc. injection Hc as <-.
    injection HM as <- <- <-. discriminate Hview.
Qed.

(** * The animation player *)

Section Animation.
Import GameAnimationController.

Lemma animationStep_eq e a :
  (animationStep e a ==
   inject_Z (Z.of_nat (length (stateHistory a)) * e) * (1 # 200))%Q.
Proof. unfold animationStep. rewrite inject_Z_mult. field. Qed.

Lemma animationStep_nonneg e a : 0 <= e → (0 <= animationStep e a)%Q.
Proof.
  intros He. rewrite animationStep_eq. apply Qmult_le_0_compat; [|done].
  change 0%Q with (inject_Z 0). rewrite <- Zle_Qle. lia.
Qed.

Lemma animationStep_lower e a :
  0 < e → (2 ≤ length (stateHistory a))%nat → (1 # 100 <= animationStep e a)%Q.
Proof.
  intros He Hl. rewrite animationStep_eq.
  assert (H : (inject_Z 2 <= inject_Z (Z.of_nat (length (stateHistory a)) * e))%Q).
  { rewrite <- Zle_Qle. nia. }
  change (inject_Z 2) with 2%Q in H.
  set (x := inject_Z _) in *. clearbody x. lra.
Qed.

(** The value [advance] stores: the sum, capped at 1. *)
Lemma clamp_range (p : Q) :
  (0 <= p)%Q → (0 <= (if Qlt_le_dec 1 p then 1 else p) <= 1)%Q.
Proof. intros Hp. destruct (Qlt_le_dec 1 p); lra. Qed.

Lemma clamp_lower (p : Q) : ((if Qlt_le_dec 1 p then 1 else p) <= 1)%Q.
Proof. destruct (Qlt_le_dec 1 p); lra. Qed.

(** [advance] when the progress has not reached 1. *)
Lemma advance_running e a :
  ¬ (animationProgress a == 1)%Q →
  advance e a =
  {| animationProgress :=
       if Qlt_le_dec 1 (animationProgress a + animationStep e a)
       then 1%Q else (animationProgress a + animationStep e a)%Q;
     stateHistory := stateHistory a |}.
Proof.
  intros Hp. unfold advance.
  assert (Qeq_bool (animationProgress a) 1 = false) as ->.
  { destruct (Qeq_bool _ _) eqn:E; [|done]. by apply Qeq_bool_iff in E. }
  cbn. by rewrite orb_true_r.
Qed.

(** [advance] when the progress is 1 and another snapshot waits. *)
Lemma advance_retire e a :
  (animationProgress a == 1)%Q → length (stateHistory a) ≠ 1%nat →
  advance e a =
  let a1 := {| animationProgress := 0; stateHistory := tail (stateHistory a) |} in
  {| animationProgress :=
       if Qlt_le_dec 1 (0 + animationStep e a1) then 1%Q
       else (0 + animationStep e a1)%Q;
     stateHistory := tail (stateHistory a) |}.
Proof.
  intros Hp Hl. unfold advance. apply Qeq_bool_iff in Hp. rewrite Hp.
  apply Nat.eqb_neq in Hl. rewrite Hl. done.
Qed.

(** [advance] in the steady state. *)
Lemma advance_steady e a :
  (animationProgress a == 1)%Q → length (stateHistory a) = 1%nat → advance e a = a.
Proof.
  intros Hp Hl. unfold advance. apply Qeq_bool_iff in Hp. rewrite Hp, Hl. done.
Qed.

Lemma advances_cons e ticks a : advances (e :: ticks) a = advances ticks (advance e a).
Proof. done. Qed.

Lemma advances_snoc e ticks a : advances (ticks ++ [e]) a = advance e (advances ticks a).
Proof. unfold advances. by rewrite foldl_app. Qed.

(** With a second snapshot queued, ticks of positive length bring the
    progress to 1 without touching the queue. *)
Lemma advances_reach (m : nat) : ∀ ticks a,
  Forall (λ e, 0 < e) ticks → (m ≤ length ticks)%nat →
  (2 ≤ length (stateHistory a))%nat →
  (animationProgress a <= 1)%Q →
  (1 - inject_Z (Z.of_nat m) * (1 # 100) <= animationProgress a)%Q →
  ∃ n, (n ≤ m)%nat ∧
       (animationProgress (advances (take n ticks) a) == 1)%Q ∧
       stateHistory (advances (take n ticks) a) = stateHistory a.
Proof.
  induction m as [|m IH]; intros ticks a Hpos Hlen Hq Hle Hge.
  { exists 0%nat. split; [done|]. split; [|done]. rewrite take_0.
    change (inject_Z (Z.of_nat 0)) with 0%Q in Hge. cbn [advances foldl]. lra. }
  destruct (Qeq_dec (animationProgress a) 1) as [Heq|Hne].
  { exists 0%nat. split; [lia|]. by rewrite take_0. }
  destruct ticks as [|e ticks]; [cbn in Hlen; lia|].
  apply Forall_cons in Hpos as [He Hpos].
  pose proof (animationStep_lower e a He Hq) as Hstep.
  destruct (IH ticks (advance e a)) as (n & Hn & Hp & Hs); try done.
  - cbn in Hlen. lia.
  - by rewrite advance_running.
  - rewrite advance_running by done. cbn. apply clamp_lower.
  - rewrite advance_running by done. cbn.
    rewrite Nat2Z.inj_succ, <- Z.add_1_r, inject_Z_plus in Hge.
    change (inject_Z 1) with 1%Q in Hge.
    assert (Hx : (0 <= inject_Z (Z.of_nat m))%Q).
    { change 0%Q with (inject_Z 0). rewrite <- Zle_Qle. lia. }
    set (x := inject_Z (Z.of_nat m)) in *. clearbody x.
    destruct (Qlt_le_dec 1 _); lra.
  - exists (S n). split; [lia|]. cbn [take]. rewrite advances_cons.
    split; [done|]. rewrite Hs. by rewrite advance_running.
Qed.

End Animation.

(** C9. The animation player.  Once a state has been added the queue is never
    empty.  With ticks of non-negative length the progress stays between 0
    and 1.  An [advance] either retires the head, which needs the progress to
    be 1 and a second snapshot to be queued, or leaves the queue alone and
    does not lower the progress.  With a second snapshot queued and ticks of
    positive length, within 100 ticks the progress is 1 and the next tick
    retires the head. *)
Theorem animation_player :
  (∀ a b rs a' rs',
     GameAnimationController.addState a b rs = Some (a', rs') →
     GameAnimationController.stateHistory a' ≠ [] ∧
     GameAnimationController.animationProgress a' =
     GameAnimationController.animationProgress a) ∧
  (∀ e a,
     GameAnimationController.stateHistory a ≠ [] →
     GameAnimationController.stateHistory (GameAnimationController.advance e a) ≠ []) ∧
  (∀ e a, 0 <= e →
     (0 <= GameAnimationController.animationProgress a <= 1)%Q →
     (0 <= GameAnimationController.animationProgress
             (GameAnimationController.advance e a) <= 1)%Q) ∧
  (∀ e a, 0 <= e →
     GameAnimationController.stateHistory a ≠ [] →
     (GameAnimationController.animationProgress a <= 1)%Q →
     (GameAnimationController.stateHistory (GameAnimationController.advance e a)
      = tail (GameAnimationController.stateHistory a) ∧
      (GameAnimationController.animationProgress a == 1)%Q ∧
      (1 < length (GameAnimationController.stateHistory a))%nat) ∨
     (GameAnimationController.stateHistory (GameAnimationController.advance e a)
      = GameAnimationController.stateHistory a ∧
      (GameAnimationController.animationProgress a <=
       GameAnimationController.animationProgress
         (GameAnimationController.advance e a))%Q)) ∧
  (∀ ticks a,
     Forall (λ e, 0 < e) ticks → (100 < length ticks)%nat →
     (2 ≤ length (GameAnimationController.stateHistory a))%nat →
     (0 <= GameAnimationController.animationProgress a <= 1)%Q →
     ∃ n, (n ≤ 100)%nat ∧
       (GameAnimationController.animationProgress
          (GameAnimationController.advances (take n ticks) a) == 1)%Q ∧
       GameAnimationController.stateHistory
         (GameAnimationController.advances (take n ticks) a)
       = GameAnimationController.stateHistory a ∧
       GameAnimationController.stateHistory
         (GameAnimationController.advances (take (S n) ticks) a)
       = tail (GameAnimationController.stateHistory a)).
Proof.
  split; [|split; [|split; [|split]]].
  - intros a b rs a' rs' H. unfold GameAnimationController.addState in H.
    destruct (GameState.clone b rs) as [[c rs1]|]; cbn in H; [|done].
    injection H as <- <-. cbn. split; [|done].
    intros Hnil. by apply app_eq_nil in Hnil as [_ ?].
  - intros e a Hne.
    destruct (Qeq_dec (GameAnimationController.animationProgress a) 1) as [Heq|Hn].
    + destruct (decide (length (GameAnimationController.stateHistory a) = 1%nat)) as [Hl|Hl].
      * by rewrite advance_steady.
      * rewrite advance_retire by done. cbn.
        destruct (GameAnimationController.stateHistory a) as [|x [|y l]]; done.
    + by rewrite advance_running.
  - intros e a He [Hp0 Hp1].
    destruct (Qeq_dec (GameAnimationController.animationProgress a) 1) as [Heq|Hn].
    + destruct (decide (length (GameAnimationController.stateHistory a) = 1%nat)) as [Hl|Hl].
      * rewrite advance_steady by done. done.
      * rewrite advance_retire by done. cbn. apply clamp_range.
        pose proof (animationStep_nonneg e
          {| GameAnimationController.animationProgress := 0;
             GameAnimationController.stateHistory :=
               tail (GameAnimationController.stateHistory a) |} He). lra.
    + rewrite advance_running by done. cbn. apply clamp_range.
      pose proof (animationStep_nonneg e a He). lra.
  - intros e a He Hne Hp1.
    destruct (Qeq_dec (GameAnimationController.animationProgress a) 1) as [Heq|Hn].
    + destruct (decide (length (GameAnimationController.stateHistory a) = 1%nat)) as [Hl|Hl].
      * right. rewrite advance_steady by done. split; [done|]. lra.
      * left. rewrite advance_retire by done. cbn. split; [done|]. split; [done|].
        destruct (GameAnimationController.stateHistory a) as [|x [|y l]]; cbn in *; try done.
        lia.
    + right. rewrite advance_running by done. cbn. split; [done|].
      pose proof (animationStep_nonneg e a He).
      destruct (Qlt_le_dec 1 _); lra.
  - intros ticks a Hpos Hlen Hq [Hp0 Hp1].
    destruct (advances_reach 100 ticks a Hpos ltac:(lia) Hq Hp1) as (n & Hn & Hp & Hs).
    { change (inject_Z (Z.of_nat 100)) with 100%Q. lra. }
    exists n. split; [done|]. split; [done|]. split; [done|].
    destruct (lookup_lt_is_Some_2 ticks n ltac:(lia)) as [e He].
    rewrite (take_S_r _ _ _ He), advances_snoc.
    rewrite advance_retire; [cbn; by rewrite Hs|done|]. rewrite Hs. lia.
Qed.

Lemma animation_player_witness :
  ∃ n, (n ≤ 100)%nat ∧
    (GameAnimationController.animationProgress
       (GameAnimationController.advances (take n (replicate 101 16%Z))
          {| GameAnimationController.animationProgress := 0;
             GameAnimationController.stateHistory :=
               [GameState.mk 1 1 11 [] 0 GameStatus.InProgress;
                GameState.mk 1 1 11 [] 4 GameStatus.InProgress] |}) == 1)%Q ∧
    GameAnimationController.stateHistory
      (GameAnimationController.advances (take n (replicate 101 16%Z))
         {| GameAnimationController.animationProgress := 0;
            GameAnimationController.stateHistory :=
              [GameState.mk 1 1 11 [] 0 GameStatus.InProgress;
               GameState.mk 1 1 11 [] 4 GameStatus.InProgress] |})
    = [GameState.mk 1 1 11 [] 0 GameStatus.InProgress;
       GameState.mk 1 1 11 [] 4 GameStatus.InProgress] ∧
    GameAnimationController.stateHistory
      (GameAnimationController.advances (take (S n) (replicate 101 16%Z))
         {| GameAnimationController.animationProgress := 0;
            GameAnimationController.stateHistory :=
              [GameState.mk 1 1 11 [] 0 GameStatus.InProgress;
               GameState.mk 1 1 11 [] 4 GameStatus.InProgress] |})
    = [GameState.mk 1 1 11 [] 4 GameStatus.InProgress].
Proof.
  apply (proj2 (proj2 (proj2 (proj2 animation_player))) (replicate 101 16%Z)).
  - apply Forall_replicate. lia.
  - rewrite length_replicate. lia.
  - simpl. lia.
  - simpl. split; [apply Qle_refl|discriminate].
Defined.

(** C10. Calling [mergeWith] or [moveTo] on an empty source tile changes
    nothing: neither of the two tiles, nor any history array. *)
Theorem empty_source_is_noop (t u : Tile.t) (h : list (list (option nat))) :
  Tile.status t = TileStatus.Empty →
  Tile.mergeWith t u h = Some (t, u, h) ∧ Tile.moveTo t u = (t, u).
Proof.
  intros He. apply isEmpty_true in He.
  unfold Tile.mergeWith, Tile.moveTo. rewrite He. done.
Qed.

Lemma empty_source_is_noop_witness :
  Tile.mergeWith (Tile.new 3) (prepared (spawned (Tile.new 4) 1) 0)
                 [[Some 4%nat]; [Some 1%nat]]
  = Some (Tile.new 3, prepared (spawned (Tile.new 4) 1) 0, [[Some 4%nat]; [Some 1%nat]])
  ∧ Tile.moveTo (Tile.new 3) (prepared (spawned (Tile.new 4) 1) 0)
    = (Tile.new 3, prepared (spawned (Tile.new 4) 1) 0).
Proof.
  apply (empty_source_is_noop (Tile.new 3) (prepared (spawned (Tile.new 4) 1) 0)).
  reflexivity.
Defined.

(** * Stuck boards *)

Lemma move_sameDims fuel dir b h rs changed b' h' rs' :
  shaped b → GameState.move fuel dir b (h, rs) = Some (changed, b', (h', rs')) →
  sameDims b b'.
Proof.
  intros Hsh H.
  destruct (move_result _ _ _ _ _ _ _ _ _ Hsh H)
    as (b1 & h1 & Hg & _ & _ & [(_ & -> & _)|(_ & b2 & rs1 & rs2 & st & Hs & ->)]);
    destruct (gravitate_summary _ _ _ _ _ Hsh Hg) as (Hd1 & _); [done|].
  destruct (spawnTile_shape _ _ _ _ Hs) as (Hd2 & _).
  destruct Hd1 as [Hr1 Hc1], Hd2 as [Hr2 Hc2]. split; cbn; congruence.
Qed.

Lemma areNeighboring_direction b i j :
  0 < GameState.columns b → 0 <= i → 0 <= j →
  GameState.areNeighboring b i j = true →
  ∃ dir, j = i + GameState.indexChange b dir.
Proof.
  intros Hc Hi Hj. unfold GameState.areNeighboring.
  set (c := GameState.columns b) in *.
  rewrite !Z.rem_mod_nonneg by lia.
  pose proof (Z.div_mod i c ltac:(lia)) as Hdi. pose proof (Z.div_mod j c ltac:(lia)) as Hdj.
  rewrite orb_true_iff, !andb_true_iff, !Z.eqb_eq.
  intros [[Hr Hm]|[Hr Hm]].
  - destruct (decide (j / c - i / c = 1)).
    + exists Direction.Down. cbn. fold c. nia.
    + exists Direction.Up. cbn. fold c. nia.
  - destruct (decide (j mod c - i mod c = 1)).
    + exists Direction.Right. cbn. nia.
    + exists Direction.Left. cbn. nia.
Qed.

(** On a full board a move changes something exactly when the board is not
    stuck. *)
Lemma move_stuck fuel dir b h rs changed b' w' :
  shaped b → 0 < GameState.columns b → stuck b →
  GameState.move fuel dir b (h, rs) = Some (changed, b', w') → changed = false.
Proof.
  intros Hsh Hc [Hf Hall] Hmv. destruct changed; [|done]. exfalso.
  destruct (proj1 (move_full_any _ _ _ _ _ _ _ _ Hsh Hf Hmv) eq_refl)
    as (i & x & y & Hi & Hg & Hx & Hy & Hlv).
  apply tileAt_Some in Hx as [_ Hx]. apply tileAt_Some in Hy as [Hi' Hy].
  apply (Hall (Z.to_nat i) (Z.to_nat (i + GameState.indexChange b dir)) x y);
    [|done|done|done].
  rewrite !Z2Nat.id by lia. unfold guard in Hg. by apply andb_true_iff in Hg as [_ ?].
Qed.

Lemma isGameOver_stuck fuel b h rs r w' :
  shaped b → 0 < GameState.columns b →
  GameState.isGameOver fuel b (h, rs) = Some (r, w') →
  r = true ↔ stuck b.
Proof.
  intros Hsh Hc H. destruct (isFull_spec b Hsh) as (dead & Hdead & Hfull).
  fold (full b) in Hfull.
  unfold GameState.isGameOver, GameState.isGameOver_with in H.
  rewrite Hdead in H. cbn [mbind option_bind] in H. destruct dead.
  2:{ injection H as <- <-. split; [done|]. intros [Hf _]. by apply Hfull in Hf. }
  pose proof (proj1 Hfull eq_refl) as Hf.
  destruct (isGameOver_loop_runs _ _ _ _ _ _ Hsh H) as [Ht Hfl].
  split.
  - intros ->. split; [done|]. intros i j x y Hn Hx Hy Hlv.
    destruct (areNeighboring_direction b _ _ Hc (Nat2Z.is_nonneg i) (Nat2Z.is_nonneg j) Hn)
      as [dir Hj].
    specialize (Ht eq_refl). rewrite Forall_forall in Ht.
    destruct (Ht dir (Direction_all dir)) as (h1 & rs0 & rs1 & c' & w2 & _ & Hm).
    assert (false = true); [|done].
    apply (move_full _ _ _ _ _ _ _ _ Hsh Hf Hm).
    exists (Z.of_nat i), x, y. rewrite <- Hj, !tileAt_nat.
    split; [lia|]. split; [|done]. unfold guard. rewrite <- Hj, Hn, andb_true_r.
    unfold GameState.isInsideBoard. apply lookup_lt_Some in Hy. unfold shaped in Hsh.
    apply andb_true_iff. rewrite Z.leb_le, Z.ltb_lt. lia.
  - intros Hst. destruct r; [done|]. exfalso.
    specialize (Hfl eq_refl). apply Exists_exists in Hfl
      as (dir & _ & h1 & rs0 & rs1 & c' & w2 & _ & Hm).
    by pose proof (move_stuck _ _ (GameState.withStatus b GameStatus.InProgress)
                     _ _ _ _ _ Hsh Hc Hst Hm).
Qed.

(** Whether a board is stuck depends on its dimensions and levels only. *)
Lemma stuck_levels b b' :
  wf b → wf b' → sameDims b b' → levels b = levels b' → stuck b → stuck b'.
Proof.
  intros (_ & _ & Hsh & HW) (_ & _ & Hsh' & HW') [Hr Hc] Hl [Hf Hall].
  assert (Hlev : ∀ k y, GameState.tiles b' !! k = Some y →
            ∃ x, GameState.tiles b !! k = Some x ∧ Tile.level x = Tile.level y).
  { intros k y Hy. assert (Hk : levels b' !! k = Some (Tile.level y)).
    { unfold levels. by rewrite list_lookup_fmap, Hy. }
    rewrite <- Hl in Hk. unfold levels in Hk. rewrite list_lookup_fmap in Hk.
    destruct (GameState.tiles b !! k) as [x|]; [|done]. cbn in Hk. injection Hk as Hk.
    by exists x. }
  split.
  - intros k y Hy. destruct (Hlev _ _ Hy) as (x & Hx & Hxy).
    specialize (Hf _ _ Hx). destruct (HW _ _ Hx) as [_ Hex]. destruct (HW' _ _ Hy) as [_ Hey].
    unfold occupied in *. rewrite Hey, <- Hxy, <- Hex. done.
  - intros i j x y Hn Hx Hy.
    destruct (Hlev _ _ Hx) as (x0 & Hx0 & <-). destruct (Hlev _ _ Hy) as (y0 & Hy0 & <-).
    apply (Hall i j); [|done|done].
    unfold GameState.areNeighboring in *. by rewrite ?Hr, ?Hc in Hn.
Qed.

(** On the boards of a game, a [Lost] board is stuck; and on a board of more
    than two cells a stuck board is [Lost]. *)
Lemma reachable_Lost b h :
  reachable b h →
  (GameState.status b = GameStatus.Lost → stuck b) ∧
  (2 < GameState.boardSize b → stuck b → GameState.status b = GameStatus.Lost).
Proof.
  induction 1 as [r c t rs b rs' h Hr Hc Hnew
                 |fuel dir b h rs changed b' h' rs' Hre [IH1 IH2] Hmv].
  - pose proof (new_count _ _ _ _ _ _ Hnew) as Hcount.
    apply new_inv in Hnew as (_ & _ & _ & _ & Hst & Hsh & _).
    split; [by rewrite Hst|]. intros Hsize [Hf _]. exfalso.
    apply tileCount_full in Hf. unfold shaped in Hsh. lia.
  - destruct (reachable_inv _ _ Hre) as (Hwf & _ & _).
    pose proof Hwf as (Hrows & Hcols & Hsh & _).
    pose proof (move_wf _ _ _ _ _ _ _ _ _ Hwf Hmv) as Hwf'.
    destruct fuel as [|fuel]; [done|].
    pose proof Hmv as Hmv0.
    apply move_inv in Hmv as (rs1 & b1 & h1 & same & _ & Hg & He & -> & Hsame & Hdiff);
      [|done].
    destruct (gravitate_summary _ _ _ _ _ Hsh Hg) as (Hd1 & Hl1 & _ & Hst1 & _).
    pose proof (gravitate_shaped _ _ _ _ _ Hsh Hg) as Hsh1.
    destruct same; cbn [negb] in *.
    + destruct (Hsame eq_refl) as (-> & -> & ->).
      destruct (equals_levels b1 (GameState.withStatus b GameStatus.InProgress) Hsh1)
        as [Hlv _]; [by destruct Hd1; split|done|done|].
      change (levels (GameState.withStatus b GameStatus.InProgress)) with (levels b) in Hlv.
      assert (Hsize : GameState.boardSize b1 = GameState.boardSize b).
      { destruct Hd1 as [Hr1 Hc1]. unfold GameState.boardSize. by rewrite Hr1, Hc1. }
      assert (Hd1' : sameDims b1 b) by (destruct Hd1; split; congruence).
      rewrite Hst1, Hsize. split.
      * intros HL. apply (stuck_levels b b1); auto.
      * intros Hs Hstk. apply IH2; [done|]. apply (stuck_levels b1 b); auto.
    + destruct (Hdiff eq_refl) as (b2 & rs2 & Hsp & Hup).
      assert (Hns : ¬ stuck b).
      { intros Hstk. by pose proof (move_stuck _ _ _ _ _ _ _ _ Hsh Hcols Hstk Hmv0). }
      pose proof (spawnTile_shaped _ _ _ _ Hsh1 Hsp) as Hsh2.
      destruct (spawnTile_shape _ _ _ _ Hsp) as (Hd2 & _ & _ & Hst2 & _).
      assert (Hc2 : 0 < GameState.columns b2).
      { destruct Hd1 as [_ H1], Hd2 as [_ H2]. lia. }
      apply updateStatus_with_inv in Hup as (over & Hov & Hcase).
      pose proof (isGameOver_stuck fuel b2 h1 rs2 over _ Hsh2 Hc2 Hov) as Hiff.
      assert (HnL : GameState.status b2 ≠ GameStatus.Lost).
      { rewrite Hst2, Hst1. intros HL. by apply Hns, IH1. }
      destruct Hcase as [(-> & ->)|[(-> & Hnp & ->)|(-> & Hp & goal & _ & ->)]].
      * split; [intros _|done].
        destruct (proj1 Hiff eq_refl) as [Hf Hall]. by split.
      * assert (Hno : ¬ stuck b2) by (intros Hs; by apply Hiff in Hs).
        split; [|intros _ [Hf Hall]; exfalso; apply Hno; by split].
        cbn. destruct (GameState.status b2); done.
      * assert (Hno : ¬ stuck b2) by (intros Hs; by apply Hiff in Hs).
        split; [|intros _ [Hf Hall]; exfalso; apply Hno; by split].
        cbn. rewrite Hp. by destruct goal.
Qed.

(** * The goal *)

Lemma goalReached_levelNumber b :
  0 < GameState.targetTileLevel b →
  goalReached b ↔
  ∃ k x, GameState.tiles b !! k = Some x ∧
         GameState.targetTileLevel b <= Z.of_nat (Tile.levelNumber x).
Proof.
  intros Ht. unfold goalReached, Tile.levelNumber. split.
  - intros (k & x & l & Hx & Hl & Hle). exists k, x. by rewrite Hl.
  - intros (k & x & Hx & Hle). destruct (Tile.level x) as [l|] eqn:Hl; cbn in Hle; [|lia].
    by exists k, x, l.
Qed.

Lemma goalReached_levels b b' :
  GameState.targetTileLevel b' = GameState.targetTileLevel b →
  levels b = levels b' → goalReached b → goalReached b'.
Proof.
  intros Ht Hl (k & x & l & Hx & Hlx & Hle).
  assert (Hk : levels b !! k = Some (Some l)).
  { unfold levels. by rewrite list_lookup_fmap, Hx, <- Hlx. }
  rewrite Hl in Hk. unfold levels in Hk. rewrite list_lookup_fmap in Hk.
  destruct (GameState.tiles b' !! k) as [y|] eqn:Hy; [|done]. cbn in Hk.
  injection Hk as Hk. exists k, y, l. by rewrite Ht.
Qed.

Lemma move_target fuel dir b h rs changed b' h' rs' :
  shaped b → GameState.move fuel dir b (h, rs) = Some (changed, b', (h', rs')) →
  GameState.targetTileLevel b' = GameState.targetTileLevel b.
Proof.
  intros Hsh H.
  destruct (move_result _ _ _ _ _ _ _ _ _ Hsh H)
    as (b1 & h1 & Hg & _ & _ & [(_ & -> & _)|(_ & b2 & rs1 & rs2 & st & Hs & ->)]);
    destruct (gravitate_summary _ _ _ _ _ Hsh Hg) as (_ & _ & Ht1 & _); [done|].
  destruct (spawnTile_shape _ _ _ _ Hs) as (_ & _ & Ht2 & _). cbn. congruence.
Qed.

(** A move never lowers a level: whatever level a tile had, some tile has at
    least that level afterwards. *)
Lemma move_level_kept fuel dir b h rs changed b' h' rs' i x0 l :
  wf b → EmptyClean (GameState.tiles b) →
  GameState.move fuel dir b (h, rs) = Some (changed, b', (h', rs')) →
  GameState.tiles b !! i = Some x0 → Tile.level x0 = Some l →
  ∃ j x l', GameState.tiles b' !! j = Some x ∧ Tile.level x = Some l' ∧ (l ≤ l')%nat.
Proof.
  intros Hwf Hec Hmv Hx0 Hl. pose proof (wf_TilesWf _ Hwf) as HW.
  destruct (move_histories _ _ _ _ _ _ _ _ _ Hwf Hec Hmv) as (_ & HT & HCov & _).
  assert (Ho0 : occupied x0).
  { destruct (HW _ _ Hx0) as [_ He]. unfold occupied. rewrite He, Hl. done. }
  destruct (HCov _ _ Hx0 Ho0) as (j & x & p & a & k & Hx & Ho & Hns & Hp & Ha & Hk).
  destruct (HT _ _ Hx Ho Hns) as (p' & q & Hp' & Hq & HTr).
  assert (p' = p) by congruence. subst p'.
  assert (Hsrc : ∀ ia xa, GameState.tiles b !! ia = Some xa → Tile.index xa = i → xa = x0).
  { intros ia xa Hxa Hia. destruct (HW _ _ Hxa) as [Hia' _]. congruence. }
  unfold Truthful in HTr. destruct (decide _) as [HM|HM].
  - destruct HTr as (ia & ic & xa & xc & Hxa & Hxc & _ & _ & Hha & _ & Hlac & Hlx).
    rewrite Hha in Ha. injection Ha as <-.
    exists j, x, (S (Tile.levelNumber xa)). split; [done|]. split; [done|].
    apply pair_lookup in Hk as [[_ [= Hi]]|[_ [= Hi]]].
    + rewrite (Hsrc _ _ Hxa (eq_sym Hi)). unfold Tile.levelNumber. rewrite Hl. cbn. lia.
    + unfold Tile.levelNumber. rewrite Hlac, (Hsrc _ _ Hxc (eq_sym Hi)), Hl. cbn. lia.
  - destruct HTr as (ia & xa & Hxa & _ & Hha & _ & Hlx).
    rewrite Hha in Ha. injection Ha as <-.
    apply singleton_lookup in Hk as [_ [= Hi]].
    exists j, x, l. split; [done|]. split; [|done].
    by rewrite Hlx, (Hsrc _ _ Hxa (eq_sym Hi)).
Qed.

Lemma move_goal_kept fuel dir b h rs changed b' h' rs' :
  wf b → EmptyClean (GameState.tiles b) →
  GameState.move fuel dir b (h, rs) = Some (changed, b', (h', rs')) →
  goalReached b → goalReached b'.
Proof.
  intros Hwf Hec Hmv (i & x0 & l & Hx0 & Hl & Hle).
  destruct (move_level_kept _ _ _ _ _ _ _ _ _ _ _ _ Hwf Hec Hmv Hx0 Hl)
    as (j & x & l' & Hx & Hl' & Hll).
  exists j, x, l'. split; [done|]. split; [done|].
  rewrite (move_target _ _ _ _ _ _ _ _ _ (wf_shaped _ Hwf) Hmv). lia.
Qed.

(** On the boards of a game with a target above 2, the status tells whether
    the goal has been reached. *)
Lemma reachable_goal b h :
  reachable b h → 2 < GameState.targetTileLevel b →
  (GameState.status b = GameStatus.InProgress → ¬ goalReached b) ∧
  (GameState.status b = GameStatus.Won ∨ GameState.status b = GameStatus.Continued →
   goalReached b).
Proof.
  induction 1 as [r c t rs b rs' h Hr Hc Hnew
                 |fuel dir b h rs changed b' h' rs' Hre IH Hmv]; intros Ht.
  - apply new_inv in Hnew as (_ & _ & Htb & _ & Hst & _ & Htiles). split.
    + intros _ (k & x & l & Hx & Hl & Hle).
      destruct (Htiles _ _ Hx) as [->|(l0 & Hl0 & ->)]; [done|].
      cbn in Hl. injection Hl as <-. lia.
    + rewrite Hst. by intros [?|?].
  - destruct (reachable_inv _ _ Hre) as (Hwf & _ & Hhs).
    pose proof (historyShape_EmptyClean _ _ Hhs) as Hec.
    pose proof Hwf as (Hrows & Hcols & Hsh & _).
    pose proof (move_target _ _ _ _ _ _ _ _ _ Hsh Hmv) as Htg.
    rewrite Htg in Ht. destruct (IH Ht) as [IH1 IH2].
    pose proof (move_goal_kept _ _ _ _ _ _ _ _ _ Hwf Hec Hmv) as Hkept.
    destruct fuel as [|fuel]; [done|].
    apply move_inv in Hmv as (rs1 & b1 & h1 & same & _ & Hg & He & -> & Hsame & Hdiff);
      [|done].
    destruct (gravitate_summary _ _ _ _ _ Hsh Hg) as (Hd1 & Hl1 & Ht1 & Hst1 & _).
    pose proof (gravitate_shaped _ _ _ _ _ Hsh Hg) as Hsh1.
    destruct same; cbn [negb] in *.
    + destruct (Hsame eq_refl) as (-> & -> & ->).
      destruct (equals_levels b1 (GameState.withStatus b GameStatus.InProgress) Hsh1)
        as [Hlv _]; [by destruct Hd1; split|done|done|].
      change (levels (GameState.withStatus b GameStatus.InProgress)) with (levels b) in Hlv.
      rewrite Hst1. split.
      * intros Hs Hgoal. apply (IH1 Hs). by apply (goalReached_levels b1 b).
      * intros Hs. by apply Hkept, IH2.
    + destruct (Hdiff eq_refl) as (b2 & rs2 & Hsp & Hup).
      pose proof (spawnTile_shaped _ _ _ _ Hsh1 Hsp) as Hsh2.
      destruct (spawnTile_shape _ _ _ _ Hsp) as (_ & _ & Ht2 & Hst2 & _).
      assert (Hst : GameState.status b2 = GameState.status b) by congruence.
      assert (Htb2 : 0 < GameState.targetTileLevel b2) by (rewrite Ht2, Ht1; lia).
      apply updateStatus_with_inv in Hup as (over & Hov & Hcase).
      destruct Hcase as [(-> & ->)|[(-> & Hnp & ->)|(-> & Hp & goal & Hgoal & ->)]].
      * split; [done|]. by intros [?|?].
      * cbn [GameState.status GameState.withStatus nextStatus] in *. split.
        -- destruct (GameState.status b2); done.
        -- intros Hs. apply Hkept, IH2. rewrite <- Hst.
           destruct (GameState.status b2); try done; destruct Hs; try done; auto.
      * destruct (hasAchievedGoal_spec b2 Hsh2) as (r & Hr & Hiff).
        rewrite Hgoal in Hr. injection Hr as <-.
        rewrite <- (goalReached_levelNumber b2 Htb2) in Hiff.
        cbn [GameState.status GameState.withStatus nextStatus] in *. rewrite Hp.
        destruct goal.
        -- split; [done|]. intros _.
           destruct (proj1 Hiff eq_refl) as (k & x & l & Hx & Hl & Hle). by exists k, x, l.
        -- split; [|by intros [?|?]]. intros _ (k & x & l & Hx & Hl & Hle).
           assert (false = true); [|done]. apply Hiff. by exists k, x, l.
Qed.

(** * The game loop *)

Lemma snapshotOf_heapExt r c (h h' : list (list (option nat))) s :
  heapExt h h' → snapshotOf r c h s → snapshotOf r c h' s.
Proof.
  intros Hext (b & h0 & Hr & Hext0 & -> & Hrows & Hcols).
  exists b, h0. split; [done|]. split; [by eapply heapExt_trans|done].
Qed.

Lemma snapshotOf_clone r c b (h : list (list (option nat))) rs s rs' :
  reachable b h → GameState.rows b = r → GameState.columns b = c →
  GameState.clone b rs = Some (s, rs') → snapshotOf r c h s.
Proof.
  intros Hr Hrows Hcols Hc. destruct (reachable_inv _ _ Hr) as (Hwf & _).
  pose proof (clone_inv _ _ _ _ (wf_shaped _ Hwf) Hc) as ->.
  exists b, h. split; [done|]. split; [apply heapExt_refl|done].
Qed.

Lemma addState_inv a b rs a' rs' :
  GameAnimationController.addState a b rs = Some (a', rs') →
  ∃ s, GameState.clone b rs = Some (s, rs') ∧
       a' = {| GameAnimationController.animationProgress :=
                 GameAnimationController.animationProgress a;
               GameAnimationController.stateHistory :=
                 GameAnimationController.stateHistory a ++ [s] |}.
Proof.
  unfold GameAnimationController.addState. intros H.
  destruct (GameState.clone b rs) as [[s rs1]|]; cbn in H; [|done].
  injection H as <- <-. by exists s.
Qed.

Lemma new_ctlInv r c t now rs ctl rs' h :
  0 < r → 0 < c → GameController.new r c t now rs = Some (ctl, rs') → ctlInv ctl h.
Proof.
  intros Hr Hc H. unfold GameController.new in H.
  destruct (GameState.new r c t rs) as [[b rs1]|] eqn:Hnew; cbn in H; [|done].
  destruct (GameAnimationController.addState _ b rs1) as [[a rs2]|] eqn:Ha; cbn in H; [|done].
  injection H as <- <-.
  pose proof (reachable_new _ _ _ _ _ _ h Hr Hc Hnew) as Hre.
  pose proof (new_inv _ _ _ _ _ _ Hnew) as (Hrows & Hcols & _).
  apply addState_inv in Ha as (s & Hcl & ->).
  unfold ctlInv. cbn. do 6 (split; [done|]). split; [done|].
  constructor; [|done]. by eapply snapshotOf_clone.
Qed.

Lemma restart_ctlInv ctl h rs ctl' rs' :
  ctlInv ctl h → GameController.restart ctl rs = Some (ctl', rs') → ctlInv ctl' h.
Proof.
  intros (Hr & Hc & Hg & Hre & Hrows & Hcols & Hne & Hall) H.
  unfold GameController.restart in H.
  destruct (GameState.new _ _ _ rs) as [[b rs1]|] eqn:Hnew; cbn in H; [|done].
  destruct (GameAnimationController.addState _ b rs1) as [[a rs2]|] eqn:Ha; cbn in H; [|done].
  injection H as <- <-.
  pose proof (reachable_new _ _ _ _ _ _ h Hr Hc Hnew) as Hre'.
  pose proof (new_inv _ _ _ _ _ _ Hnew) as (Hrows' & Hcols' & _).
  apply addState_inv in Ha as (s & Hcl & ->).
  unfold ctlInv. cbn. do 6 (split; [done|]). split; [by destruct (GameAnimationController.stateHistory _)|].
  apply Forall_app. split; [done|]. constructor; [|done]. by eapply snapshotOf_clone.
Qed.

Lemma move_score_le fuel dir b h rs changed b' h' rs' :
  shaped b → GameState.move fuel dir b (h, rs) = Some (changed, b', (h', rs')) →
  GameState.score b <= GameState.score b'.
Proof.
  intros Hsh H.
  destruct (move_result _ _ _ _ _ _ _ _ _ Hsh H)
    as (b1 & h1 & Hg & _ & _ & Hcase).
  destruct (gravitate_summary _ _ _ _ _ Hsh Hg) as (_ & _ & _ & _ & Hs1 & _).
  pose proof (mergedSum_nonneg (GameState.tiles b1)).
  destruct Hcase as [(_ & -> & _)|(_ & b2 & rs1 & rs2 & st & Hs & ->)]; [lia|].
  destruct (spawnTile_shape _ _ _ _ Hs) as (_ & _ & _ & _ & Hs2). cbn. lia.
Qed.

Lemma doMoves_ctlInv n fuel now : ∀ ctl h rs ctl' h' rs',
  ctlInv ctl h →
  GameController.doMoves n fuel now ctl (h, rs) = Some (ctl', (h', rs')) →
  ctlInv ctl' h' ∧
  GameController.score ctl' = GameController.score ctl ∧
  GameController.bestScore ctl' = GameController.bestScore ctl ∧
  GameInputController.moves (GameController.input ctl') = [] ∧
  GameState.score (GameController.state ctl) <= GameState.score (GameController.state ctl').
Proof.
  induction n as [|n IH]; intros ctl h rs ctl' h' rs' Hinv H;
    cbn [GameController.doMoves] in H;
    destruct (GameInputController.moves (GameController.input ctl)) as [|d rest] eqn:Hm;
    try (injection H as <- <- <-; split; [done|]; split; [done|]; split; [done|];
         split; [done|lia]); [done|].
  destruct Hinv as (Hr & Hc & Hg & Hre & Hrows & Hcols & Hne & Hall).
  destruct (GameState.move fuel d _ _) as [[[changed b1] [h1 rs1]]|] eqn:Hmv;
    cbn [mbind option_bind] in H; [|done].
  destruct (reachable_inv _ _ Hre) as (Hwf & _).
  pose proof (reachable_move _ _ _ _ _ _ _ _ _ Hre Hmv) as Hre1.
  pose proof (move_heapExt _ _ _ _ _ _ _ (wf_shaped _ Hwf) Hmv) as Hext. cbn in Hext.
  destruct (move_sameDims _ _ _ _ _ _ _ _ _ (wf_shaped _ Hwf) Hmv) as [Hr1 Hc1].
  pose proof (move_score_le _ _ _ _ _ _ _ _ _ (wf_shaped _ Hwf) Hmv) as Hsc.
  match type of H with
  | context [if changed then ?x else ?y] =>
      destruct (if changed then x else y) as [[a1 rs2]|] eqn:Ha; cbn [mbind option_bind] in H;
        [|done]
  end.
  assert (Ha1 : GameAnimationController.stateHistory a1 ≠ [] ∧
                Forall (snapshotOf (GameController.rows ctl) (GameController.columns ctl) h1)
                  (GameAnimationController.stateHistory a1)).
  { assert (Hall1 : Forall (snapshotOf (GameController.rows ctl)
                              (GameController.columns ctl) h1)
                      (GameAnimationController.stateHistory (GameController.animation ctl))).
    { eapply Forall_impl; [exact Hall|]. intros s. by apply snapshotOf_heapExt. }
    destruct changed.
    - apply addState_inv in Ha as (s & Hcl & ->). cbn. split.
      + by destruct (GameAnimationController.stateHistory _).
      + apply Forall_app. split; [done|]. constructor; [|done].
        eapply snapshotOf_clone; [exact Hre1| | |exact Hcl]; congruence.
    - injection Ha as <- <-. done. }
  destruct Ha1 as [Hne1 Hall1].
  apply IH in H as (Hinv' & Hs & Hb & Hmoves & Hle).
  - cbn in Hs, Hb, Hle. split; [done|]. split; [done|]. split; [done|]. split; [done|]. lia.
  - unfold ctlInv. cbn. do 3 (split; [done|]). split; [done|].
    split; [congruence|]. split; [congruence|]. done.
Qed.

Lemma advance_history e a (P : GameState.t → Prop) :
  GameAnimationController.stateHistory a ≠ [] →
  Forall P (GameAnimationController.stateHistory a) →
  GameAnimationController.stateHistory (GameAnimationController.advance e a) ≠ [] ∧
  Forall P (GameAnimationController.stateHistory (GameAnimationController.advance e a)).
Proof.
  intros Hne HP. unfold GameAnimationController.advance.
  destruct (GameAnimationController.stateHistory a) as [|s [|s' q]] eqn:Hh; [done| |];
    cbn; destruct (Qeq_bool _ 1) eqn:Hq; cbn; rewrite ?Hh; try done.
  split; [done|]. by apply Forall_cons in HP as [_ ?].
Qed.

(** A snapshot can be drawn. *)
Lemma snapshot_draws g r c (h : list (list (option nat))) s p :
  0 < r → 0 < c → g = GameGraphicsController.mk r c → snapshotOf r c h s →
  is_Some (GameGraphicsController.draw g s h p).
Proof.
  intros Hr Hc -> (b & h0 & Hre & Hext & -> & Hrows & Hcols).
  destruct (reachable_inv _ _ Hre) as ((_ & _ & Hsh & _) & _ & _).
  assert (HR : ∀ k x, GameState.tiles b !! k = Some x → Recorded h x).
  { intros k x Hx. apply (Recorded_heapExt h0); [done|]. by eapply reachable_Recorded. }
  destruct (drawTiles_Recorded (GameGraphicsController.mk r c)
              (GameState.withStatus b GameStatus.InProgress) h p) as (css & Hd & _);
    cbn; try done; lia.
Qed.

Lemma animation_draw_returns g r c e a (h : list (list (option nat))) :
  0 < r → 0 < c → g = GameGraphicsController.mk r c →
  GameAnimationController.stateHistory a ≠ [] →
  Forall (snapshotOf r c h) (GameAnimationController.stateHistory a) →
  ∃ calls, GameAnimationController_draw g e a h
           = Some (GameAnimationController.advance e a, calls).
Proof.
  intros Hr Hc Hg Hne Hall. unfold GameAnimationController_draw.
  destruct (advance_history e a _ Hne Hall) as [Hne' Hall'].
  destruct (GameAnimationController.stateHistory (GameAnimationController.advance e a))
    as [|s q] eqn:Hh; [done|]. cbn.
  apply Forall_cons in Hall' as [Hs _].
  destruct (snapshot_draws g r c h s
              (GameAnimationController.animationProgress
                 (GameAnimationController.advance e a)) Hr Hc Hg Hs) as [calls Hcalls].
  rewrite Hcalls. cbn. by exists calls.
Qed.

Lemma updateScore_ctlInv ctl h : ctlInv ctl h → ctlInv (GameController.updateScore ctl) h.
Proof. done. Qed.

Lemma tick_inv n fuel now e ctl h rs ctl' h' rs' calls :
  ctlInv ctl h →
  GameController.tick n fuel now e ctl (h, rs) = Some (ctl', (h', rs'), calls) →
  ∃ ctl1,
    GameController.doMoves n fuel now ctl (h, rs) = Some (ctl1, (h', rs')) ∧
    ctl' = GameController.withAnimation (GameController.updateScore ctl1)
             (GameAnimationController.advance e (GameController.animation ctl1)) ∧
    ctlInv ctl' h'.
Proof.
  intros Hinv H. unfold GameController.tick in H.
  destruct (GameController.doMoves n fuel now ctl (h, rs)) as [[ctl1 [h1 rs1]]|] eqn:Hd;
    cbn [mbind option_bind] in H; [|done].
  destruct (doMoves_ctlInv _ _ _ _ _ _ _ _ _ Hinv Hd) as (Hinv1 & _).
  pose proof Hinv1 as (Hr & Hc & Hg & Hre & Hrows & Hcols & Hne & Hall).
  destruct (animation_draw_returns (GameController.graphics ctl1) _ _ e
              (GameController.animation ctl1) h1 Hr Hc Hg Hne Hall) as [calls' Hcalls].
  cbn [fst GameController.graphics GameController.animation GameController.updateScore] in H.
  rewrite Hcalls in H. cbn in H. injection H as <- <- <- <-.
  exists ctl1. split; [done|]. split; [done|].
  destruct (advance_history e _ _ Hne Hall) as [Hne' Hall'].
  unfold ctlInv. cbn. done.
Qed.

Lemma running_inv ctl h : running ctl h → ctlInv ctl h.
Proof.
  induction 1 as [r c t now rs ctl rs' h Hr Hc Hnew
                 |key now ctl h inp pd _ IH Hk
                 |ctl h rs ctl' rs' _ IH Hre
                 |n fuel now e ctl h rs ctl' h' rs' calls _ IH Ht].
  - exact (new_ctlInv _ _ _ _ _ _ _ h Hr Hc Hnew).
  - exact IH.
  - by eapply restart_ctlInv.
  - by destruct (tick_inv _ _ _ _ _ _ _ _ _ _ _ IH Ht) as (? & _ & _ & ?).
Qed.

Lemma reachable_move_returns b h fuel dir rs :
  reachable b h →
  (sessionFuel (GameState.rows b) (GameState.columns b) ≤ fuel)%nat →
  ∃ e, is_Some (GameState.move fuel dir b (h, rs ++ e)).
Proof.
  intros Hre Hfuel. destruct (reachable_inv _ _ Hre) as ((Hr & Hc & Hsh & _) & _ & _).
  pose proof (reachable_Stacked _ _ Hre) as HB.
  pose proof (boardWeight_nonneg b) as Hw.
  assert (Hlen : Z.of_nat (length (GameState.tiles b))
                 = GameState.rows b * GameState.columns b).
  { unfold shaped, GameState.boardSize in Hsh. rewrite Hsh. apply Z2Nat.id. nia. }
  apply (move_returns_measure _ (sessionFuel (GameState.rows b) (GameState.columns b)) b
           Hsh HB); [lia| |done].
  unfold sessionFuel. rewrite Hlen.
  assert (0 <= GameState.rows b * GameState.columns b) by nia.
  assert (0 <= 2 ^ (GameState.rows b * GameState.columns b + 2)) by (apply Z.pow_nonneg; lia).
  rewrite Nat2Z.inj_succ, Z2Nat.id by (apply Z.mul_nonneg_nonneg; lia). lia.
Qed.

(** One turn of the loop of [doMoves] keeps the invariant. *)
Lemma doMoves_step_ctlInv fuel ctl h d rs changed b1 h1 rs1 a1 rs2 ctl1 :
  ctlInv ctl h →
  GameState.move fuel d (GameController.state ctl) (h, rs) = Some (changed, b1, (h1, rs1)) →
  (if (changed : bool)
   then GameAnimationController.addState (GameController.animation ctl) b1 rs1
   else Some (GameController.animation ctl, rs1)) = Some (a1, rs2) →
  GameController.rows ctl1 = GameController.rows ctl →
  GameController.columns ctl1 = GameController.columns ctl →
  GameController.graphics ctl1 = GameController.graphics ctl →
  GameController.state ctl1 = b1 → GameController.animation ctl1 = a1 →
  ctlInv ctl1 h1.
Proof.
  intros (Hr & Hc & Hg & Hre & Hrows & Hcols & Hne & Hall) Hmv Ha Hr1 Hc1 Hg1 Hs1 Han1.
  destruct (reachable_inv _ _ Hre) as (Hwf & _).
  pose proof (reachable_move _ _ _ _ _ _ _ _ _ Hre Hmv) as Hre1.
  pose proof (move_heapExt _ _ _ _ _ _ _ (wf_shaped _ Hwf) Hmv) as Hext. cbn in Hext.
  destruct (move_sameDims _ _ _ _ _ _ _ _ _ (wf_shaped _ Hwf) Hmv) as [Hrb Hcb].
  assert (Hall1 : Forall (snapshotOf (GameController.rows ctl)
                            (GameController.columns ctl) h1)
                    (GameAnimationController.stateHistory (GameController.animation ctl))).
  { eapply Forall_impl; [exact Hall|]. intros s. by apply snapshotOf_heapExt. }
  unfold ctlInv. rewrite Hr1, Hc1, Hg1, Hs1, Han1.
  do 3 (split; [done|]). split; [done|]. split; [congruence|]. split; [congruence|].
  destruct changed.
  - apply addState_inv in Ha as (s & Hcl & ->). cbn. split.
    + by destruct (GameAnimationController.stateHistory _).
    + apply Forall_app. split; [done|]. constructor; [|done].
      eapply snapshotOf_clone; [exact Hre1| | |exact Hcl]; congruence.
  - injection Ha as <- <-. done.
Qed.

Lemma doMoves_returns n fuel now : ∀ ctl h rs,
  ctlInv ctl h →
  (length (GameInputController.moves (GameController.input ctl)) ≤ n)%nat →
  (sessionFuel (GameController.rows ctl) (GameController.columns ctl) ≤ fuel)%nat →
  ∃ e, is_Some (GameController.doMoves n fuel now ctl (h, rs ++ e)).
Proof.
  induction n as [|n IH]; intros ctl h rs Hinv Hlen Hfuel;
    destruct (GameInputController.moves (GameController.input ctl)) as [|d rest] eqn:Hm;
    try (exists []; cbn [GameController.doMoves]; by rewrite Hm);
    [cbn in Hlen; lia|].
  pose proof Hinv as (Hr & Hc & Hg & Hre & Hrows & Hcols & Hne & Hall).
  destruct (reachable_move_returns _ h fuel d rs Hre) as (e1 & [[[changed b1] [h1 rs1]] Hmv]).
  { by rewrite Hrows, Hcols. }
  pose proof (reachable_move _ _ _ _ _ _ _ _ _ Hre Hmv) as Hre1.
  destruct (reachable_inv _ _ Hre1) as ((_ & _ & Hsh1 & _) & _ & _).
  assert (∃ e2 a1 rs2,
            (if changed
             then GameAnimationController.addState (GameController.animation ctl) b1
                    (rs1 ++ e2)
             else Some (GameController.animation ctl, rs1 ++ e2)) = Some (a1, rs2))
    as (e2 & a1 & rs2 & Ha).
  { destruct changed; [|by exists [], (GameController.animation ctl), (rs1 ++ [])].
    destruct (clone_returns b1 rs1 Hsh1) as (e2 & rs2 & Hcl).
    exists e2. unfold GameAnimationController.addState. rewrite Hcl. cbn. by eexists _, _. }
  set (input1 := {| GameInputController.moves := rest;
                    GameInputController.blockedUntil :=
                      GameInputController.blockedUntil (GameController.input ctl) |}).
  set (ctl1 := {| GameController.rows := GameController.rows ctl;
                  GameController.columns := GameController.columns ctl;
                  GameController.targetTileLevel := GameController.targetTileLevel ctl;
                  GameController.graphics := GameController.graphics ctl;
                  GameController.animation := a1;
                  GameController.input :=
                    if bool_decide (GameState.status b1 = GameStatus.Won)
                    then GameInputController.blockForMilliseconds 2500 now input1
                    else input1;
                  GameController.score := GameController.score ctl;
                  GameController.bestScore := GameController.bestScore ctl;
                  GameController.state := b1 |}).
  pose proof (move_frame _ _ _ _ _ _ _ _ _ e2 Hmv) as Hmv2.
  assert (Hinv1 : ctlInv ctl1 h1).
  { eapply (doMoves_step_ctlInv fuel ctl h d (rs ++ e1 ++ e2) changed b1 h1 (rs1 ++ e2) a1 rs2);
      try done. by rewrite app_assoc. }
  destruct (IH ctl1 h1 rs2 Hinv1) as (e3 & Hrest).
  { subst ctl1 input1. cbn. destruct (bool_decide _); cbn; cbn in Hlen; lia. }
  { done. }
  exists (e1 ++ e2 ++ e3). cbn [GameController.doMoves]. rewrite Hm.
  pose proof (move_frame _ _ _ _ _ _ _ _ _ (e2 ++ e3) Hmv) as Hmv3.
  rewrite <- app_assoc in Hmv3. rewrite Hmv3. cbn [mbind option_bind].
  assert (Ha3 : (if changed
                 then GameAnimationController.addState (GameController.animation ctl) b1
                        (rs1 ++ e2 ++ e3)
                 else Some (GameController.animation ctl, rs1 ++ e2 ++ e3))
                = Some (a1, rs2 ++ e3)).
  { destruct changed.
    - apply addState_inv in Ha as (s & Hcl & ->).
      unfold GameAnimationController.addState.
      rewrite app_assoc, (clone_frame _ _ _ _ e3 Hcl). done.
    - injection Ha as <- <-. by rewrite app_assoc. }
  rewrite Ha3. cbn [mbind option_bind]. exact Hrest.
Qed.

Lemma doMoves_block n fuel now : ∀ ctl w ctl' w',
  GameController.doMoves n fuel now ctl w = Some (ctl', w') →
  GameInputController.moves (GameController.input ctl') = [] ∧
  (GameInputController.moves (GameController.input ctl) = [] → ctl' = ctl) ∧
  (GameInputController.moves (GameController.input ctl) ≠ [] →
   GameInputController.blockedUntil (GameController.input ctl')
   = if bool_decide (GameState.status (GameController.state ctl') = GameStatus.Won)
     then now + 2500
     else GameInputController.blockedUntil (GameController.input ctl)).
Proof.
  induction n as [|n IH]; intros ctl w ctl' w' H; cbn [GameController.doMoves] in H;
    destruct (GameInputController.moves (GameController.input ctl)) as [|d rest] eqn:Hm;
    try (injection H as <- <-; by rewrite Hm); [done|].
  destruct (GameState.move fuel d _ _) as [[[changed b1] [h1 rs1]]|] eqn:Hmv;
    cbn [mbind option_bind] in H; [|done].
  match type of H with
  | context [if changed then ?x else ?y] =>
      destruct (if changed then x else y) as [[a1 rs2]|] eqn:Ha; cbn [mbind option_bind] in H;
        [|done]
  end.
  apply IH in H as (Hempty & Hsame & Hblock).
  cbn [GameController.input GameController.state] in Hsame, Hblock.
  split; [done|]. split; [done|]. intros _.
  destruct (bool_decide (GameState.status b1 = GameStatus.Won)) eqn:Hwon.
  - rewrite (Hsame eq_refl). cbn. by rewrite Hwon.
  - destruct rest as [|d' rest'].
    + rewrite (Hsame eq_refl). cbn. by rewrite Hwon.
    + by rewrite Hblock.
Qed.

Lemma processKeyboard_blocked key now self inp pd :
  now < GameInputController.blockedUntil self →
  GameInputController.processKeyboard key now self = Some (inp, pd) →
  inp = self.
Proof.
  intros Hb H. unfold GameInputController.processKeyboard in H.
  rewrite (bool_decide_eq_false_2 (GameInputController.blockedUntil self <= now)) in H
    by lia.
  cbn in H. by injection H as <- _.
Qed.

Lemma updateScore_spec ctl :
  GameController.score (GameController.updateScore ctl)
  = GameState.score (GameController.state ctl) ∧
  GameController.bestScore (GameController.updateScore ctl)
  = Z.max (GameController.bestScore ctl) (GameState.score (GameController.state ctl)).
Proof.
  unfold GameController.updateScore. cbn.
  assert (H : (if bool_decide (GameController.score ctl
                               ≠ GameState.score (GameController.state ctl))
               then GameState.score (GameController.state ctl)
               else GameController.score ctl)
              = GameState.score (GameController.state ctl)).
  { destruct (decide (GameController.score ctl = GameState.score (GameController.state ctl))).
    - by rewrite bool_decide_eq_false_2 by (intros ?; done).
    - by rewrite bool_decide_eq_true_2. }
  rewrite H. split; [done|].
  destruct (decide (GameController.bestScore ctl
                    < GameState.score (GameController.state ctl))).
  - rewrite bool_decide_eq_true_2 by done. lia.
  - rewrite bool_decide_eq_false_2 by done. lia.
Qed.

Lemma restart_scores ctl rs ctl' rs' :
  GameController.restart ctl rs = Some (ctl', rs') →
  GameController.score ctl' = 0 ∧
  GameController.bestScore ctl' = Z.max (GameController.bestScore ctl) 0.
Proof.
  intros H. unfold GameController.restart in H.
  destruct (GameState.new _ _ _ rs) as [[b rs1]|] eqn:Hnew; cbn in H; [|done].
  destruct (GameAnimationController.addState _ b rs1) as [[a rs2]|] eqn:Ha; cbn in H; [|done].
  injection H as <- <-.
  pose proof (new_inv _ _ _ _ _ _ Hnew) as (_ & _ & _ & Hsc & _).
  match goal with
  | |- GameController.score (GameController.updateScore ?c) = _ ∧ _ =>
      destruct (updateScore_spec c) as [-> ->]
  end.
  cbn. by rewrite Hsc.
Qed.

Lemma tick_scores n fuel now e ctl h rs ctl' w' calls :
  ctlInv ctl h →
  GameController.tick n fuel now e ctl (h, rs) = Some (ctl', w', calls) →
  GameController.score ctl' = GameState.score (GameController.state ctl') ∧
  GameState.score (GameController.state ctl) <= GameController.score ctl' ∧
  GameController.bestScore ctl'
  = Z.max (GameController.bestScore ctl) (GameController.score ctl').
Proof.
  intros Hinv H. destruct w' as [h' rs'].
  destruct (tick_inv _ _ _ _ _ _ _ _ _ _ _ Hinv H) as (ctl1 & Hd & -> & _).
  destruct (doMoves_ctlInv _ _ _ _ _ _ _ _ _ Hinv Hd) as (_ & Hs & Hb & _ & Hle).
  destruct (updateScore_spec ctl1) as [Hs1 Hb1].
  cbn [GameController.score GameController.bestScore GameController.state
       GameController.withAnimation].
  change (GameController.state (GameController.updateScore ctl1))
    with (GameController.state ctl1).
  rewrite Hs1, Hb1, Hb. done.
Qed.

Lemma running_scores ctl h :
  running ctl h →
  GameController.score ctl = GameState.score (GameController.state ctl) ∧
  0 <= GameController.score ctl <= GameController.bestScore ctl.
Proof.
  induction 1 as [r c t now rs ctl rs' h Hr Hc Hnew
                 |key now ctl h inp pd Hrun IH Hk
                 |ctl h rs ctl' rs' Hrun IH Hre
                 |n fuel now e ctl h rs ctl' h' rs' calls Hrun IH Ht].
  - unfold GameController.new in Hnew.
    destruct (GameState.new r c t rs) as [[b rs1]|] eqn:Hn; cbn in Hnew; [|done].
    destruct (GameAnimationController.addState _ b rs1) as [[a rs2]|]; cbn in Hnew; [|done].
    injection Hnew as <- <-. cbn.
    pose proof (new_inv _ _ _ _ _ _ Hn) as (_ & _ & _ & Hsc & _). by rewrite Hsc.
  - exact IH.
  - pose proof (running_inv _ _ (running_restart _ _ _ _ _ Hrun Hre))
      as (_ & _ & _ & Hreach & _).
    destruct (reachable_inv _ _ Hreach) as (_ & Hsc & _).
    destruct (restart_scores _ _ _ _ Hre) as [Hs Hb].
    unfold GameController.restart in Hre.
    destruct (GameState.new _ _ _ rs) as [[b rs1]|] eqn:Hnew; cbn in Hre; [|done].
    destruct (GameAnimationController.addState _ b rs1) as [[a rs2]|]; cbn in Hre; [|done].
    injection Hre as <- <-.
    pose proof (new_inv _ _ _ _ _ _ Hnew) as (_ & _ & _ & Hsc0 & _).
    cbn [GameController.state GameController.updateScore] in *.
    rewrite Hs, Hb, Hsc0. lia.
  - pose proof (running_inv _ _ Hrun) as Hinv.
    destruct (tick_scores _ _ _ _ _ _ _ _ _ _ Hinv Ht) as (Hs & Hle & Hb).
    pose proof (running_inv _ _ (running_tick _ _ _ _ _ _ _ _ _ _ _ Hrun Ht))
      as (_ & _ & _ & Hreach & _).
    destruct (reachable_inv _ _ Hreach) as (_ & Hsc & _).
    split; [done|]. lia.
Qed.

(** * The levels that are drawn *)

(** The tile a [move] has spawned has level 1 or 2. *)
Lemma move_spawned_level fuel dir b h rs changed b' h' rs' j x :
  wf b → EmptyClean (GameState.tiles b) →
  GameState.move fuel dir b (h, rs) = Some (changed, b', (h', rs')) →
  GameState.tiles b' !! j = Some x → Tile.status x = TileStatus.Spawned →
  Tile.level x = Some 1%nat ∨ Tile.level x = Some 2%nat.
Proof.
  intros Hwf Hec H Hx Hs. pose proof (wf_shaped _ Hwf) as Hsh.
  destruct (move_result _ _ _ _ _ _ _ _ _ Hsh H) as (b1 & h1 & Hg & _ & _ & Hcase).
  destruct (gravitate_summary _ _ _ _ _ Hsh Hg)
    as (_ & _ & _ & _ & _ & _ & _ & _ & _ & _ & Hclean).
  specialize (Hclean Hec).
  destruct Hcase as [(_ & -> & _)|(_ & b2 & rs1 & rs2 & st & Hsp & ->)].
  { by destruct (Hclean _ _ Hx). }
  apply (spawnTile_inv _ _ _ _ (gravitate_shaped _ _ _ _ _ Hsh Hg)) in Hsp
    as [(_ & -> & _)|(j0 & y & pre & d & e & Hy & Hny & _ & _ & ->)].
  { by destruct (Hclean _ _ Hx). }
  cbn in Hx. destruct (decide (j = j0)) as [->|Hne].
  - rewrite list_lookup_insert_eq in Hx by (by eapply lookup_lt_Some).
    injection Hx as <-. cbn. destruct (drawnLevel_range e) as [-> | ->]; auto.
  - rewrite list_lookup_insert_ne in Hx by done. by destruct (Hclean _ _ Hx).
Qed.

Lemma reachable_level_pos b h k x l :
  reachable b h → GameState.tiles b !! k = Some x → Tile.level x = Some l → (1 ≤ l)%nat.
Proof.
  intros Hr. revert k x l.
  induction Hr as [r c t rs b rs' h Hr Hc Hnew
                  |fuel dir b h rs changed b' h' rs' Hr IH Hmv]; intros k x l Hx Hl.
  - apply new_inv in Hnew as (_ & _ & _ & _ & _ & _ & Ht).
    destruct (Ht _ _ Hx) as [->|(l0 & Hl0 & ->)]; [done|].
    cbn in Hl. injection Hl as <-. lia.
  - destruct (reachable_inv _ _ Hr) as (Hwf & _ & Hhs).
    pose proof (historyShape_EmptyClean _ _ Hhs) as Hec.
    pose proof (move_wf _ _ _ _ _ _ _ _ _ Hwf Hmv) as (_ & _ & _ & HW').
    assert (Ho : occupied x).
    { destruct (HW' _ _ Hx) as [_ He]. unfold occupied. rewrite He, Hl. done. }
    destruct (decide (Tile.status x = TileStatus.Spawned)) as [Hs|Hns].
    { destruct (move_spawned_level _ _ _ _ _ _ _ _ _ _ _ Hwf Hec Hmv Hx Hs) as [H1|H1];
        rewrite Hl in H1; injection H1 as ->; lia. }
    destruct (move_histories _ _ _ _ _ _ _ _ _ Hwf Hec Hmv) as (_ & HT & _).
    destruct (HT _ _ Hx Ho Hns) as (p & q & _ & _ & HTr).
    unfold Truthful in HTr. destruct (decide _).
    + destruct HTr as (ia & ic & xa & xc & _ & _ & _ & _ & _ & _ & _ & Hlx).
      rewrite Hl in Hlx. injection Hlx as ->. lia.
    + destruct HTr as (ia & xa & Hxa & _ & _ & _ & Hlx).
      apply (IH ia xa). { done. } by rewrite <- Hlx.
Qed.

(** The levels a board of the game holds and remembers are between 1 and
    [rows * columns + 1]. *)
Lemma reachable_drawn_levels b h k x :
  reachable b h → GameState.tiles b !! k = Some x → occupied x →
  (∃ l, Tile.level x = Some l ∧ (1 ≤ l)%nat ∧ Z.of_nat l <= GameState.boardSize b + 1) ∧
  (Tile.status x ≠ TileStatus.Spawned →
   ∀ a lv, hist h x = Some (a, lv) →
     Forall (λ v, ∃ l, v = Some l ∧ (1 ≤ l)%nat ∧
                       Z.of_nat l <= GameState.boardSize b + 1) lv).
Proof.
  intros Hr Hx Ho. destruct (reachable_inv _ _ Hr) as ((_ & _ & _ & HW) & _ & _).
  split.
  - destruct (Tile.level x) as [l|] eqn:Hl.
    + exists l. split; [done|]. split.
      * by eapply reachable_level_pos.
      * by eapply reachable_level_le.
    + destruct Ho. by apply (HW _ _ Hx).
  - intros Hns a lv Hh.
    destruct Hr as [r c t rs b rs' h Hr Hc Hnew
                   |fuel dir b h rs changed b' h' rs' Hr Hmv].
    { apply new_inv in Hnew as (_ & _ & _ & _ & _ & _ & Ht).
      destruct (Ht _ _ Hx) as [->|(l0 & Hl0 & ->)]; [by destruct Ho|by destruct Hns]. }
    destruct (reachable_inv _ _ Hr) as (Hwf & _ & Hhs).
    pose proof (historyShape_EmptyClean _ _ Hhs) as Hec.
    destruct (move_histories _ _ _ _ _ _ _ _ _ Hwf Hec Hmv) as ([Hdr Hdc] & HT & _).
    assert (Hsize : GameState.boardSize b' = GameState.boardSize b).
    { unfold GameState.boardSize. by rewrite Hdr, Hdc. }
    rewrite Hsize.
    assert (Hold : ∀ i x0, GameState.tiles b !! i = Some x0 → occupied x0 →
              ∃ l, Tile.level x0 = Some l ∧ (1 ≤ l)%nat ∧
                   Z.of_nat l <= GameState.boardSize b + 1).
    { intros i x0 Hx0 Ho0. destruct Hwf as (_ & _ & _ & HW0).
      destruct (Tile.level x0) as [l|] eqn:Hl.
      - exists l. split; [done|]. split.
        + by eapply reachable_level_pos.
        + by eapply reachable_level_le.
      - destruct Ho0. by apply (HW0 _ _ Hx0). }
    destruct (HT _ _ Hx Ho Hns) as (p & q & Hp & Hq & HTr).
    unfold hist in Hh. rewrite Hp, Hq in Hh. cbn in Hh.
    unfold Truthful in HTr. destruct (decide _).
    + destruct HTr as (ia & ic & xa & xc & Hxa & Hxc & Hoa & Hoc & Hha & Hhl & _).
      rewrite Hha, Hhl in Hh. cbn in Hh. injection Hh as <- <-.
      repeat constructor; eauto.
    + destruct HTr as (ia & xa & Hxa & Hoa & Hha & Hhl & _).
      rewrite Hha, Hhl in Hh. cbn in Hh. injection Hh as <- <-.
      repeat constructor; eauto.
Qed.

Lemma getTileColor_defined l :
  (1 ≤ l)%nat → is_Some (GameGraphicsController.getTileColor (Some l)).
Proof.
  intros Hl. unfold GameGraphicsController.getTileColor.
  destruct (decide (11 < l)%nat).
  - by rewrite bool_decide_eq_true_2.
  - rewrite bool_decide_eq_false_2 by done.
    destruct l as [|l]; [lia|]. apply lookup_lt_is_Some_2. cbn. lia.
Qed.

Lemma multiplier_defined l :
  (l < 30)%nat → is_Some (GameGraphicsController.multipliers !! (l / 10)%nat).
Proof.
  intros Hl. apply lookup_lt_is_Some_2. change (l / 10 < 3)%nat.
  apply Nat.Div0.div_lt_upper_bound. lia.
Qed.

Lemma appearing_level g p k st lv c :
  c ∈ appearing g p k st lv → GameGraphicsController.tileLevel c = lv.
Proof.
  unfold appearing. destruct (negb _); [|by intros ?%elem_of_nil].
  destruct st; try (by intros ?%elem_of_nil); by intros ->%list_elem_of_singleton.
Qed.

(** * Further properties of the engine *)

(** Which cells have a cell next to them in a given direction.  On a board
    of two columns or more these are the cells that are not on the edge the
    direction points to: a step to the right from the last cell of a row
    does not go on to the first cell of the next row.  On a board of a single
    column a step to the right or to the left is a step down or up. *)
Theorem guard_direction b i :
  0 < GameState.columns b → 0 <= i < GameState.boardSize b →
  let row := i / GameState.columns b in
  let col := i mod GameState.columns b in
  (guard (GameState.indexChange b Direction.Up) b i = true ↔ 0 < row) ∧
  (guard (GameState.indexChange b Direction.Down) b i = true
   ↔ row + 1 < GameState.rows b) ∧
  (2 <= GameState.columns b →
     (guard (GameState.indexChange b Direction.Right) b i = true
      ↔ col + 1 < GameState.columns b) ∧
     (guard (GameState.indexChange b Direction.Left) b i = true ↔ 0 < col)) ∧
  (GameState.columns b = 1 →
     (guard (GameState.indexChange b Direction.Right) b i = true
      ↔ row + 1 < GameState.rows b) ∧
     (guard (GameState.indexChange b Direction.Left) b i = true ↔ 0 < row)).
Proof.
  intros Hc Hi row col. unfold GameState.boardSize in Hi.
  set (c := GameState.columns b) in *. set (r := GameState.rows b) in *.
  assert (Hdm : i = c * row + col ∧ 0 <= col < c).
  { unfold row, col. split; [apply Z.div_mod; lia|apply Z.mod_pos_bound; lia]. }
  destruct Hdm as [Hdm Hcol].
  assert (Hrow : 0 <= row < r).
  { split; [apply Z.div_pos; lia|]. apply Z.div_lt_upper_bound; lia. }
  assert (Hdiv : ∀ q m, 0 <= m < c → (c * q + m) / c = q).
  { intros q m Hm. symmetry. apply (Z.div_unique _ _ q m); lia. }
  assert (Hrem : ∀ q m, 0 <= q → 0 <= m < c → Z.rem (c * q + m) c = m).
  { intros q m Hq Hm. rewrite Z.rem_mod_nonneg by nia.
    symmetry. apply (Z.mod_unique _ _ q m); lia. }
  assert (Hgo : ∀ q m q' m', 0 <= q → 0 <= m < c → 0 <= m' < c →
            guard (c * q' + m' - (c * q + m)) b (c * q + m) = true
            ↔ 0 <= q' < r ∧ (Z.abs (q' - q) = 1 ∧ m' = m ∨ q' = q ∧ Z.abs (m' - m) = 1)).
  { intros q m q' m' Hq Hm Hm'. unfold guard, GameState.isInsideBoard,
      GameState.areNeighboring, GameState.boardSize. fold c r.
    replace (c * q + m + (c * q' + m' - (c * q + m))) with (c * q' + m') by lia.
    rewrite andb_true_iff, orb_true_iff, !andb_true_iff, !Z.eqb_eq, Z.leb_le, Z.ltb_lt.
    rewrite (Hdiv q' m'), (Hdiv q m) by done. rewrite (Hrem q m) by done.
    split.
    - intros [[H1 H2] H3]. assert (0 <= q') by nia.
      rewrite (Hrem q' m') in H3 by done. split; [nia|]. lia.
    - intros [Hq' H3]. rewrite (Hrem q' m') by lia. split; [nia|lia]. }
  rewrite Hdm. cbn [GameState.indexChange]. fold c.
  split; [|split; [|split]].
  - replace (- c) with (c * (row - 1) + col - (c * row + col)) by lia.
    rewrite Hgo by lia. lia.
  - replace c with (c * (row + 1) + col - (c * row + col)) at 1 by lia.
    rewrite Hgo by lia. lia.
  - intros Hc2. split.
    + destruct (decide (col + 1 < c)).
      * replace 1 with (c * row + (col + 1) - (c * row + col)) at 1 by lia.
        rewrite Hgo by lia. lia.
      * replace 1 with (c * (row + 1) + 0 - (c * row + col)) at 1 by lia.
        rewrite Hgo by lia. lia.
    + destruct (decide (0 < col)).
      * replace (-1) with (c * row + (col - 1) - (c * row + col)) by lia.
        rewrite Hgo by lia. lia.
      * replace (-1) with (c * (row - 1) + (c - 1) - (c * row + col)) by lia.
        rewrite Hgo by lia. lia.
  - intros Hc1. assert (col = 0) as Hcol0 by lia. rewrite Hcol0. split.
    + replace 1 with (c * (row + 1) + 0 - (c * row + 0)) at 1 by lia.
      rewrite Hgo by lia. lia.
    + replace (-1) with (c * (row - 1) + 0 - (c * row + 0)) by lia.
      rewrite Hgo by lia. lia.
Qed.

Lemma guard_direction_witness :
  let row := 3 / GameState.columns exampleBoard in
  let col := 3 mod GameState.columns exampleBoard in
  (guard (GameState.indexChange exampleBoard Direction.Up) exampleBoard 3 = true
   ↔ 0 < row) ∧
  (guard (GameState.indexChange exampleBoard Direction.Down) exampleBoard 3 = true
   ↔ row + 1 < GameState.rows exampleBoard) ∧
  (2 <= GameState.columns exampleBoard →
     (guard (GameState.indexChange exampleBoard Direction.Right) exampleBoard 3 = true
      ↔ col + 1 < GameState.columns exampleBoard) ∧
     (guard (GameState.indexChange exampleBoard Direction.Left) exampleBoard 3 = true
      ↔ 0 < col)) ∧
  (GameState.columns exampleBoard = 1 →
     (guard (GameState.indexChange exampleBoard Direction.Right) exampleBoard 3 = true
      ↔ row + 1 < GameState.rows exampleBoard) ∧
     (guard (GameState.indexChange exampleBoard Direction.Left) exampleBoard 3 = true
      ↔ 0 < row)).
Proof.
  apply (guard_direction exampleBoard 3).
  - reflexivity.
  - split; [discriminate|reflexivity].
Defined.

(** [gravitate] slides every tile as far as it goes: afterwards no tile has
    a free cell ahead of it, and two tiles that lie one behind the other
    have different levels unless one of them has merged in this pass. *)
Theorem gravitate_packs dir b h :
  shaped b →
  ∃ b' h', GameState.gravitate dir (b, h) = Some (b', h') ∧
    ∀ i x, 0 <= i →
      guard (GameState.indexChange b dir) b i = true →
      GameState.tileAt (GameState.tiles b') i = Some x → occupied x →
      ∃ y, GameState.tileAt (GameState.tiles b') (i + GameState.indexChange b dir)
           = Some y ∧ occupied y ∧
           (Tile.level x = Tile.level y →
            Tile.status x = TileStatus.Merged ∨ Tile.status y = TileStatus.Merged).
Proof.
  intros Hsh. destruct (gravitate_total dir b h Hsh) as [[b' h'] Hg].
  exists b', h'. split; [done|]. intros i x Hi Hgd Hx Hox.
  destruct (gravitate_summary _ _ _ _ _ Hsh Hg) as (Hd & Hlen & _).
  assert (Hin : 0 <= i < GameState.boardSize b).
  { apply tileAt_Some in Hx as [_ Hx]. apply lookup_lt_Some in Hx.
    unfold shaped in Hsh. lia. }
  pose proof (gravitate_Packed _ _ _ _ _ _ Hsh Hg Hin) as HP.
  apply isEmpty_false in Hox.
  pose proof (Packed_nonempty _ _ _ _ HP Hx Hox) as HS.
  rewrite <- (guard_sameDims _ b b') in Hgd by done.
  inversion HS as [? x0 Hx0 Hnx Hg0|? x0 y Hx0 Hnx Hg0 Hy Hm HSn]; subst; [congruence|].
  rewrite Hx in Hx0. injection Hx0 as <-.
  destruct (Settled_nonempty _ _ _ HSn) as (y' & Hy' & Hny). rewrite Hy in Hy'.
  injection Hy' as <-. exists y. split; [done|]. apply isEmpty_false in Hny.
  split; [done|]. intros Hlv. unfold mergeable, Tile.ableToMerge in Hm.
  rewrite (bool_decide_eq_true_2 _ Hlv), andb_true_r in Hm.
  rewrite (bool_decide_eq_true_2 (Tile.status x ≠ TileStatus.Empty)) in Hm
    by (by apply isEmpty_false).
  rewrite (bool_decide_eq_true_2 (Tile.status y ≠ TileStatus.Empty)) in Hm by done.
  rewrite !andb_true_r in Hm. apply andb_false_iff in Hm as [Hm|Hm];
    apply bool_decide_eq_false in Hm.
  - left. by destruct (decide (Tile.status x = TileStatus.Merged)).
  - right. by destruct (decide (Tile.status y = TileStatus.Merged)).
Qed.

Lemma gravitate_packs_witness :
  ∃ b' h', GameState.gravitate Direction.Left (exampleDead, exampleDeadHeap)
           = Some (b', h') ∧
    ∀ i x, 0 <= i →
      guard (GameState.indexChange exampleDead Direction.Left) exampleDead i = true →
      GameState.tileAt (GameState.tiles b') i = Some x → occupied x →
      ∃ y, GameState.tileAt (GameState.tiles b')
             (i + GameState.indexChange exampleDead Direction.Left) = Some y ∧
           occupied y ∧
           (Tile.level x = Tile.level y →
            Tile.status x = TileStatus.Merged ∨ Tile.status y = TileStatus.Merged).
Proof. apply (gravitate_packs Direction.Left exampleDead exampleDeadHeap). reflexivity. Defined.

(** The game is over exactly when the board is full and no two neighbouring
    tiles have the same level. *)
Theorem game_over_neighbours fuel b h rs r w' :
  shaped b → 0 < GameState.columns b →
  GameState.isGameOver fuel b (h, rs) = Some (r, w') →
  r = true ↔
  full b ∧
  ∀ (i j : nat) x y,
    GameState.areNeighboring b (Z.of_nat i) (Z.of_nat j) = true →
    GameState.tiles b !! i = Some x → GameState.tiles b !! j = Some y →
    Tile.level x ≠ Tile.level y.
Proof. intros Hsh Hc H. exact (isGameOver_stuck _ _ _ _ _ _ Hsh Hc H). Qed.

Lemma game_over_neighbours_witness :
  true = true ↔
  full exampleDead ∧
  ∀ (i j : nat) x y,
    GameState.areNeighboring exampleDead (Z.of_nat i) (Z.of_nat j) = true →
    GameState.tiles exampleDead !! i = Some x →
    GameState.tiles exampleDead !! j = Some y →
    Tile.level x ≠ Tile.level y.
Proof.
  destruct exampleDeadOver as [[[|] w']|] eqn:Hex; try discriminate Hex.
  apply (game_over_neighbours 1 exampleDead exampleDeadHeap exampleDeadDraws true w').
  - reflexivity.
  - reflexivity.
  - exact Hex.
Defined.

(** However long the game is played, no tile passes the level
    [rows * columns + 1]: on the 4 x 4 board no tile beyond 131072. *)
Theorem level_bound b h k x l :
  reachable b h → GameState.tiles b !! k = Some x → Tile.level x = Some l →
  Z.of_nat l <= GameState.boardSize b + 1.
Proof. apply reachable_level_le. Qed.

Lemma level_bound_witness : Z.of_nat 2 <= GameState.boardSize exampleAfter + 1.
Proof.
  apply (level_bound exampleAfter exampleHeap 0%nat
           (Tile.mk 0 (Some 2%nat) (Some 0%nat) (Some 1%nat) TileStatus.Merged) 2%nat).
  - apply exampleAfter_reachable.
  - reflexivity.
  - reflexivity.
Defined.

(** No game goes on for ever: the number of moves that change the board is
    bounded by [rows * columns * 2 ^ (rows * columns + 1)]. *)
Theorem game_length n b h :
  played n b h →
  Z.of_nat n <= GameState.boardSize b * 2 ^ (GameState.boardSize b + 1).
Proof.
  intros Hp. pose proof (played_weight _ _ _ Hp) as Hw.
  pose proof (played_reachable _ _ _ Hp) as Hr.
  pose proof (reachable_Stacked _ _ Hr) as HB.
  destruct (reachable_inv _ _ Hr) as ((Hrw & Hcl & Hsh & _) & _).
  assert (Hn0 : 0 <= Z.of_nat (length (GameState.tiles b)) + 2) by lia.
  pose proof (Stacked_weight _ b Hn0 HB) as Hmax.
  unfold shaped in Hsh. rewrite Hsh in Hmax.
  assert (0 < GameState.boardSize b) by (unfold GameState.boardSize; nia).
  rewrite Z2Nat.id in Hmax by lia.
  replace (GameState.boardSize b + 2) with (Z.succ (GameState.boardSize b + 1)) in Hmax by lia.
  rewrite Z.pow_succ_r in Hmax by lia.
  set (p := 2 ^ (GameState.boardSize b + 1)) in *.
  assert (0 < p) by (apply Z.pow_pos_nonneg; lia). nia.
Qed.

Lemma game_length_witness :
  Z.of_nat 1 <= GameState.boardSize exampleAfter * 2 ^ (GameState.boardSize exampleAfter + 1).
Proof.
  apply (game_length 1 exampleAfter exampleHeap).
  apply (played_move 0 1 Direction.Left exampleBoard [] exampleDraws true
           exampleAfter exampleHeap []).
  - apply (played_new 4 4 11 [0; 0; 1; 0]%nat exampleBoard [] []); reflexivity.
  - reflexivity.
Defined.

(** [gravitate] neither makes nor loses value: the sum of [2 ^ level] over
    the tiles is kept, and the board loses exactly one tile for every tile
    that is marked [Merged]. *)
Theorem gravitate_conserves dir b h :
  shaped b →
  ∃ b' h', GameState.gravitate dir (b, h) = Some (b', h') ∧
    boardWeight b' = boardWeight b ∧
    tileCount (GameState.tiles b') + mergedCount (GameState.tiles b')
    = tileCount (GameState.tiles b).
Proof.
  intros Hsh. destruct (gravitate_total dir b h Hsh) as [[b' h'] Hg].
  exists b', h'. split; [done|]. split.
  - by destruct (gravitate_weight _ _ _ _ _ Hsh Hg).
  - by eapply gravitate_count.
Qed.

Lemma gravitate_conserves_witness :
  ∃ b' h', GameState.gravitate Direction.Left (exampleBoard, []) = Some (b', h') ∧
    boardWeight b' = boardWeight exampleBoard ∧
    tileCount (GameState.tiles b') + mergedCount (GameState.tiles b')
    = tileCount (GameState.tiles exampleBoard).
Proof. apply (gravitate_conserves Direction.Left exampleBoard []). reflexivity. Defined.

(** A [move] that reports a change has spawned exactly one tile, of level 1
    or 2, in a cell that [gravitate] had left free: after a change the board
    is never full at the moment of the spawn.  A [move] that reports no
    change has spawned nothing and has drawn no more than its copy needed. *)
Theorem move_spawns fuel dir b h rs changed b' h' rs' :
  shaped b →
  GameState.move fuel dir b (h, rs) = Some (changed, b', (h', rs')) →
  ∃ b1 h1, GameState.gravitate dir (b, h) = Some (b1, h1) ∧
    if changed then
      ∃ k y l, GameState.tiles b1 !! k = Some y ∧ ¬ occupied y ∧
        (l = 1 ∨ l = 2)%nat ∧
        GameState.tiles b' = <[k := spawned y l]> (GameState.tiles b1) ∧
        tileCount (GameState.tiles b') = tileCount (GameState.tiles b1) + 1 ∧
        boardWeight b' = boardWeight b + 2 ^ Z.of_nat l
    else b' = b1 ∧ h' = h1.
Proof.
  intros Hsh Hmv.
  destruct (move_result _ _ _ _ _ _ _ _ _ Hsh Hmv)
    as (b1 & h1 & Hg & _ & He & [(-> & -> & ->)|(-> & b2 & rs1 & rs2 & st & Hs & ->)]).
  { exists b1, h1. by split. }
  exists b1, h1. split; [done|].
  pose proof (gravitate_shaped _ _ _ _ _ Hsh Hg) as Hsh1.
  destruct (gravitate_weight _ _ _ _ _ Hsh Hg) as [Hw _].
  apply (spawnTile_inv _ _ _ _ Hsh1) in Hs
    as [(Hf & _ & _)|(j & y & pre & d & e & Hy & Hny & _ & _ & ->)].
  { rewrite (gravitate_full_same _ _ _ _ _ Hsh Hg Hf) in He. done. }
  exists j, y, (drawnLevel e). split; [done|]. split; [done|].
  split; [apply drawnLevel_range|]. split; [done|].
  cbn [GameState.tiles GameState.withStatus GameState.withTiles]. split.
  - by apply tileCount_spawn.
  - unfold boardWeight in *.
    cbn [GameState.tiles GameState.withStatus GameState.withTiles].
    rewrite (tileSum_insert _ _ _ y) by done. rewrite (weight_empty y) by done.
    rewrite weight_occupied by done. change (Tile.levelNumber (spawned y ?l)) with l. lia.
Qed.

Lemma move_spawns_witness :
  ∃ b1 h1, GameState.gravitate Direction.Left (exampleBoard, []) = Some (b1, h1) ∧
    ∃ k y l, GameState.tiles b1 !! k = Some y ∧ ¬ occupied y ∧
      (l = 1 ∨ l = 2)%nat ∧
      GameState.tiles exampleAfter = <[k := spawned y l]> (GameState.tiles b1) ∧
      tileCount (GameState.tiles exampleAfter) = tileCount (GameState.tiles b1) + 1 ∧
      boardWeight exampleAfter = boardWeight exampleBoard + 2 ^ Z.of_nat l.
Proof.
  apply (move_spawns 1 Direction.Left exampleBoard [] exampleDraws true
           exampleAfter exampleHeap []).
  - reflexivity.
  - reflexivity.
Defined.

(** [spawnTile] on a full board does nothing and makes no draw.  Otherwise
    it skips the draws that select an occupied cell, turns the first free
    cell that is drawn into a [Spawned] tile whose level, 1 or 2, is given by
    the next draw, and touches no other tile. *)
Theorem spawnTile_effect b rs b' rs' :
  shaped b → GameState.spawnTile b rs = Some (b', rs') →
  (full b ∧ b' = b ∧ rs' = rs) ∨
  (∃ k x pre d e,
     rs = pre ++ d :: e :: rs' ∧
     Forall (λ d', ∃ y, GameState.tiles b !! Z.to_nat (drawnCell (GameState.boardSize b) d')
                        = Some y ∧ occupied y) pre ∧
     Z.of_nat k = drawnCell (GameState.boardSize b) d ∧
     GameState.tiles b !! k = Some x ∧ ¬ occupied x ∧
     (drawnLevel e = 1 ∨ drawnLevel e = 2)%nat ∧
     b' = GameState.withTiles b (<[k := spawned x (drawnLevel e)]> (GameState.tiles b)) ∧
     tileCount (GameState.tiles b') = tileCount (GameState.tiles b) + 1).
Proof.
  intros Hsh H. unfold GameState.spawnTile in H.
  destruct (isFull_spec b Hsh) as (r & Hfull & Hiff). rewrite Hfull in H.
  cbn [mbind option_bind] in H. destruct r; cbn [negb] in H.
  { injection H as <- <-. left. split; [|done]. exact (proj1 Hiff eq_refl). }
  right.
  destruct (GameState.spawnTile_loop _ _ rs) as [[index rs1]|] eqn:Hloop;
    cbn [mbind option_bind] in H; [|done].
  apply spawnTile_loop_inv in Hloop as (pre & d & x & -> & -> & Hx & He & Hpre).
  rewrite Hx in H. cbn [mbind option_bind] in H.
  destruct (Tile.spawn x rs1) as [[x' rs2]|] eqn:Hsp; cbn [mbind option_bind] in H; [|done].
  injection H as <- <-. apply Tile_spawn_inv in Hsp as (e & -> & ->).
  pose proof (tileAt_Some _ _ _ Hx) as [Hi Hx'].
  assert (Hnx : ¬ occupied x).
  { intros Ho. apply isEmpty_true in He. by destruct Ho. }
  exists (Z.to_nat (drawnCell (GameState.boardSize b) d)), x, pre, d, e.
  split; [done|]. split.
  { eapply Forall_impl; [exact Hpre|]. intros d' (y & Hy & Hey).
    apply tileAt_Some in Hy as [_ Hy]. exists y. split; [done|]. by apply isEmpty_false. }
  split; [lia|]. split; [done|]. split; [done|]. split; [apply drawnLevel_range|].
  split; [done|]. cbn [GameState.tiles GameState.withTiles].
  unfold GameState.setTile. by apply tileCount_spawn.
Qed.

Lemma spawnTile_effect_witness :
  let b' := GameState.withTiles exampleBoard
              (<[5%nat := spawned (Tile.new 5) 1]> (GameState.tiles exampleBoard)) in
  (full exampleBoard ∧ b' = exampleBoard ∧ [] = [0; 5; 0]%nat) ∨
  (∃ k x pre d e,
     [0; 5; 0]%nat = pre ++ d :: e :: [] ∧
     Forall (λ d', ∃ y, GameState.tiles exampleBoard
                          !! Z.to_nat (drawnCell (GameState.boardSize exampleBoard) d')
                        = Some y ∧ occupied y) pre ∧
     Z.of_nat k = drawnCell (GameState.boardSize exampleBoard) d ∧
     GameState.tiles exampleBoard !! k = Some x ∧ ¬ occupied x ∧
     (drawnLevel e = 1 ∨ drawnLevel e = 2)%nat ∧
     b' = GameState.withTiles exampleBoard
            (<[k := spawned x (drawnLevel e)]> (GameState.tiles exampleBoard)) ∧
     tileCount (GameState.tiles b') = tileCount (GameState.tiles exampleBoard) + 1).
Proof.
  apply (spawnTile_effect exampleBoard [0; 5; 0]%nat).
  - reflexivity.
  - reflexivity.
Defined.

(** The constructor: a board of the given dimensions with score 0 and
    status [InProgress], on which two cells (all cells, if there are fewer
    than two) hold a [Spawned] tile of level 1 or 2 without history and
    every other cell is free. *)
Theorem new_board r c t rs b rs' :
  GameState.new r c t rs = Some (b, rs') →
  GameState.rows b = r ∧ GameState.columns b = c ∧
  GameState.targetTileLevel b = t ∧ GameState.score b = 0 ∧
  GameState.status b = GameStatus.InProgress ∧
  length (GameState.tiles b) = Z.to_nat (r * c) ∧
  tileCount (GameState.tiles b) = Z.min 2 (Z.of_nat (length (GameState.tiles b))) ∧
  ∀ k x, GameState.tiles b !! k = Some x →
    x = Tile.new k ∨ ∃ l, (l = 1 ∨ l = 2)%nat ∧ x = spawned (Tile.new k) l.
Proof.
  intros Hnew. pose proof (new_count _ _ _ _ _ _ Hnew) as Hcount.
  apply new_inv in Hnew as (Hr & Hc & Ht & Hs & Hst & Hsh & Hts).
  do 5 (split; [done|]). split.
  { unfold shaped, GameState.boardSize in Hsh. by rewrite Hsh, Hr, Hc. }
  by split.
Qed.

Lemma new_board_witness :
  GameState.rows exampleBoard = 4 ∧ GameState.columns exampleBoard = 4 ∧
  GameState.targetTileLevel exampleBoard = 11 ∧ GameState.score exampleBoard = 0 ∧
  GameState.status exampleBoard = GameStatus.InProgress ∧
  length (GameState.tiles exampleBoard) = Z.to_nat (4 * 4) ∧
  tileCount (GameState.tiles exampleBoard)
  = Z.min 2 (Z.of_nat (length (GameState.tiles exampleBoard))) ∧
  ∀ k x, GameState.tiles exampleBoard !! k = Some x →
    x = Tile.new k ∨ ∃ l, (l = 1 ∨ l = 2)%nat ∧ x = spawned (Tile.new k) l.
Proof.
  apply (new_board 4 4 11 [0; 0; 1; 0]%nat exampleBoard []). reflexivity.
Defined.

Lemma equals_decides b1 b2 :
  shaped b1 → shaped b2 →
  ∃ r, GameState.equals b1 b2 = Some r ∧
       (r = true ↔ GameState.rows b1 = GameState.rows b2 ∧
                   GameState.columns b1 = GameState.columns b2 ∧
                   GameState.score b1 = GameState.score b2 ∧
                   Forall2 (λ x y, Tile.index x = Tile.index y ∧ Tile.level x = Tile.level y)
                     (GameState.tiles b1) (GameState.tiles b2)).
Proof.
  intros Hsh1 Hsh2.
  destruct (decide (GameState.rows b1 = GameState.rows b2 ∧
                    GameState.columns b1 = GameState.columns b2)) as [[Hr Hc]|Hn].
  - assert (Hlen : length (GameState.tiles b2) = length (GameState.tiles b1)).
    { unfold shaped, GameState.boardSize in *. by rewrite Hsh1, Hsh2, Hr, Hc. }
    destruct (equals_spec b1 b2 Hsh1) as (r & Hr' & Hiff); [by split|done|].
    exists r. split; [done|]. rewrite Hiff. split.
    + intros [Hs Hall]. do 3 (split; [done|]).
      apply Forall2_same_length_lookup. split; [done|]. intros k x y Hx Hy. by eapply Hall.
    + intros (_ & _ & Hs & HF). split; [done|]. intros k x y Hx Hy.
      rewrite Forall2_lookup in HF. specialize (HF k). rewrite Hx, Hy in HF.
      by inversion HF.
  - exists false. split.
    + unfold GameState.equals.
      destruct (decide (GameState.rows b1 = GameState.rows b2)) as [Hr|Hr].
      * rewrite (bool_decide_eq_false_2 (GameState.columns b1 = _)) by (intros ?; by apply Hn).
        by rewrite andb_false_r.
      * rewrite (bool_decide_eq_false_2 (GameState.rows b1 = _)) by done.
        by rewrite andb_false_r.
    + split; [done|]. intros (Hr & Hc & _). by destruct Hn.
Qed.

(** [equals] compares the dimensions, the score and, cell by cell, the index
    and the level; the status of the board, its target, and the status and
    the history of the tiles play no part.  It is an equivalence on boards
    with one tile per cell. *)
Theorem equals_equivalence b1 b2 b3 :
  shaped b1 → shaped b2 → shaped b3 →
  (∃ r, GameState.equals b1 b2 = Some r ∧
     (r = true ↔ GameState.rows b1 = GameState.rows b2 ∧
                 GameState.columns b1 = GameState.columns b2 ∧
                 GameState.score b1 = GameState.score b2 ∧
                 Forall2 (λ x y, Tile.index x = Tile.index y ∧ Tile.level x = Tile.level y)
                   (GameState.tiles b1) (GameState.tiles b2))) ∧
  GameState.equals b1 b1 = Some true ∧
  GameState.equals b2 b1 = GameState.equals b1 b2 ∧
  (GameState.equals b1 b2 = Some true → GameState.equals b2 b3 = Some true →
   GameState.equals b1 b3 = Some true).
Proof.
  intros H1 H2 H3. split; [by apply equals_decides|].
  destruct (equals_decides b1 b1 H1 H1) as (r11 & E11 & I11).
  destruct (equals_decides b1 b2 H1 H2) as (r12 & E12 & I12).
  destruct (equals_decides b2 b1 H2 H1) as (r21 & E21 & I21).
  destruct (equals_decides b2 b3 H2 H3) as (r23 & E23 & I23).
  destruct (equals_decides b1 b3 H1 H3) as (r13 & E13 & I13).
  split.
  { rewrite E11. f_equal. apply I11. do 3 (split; [done|]).
    apply Forall2_same_length_lookup. split; [done|]. intros k x y Hx Hy.
    rewrite Hx in Hy. by injection Hy as <-. }
  split.
  { rewrite E12, E21. f_equal. apply eq_true_iff_eq. rewrite I12, I21. split.
    - intros (? & ? & ? & HF). do 3 (split; [done|]). apply Forall2_flip.
      eapply Forall2_impl; [exact HF|]. intros x y [? ?]. by split.
    - intros (? & ? & ? & HF). do 3 (split; [done|]). apply Forall2_flip.
      eapply Forall2_impl; [exact HF|]. intros x y [? ?]. by split. }
  { rewrite E12, E23, E13. intros [= ->] [= ->]. f_equal. apply I13.
    destruct (proj1 I12 eq_refl) as (? & ? & ? & HF1).
    destruct (proj1 I23 eq_refl) as (? & ? & ? & HF2).
    split; [congruence|]. split; [congruence|]. split; [congruence|].
    eapply Forall2_trans; [|exact HF1|exact HF2].
    intros x y z [? ?] [? ?]. split; congruence. }
Qed.

Lemma equals_equivalence_witness :
  (∃ r, GameState.equals exampleBoard exampleUp = Some r ∧
     (r = true ↔ GameState.rows exampleBoard = GameState.rows exampleUp ∧
                 GameState.columns exampleBoard = GameState.columns exampleUp ∧
                 GameState.score exampleBoard = GameState.score exampleUp ∧
                 Forall2 (λ x y, Tile.index x = Tile.index y ∧ Tile.level x = Tile.level y)
                   (GameState.tiles exampleBoard) (GameState.tiles exampleUp))) ∧
  GameState.equals exampleBoard exampleBoard = Some true ∧
  GameState.equals exampleUp exampleBoard = GameState.equals exampleBoard exampleUp ∧
  (GameState.equals exampleBoard exampleUp = Some true →
   GameState.equals exampleUp exampleAfter = Some true →
   GameState.equals exampleBoard exampleAfter = Some true).
Proof. apply (equals_equivalence exampleBoard exampleUp exampleAfter); reflexivity. Defined.

(** [clone] copies the dimensions, the target, the score and the tiles, but
    not the status: the clone of a board that is won or lost is in progress
    again.  A board and its clone are [equals], either way round. *)
Theorem clone_board b rs c rs' :
  shaped b → GameState.clone b rs = Some (c, rs') →
  c = GameState.withStatus b GameStatus.InProgress ∧
  GameState.equals b c = Some true ∧ GameState.equals c b = Some true.
Proof.
  intros Hsh Hc. pose proof (clone_inv _ _ _ _ Hsh Hc) as ->. split; [done|].
  set (c := GameState.withStatus b GameStatus.InProgress).
  assert (Hshc : shaped c) by done.
  assert (HF : Forall2 (λ x y, Tile.index x = Tile.index y ∧ Tile.level x = Tile.level y)
                 (GameState.tiles b) (GameState.tiles b)).
  { apply Forall2_same_length_lookup. split; [done|]. intros k x y Hx Hy.
    rewrite Hx in Hy. by injection Hy as <-. }
  destruct (equals_decides b c Hsh Hshc) as (r1 & E1 & I1).
  destruct (equals_decides c b Hshc Hsh) as (r2 & E2 & I2).
  rewrite E1, E2. split; f_equal; [apply I1|apply I2]; by repeat split.
Qed.

Lemma clone_board_witness :
  exampleBoard = GameState.withStatus exampleBoard GameStatus.InProgress ∧
  GameState.equals exampleBoard exampleBoard = Some true ∧
  GameState.equals exampleBoard exampleBoard = Some true.
Proof.
  apply (clone_board exampleBoard [0; 0; 1; 0]%nat exampleBoard []); reflexivity.
Defined.

(** The histories [gravitate] writes account for every tile of the board it
    was given exactly once: a tile that was in cell [i] is entry [k] of the
    history of exactly one tile of the result, with the level it had; and
    every entry of a history names a cell that held a tile. *)
Theorem gravitate_history dir b h :
  wf b →
  ∃ b' h', GameState.gravitate dir (b, h) = Some (b', h') ∧
    (∀ i x0, GameState.tiles b !! i = Some x0 → occupied x0 →
       ∃ j x a l k,
         GameState.tiles b' !! j = Some x ∧ occupied x ∧ hist h' x = Some (a, l) ∧
         a !! k = Some (Some i) ∧ l !! k = Some (Tile.level x0) ∧
         ∀ j2 x2 a2 l2 k2,
           GameState.tiles b' !! j2 = Some x2 → occupied x2 →
           hist h' x2 = Some (a2, l2) → a2 !! k2 = Some (Some i) →
           j2 = j ∧ k2 = k) ∧
    (∀ j x a l k v,
       GameState.tiles b' !! j = Some x → occupied x → hist h' x = Some (a, l) →
       a !! k = Some v →
       ∃ i x0, v = Some i ∧ GameState.tiles b !! i = Some x0 ∧ occupied x0 ∧
               l !! k = Some (Tile.level x0)).
Proof.
  intros Hwf. pose proof (wf_shaped _ Hwf) as Hsh. pose proof (wf_TilesWf _ Hwf) as HW.
  destruct (gravitate_total dir b h Hsh) as [[b' h'] Hg].
  exists b', h'. split; [done|].
  pose proof (gravitate_Covered _ _ _ _ _ Hsh Hg) as HC.
  destruct (gravitate_summary _ _ _ _ _ Hsh Hg)
    as (_ & _ & _ & _ & _ & [HT _] & _ & _ & _ & HO & _).
  destruct (HO HW) as [_ HOr]. clear HO.
  unfold Covered, Orig in *. cbn [fst snd] in *.
  (* what the history of a tile of the result holds *)
  assert (Hent : ∀ j x a l k v,
            GameState.tiles b' !! j = Some x → occupied x → hist h' x = Some (a, l) →
            a !! k = Some v →
            ∃ i x0, v = Some i ∧ GameState.tiles b !! i = Some x0 ∧ occupied x0 ∧
                    l !! k = Some (Tile.level x0)).
  { intros j x a l k v Hx Ho Hh Hk.
    destruct (HT _ _ Hx Ho) as (p & q & Hp & Hq & _ & _ & _ & HTr).
    unfold hist in Hh. rewrite Hp, Hq in Hh. cbn in Hh.
    unfold Truthful in HTr. destruct (decide _) as [HM|HM].
    - destruct HTr as (ia & ic & xa & xc & Hxa & Hxc & Hoa & Hoc & Hha & Hhl & _).
      rewrite Hha, Hhl in Hh. cbn in Hh. injection Hh as <- <-.
      destruct (HW _ _ Hxa) as [Hia _]. destruct (HW _ _ Hxc) as [Hic _].
      apply pair_lookup in Hk as [[-> ->]|[-> ->]].
      + exists ia, xa. by rewrite Hia.
      + exists ic, xc. by rewrite Hic.
    - destruct HTr as (ia & xa & Hxa & Hoa & Hha & Hhl & _).
      rewrite Hha, Hhl in Hh. cbn in Hh. injection Hh as <- <-.
      destruct (HW _ _ Hxa) as [Hia _].
      apply singleton_lookup in Hk as [-> ->].
      exists ia, xa. by rewrite Hia. }
  split; [|exact Hent].
  intros i x0 Hx0 Ho0.
  destruct (HC _ _ Hx0 Ho0) as (j & x & p & a & k & Hx & Ho & Hp & Ha & Hk).
  destruct (HW _ _ Hx0) as [Hi0 _]. rewrite Hi0 in Hk.
  destruct (HT _ _ Hx Ho) as (p' & q & Hp' & Hq & _ & _ & _ & HTr).
  assert (p' = p) by congruence. subst p'.
  assert (∃ l, h' !! q = Some l) as [l Hl].
  { unfold Truthful in HTr. destruct (decide _); [destruct HTr as (?&?&?&?&?&?&?&?&?&?&?)
                                                 |destruct HTr as (?&?&?&?&?&?&?)]; eauto. }
  assert (Hh : hist h' x = Some (a, l)).
  { unfold hist. rewrite Hp, Hq. cbn. rewrite Ha, Hl. done. }
  exists j, x, a, l, k. split; [done|]. split; [done|]. split; [done|]. split; [done|].
  split.
  - destruct (Hent _ _ _ _ _ _ Hx Ho Hh Hk) as (i' & x0' & [= <-] & Hx0' & _ & Hlk).
    congruence.
  - intros j2 x2 a2 l2 k2 Hx2 Ho2 Hh2 Hk2.
    unfold hist in Hh2.
    destruct (Tile.prevIndex x2) as [p2|] eqn:Hp2; cbn in Hh2; [|done].
    destruct (Tile.prevLevel x2) as [q2|]; cbn in Hh2; [|done].
    destruct (h' !! p2) as [a2'|] eqn:Ha2; cbn in Hh2; [|done].
    destruct (h' !! q2); cbn in Hh2; [|done]. injection Hh2 as <- <-.
    exact (HOr _ _ _ _ _ _ _ _ _ _ _ Hx2 Hx Ho2 Ho Hp2 Hp Ha2 Ha Hk2 Hk).
Qed.

Lemma gravitate_history_witness :
  ∃ b' h', GameState.gravitate Direction.Left (exampleBoard, []) = Some (b', h') ∧
    (∀ i x0, GameState.tiles exampleBoard !! i = Some x0 → occupied x0 →
       ∃ j x a l k,
         GameState.tiles b' !! j = Some x ∧ occupied x ∧ hist h' x = Some (a, l) ∧
         a !! k = Some (Some i) ∧ l !! k = Some (Tile.level x0) ∧
         ∀ j2 x2 a2 l2 k2,
           GameState.tiles b' !! j2 = Some x2 → occupied x2 →
           hist h' x2 = Some (a2, l2) → a2 !! k2 = Some (Some i) →
           j2 = j ∧ k2 = k) ∧
    (∀ j x a l k v,
       GameState.tiles b' !! j = Some x → occupied x → hist h' x = Some (a, l) →
       a !! k = Some v →
       ∃ i x0, v = Some i ∧ GameState.tiles exampleBoard !! i = Some x0 ∧ occupied x0 ∧
               l !! k = Some (Tile.level x0)).
Proof. apply (gravitate_history Direction.Left exampleBoard []). apply exampleBoard_wf. Defined.

(** * Further properties of the drawing *)

(** Once the moving phase of the animation is over (progress above 1/2), a
    board of the game is drawn cell by cell: nothing for a free cell, and for
    a tile only calls that draw in the cell of the tile, the last of them,
    which is the one seen, with the level of the tile.  At progress 1 every
    tile is drawn at its full size. *)
Theorem draw_settled g b h p :
  reachable b h →
  GameGraphicsController.rows g = GameState.rows b →
  GameGraphicsController.columns g = GameState.columns b →
  (1 # 2 < p)%Q →
  ∃ css, GameGraphicsController.draw g b h p = Some (concat css) ∧
    length css = length (GameState.tiles b) ∧
    ∀ k x cs, GameState.tiles b !! k = Some x → css !! k = Some cs →
      if decide (occupied x) then
        (∀ c, c ∈ cs → atCell (GameState.columns b) k c ∧
                       ((p == 1)%Q → (GameGraphicsController.scale c == 1)%Q)) ∧
        GameGraphicsController.tileLevel <$> last cs = Some (Tile.level x)
      else cs = [].
Proof.
  intros Hr Hgr Hgc Hp.
  destruct (reachable_inv _ _ Hr) as ((Hrows & Hcols & Hsh & HW) & _ & _).
  destruct (drawTiles_Recorded g b h p Hsh) as (css & Hdraw & Hcss);
    [lia|done|done|done|by intros k x Hx; eapply reachable_Recorded|].
  exists css. split; [done|]. split; [symmetry; by eapply Forall2_length|].
  intros k x cs Hx Hcs.
  pose proof (Forall2_lookup_lr _ _ _ k x cs Hcss Hx Hcs) as Hd. clear Hcss Hdraw.
  destruct (HW _ _ Hx) as [Hk _]. unfold drawnAs in Hd. rewrite Hk in Hd.
  assert (HC : 0 < GameGraphicsController.columns g) by lia.
  rewrite <- Hgc.
  assert (Hslide : ∀ prev lv c, c = sliding g p k prev lv →
            atCell (GameGraphicsController.columns g) k c ∧
            ((p == 1)%Q → (GameGraphicsController.scale c == 1)%Q)).
  { intros prev lv c ->. destruct (sliding_late g p k prev lv HC Hp) as (? & _ & ?). done. }
  assert (Happ : ∀ st lv c, c ∈ appearing g p k st lv →
            atCell (GameGraphicsController.columns g) k c ∧
            ((p == 1)%Q → (GameGraphicsController.scale c == 1)%Q)).
  { intros st lv c Hc. destruct (appearing_late g p k st lv c HC Hp Hc) as (? & _ & ?). done. }
  assert (Hlate : Qle_bool p GameGraphicsController.movingPhaseEnd = false).
  { apply not_true_is_false. intros H%Qle_bool_iff.
    unfold GameGraphicsController.movingPhaseEnd in H. by apply Qle_not_lt in H. }
  destruct (Tile.status x) eqn:Hs.
  - rewrite decide_False; [done|]. unfold occupied. rewrite Hs. by intros ?.
  - rewrite decide_True by (unfold occupied; by rewrite Hs). subst cs. split.
    + intros c Hc. by eapply Happ.
    + unfold appearing. rewrite Hlate. done.
  - rewrite decide_True by (unfold occupied; by rewrite Hs).
    destruct Hd as (i & _ & ->). split; [|done].
    intros c ->%list_elem_of_singleton. by eapply Hslide.
  - rewrite decide_True by (unfold occupied; by rewrite Hs).
    destruct Hd as (i & _ & ->). split; [|done].
    intros c ->%list_elem_of_singleton. by eapply Hslide.
  - rewrite decide_True by (unfold occupied; by rewrite Hs).
    destruct Hd as (i & j & l & _ & _ & ->). split.
    + intros c [Hc|Hc]%elem_of_app; [|by eapply Happ].
      apply elem_of_cons in Hc as [->|Hc]; [by eapply Hslide|].
      apply list_elem_of_singleton in Hc as ->. by eapply Hslide.
    + unfold appearing. rewrite Hlate. done.
Qed.

Lemma draw_settled_witness :
  ∃ css, GameGraphicsController.draw (GameGraphicsController.mk 4 4) exampleAfter
           exampleHeap 1 = Some (concat css) ∧
    length css = length (GameState.tiles exampleAfter) ∧
    ∀ k x cs, GameState.tiles exampleAfter !! k = Some x → css !! k = Some cs →
      if decide (occupied x) then
        (∀ c, c ∈ cs → atCell (GameState.columns exampleAfter) k c ∧
                       ((1 == 1)%Q → (GameGraphicsController.scale c == 1)%Q)) ∧
        GameGraphicsController.tileLevel <$> last cs = Some (Tile.level x)
      else cs = [].
Proof.
  apply (draw_settled (GameGraphicsController.mk 4 4) exampleAfter exampleHeap 1).
  - apply exampleAfter_reachable.
  - reflexivity.
  - reflexivity.
  - reflexivity.
Defined.

(** The animation of a move starts from the board as it was before the
    move: at progress 0 every tile of the old board is drawn, in the cell it
    was in, with the level it had and at full size; nothing else is drawn,
    and there are as many calls as the old board had tiles.  The tile that
    the move has spawned is not drawn yet. *)
Theorem draw_start g fuel dir b h rs changed b' h' rs' p :
  reachable b h →
  GameGraphicsController.rows g = GameState.rows b →
  GameGraphicsController.columns g = GameState.columns b →
  GameState.move fuel dir b (h, rs) = Some (changed, b', (h', rs')) →
  (p == 0)%Q →
  ∃ calls, GameGraphicsController.draw g b' h' p = Some calls ∧
    Z.of_nat (length calls) = tileCount (GameState.tiles b) ∧
    (∀ i x0, GameState.tiles b !! i = Some x0 → occupied x0 →
       ∃ c, c ∈ calls ∧ atCell (GameState.columns b) i c ∧
            GameGraphicsController.tileLevel c = Tile.level x0 ∧
            (GameGraphicsController.scale c == 1)%Q) ∧
    (∀ c, c ∈ calls →
       ∃ i x0, GameState.tiles b !! i = Some x0 ∧ occupied x0 ∧
               atCell (GameState.columns b) i c ∧
               GameGraphicsController.tileLevel c = Tile.level x0 ∧
               (GameGraphicsController.scale c == 1)%Q).
Proof.
  intros Hr Hgr Hgc Hmv Hp.
  destruct (reachable_inv _ _ Hr) as (Hwf & _ & Hhs).
  pose proof (historyShape_EmptyClean _ _ Hhs) as Hec.
  pose proof (wf_TilesWf _ Hwf) as HW.
  destruct (move_histories _ _ _ _ _ _ _ _ _ Hwf Hec Hmv) as ([Hdr Hdc] & HT & HCov & Hsum).
  pose proof (reachable_move _ _ _ _ _ _ _ _ _ Hr Hmv) as Hr'.
  destruct (reachable_inv _ _ Hr') as ((Hrows & Hcols & Hsh' & HW') & _ & _).
  destruct (drawTiles_Recorded g b' h' p Hsh') as (css & Hdraw & Hcss);
    [lia|done|congruence|congruence|by intros k x Hx; eapply reachable_Recorded|].
  assert (HC : 0 < GameGraphicsController.columns g) by lia.
  rewrite <- Hgc.
  (* a call of the picture, in terms of the histories of the new board *)
  assert (Hcall : ∀ c, c ∈ concat css ↔
            ∃ j x a l k i lv, GameState.tiles b' !! j = Some x ∧ occupied x ∧
              Tile.status x ≠ TileStatus.Spawned ∧ hist h' x = Some (a, l) ∧
              a !! k = Some (Some i) ∧ l !! k = Some lv ∧ c = sliding g p j i lv).
  { intros c. rewrite elem_of_concat. split.
    - intros (j & cs & Hcs & Hc).
      destruct (Forall2_lookup_r _ _ _ _ _ Hcss Hcs) as (x & Hx & Hd).
      destruct (drawnAs_start _ _ _ _ _ Hp Hd) as [_ Hiff].
      destruct (proj1 (Hiff c) Hc) as (Ho & Hns & a & l & k & i & lv & Hh & Hk & Hl & ->).
      destruct (HW' _ _ Hx) as [-> _]. by exists j, x, a, l, k, i, lv.
    - intros (j & x & a & l & k & i & lv & Hx & Ho & Hns & Hh & Hk & Hl & ->).
      destruct (Forall2_lookup_l _ _ _ _ _ Hcss Hx) as (cs & Hcs & Hd).
      destruct (drawnAs_start _ _ _ _ _ Hp Hd) as [_ Hiff].
      exists j, cs. split; [done|]. apply Hiff. split; [done|]. split; [done|].
      destruct (HW' _ _ Hx) as [-> _]. by exists a, l, k, i, lv. }
  (* an entry of a history of the new board, in terms of the old board *)
  assert (Hentry : ∀ j x a l k v, GameState.tiles b' !! j = Some x → occupied x →
            Tile.status x ≠ TileStatus.Spawned → hist h' x = Some (a, l) →
            a !! k = Some v →
            ∃ i x0, v = Some i ∧ GameState.tiles b !! i = Some x0 ∧ occupied x0 ∧
                    l !! k = Some (Tile.level x0)).
  { intros j x a l k v Hx Ho Hns Hh Hk.
    destruct (HT _ _ Hx Ho Hns) as (pi & q & Hpi & Hq & HTr).
    unfold hist in Hh. rewrite Hpi, Hq in Hh. cbn in Hh.
    destruct (h' !! pi) as [a'|] eqn:Ha; cbn in Hh; [|done].
    destruct (h' !! q) as [l'|] eqn:Hl; cbn in Hh; [|done].
    injection Hh as -> ->. by eapply Truthful_entry. }
  exists (concat css). split; [done|]. split; [|split].
  - rewrite <- Hsum. apply length_concat_sum. eapply Forall2_impl; [exact Hcss|].
    intros x cs Hd. by destruct (drawnAs_start _ _ _ _ _ Hp Hd).
  - intros i x0 Hx0 Ho0.
    destruct (HCov _ _ Hx0 Ho0) as (j & x & pi & a & k & Hx & Ho & Hns & Hpi & Ha & Hk).
    destruct (HT _ _ Hx Ho Hns) as (pi' & q & Hpi' & Hq & HTr).
    assert (pi' = pi) by congruence. subst pi'.
    destruct (Truthful_arrays _ _ _ _ _ HTr) as (a' & l & Ha' & Hl).
    assert (a' = a) by congruence. subst a'.
    assert (Hh : hist h' x = Some (a, l)).
    { unfold hist. rewrite Hpi, Hq. cbn. rewrite Ha, Hl. done. }
    destruct (Hentry _ _ _ _ _ _ Hx Ho Hns Hh Hk) as (i' & x0' & [= <-] & Hx0' & _ & Hlk).
    assert (x0' = x0) by congruence. subst x0'.
    exists (sliding g p j i (Tile.level x0)). split.
    + apply Hcall. by exists j, x, a, l, k, i, (Tile.level x0).
    + by apply sliding_rest.
  - intros c (j & x & a & l & k & i & lv & Hx & Ho & Hns & Hh & Hk & Hl & ->)%Hcall.
    destruct (Hentry _ _ _ _ _ _ Hx Ho Hns Hh Hk) as (i' & x0 & [= <-] & Hx0 & Ho0 & Hlk).
    assert (lv = Tile.level x0) by congruence. subst lv.
    exists i, x0. split; [done|]. split; [done|]. by apply sliding_rest.
Qed.

Lemma draw_start_witness :
  ∃ calls, GameGraphicsController.draw (GameGraphicsController.mk 4 4) exampleAfter
             exampleHeap 0 = Some calls ∧
    Z.of_nat (length calls) = tileCount (GameState.tiles exampleBoard) ∧
    (∀ i x0, GameState.tiles exampleBoard !! i = Some x0 → occupied x0 →
       ∃ c, c ∈ calls ∧ atCell (GameState.columns exampleBoard) i c ∧
            GameGraphicsController.tileLevel c = Tile.level x0 ∧
            (GameGraphicsController.scale c == 1)%Q) ∧
    (∀ c, c ∈ calls →
       ∃ i x0, GameState.tiles exampleBoard !! i = Some x0 ∧ occupied x0 ∧
               atCell (GameState.columns exampleBoard) i c ∧
               GameGraphicsController.tileLevel c = Tile.level x0 ∧
               (GameGraphicsController.scale c == 1)%Q).
Proof.
  apply (draw_start (GameGraphicsController.mk 4 4) 1 Direction.Left exampleBoard []
           exampleDraws true exampleAfter exampleHeap []).
  - apply exampleBoard_reachable.
  - reflexivity.
  - reflexivity.
  - reflexivity.
  - reflexivity.
Defined.

(** A snapshot queued for the animation can be drawn at any progress and
    whatever has been played since it was taken: the drawing returns, and
    the picture is the one the board gave at the moment of the snapshot,
    although the snapshot shares its history arrays with the live board. *)
Theorem draw_snapshot g b h rs0 c rs ops b' h' rs' p :
  reachable b h →
  GameGraphicsController.rows g = GameState.rows b →
  GameGraphicsController.columns g = GameState.columns b →
  GameState.clone b rs0 = Some (c, rs) →
  Forall (λ o, ¬ isMerge o) ops →
  runOps ops (b, (h, rs)) = Some (b', (h', rs')) →
  ∃ calls, GameGraphicsController.draw g c h' p = Some calls ∧
           GameGraphicsController.draw g b h p = Some calls.
Proof.
  intros Hr Hgr Hgc Hc Hops Hrun.
  destruct (reachable_inv _ _ Hr) as ((Hrows & Hcols & Hsh & HW) & _ & _).
  pose proof (clone_inv _ _ _ _ Hsh Hc) as ->.
  pose proof (runOps_frame _ _ _ _ _ _ _ Hops Hsh Hrun) as Hext.
  destruct (drawTiles_Recorded g b h p Hsh) as (css & Hdraw & _);
    [lia|done|done|done|by intros k x Hx; eapply reachable_Recorded|].
  exists (concat css). split; [|done].
  unfold GameGraphicsController.draw. rewrite <- Hdraw.
  apply drawTiles_ext. intros k. unfold GameGraphicsController.drawCell.
  cbn [GameState.tiles GameState.withStatus].
  destruct (GameState.tileAt (GameState.tiles b) k) as [x|] eqn:Hx; [|done]. cbn.
  destruct (Tile.isEmpty x) eqn:He; [done|]. cbn.
  apply isEmpty_false in He. apply drawAnimatedTile_heapExt; [done|done|].
  apply tileAt_Some in Hx as [_ Hx]. by eapply reachable_Recorded.
Qed.

Lemma draw_snapshot_witness :
  ∃ calls, GameGraphicsController.draw (GameGraphicsController.mk 4 4)
             (GameState.withStatus exampleAfter GameStatus.InProgress)
             exampleSecondHeap (1 # 4) = Some calls ∧
           GameGraphicsController.draw (GameGraphicsController.mk 4 4) exampleAfter
             exampleHeap (1 # 4) = Some calls.
Proof.
  apply (draw_snapshot (GameGraphicsController.mk 4 4) exampleAfter exampleHeap
           ([0; 0; 1; 0]%nat ++ exampleSecondDraws)
           (GameState.withStatus exampleAfter GameStatus.InProgress) exampleSecondDraws
           [Move 1 Direction.Right] exampleSecond exampleSecondHeap [] (1 # 4)).
  - apply exampleAfter_reachable.
  - reflexivity.
  - reflexivity.
  - reflexivity.
  - repeat constructor. simpl. tauto.
  - reflexivity.
Defined.

(** * Further properties of the end of the game *)

Lemma exampleSmall_reachable h : reachable exampleSmall h.
Proof.
  by apply (reachable_new 1 2 11 [0; 0; 1; 0]%nat exampleSmall [] h).
Qed.

Lemma exampleLost_reachable : reachable exampleLost exampleLostHeap.
Proof.
  apply (reachable_move 2 Direction.Right exampleSmall [] exampleLostDraws true
           exampleLost exampleLostHeap []).
  - apply exampleSmall_reachable.
  - reflexivity.
Qed.

(** On a board of more than two cells the status of a game is [Lost]
    exactly when the board is stuck: full, with no two neighbouring tiles of
    the same level. *)
Theorem lost_iff_stuck b h :
  reachable b h → 2 < GameState.boardSize b →
  GameState.status b = GameStatus.Lost ↔ stuck b.
Proof.
  intros Hr Hs. destruct (reachable_Lost _ _ Hr) as [H1 H2]. split; [done|by apply H2].
Qed.

Lemma lost_iff_stuck_witness :
  GameState.status exampleAfter = GameStatus.Lost ↔ stuck exampleAfter.
Proof.
  apply (lost_iff_stuck exampleAfter exampleHeap).
  - apply exampleAfter_reachable.
  - reflexivity.
Defined.

(** A lost game stays lost: on a [Lost] board every move reports no change
    and leaves the status, the score and the level of every cell as they
    were. *)
Theorem lost_is_final fuel dir b h rs changed b' h' rs' :
  reachable b h → GameState.status b = GameStatus.Lost →
  GameState.move fuel dir b (h, rs) = Some (changed, b', (h', rs')) →
  changed = false ∧ GameState.status b' = GameStatus.Lost ∧
  levels b' = levels b ∧ GameState.score b' = GameState.score b.
Proof.
  intros Hr HL Hmv. destruct (reachable_inv _ _ Hr) as ((Hrows & Hcols & Hsh & _) & _ & _).
  destruct (reachable_Lost _ _ Hr) as [Hstk _]. specialize (Hstk HL).
  pose proof (move_stuck _ _ _ _ _ _ _ _ Hsh Hcols Hstk Hmv) as ->.
  split; [done|]. destruct fuel as [|fuel]; [done|].
  apply move_inv in Hmv as (rs1 & b1 & h1 & same & _ & Hg & He & Hch & Hsame & _); [|done].
  destruct same; [|done]. destruct (Hsame eq_refl) as (-> & -> & ->).
  destruct (gravitate_summary _ _ _ _ _ Hsh Hg) as (Hd1 & Hl1 & _ & Hst1 & _).
  pose proof (gravitate_shaped _ _ _ _ _ Hsh Hg) as Hsh1.
  destruct (equals_levels b1 (GameState.withStatus b GameStatus.InProgress) Hsh1)
    as [Hlv Hsc]; [by destruct Hd1; split|done|done|].
  split; [congruence|]. done.
Qed.

Lemma lost_is_final_witness :
  ∃ b' h',
    GameState.move 1 Direction.Left exampleLost (exampleLostHeap, [0; 0; 1; 0]%nat)
    = Some (false, b', (h', [])) ∧
    false = false ∧ GameState.status b' = GameStatus.Lost ∧
    levels b' = levels exampleLost ∧ GameState.score b' = GameState.score exampleLost.
Proof.
  eexists _, _. split; [reflexivity|].
  eapply (lost_is_final 1 Direction.Left exampleLost exampleLostHeap [0; 0; 1; 0]%nat).
  - apply exampleLost_reachable.
  - reflexivity.
  - reflexivity.
Defined.

(** A board of a single cell: the constructor fills the cell, and from then
    on the board is stuck, yet the game is never lost: the status stays
    [InProgress] whatever is played. *)
Theorem one_cell_game b h :
  reachable b h → GameState.boardSize b = 1 →
  stuck b ∧ GameState.status b = GameStatus.InProgress.
Proof.
  induction 1 as [r c t rs b rs' h Hr Hc Hnew
                 |fuel dir b h rs changed b' h' rs' Hre IH Hmv]; intros Hsize.
  - pose proof (new_count _ _ _ _ _ _ Hnew) as Hcount.
    apply new_inv in Hnew as (_ & Hcb & _ & _ & Hst & Hsh & _).
    split; [|done]. unfold shaped in Hsh. split.
    + apply tileCount_full. lia.
    + intros i j x y Hn Hx Hy. exfalso.
      apply lookup_lt_Some in Hx, Hy.
      assert (i = 0%nat ∧ j = 0%nat) as [-> ->] by lia.
      unfold GameState.areNeighboring in Hn. cbn in Hn.
      rewrite Z.rem_0_l, Z.div_0_l in Hn by lia. done.
  - destruct (reachable_inv _ _ Hre) as (Hwf & _ & _).
    pose proof Hwf as (Hrows & Hcols & Hsh & _).
    pose proof (move_wf _ _ _ _ _ _ _ _ _ Hwf Hmv) as Hwf'.
    destruct fuel as [|fuel]; [done|]. pose proof Hmv as Hmv0.
    apply move_inv in Hmv as (rs1 & b1 & h1 & same & _ & Hg & He & -> & Hsame & _); [|done].
    destruct (gravitate_summary _ _ _ _ _ Hsh Hg) as (Hd1 & Hl1 & _ & Hst1 & _).
    pose proof (gravitate_shaped _ _ _ _ _ Hsh Hg) as Hsh1.
    assert (Hsize1 : GameState.boardSize b1 = GameState.boardSize b).
    { destruct Hd1 as [Hr1 Hc1]. unfold GameState.boardSize. by rewrite Hr1, Hc1. }
    assert (Hsizeb : GameState.boardSize b = 1).
    { destruct (move_sameDims _ _ _ _ _ _ _ _ _ Hsh Hmv0) as [Hr' Hc'].
      unfold GameState.boardSize in *. by rewrite <- Hr', <- Hc'. }
    destruct (IH Hsizeb) as [Hstk Hst].
    pose proof (move_stuck _ _ _ _ _ _ _ _ Hsh Hcols Hstk Hmv0) as Hch.
    destruct same; [|done]. destruct (Hsame eq_refl) as (-> & -> & ->).
    destruct (equals_levels b1 (GameState.withStatus b GameStatus.InProgress) Hsh1)
      as [Hlv _]; [by destruct Hd1; split|done|done|].
    split; [|congruence].
    apply (stuck_levels b b1); auto.
Qed.

Lemma one_cell_game_witness :
  stuck exampleOneCell ∧ GameState.status exampleOneCell = GameStatus.InProgress.
Proof.
  apply (one_cell_game exampleOneCell []).
  - by apply (reachable_new 1 1 11 [0; 0]%nat exampleOneCell [] []).
  - reflexivity.
Defined.

(** * Further properties of the goal *)

(** In a game whose target level is above 2, the status [InProgress] means
    that no tile has reached the target level yet; with status [Won] or
    [Continued] some tile has. *)
Theorem status_goal b h :
  reachable b h → 2 < GameState.targetTileLevel b →
  (GameState.status b = GameStatus.InProgress →
   ∀ k x l, GameState.tiles b !! k = Some x → Tile.level x = Some l →
            Z.of_nat l < GameState.targetTileLevel b) ∧
  (GameState.status b = GameStatus.Won ∨ GameState.status b = GameStatus.Continued →
   ∃ k x l, GameState.tiles b !! k = Some x ∧ Tile.level x = Some l ∧
            GameState.targetTileLevel b <= Z.of_nat l).
Proof.
  intros Hr Ht. destruct (reachable_goal _ _ Hr Ht) as [H1 H2]. split; [|done].
  intros Hs k x l Hx Hl.
  destruct (Z.lt_ge_cases (Z.of_nat l) (GameState.targetTileLevel b)) as [|Hle]; [done|].
  destruct (H1 Hs). by exists k, x, l.
Qed.

Lemma status_goal_witness :
  (GameState.status exampleAfter = GameStatus.InProgress →
   ∀ k x l, GameState.tiles exampleAfter !! k = Some x → Tile.level x = Some l →
            Z.of_nat l < GameState.targetTileLevel exampleAfter) ∧
  (GameState.status exampleAfter = GameStatus.Won ∨
   GameState.status exampleAfter = GameStatus.Continued →
   ∃ k x l, GameState.tiles exampleAfter !! k = Some x ∧ Tile.level x = Some l ∧
            GameState.targetTileLevel exampleAfter <= Z.of_nat l).
Proof.
  apply (status_goal exampleAfter exampleHeap).
  - apply exampleAfter_reachable.
  - reflexivity.
Defined.

(** A move never lowers the highest level on the board: whatever level a
    tile had before the move, some tile has at least that level after it. *)
Theorem levels_never_drop fuel dir b h rs changed b' h' rs' i x0 l :
  reachable b h →
  GameState.move fuel dir b (h, rs) = Some (changed, b', (h', rs')) →
  GameState.tiles b !! i = Some x0 → Tile.level x0 = Some l →
  ∃ j x l', GameState.tiles b' !! j = Some x ∧ Tile.level x = Some l' ∧ (l ≤ l')%nat.
Proof.
  intros Hr Hmv Hx0 Hl. destruct (reachable_inv _ _ Hr) as (Hwf & _ & Hhs).
  eapply move_level_kept; eauto. by eapply historyShape_EmptyClean.
Qed.

Lemma levels_never_drop_witness :
  ∃ j x l', GameState.tiles exampleAfter !! j = Some x ∧ Tile.level x = Some l' ∧
            (1 ≤ l')%nat.
Proof.
  apply (levels_never_drop 1 Direction.Left exampleBoard [] exampleDraws true exampleAfter
           exampleHeap [] 1%nat (spawned (Tile.new 1) 1) 1%nat).
  - apply exampleBoard_reachable.
  - reflexivity.
  - reflexivity.
  - reflexivity.
Defined.

(** * Further properties of the game loop *)

(** Every tick of a session returns: given fuel for the moves and a turn of
    the loop for every queued key, any draws can be continued so that
    [tick] makes the queued moves, updates the scores and draws its frame,
    whatever keys, restarts and ticks came before. *)
Theorem tick_returns n fuel now elapsed ctl h rs :
  running ctl h →
  (length (GameInputController.moves (GameController.input ctl)) ≤ n)%nat →
  (sessionFuel (GameController.rows ctl) (GameController.columns ctl) ≤ fuel)%nat →
  ∃ e, is_Some (GameController.tick n fuel now elapsed ctl (h, rs ++ e)).
Proof.
  intros Hrun Hn Hfuel. pose proof (running_inv _ _ Hrun) as Hinv.
  destruct (doMoves_returns n fuel now ctl h rs Hinv Hn Hfuel) as (e & [[ctl1 [h1 rs1]] Hd]).
  exists e. unfold GameController.tick. rewrite Hd. cbn [mbind option_bind].
  destruct (doMoves_ctlInv _ _ _ _ _ _ _ _ _ Hinv Hd)
    as ((Hr & Hc & Hg & Hre & Hrows & Hcols & Hne & Hall) & _).
  destruct (animation_draw_returns (GameController.graphics ctl1) _ _ elapsed
              (GameController.animation ctl1) h1 Hr Hc Hg Hne Hall) as [calls Hcalls].
  cbn [fst GameController.graphics GameController.animation GameController.updateScore].
  rewrite Hcalls. done.
Qed.

Lemma exampleKeyPressed_running : running exampleKeyPressed [].
Proof.
  apply (running_key "ArrowRight" 0 exampleController [] _ false).
  - by apply (running_new 1 3 1 0 [0; 0; 1; 0; 0; 0; 1; 0]%nat exampleController [] []).
  - reflexivity.
Qed.

Lemma tick_returns_witness :
  ∃ e, is_Some (GameController.tick 1 97 0 16 exampleKeyPressed ([], [] ++ e)).
Proof.
  apply (tick_returns 1 97 0 16 exampleKeyPressed [] []).
  - apply exampleKeyPressed_running.
  - reflexivity.
  - reflexivity.
Defined.

(** After [doMoves] the queue of key presses is empty.  If it was not empty
    before and the game is in status [Won] afterwards, be it that a move has
    just won the game or that a key was pressed while the game was won and
    before a move had changed the board, then the remaining keys were dropped
    and every key pressed during the next 2500 milliseconds is ignored; in
    any other status the time until which keys are ignored is as before. *)
Theorem win_blocks_keys n fuel now ctl w ctl' w' :
  GameController.doMoves n fuel now ctl w = Some (ctl', w') →
  GameInputController.moves (GameController.input ctl) ≠ [] →
  GameInputController.moves (GameController.input ctl') = [] ∧
  (GameState.status (GameController.state ctl') = GameStatus.Won →
   GameInputController.blockedUntil (GameController.input ctl') = now + 2500 ∧
   ∀ key t inp pd, t < now + 2500 →
     GameInputController.processKeyboard key t (GameController.input ctl') = Some (inp, pd) →
     GameInputController.moves inp = []) ∧
  (GameState.status (GameController.state ctl') ≠ GameStatus.Won →
   GameInputController.blockedUntil (GameController.input ctl')
   = GameInputController.blockedUntil (GameController.input ctl)).
Proof.
  intros H Hne. destruct (doMoves_block _ _ _ _ _ _ _ H) as (Hempty & _ & Hblock).
  specialize (Hblock Hne). split; [done|]. split.
  - intros Hwon. rewrite bool_decide_eq_true_2 in Hblock by done. split; [done|].
    intros key t inp pd Ht Hk.
    assert (Hlt : t < GameInputController.blockedUntil (GameController.input ctl')) by lia.
    by rewrite (processKeyboard_blocked _ _ _ _ _ Hlt Hk).
  - intros Hnw. by rewrite bool_decide_eq_false_2 in Hblock.
Qed.

Lemma win_blocks_keys_witness :
  GameInputController.moves (GameController.input exampleWon) = [] ∧
  (GameState.status (GameController.state exampleWon) = GameStatus.Won →
   GameInputController.blockedUntil (GameController.input exampleWon) = 0 + 2500 ∧
   ∀ key t inp pd, t < 0 + 2500 →
     GameInputController.processKeyboard key t (GameController.input exampleWon)
     = Some (inp, pd) →
     GameInputController.moves inp = []) ∧
  (GameState.status (GameController.state exampleWon) ≠ GameStatus.Won →
   GameInputController.blockedUntil (GameController.input exampleWon)
   = GameInputController.blockedUntil (GameController.input exampleKeyPressed)).
Proof.
  apply (win_blocks_keys 1 2 0 exampleKeyPressed ([], exampleWinDraws) exampleWon
           (exampleWonHeap, [])).
  - reflexivity.
  - discriminate.
Defined.

(** The two scores the controller shows.  After the constructor and after
    every key press, restart and tick, the score is the score of the board
    and the best score is at least the score.  A tick does not lower the
    score, and leaves as best score the larger of the best score so far
    and the new score.  A restart sets the score to 0 and keeps the best
    score. *)
Theorem score_board ctl h :
  running ctl h →
  GameController.score ctl = GameState.score (GameController.state ctl) ∧
  0 <= GameController.score ctl <= GameController.bestScore ctl ∧
  (∀ n fuel now e rs ctl' w' calls,
     GameController.tick n fuel now e ctl (h, rs) = Some (ctl', w', calls) →
     GameController.score ctl <= GameController.score ctl' ∧
     GameController.bestScore ctl'
     = Z.max (GameController.bestScore ctl) (GameController.score ctl')) ∧
  (∀ rs ctl' rs',
     GameController.restart ctl rs = Some (ctl', rs') →
     GameController.score ctl' = 0 ∧
     GameController.bestScore ctl' = GameController.bestScore ctl).
Proof.
  intros Hrun. destruct (running_scores _ _ Hrun) as [Hs Hb].
  split; [done|]. split; [done|]. split.
  - intros n fuel now e rs ctl' w' calls Ht.
    destruct (tick_scores _ _ _ _ _ _ _ _ _ _ (running_inv _ _ Hrun) Ht) as (_ & Hle & Hbest).
    split; [lia|done].
  - intros rs ctl' rs' Hre. destruct (restart_scores _ _ _ _ Hre) as [H0 Hbest].
    split; [done|]. lia.
Qed.

Lemma score_board_witness :
  GameController.score exampleKeyPressed
  = GameState.score (GameController.state exampleKeyPressed) ∧
  0 <= GameController.score exampleKeyPressed
    <= GameController.bestScore exampleKeyPressed ∧
  (∀ n fuel now e rs ctl' w' calls,
     GameController.tick n fuel now e exampleKeyPressed ([], rs) = Some (ctl', w', calls) →
     GameController.score exampleKeyPressed <= GameController.score ctl' ∧
     GameController.bestScore ctl'
     = Z.max (GameController.bestScore exampleKeyPressed) (GameController.score ctl')) ∧
  (∀ rs ctl' rs',
     GameController.restart exampleKeyPressed rs = Some (ctl', rs') →
     GameController.score ctl' = 0 ∧
     GameController.bestScore ctl' = GameController.bestScore exampleKeyPressed).
Proof. apply (score_board exampleKeyPressed []). apply exampleKeyPressed_running. Defined.

(** * Further properties of what is painted *)

(** Every tile that is drawn for a board of the game has a level between 1
    and [rows * columns + 1], so that [getTileColor] finds a colour for it;
    and on a board of at most 28 cells [getTileText] finds a multiplier: the
    text of a tile never ends in "undefined". *)
Theorem drawn_tiles_painted g b h p :
  reachable b h →
  GameGraphicsController.rows g = GameState.rows b →
  GameGraphicsController.columns g = GameState.columns b →
  ∃ calls, GameGraphicsController.draw g b h p = Some calls ∧
    ∀ c, c ∈ calls →
      ∃ l, GameGraphicsController.tileLevel c = Some l ∧ (1 ≤ l)%nat ∧
           Z.of_nat l <= GameState.boardSize b + 1 ∧
           is_Some (GameGraphicsController.getTileColor (GameGraphicsController.tileLevel c)) ∧
           (GameState.boardSize b <= 28 →
            ∃ m, GameGraphicsController.multipliers !! (l / 10)%nat = Some m ∧
                 GameGraphicsController.getTileText (GameGraphicsController.tileLevel c)
                 = pretty (2 ^ (Z.of_nat l mod 10)) +:+ m).
Proof.
  intros Hr Hgr Hgc.
  destruct (reachable_inv _ _ Hr) as ((Hrows & Hcols & Hsh & HW) & _ & _).
  destruct (drawTiles_Recorded g b h p Hsh) as (css & Hdraw & Hcss);
    [lia|done|done|done|by intros k x Hx; eapply reachable_Recorded|].
  exists (concat css). split; [done|].
  intros c (k & cs & Hcs & Hc)%elem_of_concat.
  destruct (Forall2_lookup_r _ _ _ _ _ Hcss Hcs) as (x & Hx & Hd).
  (* the level of the call is the level of the tile or an entry of its history *)
  assert (Hlv : ∃ l, GameGraphicsController.tileLevel c = Some l ∧ (1 ≤ l)%nat ∧
                     Z.of_nat l <= GameState.boardSize b + 1).
  { unfold drawnAs in Hd.
    assert (Ho : Tile.status x ≠ TileStatus.Empty → occupied x) by done.
    destruct (Tile.status x) eqn:Hs.
    - subst cs. by apply elem_of_nil in Hc.
    - subst cs. apply appearing_level in Hc. rewrite Hc.
      by destruct (reachable_drawn_levels _ _ _ _ Hr Hx (Ho ltac:(done))) as [? _].
    - destruct Hd as (i & Hh & ->). apply list_elem_of_singleton in Hc as ->. cbn.
      by destruct (reachable_drawn_levels _ _ _ _ Hr Hx (Ho ltac:(done))) as [? _].
    - destruct Hd as (i & Hh & ->). apply list_elem_of_singleton in Hc as ->. cbn.
      by destruct (reachable_drawn_levels _ _ _ _ Hr Hx (Ho ltac:(done))) as [? _].
    - destruct Hd as (i & j & l & Hh & Hl & ->).
      destruct (reachable_drawn_levels _ _ _ _ Hr Hx (Ho ltac:(done))) as [Hown Hhist].
      apply elem_of_app in Hc as [Hc|Hc].
      + assert (Hns : Tile.status x ≠ TileStatus.Spawned) by (by rewrite Hs).
        specialize (Hhist Hns _ _ Hh). apply Forall_cons in Hhist as [Hl1 _].
        apply elem_of_cons in Hc as [->|Hc]; [done|].
        by apply list_elem_of_singleton in Hc as ->.
      + apply appearing_level in Hc. by rewrite Hc. }
  destruct Hlv as (l & Hl & Hpos & Hle). exists l. rewrite Hl.
  split; [done|]. split; [done|]. split; [done|]. split.
  - by apply getTileColor_defined.
  - intros Hsize. destruct (multiplier_defined l) as [m Hm]; [lia|].
    exists m. split; [done|]. unfold GameGraphicsController.getTileText. cbv zeta.
    change (default 0%nat (Some l)) with l. by rewrite Hm.
Qed.

Lemma drawn_tiles_painted_witness :
  ∃ calls, GameGraphicsController.draw (GameGraphicsController.mk 4 4) exampleAfter
             exampleHeap (3 # 4) = Some calls ∧
    ∀ c, c ∈ calls →
      ∃ l, GameGraphicsController.tileLevel c = Some l ∧ (1 ≤ l)%nat ∧
           Z.of_nat l <= GameState.boardSize exampleAfter + 1 ∧
           is_Some (GameGraphicsController.getTileColor (GameGraphicsController.tileLevel c)) ∧
           (GameState.boardSize exampleAfter <= 28 →
            ∃ m, GameGraphicsController.multipliers !! (l / 10)%nat = Some m ∧
                 GameGraphicsController.getTileText (GameGraphicsController.tileLevel c)
                 = pretty (2 ^ (Z.of_nat l mod 10)) +:+ m).
Proof.
  apply (drawn_tiles_painted (GameGraphicsController.mk 4 4) exampleAfter exampleHeap (3 # 4)).
  - apply exampleAfter_reachable.
  - reflexivity.
  - reflexivity.
Defined.
